(** * SanFen chess helper: a shallow embedding of [chess-helper.js]

    The development follows the analysis core of the script: the static
    evaluator, the move orderer, the negamax/quiescence search with its
    transposition table, the iterative-deepening driver, and the adapter
    that talks to an external UCI engine through predicate waiters.

    The chess rules themselves come from the chess.js library, which is
    not part of the repository: it enters as the interface [ChessLib].
    JavaScript numbers enter as the interface [Num], instantiated once by
    exact rationals (for algebraic reasoning) and once by binary64 floats
    (to run the arithmetic exactly as the script does). *)

From Stdlib Require Import ZArith QArith Qminmax Lqa Lia Bool Ascii String Floats DecimalString
  Permutation.
From stdpp Require Import gmap strings list.

Local Open Scope string_scope.
Local Open Scope Z_scope.

(** ** JavaScript numbers *)

(** The arithmetic the script performs on numbers.  [lit n d] is the
    decimal literal whose value is [n/d]. *)
Class Num := {
  num : Type;
  lit : Z -> positive -> num;
  nadd : num -> num -> num;
  nsub : num -> num -> num;
  nmul : num -> num -> num;
  ndiv : num -> num -> num;
  nneg : num -> num;
  nltb : num -> num -> bool;
  nleb : num -> num -> bool
}.

Declare Scope num_scope.
Delimit Scope num_scope with num.
Notation "a + b" := (nadd a b) : num_scope.
Notation "a - b" := (nsub a b) : num_scope.
Notation "a * b" := (nmul a b) : num_scope.
Notation "a / b" := (ndiv a b) : num_scope.
Notation "- a" := (nneg a) : num_scope.
Notation "a <? b" := (nltb a b) : num_scope.
Notation "a <=? b" := (nleb a b) : num_scope.

(** Exact rational arithmetic. *)
Definition QNum : Num := {|
  num := Q;
  lit n d := (n # d)%Q;
  nadd := Qplus;
  nsub := Qminus;
  nmul := Qmult;
  ndiv := Qdiv;
  nneg := Qopp;
  nltb a b := negb (Qle_bool b a);
  nleb := Qle_bool
|}.

(** An integer as a binary64 float (exact below 2^53). *)
Definition floatOfZ (z : Z) : float :=
  if z <? 0 then PrimFloat.opp (PrimFloat.of_uint63 (Uint63.of_Z (- z)))
  else PrimFloat.of_uint63 (Uint63.of_Z z).

(** IEEE 754 binary64, round to nearest even: what a JavaScript engine
    computes.  A decimal literal is the correctly rounded quotient. *)
Definition F64 : Num := {|
  num := float;
  lit n d := PrimFloat.div (floatOfZ n) (floatOfZ (Z.pos d));
  nadd := PrimFloat.add;
  nsub := PrimFloat.sub;
  nmul := PrimFloat.mul;
  ndiv := PrimFloat.div;
  nneg := PrimFloat.opp;
  nltb := PrimFloat.ltb;
  nleb := PrimFloat.leb
|}.

Section Numbers.
Context {N : Num}.

Definition ofZ (z : Z) : num := lit z 1.
Definition nzero : num := lit 0 1.

(** [Math.min] and [Math.max] on numbers that are not NaN. *)
Definition nmin (a b : num) : num := if (b <? a)%num then b else a.
Definition nmax (a b : num) : num := if (a <? b)%num then b else a.

(** A number of thousandths, as the tables below write their entries. *)
Definition milli (z : Z) : num :=
  if z <? 0 then (- lit (- z) 1000)%num else lit z 1000.

(** A number or one of the two infinities ([-Infinity], [Infinity]), as
    the search uses them for its bounds. *)
Inductive Ext := NInf | Fin (x : num) | PInf.

Definition eneg (a : Ext) : Ext :=
  match a with NInf => PInf | Fin x => Fin (- x)%num | PInf => NInf end.

(** [a < b] *)
Definition eltb (a b : Ext) : bool :=
  match a, b with
  | _, NInf => false
  | NInf, _ => true
  | PInf, _ => false
  | Fin _, PInf => true
  | Fin x, Fin y => (x <? y)%num
  end.

(** [a <= b] *)
Definition eleb (a b : Ext) : bool :=
  match a, b with
  | NInf, _ => true
  | _, PInf => true
  | _, NInf => false
  | PInf, _ => false
  | Fin x, Fin y => (x <=? y)%num
  end.

(** [a + x] for a finite [x]. *)
Definition eaddn (a : Ext) (x : num) : Ext :=
  match a with NInf => NInf | Fin y => Fin (y + x)%num | PInf => PInf end.

End Numbers.

(** ** Chess data, as chess.js hands it to the script *)

(** ['w'] and ['b']. *)
Inductive Color := White | Black.

(** ['p'], ['n'], ['b'], ['r'], ['q'], ['k']. *)
Inductive PieceType := Pawn | Knight | Bishop | Rook | Queen | King.

Record Piece := { ptype : PieceType; pcolor : Color }.

(** [game.board()]: rows from rank 8 down to rank 1, files a to h. *)
Definition Board := list (list (option Piece)).

(** A verbose move object. *)
Record Move := {
  m_color : Color;
  m_from : string;
  m_to : string;
  m_flags : string;
  m_piece : PieceType;
  m_captured : option PieceType;
  m_promotion : option PieceType;
  m_san : string
}.

(** The argument of [chess.move({ from, to, promotion })]. *)
Record MoveArg := {
  a_from : string;
  a_to : string;
  a_promotion : option string
}.

Definition Color_eqb (a b : Color) : bool :=
  match a, b with White, White | Black, Black => true | _, _ => false end.

Definition PieceType_eqb (a b : PieceType) : bool :=
  match a, b with
  | Pawn, Pawn | Knight, Knight | Bishop, Bishop
  | Rook, Rook | Queen, Queen | King, King => true
  | _, _ => false
  end.

Definition opposite (c : Color) : Color :=
  match c with White => Black | Black => White end.

Definition colorChar (c : Color) : string :=
  match c with White => "w" | Black => "b" end.

Definition pieceChar (t : PieceType) : string :=
  match t with
  | Pawn => "p" | Knight => "n" | Bishop => "b"
  | Rook => "r" | Queen => "q" | King => "k"
  end.

(** A pair of values indexed by color, as in [{ w: ..., b: ... }]. *)
Record ByColor (A : Type) := { wside : A; bside : A }.
Arguments wside {A} _.
Arguments bside {A} _.

Definition side {A} (c : Color) (p : ByColor A) : A :=
  match c with White => wside p | Black => bside p end.

Definition onSide {A} (c : Color) (f : A -> A) (p : ByColor A) : ByColor A :=
  match c with
  | White => {| wside := f (wside p); bside := bside p |}
  | Black => {| wside := wside p; bside := f (bside p) |}
  end.

Definition bothSides {A} (a : A) : ByColor A := {| wside := a; bside := a |}.

(** The outcome of a call that may throw. *)
Inductive Res (A : Type) := Ret (a : A) | Throw (e : string).
Arguments Ret {A} a.
Arguments Throw {A} e.

(** ** The chess.js library

    The script loads chess.js 0.10.2 from a CDN; it is not code of the
    repository.  [game] is the state of a [Chess] instance.  Getters are
    total; the queries that compute on the position, the mutators and the
    constructors may throw. *)
Class ChessLib := {
  game : Type;
  newChess : Res game;
  loadChess : string -> Res game;
  turn : game -> Color;
  fen : game -> string;
  board : game -> option Board;
  history : game -> list Move;
  moves : game -> Res (list Move);
  in_check : game -> Res bool;
  in_checkmate : game -> Res bool;
  in_stalemate : game -> Res bool;
  game_over : game -> Res bool;
  move : game -> MoveArg -> Res (option (Move * game));
  undo : game -> Res game
}.

(** [game.move(move)] with a verbose move object: the library reads its
    [from], [to] and [promotion] fields. *)
Definition moveArgOf (m : Move) : MoveArg :=
  {| a_from := m_from m; a_to := m_to m;
     a_promotion := option_map pieceChar (m_promotion m) |}.

(** ** Strings *)

(** [s.includes(c)] for a one-character [c]. *)
Fixpoint includesChar (c : ascii) (s : string) : bool :=
  match s with
  | EmptyString => false
  | String a r => if Ascii.eqb a c then true else includesChar c r
  end.

(** [s.split(' ')] *)
Fixpoint splitOn (c : ascii) (s : string) : list string :=
  match s with
  | EmptyString => [EmptyString]
  | String a r =>
      if Ascii.eqb a c then EmptyString :: splitOn c r
      else match splitOn c r with
           | [] => [String a EmptyString]
           | w :: ws => String a w :: ws
           end
  end.

(** [parts.join(' ')] *)
Fixpoint joinWith (sep : string) (parts : list string) : string :=
  match parts with
  | [] => EmptyString
  | [p] => p
  | p :: ps => p ++ sep ++ joinWith sep ps
  end.

(** [s.slice(n)] *)
Fixpoint sliceFrom (n : nat) (s : string) : string :=
  match n, s with
  | O, _ => s
  | S _, EmptyString => EmptyString
  | S k, String _ r => sliceFrom k r
  end.

(** The decimal text of an integer. *)
Definition showZ (z : Z) : string := NilZero.string_of_int (Z.to_int z).

(** [String.fromCharCode(97 + col) + (8 - row)] *)
Definition squareName (row col : nat) : string :=
  String (ascii_of_nat (97 + col)) (showZ (8 - Z.of_nat row)).

(** [set.has(x)] for a set of strings written as a list. *)
Definition has (l : list string) (x : string) : bool :=
  existsb (String.eqb x) l.

(** [list[i]] for a numeric index; [None] is JavaScript's [undefined]. *)
Definition at_ {A} (l : list A) (i : Z) : option A :=
  if i <? 0 then None else l !! Z.to_nat i.

(** [board[r]?.[c]]; an empty square is [null]. *)
Definition boardAt (b : Board) (r c : Z) : option Piece :=
  match at_ b r with
  | Some rank => match at_ rank c with Some cell => cell | None => None end
  | None => None
  end.

(** A [for] loop over an array with its index. *)
Fixpoint foldIndexed {A S} (f : S -> Z -> A -> S) (i : Z) (l : list A) (s : S) : S :=
  match l with
  | [] => s
  | x :: r => foldIndexed f (i + 1) r (f s i x)
  end.

Section Library.
Context {L : ChessLib}.

(** [createChessInstance(fen)]: a non-empty string is loaded, anything
    else gives the initial position.  A missing library makes both
    constructors throw. *)
Definition createChessInstance (fenArg : option string) : Res game :=
  match fenArg with
  | Some (String _ _ as f) => loadChess f
  | _ => newChess
  end.

End Library.

(** ** The evaluator *)

Definition coreCenterSquares : list string := ["d4"; "d5"; "e4"; "e5"].
Definition extendedCenterSquares : list string :=
  ["c3"; "c4"; "c5"; "c6"; "d3"; "e3"; "f3"; "f4"; "f5"; "f6"; "d6"; "e6"].
Definition minorPieceStartSquares : list string :=
  ["b1"; "g1"; "c1"; "f1"; "b8"; "g8"; "c8"; "f8"].
Definition flankFiles : list string := ["a"; "h"].

(** The piece-square tables, in thousandths. *)
Definition pawnTable : list Z :=
  [ 0; 0; 0; 0; 0; 0; 0; 0;
    50; 50; 50; 50; 50; 50; 50; 50;
    10; 10; 20; 30; 30; 20; 10; 10;
    5; 5; 10; 25; 25; 10; 5; 5;
    0; 0; 0; 20; 20; 0; 0; 0;
    5; -5; -10; 0; 0; -10; -5; 5;
    50; 100; 100; -200; -200; 100; 100; 50;
    0; 0; 0; 0; 0; 0; 0; 0 ].

Definition knightTable : list Z :=
  [ -500; -400; -300; -300; -300; -300; -400; -500;
    -400; -200; 0; 50; 50; 0; -200; -400;
    -300; 50; 100; 150; 150; 100; 50; -300;
    -300; 0; 150; 200; 200; 150; 0; -300;
    -300; 50; 150; 200; 200; 150; 50; -300;
    -300; 0; 100; 150; 150; 100; 0; -300;
    -400; -200; 0; 0; 0; 0; -200; -400;
    -500; -400; -300; -300; -300; -300; -400; -500 ].

Definition bishopTable : list Z :=
  [ -200; -100; -100; -100; -100; -100; -100; -200;
    -100; 0; 0; 0; 0; 0; 0; -100;
    -100; 0; 50; 100; 100; 50; 0; -100;
    -100; 50; 50; 100; 100; 50; 50; -100;
    -100; 0; 100; 100; 100; 100; 0; -100;
    -100; 100; 100; 100; 100; 100; 100; -100;
    -100; 50; 0; 0; 0; 0; 50; -100;
    -200; -100; -100; -100; -100; -100; -100; -200 ].

Definition rookTable : list Z :=
  [ 0; 0; 0; 0; 0; 0; 0; 0;
    50; 100; 100; 100; 100; 100; 100; 50;
    -50; 0; 0; 0; 0; 0; 0; -50;
    -50; 0; 0; 0; 0; 0; 0; -50;
    -50; 0; 0; 0; 0; 0; 0; -50;
    -50; 0; 0; 0; 0; 0; 0; -50;
    -50; 0; 0; 0; 0; 0; 0; -50;
    0; 0; 50; 100; 100; 50; 0; 0 ].

Definition queenTable : list Z :=
  [ -200; -100; -100; -50; -50; -100; -100; -200;
    -100; 0; 0; 0; 0; 0; 0; -100;
    -100; 0; 50; 50; 50; 50; 0; -100;
    -50; 0; 50; 50; 50; 50; 0; -50;
    0; 0; 50; 50; 50; 50; 0; -50;
    -100; 50; 50; 50; 50; 50; 0; -100;
    -100; 0; 50; 0; 0; 0; 0; -100;
    -200; -100; -100; -50; -50; -100; -100; -200 ].

Definition kingMidgameTable : list Z :=
  [ -300; -400; -400; -500; -500; -400; -400; -300;
    -300; -400; -400; -500; -500; -400; -400; -300;
    -300; -400; -400; -500; -500; -400; -400; -300;
    -200; -300; -300; -400; -400; -300; -300; -200;
    -100; -200; -200; -200; -200; -200; -200; -100;
    0; 100; 100; 0; 0; 100; 100; 0;
    100; 200; 200; 100; 100; 200; 200; 100;
    200; 300; 200; 0; 0; 200; 300; 200 ].

Definition kingEndgameTable : list Z :=
  [ -50; -20; 0; 0; 0; 0; -20; -50;
    -20; 50; 100; 100; 100; 100; 50; -20;
    0; 100; 150; 200; 200; 150; 100; 0;
    0; 100; 200; 250; 250; 200; 100; 0;
    0; 100; 200; 250; 250; 200; 100; 0;
    0; 100; 150; 200; 200; 150; 100; 0;
    -20; 0; 50; 100; 100; 50; 0; -20;
    -50; -20; 0; 0; 0; 0; -20; -50 ].

(** [pieceSquareTables[type]]; the king has no entry there. *)
Definition pieceSquareTables (t : PieceType) : option (list Z) :=
  match t with
  | Pawn => Some pawnTable
  | Knight => Some knightTable
  | Bishop => Some bishopTable
  | Rook => Some rookTable
  | Queen => Some queenTable
  | King => None
  end.

(** [phaseWeights[type]] *)
Definition phaseWeights (t : PieceType) : Z :=
  match t with
  | Pawn => 0 | Knight => 1 | Bishop => 1 | Rook => 2 | Queen => 4 | King => 0
  end.

(** The history-derived summary [createEvaluationContext] returns. *)
Record EvalContext := {
  moveCount : Z;
  ctxHistory : list Move;
  repeatedFlankMoves : ByColor Z;
  castled : ByColor bool;
  kingMoved : ByColor bool
}.

Record PieceInfo := { pi_piece : Piece; pi_row : Z; pi_col : Z }.
Record PawnInfo := { pw_file : Z; pw_rank : Z; pw_square : string }.
Record RookInfo := { rk_file : Z; rk_row : Z; rk_square : string }.
Record KingInfo := { kg_row : Z; kg_col : Z; kg_square : string }.
Record Tally := { bishops : Z; knights : Z; rooksT : Z; queen : Z }.

(** What the first loop of [evaluatePosition] accumulates. *)
Record Scan {N : Num} := {
  phaseScore : Z;
  total : num;
  pieces : list PieceInfo;
  minorsOnHome : ByColor Z;
  fileCounts : ByColor (list Z);
  pawns : ByColor (list PawnInfo);
  rooks : ByColor (list RookInfo);
  pieceTally : ByColor Tally;
  whiteKing : option KingInfo;
  blackKing : option KingInfo;
  whiteKingSquare : option string;
  blackKingSquare : option string
}.

Section Evaluator.
Context {N : Num}.
Local Open Scope num_scope.

(** [pieceValues[type]] *)
Definition pieceValues (t : PieceType) : num :=
  match t with
  | Pawn => lit 1 1
  | Knight => lit 32 10
  | Bishop => lit 33 10
  | Rook => lit 51 10
  | Queen => lit 95 10
  | King => lit 0 1
  end.

Definition KING_VALUE : num := lit 100 1.

(** [table[i] || 0] *)
Definition tableAt (table : list Z) (i : Z) : num :=
  match at_ table i with
  | Some z => milli z
  | None => nzero
  end.

Definition isWhite (c : Color) : bool := Color_eqb c White.

(** [color === 'w' ? x : -x] *)
Definition signed (c : Color) (x : num) : num := if isWhite c then x else - x.

Definition pieceSquareValue (piece : Piece) (rowIndex colIndex : Z) (kingPhaseWeight : num) : num :=
  match pieceSquareTables (ptype piece) with
  | None =>
      let index := (rowIndex * 8 + colIndex)%Z in
      let mirrored := ((7 - rowIndex) * 8 + colIndex)%Z in
      let mid := tableAt kingMidgameTable (if isWhite (pcolor piece) then index else mirrored) in
      let end_ := tableAt kingEndgameTable (if isWhite (pcolor piece) then index else mirrored) in
      mid * kingPhaseWeight + end_ * (lit 1 1 - kingPhaseWeight)
  | Some table =>
      let directIndex := (rowIndex * 8 + colIndex)%Z in
      if isWhite (pcolor piece) then tableAt table directIndex
      else
        let mirroredIndex := ((7 - rowIndex) * 8 + colIndex)%Z in
        tableAt table mirroredIndex
  end.

Definition scanStart : Scan := {|
  phaseScore := 0;
  total := nzero;
  pieces := [];
  minorsOnHome := bothSides 0%Z;
  fileCounts := bothSides (replicate 8 0%Z);
  pawns := bothSides [];
  rooks := bothSides [];
  pieceTally := bothSides {| bishops := 0; knights := 0; rooksT := 0; queen := 0 |};
  whiteKing := None;
  blackKing := None;
  whiteKingSquare := None;
  blackKingSquare := None
|}.

(** [counts[file] += 1]; the boards chess.js returns have eight files,
    so the index is in range. *)
Definition bump (file : Z) (counts : list Z) : list Z :=
  match at_ counts file with
  | Some n => <[Z.to_nat file := (n + 1)%Z]> counts
  | None => counts
  end.

(** The body of the loop over the squares of the board. *)
Definition scanSquare (st : Scan) (row col : Z) (cell : option Piece) : Scan :=
  match cell with
  | None => st
  | Some piece =>
      let t := ptype piece in
      let c := pcolor piece in
      let square := squareName (Z.to_nat row) (Z.to_nat col) in
      let isKingOf k := PieceType_eqb t King && Color_eqb c k in
      {| phaseScore := (phaseScore st + phaseWeights t)%Z;
         pieces := (pieces st ++ [{| pi_piece := piece; pi_row := row; pi_col := col |}])%list;
         minorsOnHome :=
           if (PieceType_eqb t Knight || PieceType_eqb t Bishop)
              && has minorPieceStartSquares square
           then onSide c (fun n => (n + 1)%Z) (minorsOnHome st)
           else minorsOnHome st;
         total :=
           if has coreCenterSquares square
           then total st + (if isWhite c then lit 8 100 else - lit 8 100)
           else if has extendedCenterSquares square
           then total st + (if isWhite c then lit 5 100 else - lit 5 100)
           else total st;
         fileCounts :=
           match t with
           | Pawn => onSide c (bump col) (fileCounts st)
           | _ => fileCounts st
           end;
         pawns :=
           match t with
           | Pawn =>
               onSide c (fun l => (l ++ [{| pw_file := col; pw_rank := (8 - row)%Z;
                                            pw_square := square |}])%list) (pawns st)
           | _ => pawns st
           end;
         rooks :=
           match t with
           | Rook =>
               onSide c (fun l => (l ++ [{| rk_file := col; rk_row := row;
                                            rk_square := square |}])%list) (rooks st)
           | _ => rooks st
           end;
         pieceTally :=
           match t with
           | Rook => onSide c (fun y => {| bishops := bishops y; knights := knights y;
                                          rooksT := (rooksT y + 1)%Z; queen := queen y |})
                       (pieceTally st)
           | Bishop => onSide c (fun y => {| bishops := (bishops y + 1)%Z; knights := knights y;
                                            rooksT := rooksT y; queen := queen y |})
                         (pieceTally st)
           | Knight => onSide c (fun y => {| bishops := bishops y; knights := (knights y + 1)%Z;
                                            rooksT := rooksT y; queen := queen y |})
                         (pieceTally st)
           | Queen => onSide c (fun y => {| bishops := bishops y; knights := knights y;
                                           rooksT := rooksT y; queen := (queen y + 1)%Z |})
                        (pieceTally st)
           | _ => pieceTally st
           end;
         whiteKing :=
           if isKingOf White
           then Some {| kg_row := row; kg_col := col; kg_square := square |}
           else whiteKing st;
         blackKing :=
           if isKingOf Black
           then Some {| kg_row := row; kg_col := col; kg_square := square |}
           else blackKing st;
         whiteKingSquare := if isKingOf White then Some square else whiteKingSquare st;
         blackKingSquare := if isKingOf Black then Some square else blackKingSquare st
      |}
  end.

(** The first loop: every square, row by row. *)
Definition scanBoard (b : Board) : Scan :=
  foldIndexed (fun st row rank => foldIndexed (fun st' col cell => scanSquare st' row col cell) 0 rank st)
    0 b scanStart.

(** The second loop: material and placement of every piece. *)
Definition addMaterial (kingPhaseWeight : num) (tot : num) (info : PieceInfo) : num :=
  let base := pieceValues (ptype (pi_piece info)) in
  let placement :=
    pieceSquareValue (pi_piece info) (pi_row info) (pi_col info) kingPhaseWeight in
  let contribution := base + placement in
  tot + signed (pcolor (pi_piece info)) contribution.

(** [n === 0] and [n > k] for an array entry that may be [undefined]. *)
Definition isZero (n : option Z) : bool :=
  match n with Some z => (z =? 0)%Z | None => false end.
Definition above (k : Z) (n : option Z) : bool :=
  match n with Some z => (k <? z)%Z | None => false end.

(** The rook loop: open and half-open files. *)
Definition rookBonus (fc : ByColor (list Z)) (color : Color) (rook : RookInfo) : num :=
  let friendlyPawns := at_ (side color fc) (rk_file rook) in
  let enemyPawns := at_ (side (opposite color) fc) (rk_file rook) in
  let bonus := nzero in
  let bonus :=
    if isZero enemyPawns
    then bonus + (if isZero friendlyPawns then lit 18 100 * lit 16 10 else lit 18 100)
    else bonus in
  let bonus :=
    if has extendedCenterSquares (rk_square rook) then bonus + lit 5 100 else bonus in
  bonus.

Definition rookTerms (st : Scan) (tot : num) : num :=
  fold_left
    (fun tot color =>
       fold_left (fun tot rook => tot + signed color (rookBonus (fileCounts st) color rook))
         (side color (rooks st)) tot)
    [White; Black] tot.

(** [(color === 'w' ? -1 : 1)] *)
Definition penaltySign (color : Color) : num :=
  if isWhite color then ofZ (-1) else ofZ 1.

(** Doubled and isolated pawns on one file. *)
Definition fileTerm (fc : ByColor (list Z)) (color : Color) (tot : num) (file : Z) : num :=
  let count := at_ (side color fc) file in
  let tot :=
    match count with
    | Some n =>
        if (1 <? n)%Z then tot + penaltySign color * lit 12 100 * ofZ (n - 1) else tot
    | None => tot
    end in
  if above 0 count then
    let hasLeft := if (0 <? file)%Z then above 0 (at_ (side color fc) (file - 1)) else false in
    let hasRight := if (file <? 7)%Z then above 0 (at_ (side color fc) (file + 1)) else false in
    if negb hasLeft && negb hasRight then tot + penaltySign color * lit 10 100 else tot
  else tot.

(** Whether [enemyPawn] stands in the way of [pawn]. *)
Definition blocks (color : Color) (pawn enemyPawn : PawnInfo) : bool :=
  (Z.abs (pw_file enemyPawn - pw_file pawn) <=? 1)%Z
  && match color with
     | White => (pw_rank pawn <=? pw_rank enemyPawn)%Z
     | Black => (pw_rank enemyPawn <=? pw_rank pawn)%Z
     end.

(** The passed-pawn bonus of one pawn. *)
Definition passedTerm (pw : ByColor (list PawnInfo)) (color : Color) (tot : num) (pawn : PawnInfo) : num :=
  let blocked := existsb (blocks color pawn) (side (opposite color) pw) in
  if blocked then tot
  else
    let advancement :=
      match color with White => (pw_rank pawn - 2)%Z | Black => (7 - pw_rank pawn)%Z end in
    let bonus := lit 2 10 + ofZ (Z.max 0 advancement) * lit 25 1000 in
    tot + signed color bonus.

Definition pawnTerms (st : Scan) (tot : num) : num :=
  fold_left
    (fun tot color =>
       let tot := fold_left (fileTerm (fileCounts st) color) [0; 1; 2; 3; 4; 5; 6; 7]%Z tot in
       fold_left (passedTerm (pawns st) color) (side color (pawns st)) tot)
    [White; Black] tot.

Definition isPawnOf (color : Color) (cell : option Piece) : bool :=
  match cell with
  | Some p => PieceType_eqb (ptype p) Pawn && Color_eqb (pcolor p) color
  | None => false
  end.

Definition kingShieldContribution (b : Board) (color : Color) (kingInfo : option KingInfo) : num :=
  match kingInfo with
  | None => nzero
  | Some k =>
      let dir := if isWhite color then (-1)%Z else 1%Z in
      let row := kg_row k in
      let shieldRow := (row + dir)%Z in
      if (shieldRow <? 0)%Z || (7 <? shieldRow)%Z then nzero
      else
        let shield :=
          fold_left
            (fun shield offset =>
               let col := (kg_col k + offset)%Z in
               if (col <? 0)%Z || (7 <? col)%Z then shield
               else if isPawnOf color (boardAt b shieldRow col) then (shield + 1)%Z
               else shield)
            [-1; 0; 1]%Z 0%Z in
        ofZ shield * lit 7 100
  end.

Definition openKingPenalty (b : Board) (color : Color) (kingInfo : option KingInfo) : num :=
  match kingInfo with
  | None => nzero
  | Some k =>
      let adjacentSquares := [(0, -1); (0, 1); (1, 0); (-1, 0)]%Z in
      let exposed :=
        fold_left
          (fun exposed '(dr, dc) =>
             let r := (kg_row k + dr)%Z in
             let c := (kg_col k + dc)%Z in
             if (r <? 0)%Z || (7 <? r)%Z || (c <? 0)%Z || (7 <? c)%Z then exposed
             else match boardAt b r c with
                  | None => (exposed + 1)%Z
                  | Some _ => exposed
                  end)
          adjacentSquares 0%Z in
      ofZ exposed * lit 5 100
  end.

Definition opt_in (l : list string) (o : option string) : bool :=
  match o with Some s => has l s | None => false end.

(** Everything [evaluatePosition] computes once it holds the board, the
    context, the two mobility counts and the side to move; the additions
    to [total] happen in the order of the script. *)
Definition evaluateBoard (b : Board) (evalContext : EvalContext)
    (whiteMobility blackMobility : Z) (toMove : Color) : num :=
  let st := scanBoard b in
  let kingPhaseWeight := nmin (lit 1 1) (ofZ (phaseScore st) / ofZ 24) in
  let tot := fold_left (addMaterial kingPhaseWeight) (pieces st) (total st) in
  let tot := if (2 <=? bishops (wside (pieceTally st)))%Z then tot + lit 35 100 else tot in
  let tot := if (2 <=? bishops (bside (pieceTally st)))%Z then tot - lit 35 100 else tot in
  let tot := rookTerms st tot in
  let tot := pawnTerms st tot in
  let tot := tot + kingShieldContribution b White (whiteKing st) in
  let tot := tot - kingShieldContribution b Black (blackKing st) in
  let tot := tot - openKingPenalty b White (whiteKing st) in
  let tot := tot + openKingPenalty b Black (blackKing st) in
  let moveCount := moveCount evalContext in
  let openingPhase := (moveCount <? 20)%Z in
  let earlyPhase := (moveCount <? 30)%Z in
  let tot :=
    if openingPhase then
      let minorPenaltyBase := lit 11 100 + ofZ (Z.max 0 (18 - moveCount)) * lit 4 1000 in
      let tot := tot - ofZ (wside (minorsOnHome st)) * minorPenaltyBase in
      tot + ofZ (bside (minorsOnHome st)) * minorPenaltyBase
    else tot in
  let tot := tot - ofZ (wside (repeatedFlankMoves evalContext)) * lit 24 100 in
  let tot := tot + ofZ (bside (repeatedFlankMoves evalContext)) * lit 24 100 in
  let tot :=
    if negb (wside (castled evalContext)) && earlyPhase
       && opt_in ["e1"; "d1"] (whiteKingSquare st)
    then tot - (lit 2 10 + ofZ (Z.max 0 (moveCount - 12)) * lit 16 1000)
    else tot in
  let tot :=
    if negb (bside (castled evalContext)) && earlyPhase
       && opt_in ["e8"; "d8"] (blackKingSquare st)
    then tot + (lit 2 10 + ofZ (Z.max 0 (moveCount - 12)) * lit 16 1000)
    else tot in
  let tot := if wside (castled evalContext) then tot + lit 5 100 else tot in
  let tot := if bside (castled evalContext) then tot - lit 5 100 else tot in
  let tot := tot + ofZ (whiteMobility - blackMobility) * lit 16 1000 in
  tot + (if isWhite toMove then lit 15 1000 else - lit 15 1000).

(** [move.from[0]]: the file letter of a square name. *)
Definition firstChar (s : string) : string := substring 0 1 s.

Record ContextAcc := {
  flankCounts : ByColor (gmap string Z);
  accRepeated : ByColor Z;
  accCastled : ByColor bool;
  accKingMoved : ByColor bool
}.

(** The body of [history.forEach] in [createEvaluationContext]. *)
Definition contextStep (acc : ContextAcc) (index : Z) (mv : Move) : ContextAcc :=
  let isKing := PieceType_eqb (m_piece mv) King in
  let castles := isKing && (String.eqb (m_san mv) "O-O" || String.eqb (m_san mv) "O-O-O") in
  let flank :=
    (index <? 20)%Z && PieceType_eqb (m_piece mv) Pawn && has flankFiles (firstChar (m_from mv)) in
  let file := firstChar (m_from mv) in
  let map := side (m_color mv) (flankCounts acc) in
  let count := (default 0%Z (map !! file) + 1)%Z in
  {| accKingMoved :=
       if isKing then onSide (m_color mv) (fun _ => true) (accKingMoved acc)
       else accKingMoved acc;
     accCastled :=
       if castles then onSide (m_color mv) (fun _ => true) (accCastled acc)
       else accCastled acc;
     flankCounts :=
       if flank then onSide (m_color mv) (fun m => <[file := count]> m) (flankCounts acc)
       else flankCounts acc;
     accRepeated :=
       if flank && (1 <? count)%Z
       then onSide (m_color mv) (fun n => (n + 1)%Z) (accRepeated acc)
       else accRepeated acc |}.

Context {L : ChessLib}.

Definition createEvaluationContext (g : game) : EvalContext :=
  let hist := history g in
  let acc :=
    foldIndexed contextStep 0 hist
      {| flankCounts := bothSides ∅; accRepeated := bothSides 0%Z;
         accCastled := bothSides false; accKingMoved := bothSides false |} in
  {| moveCount := Z.of_nat (length hist);
     ctxHistory := hist;
     repeatedFlankMoves := accRepeated acc;
     castled := accCastled acc;
     kingMoved := accKingMoved acc |}.

(** The number of legal moves of the position a FEN text describes, or 0
    when building the scratch instance or listing its moves throws. *)
Definition mobilityOf (fenText : string) : Z :=
  match createChessInstance (Some fenText) with
  | Ret scratch =>
      match moves scratch with
      | Ret ms => Z.of_nat (length ms)
      | Throw _ => 0%Z
      end
  | Throw _ => 0%Z
  end.

(** The mobility of [color] in the position: the FEN with its second
    field set to [color], loaded into a scratch instance. *)
Definition sideMobility (g : game) (color : Color) : Z :=
  let segments := splitOn " " (fen g) in
  if (2 <=? length segments)%nat
  then mobilityOf (joinWith " " (<[1%nat := colorChar color]> segments))
  else 0%Z.

(** [evaluatePosition(game, context)]: positive favours White. *)
Definition evaluatePosition (g : game) (context : option EvalContext) : num :=
  match board g with
  | None => nzero
  | Some b =>
      let evalContext :=
        match context with Some c => c | None => createEvaluationContext g end in
      let whiteMobility := sideMobility g White in
      let blackMobility := sideMobility g Black in
      evaluateBoard b evalContext whiteMobility blackMobility (turn g)
  end.

Definition evaluateForPerspective (position : game) (perspective : Color)
    (context : option EvalContext) : num :=
  let value := evaluatePosition position context in
  if isWhite perspective then value else - value.

End Evaluator.

(** ** Search data *)

(** [{ nodes, timeouts }]; [timeouts] may be absent. *)
Record Stats := { nodes : Z; timeouts : option Z }.

Inductive Flag := Exact | Lower | Upper.

(** [{ from, to, promotion }] of the best child move. *)
Record BestChild := {
  bc_from : string;
  bc_to : string;
  bc_promotion : option PieceType
}.

(** An entry of the transposition table. *)
Record TTEntry {N : Num} := {
  e_depth : Z;
  e_value : Ext;
  e_flag : Flag;
  e_best : option BestChild
}.

(** [createSearchMeta()]: killer moves by ply, history scores by move
    key, ordering scores by ply and move key. *)
Record SearchMeta {N : Num} := {
  killerMoves : gmap Z (list string);
  historyScores : gmap string num;
  orderingScores : gmap Z (gmap string num)
}.

(** What the caller of a search supplies besides the position: the
    deadline, the clock ([nowFn], read by the number of earlier readings)
    and the stop predicate ([shouldStop], likewise). *)
Record Env {N : Num} := {
  deadline : option num;
  nowFn : option (nat -> num);
  shouldStop : option (nat -> bool)
}.

(** The objects a search mutates: the chess.js instance, the
    transposition table, the statistics and the search tables, together
    with how often the clock and the stop predicate were consulted. *)
Record World {N : Num} {L : ChessLib} := {
  w_game : game;
  w_table : gmap string TTEntry;
  w_stats : Stats;
  w_meta : option SearchMeta;
  w_ticks : nat;
  w_polls : nat
}.

(** How a computation ends: with a value, with a thrown error, or cut
    short because the recursion budget of the model ran out. *)
Inductive Out (A : Type) := Val (a : A) | Err (e : string) | OutOfFuel.
Arguments Val {A} a.
Arguments Err {A} e.
Arguments OutOfFuel {A}.

Section Monad.
Context {N : Num} {L : ChessLib}.

Definition M (A : Type) : Type := World -> Out A * World.

Definition ret {A} (a : A) : M A := fun w => (Val a, w).

Definition bind {A B} (c : M A) (k : A -> M B) : M B :=
  fun w =>
    match c w with
    | (Val a, w') => k a w'
    | (Err e, w') => (Err e, w')
    | (OutOfFuel, w') => (OutOfFuel, w')
    end.

Definition throw {A} (e : string) : M A := fun w => (Err e, w).
Definition outOfFuel {A} : M A := fun w => (OutOfFuel, w).

(** [try { body } finally { fin }] *)
Definition tryFinally {A} (body : M A) (fin : M unit) : M A :=
  fun w =>
    let (r, w1) := body w in
    match fin w1 with
    | (Val _, w2) => (r, w2)
    | (Err e, w2) => (Err e, w2)
    | (OutOfFuel, w2) => (OutOfFuel, w2)
    end.

Definition getWorld : M World := fun w => (Val w, w).
Definition putWorld (w' : World) : M unit := fun _ => (Val tt, w').

(** A call of a library method on the live instance. *)
Definition query {A} (f : game -> Res A) : M A :=
  fun w =>
    match f (w_game w) with
    | Ret a => (Val a, w)
    | Throw e => (Err e, w)
    end.

Definition getter {A} (f : game -> A) : M A := fun w => (Val (f (w_game w)), w).

Definition setGame (g : game) : M unit :=
  fun w => (Val tt, {| w_game := g; w_table := w_table w; w_stats := w_stats w;
                       w_meta := w_meta w; w_ticks := w_ticks w; w_polls := w_polls w |}).

Definition setTable (t : gmap string TTEntry) : M unit :=
  fun w => (Val tt, {| w_game := w_game w; w_table := t; w_stats := w_stats w;
                       w_meta := w_meta w; w_ticks := w_ticks w; w_polls := w_polls w |}).

Definition setStats (s : Stats) : M unit :=
  fun w => (Val tt, {| w_game := w_game w; w_table := w_table w; w_stats := s;
                       w_meta := w_meta w; w_ticks := w_ticks w; w_polls := w_polls w |}).

Definition setMeta (m : option SearchMeta) : M unit :=
  fun w => (Val tt, {| w_game := w_game w; w_table := w_table w; w_stats := w_stats w;
                       w_meta := m; w_ticks := w_ticks w; w_polls := w_polls w |}).

(** [game.move(m)]: [None] is the [null] an illegal move yields, and the
    position is then unchanged. *)
Definition gameMove (a : MoveArg) : M (option Move) :=
  fun w =>
    match move (w_game w) a with
    | Throw e => (Err e, w)
    | Ret None => (Val None, w)
    | Ret (Some (m, g')) =>
        (Val (Some m), {| w_game := g'; w_table := w_table w; w_stats := w_stats w;
                          w_meta := w_meta w; w_ticks := w_ticks w; w_polls := w_polls w |})
    end.

(** [game.undo()] *)
Definition gameUndo : M unit :=
  fun w =>
    match undo (w_game w) with
    | Throw e => (Err e, w)
    | Ret g' =>
        (Val tt, {| w_game := g'; w_table := w_table w; w_stats := w_stats w;
                    w_meta := w_meta w; w_ticks := w_ticks w; w_polls := w_polls w |})
    end.

(** [nowFn()]: the next reading of the clock. *)
Definition readClock (clock : nat -> num) : M num :=
  fun w => (Val (clock (w_ticks w)),
            {| w_game := w_game w; w_table := w_table w; w_stats := w_stats w;
               w_meta := w_meta w; w_ticks := S (w_ticks w); w_polls := w_polls w |}).

(** [shouldStop()]: the next answer of the stop predicate. *)
Definition pollStop (stop : nat -> bool) : M bool :=
  fun w => (Val (stop (w_polls w)),
            {| w_game := w_game w; w_table := w_table w; w_stats := w_stats w;
               w_meta := w_meta w; w_ticks := w_ticks w; w_polls := S (w_polls w) |}).

End Monad.

Declare Scope monad_scope.
Delimit Scope monad_scope with monad.
Notation "x <- c1 ;; c2" := (bind c1 (fun x => c2))
  (at level 100, c1 at next level, right associativity) : monad_scope.
Notation "c1 ;; c2" := (bind c1 (fun _ => c2))
  (at level 100, right associativity) : monad_scope.

(** ** Move ordering *)

Section Ordering.
Context {N : Num} {L : ChessLib}.
Local Open Scope num_scope.

(** [move.promotion || ''] *)
Definition promotionText (m : Move) : string :=
  match m_promotion m with Some t => pieceChar t | None => "" end.

Definition moveKey (m : Move) : string :=
  m_from m ++ "-" ++ m_to m ++ "-" ++ promotionText m ++ "-" ++ m_san m.

Definition simpleMoveKey (m : Move) : string :=
  m_from m ++ "-" ++ m_to m ++ "-" ++ promotionText m.

Definition createSearchMeta : SearchMeta :=
  {| killerMoves := ∅; historyScores := ∅; orderingScores := ∅ |}.

(** The index of the first entry equal to [key], counted from [i]. *)
Fixpoint indexOf (key : string) (l : list string) (i : Z) : option Z :=
  match l with
  | [] => None
  | k :: r => if String.eqb k key then Some i else indexOf key r (i + 1)%Z
  end.

Definition killerMoveScore (searchMeta : option SearchMeta) (ply : Z) (m : Move) : num :=
  match searchMeta with
  | None => nzero
  | Some sm =>
      match killerMoves sm !! ply with
      | None => nzero
      | Some l =>
          match indexOf (simpleMoveKey m) l 0 with
          | Some i => ofZ (3 - i)
          | None => nzero
          end
      end
  end.

(** [move.captured || move.flags.includes('p')] *)
Definition capturesOrPromotes (m : Move) : bool :=
  match m_captured m with
  | Some _ => true
  | None => includesChar "p" (m_flags m)
  end.

Definition recordKillerMove (searchMeta : option SearchMeta) (ply : Z) (m : Move)
  : option SearchMeta :=
  match searchMeta with
  | None => None
  | Some sm =>
      if capturesOrPromotes m then Some sm
      else
        let key := simpleMoveKey m in
        let l := default [] (killerMoves sm !! ply) in
        if has l key then Some sm
        else Some {| killerMoves := <[ply := take 2 (key :: l)]> (killerMoves sm);
                     historyScores := historyScores sm;
                     orderingScores := orderingScores sm |}
  end.

Definition updateHistoryScore (searchMeta : option SearchMeta) (m : Move) (depth : Z)
  : option SearchMeta :=
  match searchMeta with
  | None => None
  | Some sm =>
      if capturesOrPromotes m then Some sm
      else
        let key := simpleMoveKey m in
        let current := default nzero (historyScores sm !! key) in
        Some {| killerMoves := killerMoves sm;
                historyScores := <[key := current + ofZ (depth * depth)]> (historyScores sm);
                orderingScores := orderingScores sm |}
  end.

Definition historyScore (searchMeta : option SearchMeta) (m : Move) : num :=
  match searchMeta with
  | None => nzero
  | Some sm =>
      let value := default nzero (historyScores sm !! simpleMoveKey m) in
      nmin (lit 35 10) (value / ofZ 220)
  end.

(** [orderingMapFor(searchMeta, ply)]: the map of this ply, emptied.  The
    map it returns is the one stored under [ply]. *)
Definition orderingMapFor (searchMeta : option SearchMeta) (ply : Z) : option SearchMeta :=
  match searchMeta with
  | None => None
  | Some sm =>
      Some {| killerMoves := killerMoves sm;
              historyScores := historyScores sm;
              orderingScores := <[ply := ∅]> (orderingScores sm) |}
  end.

(** [storeOrderingScore(orderMap, move, score)] on the map of [ply]. *)
Definition storeOrderingScore (searchMeta : option SearchMeta) (ply : Z) (m : Move) (score : num)
  : option SearchMeta :=
  match searchMeta with
  | None => None
  | Some sm =>
      let orderMap := default ∅ (orderingScores sm !! ply) in
      Some {| killerMoves := killerMoves sm;
              historyScores := historyScores sm;
              orderingScores := <[ply := <[moveKey m := score]> orderMap]> (orderingScores sm) |}
  end.

Definition lookupOrderingScore (searchMeta : option SearchMeta) (ply : Z) (m : Move) : num :=
  match searchMeta with
  | None => nzero
  | Some sm =>
      match orderingScores sm !! ply with
      | None => nzero
      | Some map => default nzero (map !! moveKey m)
      end
  end.

(** [/[+#]/.test(san)] *)
Definition checkMark (san : string) : bool :=
  includesChar "+" san || includesChar "#" san.

Definition isForcingMove (m : Move) : bool :=
  capturesOrPromotes m || checkMark (m_san m).

(** The first king of [color] in row-major order, rows and files 0 to 7. *)
Definition findKingSquare (g : game) (color : Color) : option string :=
  match board g with
  | None => None
  | Some b =>
      let squares :=
        flat_map (fun row => map (fun col => (row, col)) [0; 1; 2; 3; 4; 5; 6; 7]%Z)
          [0; 1; 2; 3; 4; 5; 6; 7]%Z in
      match
        find (fun '(row, col) =>
                match boardAt b row col with
                | Some p => PieceType_eqb (ptype p) King && Color_eqb (pcolor p) color
                | None => false
                end) squares
      with
      | Some (row, col) => Some (squareName (Z.to_nat row) (Z.to_nat col))
      | None => None
      end
  end.

Local Open Scope monad_scope.

(** [parts[1] = v] on the array a [split] returned. *)
Definition assignSecond (parts : list string) (v : string) : list string :=
  match parts with
  | [] => parts
  | [a] => [a; v]
  | a :: _ :: r => a :: v :: r
  end.

(** The moves of the mover's own side onto [target], counted on a scratch
    copy of the position with the side to move flipped back; 0 when
    anything in there throws. *)
Definition countDefenders (g : game) (mover : Color) (target : string) : Z :=
  let fenParts := assignSecond (splitOn " " (fen g)) (colorChar mover) in
  match createChessInstance (Some (joinWith " " fenParts)) with
  | Ret defenderGame =>
      match moves defenderGame with
      | Ret ms => Z.of_nat (length (filter (fun m => String.eqb (m_to m) target = true) ms))
      | Throw _ => 0%Z
      end
  | Throw _ => 0%Z
  end.

(** The loop over the opponent's replies: the cheapest piece that can
    capture on [target] ([None] is [Infinity]) and whether a pawn can. *)
Definition attackersOf (target : string) (opponentMoves : list Move) : option num * bool :=
  fold_left
    (fun '(minAttacker, pawnThreat) reply =>
       if String.eqb (m_to reply) target then
         let value := pieceValues (m_piece reply) in
         (match minAttacker with
          | None => Some value
          | Some least => if value <? least then Some value else Some least
          end,
          if PieceType_eqb (m_piece reply) Pawn then true else pawnThreat)
       else (minAttacker, pawnThreat))
    opponentMoves (None, false).

(** The body of the [try] block of [evaluateMoveConsequences], run on the
    position after the move. *)
Definition lookahead (m : Move) : M (num * num) :=
  inCheck <- query in_check ;;
  let checkBonus := if inCheck then nzero + lit 6 10 else nzero in
  opponentMoves <- query moves ;;
  let '(minAttacker, pawnThreat) := attackersOf (m_to m) opponentMoves in
  g <- getter id ;;
  let penalty :=
    match minAttacker with
    | None => nzero
    | Some attackValue =>
        let defenders := countDefenders g (m_color m) (m_to m) in
        let movedValue := pieceValues (m_piece m) in
        let penalty :=
          if attackValue <? movedValue - lit 5 100 then
            let diff := movedValue - attackValue in
            let modifier := if (0 <? defenders)%Z then lit 55 100 else lit 115 100 in
            nzero + diff * modifier
          else nzero in
        if pawnThreat && (lit 15 10 <? movedValue)
        then penalty + (if (0 <? defenders)%Z then lit 25 100 else lit 6 10)
        else penalty
    end in
  let penalty :=
    match findKingSquare g (m_color m) with
    | Some kingSquare =>
        if existsb (fun reply => String.eqb (m_to reply) kingSquare) opponentMoves
        then penalty + lit 9 10 else penalty
    | None => penalty
    end in
  ret (penalty, checkBonus).

(** [evaluateMoveConsequences(game, move)]: apply the move, look one ply
    ahead, and undo the move in the [finally] block. *)
Definition evaluateMoveConsequences (m : Move) : M (num * num) :=
  gameMove (moveArgOf m) ;;
  tryFinally (lookahead m) gameUndo.

Definition captureWeights (t : PieceType) : num :=
  match t with
  | Pawn => ofZ 1 | Knight => ofZ 2 | Bishop => ofZ 2
  | Rook => ofZ 3 | Queen => ofZ 4 | King => ofZ 6
  end.

(** The part of [movePriority] that precedes the lookahead. *)
Definition staticPriority (m : Move) (context : option EvalContext)
    (preferenceMap : option (gmap string Z)) (searchMeta : option SearchMeta) (ply : Z) : num :=
  let score := nzero in
  let score :=
    match preferenceMap with
    | Some pm =>
        match pm !! moveKey m with
        | Some pref => score + ofZ (60 - pref)
        | None => score
        end
    | None => score
    end in
  let score :=
    match searchMeta with
    | Some _ => score + killerMoveScore searchMeta ply m + historyScore searchMeta m
    | None => score
    end in
  let score :=
    match m_captured m with
    | Some t => score + (ofZ 4 + captureWeights t)
    | None => score
    end in
  let score := if includesChar "c" (m_flags m) then score + lit 15 10 else score in
  let score :=
    if checkMark (m_san m)
    then score + (if includesChar "#" (m_san m) then ofZ 5 else lit 25 10)
    else score in
  let score := if includesChar "p" (m_flags m) then score + ofZ 6 else score in
  let score :=
    if includesChar "k" (m_flags m) || includesChar "q" (m_flags m)
    then score + lit 32 10 else score in
  let openingPhase := match context with Some c => (moveCount c <? 16)%Z | None => false end in
  let veryEarly := match context with Some c => (moveCount c <? 8)%Z | None => false end in
  let score :=
    if (PieceType_eqb (m_piece m) Knight || PieceType_eqb (m_piece m) Bishop)
       && has minorPieceStartSquares (m_from m)
    then
      let score := score + (if openingPhase then lit 16 10 else lit 5 10) in
      if has coreCenterSquares (m_to m) then score + lit 65 100
      else if has extendedCenterSquares (m_to m) then score + lit 45 100
      else score
    else score in
  let score :=
    if PieceType_eqb (m_piece m) Pawn then
      let score :=
        if has coreCenterSquares (m_to m) then score + lit 7 10
        else if has extendedCenterSquares (m_to m) then score + lit 35 100
        else score in
      if has flankFiles (firstChar (m_from m)) then
        let score := score - (if openingPhase then lit 11 10 else lit 3 10) in
        if veryEarly then score - lit 7 10 else score
      else score
    else if has coreCenterSquares (m_to m) then score + lit 45 100
    else if has extendedCenterSquares (m_to m) then score + lit 27 100
    else score in
  if String.eqb (m_san m) "O-O" || String.eqb (m_san m) "O-O-O"
  then score + lit 38 10 else score.

Definition movePriority (m : Move) (context : option EvalContext)
    (preferenceMap : option (gmap string Z)) (ply : Z) : M num :=
  w <- getWorld ;;
  let score := staticPriority m context preferenceMap (w_meta w) ply in
  consequence <- evaluateMoveConsequences m ;;
  let '(penalty, checkBonus) := consequence in
  let score := score + checkBonus in
  let score := score - penalty in
  ret score.

(** A [for ... of] loop that threads a value through an effectful body. *)
Fixpoint foldM {A S} (f : S -> A -> M S) (l : list A) (s : S) : M S :=
  match l with
  | [] => ret s
  | x :: r => s' <- f s x ;; foldM f r s'
  end.

(** Where [entry] goes in a list already sorted by descending value:
    behind every entry that is not smaller. *)
Fixpoint insertDesc (entry : Move * num) (sorted : list (Move * num)) : list (Move * num) :=
  match sorted with
  | [] => [entry]
  | y :: r => if snd y <? snd entry then entry :: y :: r else y :: insertDesc entry r
  end.

(** [scored.sort((a, b) => b.value - a.value)]: a stable sort. *)
Definition sortDesc (scored : list (Move * num)) : list (Move * num) :=
  fold_left (fun sorted entry => insertDesc entry sorted) scored [].

Definition modifyMeta (f : option SearchMeta -> option SearchMeta) : M unit :=
  w <- getWorld ;; setMeta (f (w_meta w)).

Definition orderedMoves (context : option EvalContext) (preferenceMap : option (gmap string Z))
    (ply : Z) (captureOnly : bool) : M (list Move) :=
  ms <- query moves ;;
  modifyMeta (fun sm => orderingMapFor sm ply) ;;
  scored <-
    foldM
      (fun scored m =>
         if captureOnly && negb (isForcingMove m) then ret scored
         else
           value <- movePriority m context preferenceMap ply ;;
           modifyMeta (fun sm => storeOrderingScore sm ply m value) ;;
           ret (scored ++ [(m, value)])%list)
      ms [] ;;
  ret (map fst (sortDesc scored)).

End Ordering.

(** ** The search *)

Section Search.
Context {N : Num} {L : ChessLib}.
Local Open Scope num_scope.
Local Open Scope monad_scope.

Definition evaluateTerminalState (perspective : Color) (plyCount : Z)
    (context : option EvalContext) : M num :=
  mate <- query in_checkmate ;;
  if mate then
    let mateScore := ofZ (1000 - plyCount) in
    toMove <- getter turn ;;
    ret (if Color_eqb toMove perspective then - mateScore else mateScore)
  else
    stale <- query in_stalemate ;;
    if stale then ret nzero
    else
      g <- getter id ;;
      ret (evaluateForPerspective g perspective context).

(** A number used as a condition: neither zero nor NaN. *)
Definition truthy (x : num) : bool := (x <? nzero) || (nzero <? x).

(** The test at the entry of [negamax] and [quiescence]:
    [(shouldStop && shouldStop()) || (deadline && nowFn && nowFn() > deadline)]. *)
Definition cancelled (env : Env) : M bool :=
  stopNow <- match shouldStop env with
             | Some stop => pollStop stop
             | None => ret false
             end ;;
  if stopNow then ret true
  else
    match deadline env, nowFn env with
    | Some d, Some clock =>
        if truthy d then now <- readClock clock ;; ret (d <? now) else ret false
    | _, _ => ret false
    end.

(** [stats.timeouts = (stats.timeouts || 0) + 1] *)
Definition noteTimeout : M unit :=
  w <- getWorld ;;
  setStats {| nodes := nodes (w_stats w);
              timeouts := Some (default 0%Z (timeouts (w_stats w)) + 1)%Z |}.

(** [stats.nodes += 1] *)
Definition countNode : M unit :=
  w <- getWorld ;;
  setStats {| nodes := (nodes (w_stats w) + 1)%Z; timeouts := timeouts (w_stats w) |}.

(** The static evaluation of the live position for [perspective]. *)
Definition staticEval (perspective : Color) (context : option EvalContext) : M num :=
  g <- getter id ;;
  ret (evaluateForPerspective g perspective context).

(** [quiescence]; [fuel] bounds the depth of the recursion of the model. *)
Fixpoint quiescence (fuel : nat) (env : Env) (alpha beta : Ext) (perspective : Color)
    (plyCount : Z) (context : option EvalContext) (limit : Z) : M Ext :=
  match fuel with
  | O => outOfFuel
  | S fuel' =>
      stop <- cancelled env ;;
      if stop then
        noteTimeout ;;
        v <- staticEval perspective context ;;
        ret (Fin v)
      else
        countNode ;;
        standPat <- evaluateTerminalState perspective plyCount context ;;
        if eleb beta (Fin standPat) then ret beta
        else
          let alpha := if eltb alpha (Fin standPat) then Fin standPat else alpha in
          if (limit <=? 0)%Z then ret (Fin standPat)
          else
            captureMoves <- orderedMoves context None plyCount true ;;
            (fix loop (ms : list Move) (alpha : Ext) : M Ext :=
               match ms with
               | [] => ret alpha
               | m :: rest =>
                   gameMove (moveArgOf m) ;;
                   below <- quiescence fuel' env (eneg beta) (eneg alpha) perspective
                              (plyCount + 1)%Z context (limit - 1)%Z ;;
                   let score := eneg below in
                   gameUndo ;;
                   if eleb beta score then ret beta
                   else loop rest (if eltb alpha score then score else alpha)
               end) captureMoves alpha
  end.

Definition tableSet (key : string) (entry : TTEntry) : M unit :=
  w <- getWorld ;; setTable (<[key := entry]> (w_table w)).

(** What the move loop of [negamax] carries from one move to the next. *)
Record Best := {
  b_alpha : Ext;
  b_value : Ext;
  b_flag : Flag;
  b_child : option BestChild
}.

(** The probe of the transposition table at the entry of [negamax]: the
    bounds after the stored entry tightened them, and the stored value
    when the call can return it at once. *)
Definition probeTable (cached : option TTEntry) (terminal : bool) (depth : Z)
    (alpha beta : Ext) : Ext * Ext * option Ext :=
  match cached with
  | Some c =>
      if negb terminal && (depth <=? e_depth c)%Z then
        match e_flag c with
        | Exact => (alpha, beta, Some (e_value c))
        | Lower =>
            let alpha' := if eltb alpha (e_value c) then e_value c else alpha in
            (alpha', beta, if eleb beta alpha' then Some (e_value c) else None)
        | Upper =>
            let beta' := if eltb (e_value c) beta then e_value c else beta in
            (alpha, beta', if eleb beta' alpha then Some (e_value c) else None)
        end
      else (alpha, beta, None)
  | None => (alpha, beta, None)
  end.

(** [negamax]; [fuel] bounds the depth of the recursion of the model. *)
Fixpoint negamax (fuel : nat) (env : Env) (depth : Z) (alpha beta : Ext) (perspective : Color)
    (plyCount : Z) (context : option EvalContext) : M Ext :=
  match fuel with
  | O => outOfFuel
  | S fuel' =>
      stop <- cancelled env ;;
      if stop then
        noteTimeout ;;
        v <- staticEval perspective context ;;
        ret (Fin v)
      else
        countNode ;;
        terminal <- query game_over ;;
        key <- getter fen ;;
        w <- getWorld ;;
        let cached := w_table w !! key in
        let probe := probeTable cached terminal depth alpha beta in
        let '(alpha, beta, hit) := probe in
        match hit with
        | Some value => ret value
        | None =>
            if terminal then
              result <- evaluateTerminalState perspective plyCount context ;;
              (match cached with
               | Some c =>
                   if (e_depth c <? depth)%Z
                   then tableSet key {| e_depth := depth; e_value := Fin result;
                                        e_flag := Exact; e_best := None |}
                   else ret tt
               | None =>
                   tableSet key {| e_depth := depth; e_value := Fin result;
                                   e_flag := Exact; e_best := None |}
               end) ;;
              ret (Fin result)
            else if (depth <=? 0)%Z then
              quiescence fuel' env alpha beta perspective plyCount context 6
            else
              ms <- orderedMoves context None plyCount false ;;
              let limit :=
                if (3 <=? depth)%Z then Nat.min (length ms) 14 else Nat.min (length ms) 18 in
              best <-
                (fix loop (candidates : list Move) (i : Z) (st : Best) : M Best :=
                   match candidates with
                   | [] => ret st
                   | m :: rest =>
                       gameMove (moveArgOf m) ;;
                       let nextDepth := (depth - 1)%Z in
                       givesCheck <- query in_check ;;
                       let nextDepth :=
                         if givesCheck && (0 <=? nextDepth)%Z
                         then Z.min depth (nextDepth + 1) else nextDepth in
                       let nextDepth :=
                         if negb (isForcingMove m) && (3 <=? depth)%Z && (5 <? i)%Z
                            && (1 <? nextDepth)%Z
                         then (nextDepth - 1)%Z else nextDepth in
                       mate <- query in_checkmate ;;
                       score <-
                         (if mate then
                            v <- evaluateTerminalState perspective (plyCount + 1)%Z context ;;
                            ret (Fin v)
                          else
                            below <- negamax fuel' env nextDepth (eneg beta) (eneg (b_alpha st))
                                       perspective (plyCount + 1)%Z context ;;
                            ret (eneg below)) ;;
                       gameUndo ;;
                       let st :=
                         if eltb (b_value st) score
                         then {| b_alpha := b_alpha st; b_value := score; b_flag := b_flag st;
                                 b_child := Some {| bc_from := m_from m; bc_to := m_to m;
                                                    bc_promotion := m_promotion m |} |}
                         else st in
                       st <-
                         (if eltb (b_alpha st) score then
                            modifyMeta (fun sm => updateHistoryScore sm m depth) ;;
                            ret {| b_alpha := score; b_value := b_value st; b_flag := Exact;
                                   b_child := b_child st |}
                          else ret st) ;;
                       if eleb beta (b_alpha st) then
                         modifyMeta (fun sm => recordKillerMove sm plyCount m) ;;
                         modifyMeta (fun sm => updateHistoryScore sm m depth) ;;
                         ret {| b_alpha := b_alpha st; b_value := b_value st; b_flag := Lower;
                                b_child := b_child st |}
                       else loop rest (i + 1)%Z st
                   end)
                  (take limit ms) 0%Z
                  {| b_alpha := alpha; b_value := NInf; b_flag := Upper; b_child := None |} ;;
              best <-
                (match ms with
                 | [] =>
                     v <- evaluateTerminalState perspective plyCount context ;;
                     ret {| b_alpha := b_alpha best; b_value := Fin v; b_flag := Exact;
                            b_child := b_child best |}
                 | _ :: _ => ret best
                 end) ;;
              tableSet key {| e_depth := depth; e_value := b_value best;
                              e_flag := b_flag best; e_best := b_child best |} ;;
              ret (b_value best)
        end
  end.

Definition chooseFallbackDepth (moveCount legalCount : Z) : Z :=
  let depth := 4%Z in
  let depth :=
    if (moveCount <? 10)%Z then (depth + 2)%Z
    else if (moveCount <? 20)%Z then (depth + 1)%Z else depth in
  let depth := if (legalCount <=? 12)%Z then (depth + 1)%Z else depth in
  let depth := if (legalCount <=? 8)%Z then (depth + 1)%Z else depth in
  let depth := if (28 <=? legalCount)%Z then (depth - 1)%Z else depth in
  let depth := if (36 <=? legalCount)%Z then (depth - 1)%Z else depth in
  let depth := if (60 <? moveCount)%Z then Z.max 3 (depth - 1) else depth in
  Z.max 3 (Z.min depth 7).

(** The loop of [principalVariationFromTable] on its scratch instance. *)
Fixpoint pvWalk (steps : nat) (table : gmap string TTEntry) (chess : game) (seen : gset string)
  : Res (list Move) :=
  match steps with
  | O => Ret []
  | S steps' =>
      let key := fen chess in
      if decide (key ∈ seen) then Ret []
      else
        match table !! key with
        | None => Ret []
        | Some entry =>
            match e_best entry with
            | None => Ret []
            | Some best =>
                match move chess {| a_from := bc_from best; a_to := bc_to best;
                                    a_promotion := option_map pieceChar (bc_promotion best) |} with
                | Throw e => Throw e
                | Ret None => Ret []
                | Ret (Some (mv, chess')) =>
                    match game_over chess' with
                    | Throw e => Throw e
                    | Ret true => Ret [mv]
                    | Ret false =>
                        match pvWalk steps' table chess' ({[key]} ∪ seen) with
                        | Ret pv => Ret (mv :: pv)
                        | Throw e => Throw e
                        end
                    end
                end
            end
        end
  end.

Definition principalVariationFromTable (fenText : string) (table : gmap string TTEntry)
    (maxLength : Z) : Res (list Move) :=
  match fenText with
  | EmptyString => Ret []
  | _ =>
      match createChessInstance (Some fenText) with
      | Throw _ => Ret []
      | Ret chess => pvWalk (Z.to_nat maxLength) table chess ∅
      end
  end.

(** The options [analyzeFallback] reads; depths are integers. *)
Record Options := {
  o_depth : option Z;
  o_maxDepth : option Z;
  o_minDepth : option Z;
  o_timeBudget : option num;
  o_shouldStop : option (nat -> bool)
}.

Record Detail := {
  d_move : Move;
  d_score : Ext;
  d_pv : list Move;
  d_pvSan : list string
}.

(** What [analyzeFallback] returns; the result for a position without
    legal moves has no [timeouts] field. *)
Record FallbackResult := {
  r_best : option Detail;
  r_details : list Detail;
  r_depth : Z;
  r_considered : Z;
  r_aborted : bool;
  r_elapsed : num;
  r_timeouts : option Z
}.

(** One entry of an iteration: the move, its raw score and its
    normalized score. *)
Record Ranked := { k_move : Move; k_raw : Ext; k_score : Ext }.

Fixpoint insertRanked (entry : Ranked) (sorted : list Ranked) : list Ranked :=
  match sorted with
  | [] => [entry]
  | y :: r =>
      if eltb (k_score y) (k_score entry) then entry :: y :: r
      else y :: insertRanked entry r
  end.

(** [iteration.sort((a, b) => b.score - a.score)] *)
Definition sortRanked (l : list Ranked) : list Ranked :=
  fold_left (fun sorted entry => insertRanked entry sorted) l [].

(** The root loop of one iteration: the entries searched, and whether
    the search was cut short. *)
Fixpoint rootLoop (fuel : nat) (env : Env) (depth : Z) (perspective : Color)
    (evalContext : EvalContext) (candidates : list Move) (alpha : Ext) (iteration : list Ranked)
  : M (list Ranked * bool) :=
  match candidates with
  | [] => ret (iteration, false)
  | m :: rest =>
      stop <- cancelled env ;;
      if stop then ret (iteration, true)
      else
        gameMove (moveArgOf m) ;;
        mate <- query in_checkmate ;;
        score <-
          (if mate then
             v <- evaluateTerminalState perspective 1 (Some evalContext) ;;
             ret (Fin v)
           else
             below <- negamax fuel env (depth - 1)%Z NInf (eneg alpha) perspective 1
                        (Some evalContext) ;;
             ret (eneg below)) ;;
        check <- query in_check ;;
        let checkBonus := if check then lit 25 100 else nzero in
        gameUndo ;;
        w <- getWorld ;;
        let orderBoost := lookupOrderingScore (w_meta w) 0 m * lit 2 100 in
        let normalized := eaddn (eaddn score checkBonus) orderBoost in
        let iteration :=
          (iteration ++ [{| k_move := m; k_raw := score; k_score := normalized |}])%list in
        let alpha := if eltb alpha score then score else alpha in
        stop <- cancelled env ;;
        if stop then ret (iteration, true)
        else rootLoop fuel env depth perspective evalContext rest alpha iteration
  end.

(** [preferenceMap.set(moveKey(entry.move), index)] for every entry. *)
Definition rankingOf (iteration : list Ranked) : gmap string Z :=
  foldIndexed (fun pm index entry => <[moveKey (k_move entry) := index]> pm) 0 iteration ∅.

(** What the deepening loop carries from one depth to the next. *)
Record Deepening := {
  dp_reached : Z;
  dp_aborted : bool;
  dp_results : list (Move * Ext);
  dp_preference : gmap string Z
}.

(** The iterative-deepening loop over the depths still to search. *)
Fixpoint deepen (fuel : nat) (env : Env) (perspective : Color) (evalContext : EvalContext)
    (depths : list Z) (st : Deepening) : M Deepening :=
  match depths with
  | [] => ret st
  | depth :: later =>
      stop <- match shouldStop env with
              | Some stopFn => pollStop stopFn
              | None => ret false
              end ;;
      if stop then
        ret {| dp_reached := dp_reached st; dp_aborted := true;
               dp_results := dp_results st; dp_preference := dp_preference st |}
      else
        candidateMoves <- orderedMoves (Some evalContext) (Some (dp_preference st)) 0 false ;;
        let limit := Nat.min (length candidateMoves) (if (4 <=? depth)%Z then 20 else 24) in
        r <- rootLoop fuel env depth perspective evalContext (take limit candidateMoves) NInf [] ;;
        let '(iteration, aborted) := r in
        let aborted := dp_aborted st || aborted in
        match iteration with
        | [] =>
            ret {| dp_reached := dp_reached st; dp_aborted := aborted;
                   dp_results := dp_results st; dp_preference := dp_preference st |}
        | _ :: _ =>
            let sorted := sortRanked iteration in
            let st' :=
              {| dp_reached := depth; dp_aborted := aborted;
                 dp_results := map (fun entry => (k_move entry, k_raw entry)) sorted;
                 dp_preference := rankingOf sorted |} in
            if aborted then ret st' else deepen fuel env perspective evalContext later st'
        end
  end.

(** The depths [1, 2, ..., n]. *)
Definition depthsTo (n : Z) : list Z := map (fun k => Z.of_nat (S k)) (seq 0 (Z.to_nat n)).

(** The principal variation of one root move, as the closing [map] of
    [analyzeFallback] builds it. *)
Definition detailOf (rootFen : string) (table : gmap string TTEntry) (targetDepth : Z)
    (entry : Move * Ext) : Res Detail :=
  match createChessInstance (Some rootFen) with
  | Throw e => Throw e
  | Ret clone =>
      match move clone (moveArgOf (fst entry)) with
      | Throw e => Throw e
      | Ret None =>
          Ret {| d_move := fst entry; d_score := snd entry; d_pv := []; d_pvSan := [] |}
      | Ret (Some (first, clone')) =>
          match principalVariationFromTable (fen clone') table (targetDepth + 4)%Z with
          | Throw e => Throw e
          | Ret continuation =>
              let pvMoves := first :: continuation in
              Ret {| d_move := fst entry; d_score := snd entry; d_pv := pvMoves;
                     d_pvSan := map m_san pvMoves |}
          end
      end
  end.

(** [finalResults.map(...)], stopping at the first entry that throws. *)
Fixpoint detailsOf (rootFen : string) (table : gmap string TTEntry) (targetDepth : Z)
    (entries : list (Move * Ext)) : Res (list Detail) :=
  match entries with
  | [] => Ret []
  | entry :: rest =>
      match detailOf rootFen table targetDepth entry with
      | Throw e => Throw e
      | Ret d =>
          match detailsOf rootFen table targetDepth rest with
          | Throw e => Throw e
          | Ret ds => Ret (d :: ds)
          end
      end
  end.

(** The result for a position without legal moves. *)
Definition emptyResult : FallbackResult :=
  {| r_best := None; r_details := []; r_depth := 0; r_considered := 0;
     r_aborted := false; r_elapsed := nzero; r_timeouts := None |}.

(** The body of [analyzeFallback]; [clock] is [performance.now] (or
    [Date.now]) and [fallbackTime] is [window.__CHESS_FALLBACK_TIME]. *)
Definition analyzeFallbackBody (fuel : nat) (options : Options) (clock : nat -> num)
    (fallbackTime : option num) : M FallbackResult :=
  g <- getter id ;;
  let evalContext := createEvaluationContext g in
  setMeta (Some createSearchMeta) ;;
  initialMoves <- orderedMoves (Some evalContext) None 0 false ;;
  match initialMoves with
  | [] => ret emptyResult
  | _ :: _ =>
      perspective <- getter turn ;;
      let moveCount := moveCount evalContext in
      let preferredDepth := option_map (fun d => Z.max 1 d) (o_depth options) in
      let depthCap := option_map (fun d => Z.max 1 d) (o_maxDepth options) in
      let depthFloor := option_map (fun d => Z.max 1 d) (o_minDepth options) in
      let targetDepth :=
        match preferredDepth with
        | Some d => d
        | None => chooseFallbackDepth moveCount (Z.of_nat (length initialMoves))
        end in
      let targetDepth :=
        match depthCap with Some c => Z.min targetDepth c | None => targetDepth end in
      let targetDepth :=
        match depthFloor with Some f => Z.max targetDepth f | None => targetDepth end in
      setTable ∅ ;;
      setStats {| nodes := 0; timeouts := Some 0%Z |} ;;
      let timeBudget :=
        match o_timeBudget options with
        | Some t => nmax nzero t
        | None =>
            match fallbackTime with
            | Some t => nmax (ofZ 250) t
            | None => ofZ 1700
            end
        end in
      startTime <- readClock clock ;;
      let env :=
        {| deadline := if nzero <? timeBudget then Some (startTime + timeBudget) else None;
           nowFn := Some clock;
           shouldStop := o_shouldStop options |} in
      final <-
        deepen fuel env perspective evalContext (depthsTo targetDepth)
          {| dp_reached := 0; dp_aborted := false;
             dp_results := map (fun m => (m, Fin nzero)) initialMoves;
             dp_preference := ∅ |} ;;
      finish <- readClock clock ;;
      let elapsed := finish - startTime in
      rootFen <- getter fen ;;
      w <- getWorld ;;
      match detailsOf rootFen (w_table w) targetDepth (dp_results final) with
      | Throw e => throw e
      | Ret detailedResults =>
          ret {| r_best := head detailedResults;
                 r_details := detailedResults;
                 r_depth := dp_reached final;
                 r_considered := nodes (w_stats w);
                 r_aborted := dp_aborted final;
                 r_elapsed := elapsed;
                 r_timeouts := Some (default 0%Z (timeouts (w_stats w))) |}
      end
  end.

(** [analyzeFallback(game, options)]: the search owns a fresh table, fresh
    statistics and fresh search tables. *)
Definition analyzeFallback (fuel : nat) (g : game) (options : Options) (clock : nat -> num)
    (fallbackTime : option num) : Out FallbackResult * World :=
  analyzeFallbackBody fuel options clock fallbackTime
    {| w_game := g; w_table := ∅; w_stats := {| nodes := 0; timeouts := Some 0%Z |};
       w_meta := Some createSearchMeta; w_ticks := 0; w_polls := 0 |}.

End Search.

(** ** The adapter to an external engine *)

(** JavaScript's white space and line ends among the Latin-1 characters:
    tab to carriage return, the space and the no-break space. *)
Definition isSpace (c : ascii) : bool :=
  let n := nat_of_ascii c in
  (n =? 32)%nat || ((9 <=? n)%nat && (n <=? 13)%nat) || (n =? 160)%nat.

Fixpoint trimStart (s : string) : string :=
  match s with
  | String c r => if isSpace c then trimStart r else s
  | EmptyString => s
  end.

Fixpoint reverseString (s : string) (acc : string) : string :=
  match s with
  | EmptyString => acc
  | String c r => reverseString r (String c acc)
  end.

(** [s.trim()] *)
Definition trim (s : string) : string :=
  reverseString (trimStart (reverseString (trimStart s) "")) "".

(** [s.split(/\s+/)] *)
Fixpoint splitSpaces (s : string) (inGap : bool) : list string :=
  match s with
  | EmptyString => [EmptyString]
  | String c r =>
      if isSpace c then
        if inGap then splitSpaces r true else EmptyString :: splitSpaces r true
      else
        match splitSpaces r false with
        | [] => [String c EmptyString]
        | w :: ws => String c w :: ws
        end
  end.

(** [try { body } catch (err) { handler }] for a call that returns. *)
Definition tryCatch {A} (body : Res A) (handler : string -> Res A) : Res A :=
  match body with
  | Ret a => Ret a
  | Throw e => handler e
  end.

Section San.
Context {L : ChessLib}.

(** [uciToSan(fen, uciMove)]; [None] as argument is an absent move and
    [None] as result is [null]. *)
Definition uciToSan (fenText : string) (uciMove : option string) : Res (option string) :=
  match uciMove with
  | None | Some EmptyString => Ret None
  | Some (String _ _ as uci) =>
      tryCatch
        (match createChessInstance (Some fenText) with
         | Throw e => Throw e
         | Ret chess =>
             let from := substring 0 2 uci in
             let to := substring 2 2 uci in
             let promotion := if (4 <? String.length uci)%nat then Some (sliceFrom 4 uci) else None in
             match move chess {| a_from := from; a_to := to; a_promotion := promotion |} with
             | Throw e => Throw e
             | Ret (Some (mv, _)) => Ret (Some (m_san mv))
             | Ret None => Ret (Some uci)
             end
         end)
        (fun _ => Ret (Some uci))
  end.

End San.

(** *** The engine session: waiters, timers and handlers *)

(** How the promise of a waiter ends. *)
Inductive Settle := Resolved (line : string) | Rejected (err : string).

(** A registered waiter; its promise and its timer carry the same id. *)
Record Waiter := { wt_id : nat; wt_predicate : string -> Res bool }.

(** A [StockfishEngine]: its waiters and handlers, with the pending
    timers, the promises settled so far, the commands posted to the
    worker and the lines handed to each handler. *)
Record Engine := {
  en_waiters : list Waiter;
  en_handlers : list nat;
  en_timers : list (nat * Z);
  en_settled : gmap nat Settle;
  en_sent : list string;
  en_heard : list (nat * string);
  en_next : nat
}.

Definition newEngine : Engine :=
  {| en_waiters := []; en_handlers := []; en_timers := []; en_settled := ∅;
     en_sent := []; en_heard := []; en_next := 0 |}.

(** What the worker posts: a string, an object with a [data] string, or
    nothing. *)
Inductive Payload := PText (s : string) | PData (s : string) | PNothing.

(** [typeof payload === 'string' ? payload : (payload?.data ?? String(payload ?? ''))] *)
Definition payloadLine (p : Payload) : string :=
  match p with PText s => s | PData s => s | PNothing => "" end.

(** A promise settles once. *)
Definition settle (k : nat) (s : Settle) (m : gmap nat Settle) : gmap nat Settle :=
  match m !! k with Some _ => m | None => <[k := s]> m end.

Definition dropWaiter (k : nat) (l : list Waiter) : list Waiter :=
  List.filter (fun w => negb (wt_id w =? k)%nat) l.

Definition dropTimer (k : nat) (l : list (nat * Z)) : list (nat * Z) :=
  List.filter (fun t => negb (fst t =? k)%nat) l.

(** [predicate(line)] inside its [try]: a predicate that throws does not
    match. *)
Definition matchesLine (w : Waiter) (line : string) : bool :=
  match wt_predicate w line with Ret b => b | Throw _ => false end.

(** The body of the loop over the waiters in [handleMessage]. *)
Definition offer (line : string) (e : Engine) (w : Waiter) : Engine :=
  if matchesLine w line then
    {| en_waiters := dropWaiter (wt_id w) (en_waiters e);
       en_handlers := en_handlers e;
       en_timers := dropTimer (wt_id w) (en_timers e);
       en_settled := settle (wt_id w) (Resolved line) (en_settled e);
       en_sent := en_sent e;
       en_heard := en_heard e;
       en_next := en_next e |}
  else e.

Definition handleMessage (payload : Payload) (e : Engine) : Engine :=
  let line := payloadLine payload in
  match line with
  | EmptyString => e
  | _ =>
      let e1 := fold_left (offer line) (rev (en_waiters e)) e in
      {| en_waiters := en_waiters e1;
         en_handlers := en_handlers e1;
         en_timers := en_timers e1;
         en_settled := en_settled e1;
         en_sent := en_sent e1;
         en_heard := (en_heard e1 ++ map (fun h => (h, line)) (en_handlers e1))%list;
         en_next := en_next e1 |}
  end.

(** [waitFor(predicate, timeout)]: the id of the new promise. *)
Definition waitFor (predicate : string -> Res bool) (timeout : Z) (e : Engine) : nat * Engine :=
  let k := en_next e in
  (k, {| en_waiters := (en_waiters e ++ [{| wt_id := k; wt_predicate := predicate |}])%list;
         en_handlers := en_handlers e;
         en_timers := (en_timers e ++ [(k, timeout)])%list;
         en_settled := en_settled e;
         en_sent := en_sent e;
         en_heard := en_heard e;
         en_next := S k |}).

Definition timeoutError : string := "timeout waiting for engine response".

(** The callback of the timer of waiter [k]; a cleared timer never runs. *)
Definition timerFires (k : nat) (e : Engine) : Engine :=
  if existsb (fun t => (fst t =? k)%nat) (en_timers e) then
    {| en_waiters := dropWaiter k (en_waiters e);
       en_handlers := en_handlers e;
       en_timers := dropTimer k (en_timers e);
       en_settled := settle k (Rejected timeoutError) (en_settled e);
       en_sent := en_sent e;
       en_heard := en_heard e;
       en_next := en_next e |}
  else e.

(** [send(command)] *)
Definition send (command : string) (e : Engine) : Engine :=
  {| en_waiters := en_waiters e; en_handlers := en_handlers e; en_timers := en_timers e;
     en_settled := en_settled e; en_sent := (en_sent e ++ [command])%list;
     en_heard := en_heard e; en_next := en_next e |}.

(** [onMessage(handler)]: [handlers.add(handler)].  A handler is a
    function, told from others by its identity [handler]; the set keeps
    one that is registered already where it is. *)
Definition onMessage (handler : nat) (e : Engine) : Engine :=
  {| en_waiters := en_waiters e;
     en_handlers := if existsb (Nat.eqb handler) (en_handlers e) then en_handlers e
                    else (en_handlers e ++ [handler])%list;
     en_timers := en_timers e; en_settled := en_settled e; en_sent := en_sent e;
     en_heard := en_heard e; en_next := en_next e |}.

(** A function an asynchronous call creates for itself, as
    [analyzeWithStockfish] does with its info handler: its identity is
    the next number that the session has not used and no registered
    handler bears. *)
Definition newFunction (e : Engine) : nat * Engine :=
  let h := fold_right (fun x unused => Nat.max (S x) unused) (en_next e) (en_handlers e) in
  (h, {| en_waiters := en_waiters e; en_handlers := en_handlers e;
         en_timers := en_timers e; en_settled := en_settled e; en_sent := en_sent e;
         en_heard := en_heard e; en_next := S h |}).

(** The function [onMessage] returns: [handlers.delete(handler)]. *)
Definition removeListener (h : nat) (e : Engine) : Engine :=
  {| en_waiters := en_waiters e;
     en_handlers := List.filter (fun x => negb (x =? h)%nat) (en_handlers e);
     en_timers := en_timers e; en_settled := en_settled e; en_sent := en_sent e;
     en_heard := en_heard e; en_next := en_next e |}.

(** The lines handler [h] has been called with. *)
Definition heardBy (h : nat) (e : Engine) : list string :=
  map snd (List.filter (fun x => (fst x =? h)%nat) (en_heard e)).

(** What happens to a session from outside: the worker posts a message,
    or the timer of a waiter runs out. *)
Inductive Event := Message (p : Payload) | Timer (k : nat).

Definition happen (ev : Event) (e : Engine) : Engine :=
  match ev with
  | Message p => handleMessage p e
  | Timer k => timerFires k e
  end.

(** *** Asynchronous functions of the adapter *)

(** An [async] function, as the tree of what it does next: finish,
    throw, post a command, await a [waitFor] promise, register a handler
    it creates or remove it, or read what a handler collected. *)
Inductive Proc (A : Type) : Type :=
| Done (a : A)
| Fail (e : string)
| Send (command : string) (next : Proc A)
| Await (predicate : string -> Res bool) (timeout : Z) (next : Res string -> Proc A)
| Listen (next : nat -> Proc A)
| Unlisten (h : nat) (next : Proc A)
| Heard (h : nat) (next : list string -> Proc A).
Arguments Done {A} a.
Arguments Fail {A} e.
Arguments Send {A} command next.
Arguments Await {A} predicate timeout next.
Arguments Listen {A} next.
Arguments Unlisten {A} h next.
Arguments Heard {A} h next.

(** [await p] followed by the rest of the function. *)
Fixpoint andThen {A B} (p : Proc A) (k : A -> Proc B) : Proc B :=
  match p with
  | Done a => k a
  | Fail e => Fail e
  | Send c next => Send c (andThen next k)
  | Await pr t next => Await pr t (fun r => andThen (next r) k)
  | Listen next => Listen (fun h => andThen (next h) k)
  | Unlisten h next => Unlisten h (andThen next k)
  | Heard h next => Heard h (fun ls => andThen (next ls) k)
  end.

(** [try { await p } catch (err) { handler }] *)
Fixpoint recover {A} (p : Proc A) (handler : string -> Proc A) : Proc A :=
  match p with
  | Done a => Done a
  | Fail e => handler e
  | Send c next => Send c (recover next handler)
  | Await pr t next => Await pr t (fun r => recover (next r) handler)
  | Listen next => Listen (fun h => recover (next h) handler)
  | Unlisten h next => Unlisten h (recover next handler)
  | Heard h next => Heard h (fun ls => recover (next ls) handler)
  end.

(** An asynchronous call in flight: suspended on the promise of waiter
    [k], or finished with a value or an error. *)
Inductive Task (A : Type) : Type :=
| Blocked (k : nat) (next : Res string -> Proc A)
| Finished (r : Res A).
Arguments Blocked {A} k next.
Arguments Finished {A} r.

(** Run a function until its next [await] suspends it. *)
Fixpoint start {A} (p : Proc A) (e : Engine) : Task A * Engine :=
  match p with
  | Done a => (Finished (Ret a), e)
  | Fail err => (Finished (Throw err), e)
  | Send c next => start next (send c e)
  | Await pr t next => let (k, e') := waitFor pr t e in (Blocked k next, e')
  | Listen next => let (h, e') := newFunction e in start (next h) (onMessage h e')
  | Unlisten h next => start next (removeListener h e)
  | Heard h next => start (next (heardBy h e)) e
  end.

(** One event reaches the session; a task whose promise it settles
    resumes right after. *)
Definition deliver {A} (st : Task A * Engine) (ev : Event) : Task A * Engine :=
  let (task, e) := st in
  let e' := happen ev e in
  match task with
  | Blocked k next =>
      match en_settled e' !! k with
      | Some (Resolved line) => start (next (Ret line)) e'
      | Some (Rejected err) => start (next (Throw err)) e'
      | None => (task, e')
      end
  | Finished _ => (task, e')
  end.

Definition deliverAll {A} (st : Task A * Engine) (evs : list Event) : Task A * Engine :=
  fold_left deliver evs st.

(** [line => line.trim() === 'readyok'] *)
Definition isReadyOk (line : string) : Res bool := Ret (String.eqb (trim line) "readyok").

(** [line => line.startsWith('bestmove ')] *)
Definition isBestMove (line : string) : Res bool := Ret (String.prefix "bestmove " line).

(** [await engine.waitFor(predicate, timeout)]: a rejected promise throws. *)
Definition awaitLine (predicate : string -> Res bool) (timeout : Z) : Proc string :=
  Await predicate timeout (fun r => match r with Ret line => Done line | Throw e => Fail e end).

(** [isReady()] *)
Definition isReady : Proc unit :=
  Send "isready" (andThen (awaitLine isReadyOk 10000) (fun _ => Done tt)).

(** [setMultiPv(count)] *)
Definition setMultiPv (count : Z) : Proc unit :=
  Send ("setoption name MultiPV value " ++ showZ count) isReady.

(** One ranked line of the result. *)
Record Suggestion := {
  sg_multipv : Z;
  sg_san : option string;
  sg_uci : string;
  sg_depth : option Z;
  sg_displayScore : option string;
  sg_pv : list string;
  sg_pvSan : list string
}.

(** What [analyzeWithStockfish] returns when it has a best line. *)
Record Analysis := {
  an_source : string;
  an_depth : Z;
  an_best : option (option string * string);
  an_lines : list Suggestion
}.

Section Adapter.
Context {L : ChessLib}.

(** The ranked lines the info handler has collected from the lines it
    was called with, sorted by rank.  The handler parses each line with
    regular expressions; that parse is taken as given. *)
Variable collectSuggestions : string -> list string -> list Suggestion.

(** What [analyzeWithStockfish] does once the wait for the best move is
    over, with the line that ended it or with the error of its timeout. *)
Definition afterBestMove (sourceUrl fenText : string) (desiredDepth : Z) (h : nat)
    (r : Res string) : Proc (option Analysis) :=
  let bestLine := match r with Ret line => Some line | Throw _ => None end in
  Send "stop"
    (Unlisten h
       (andThen (recover isReady (fun _ => Done tt)) (fun _ =>
          match bestLine with
          | None | Some EmptyString => Done None
          | Some line =>
              let bestParts := splitSpaces line false in
              let bestUci := default "" (bestParts !! 1%nat) in
              let validBest :=
                negb (String.eqb bestUci "") && negb (String.eqb bestUci "(none)") in
              Heard h (fun heard =>
                match (if validBest then uciToSan fenText (Some bestUci) else Ret None) with
                | Throw e => Fail e
                | Ret bestSan =>
                    Done (Some {| an_source := sourceUrl;
                                  an_depth := desiredDepth;
                                  an_best := if validBest then Some (bestSan, bestUci) else None;
                                  an_lines := collectSuggestions fenText heard |})
                end)
          end))).

(** The end of [analyzeWithStockfish], from the wait for the best move on. *)
Definition finishAnalysis (sourceUrl fenText : string) (desiredDepth : Z) (h : nat)
  : Proc (option Analysis) :=
  Await isBestMove 15000 (afterBestMove sourceUrl fenText desiredDepth h).

(** [analyzeWithStockfish(engine, game)]; [None] is [null]. *)
Definition analyzeWithStockfish (sourceUrl : string) (g : game) : Proc (option Analysis) :=
  let fenText := fen g in
  match moves g with
  | Throw e => Fail e
  | Ret legalMoves =>
      match legalMoves with
      | [] => Done None
      | _ :: _ =>
          let multiPv := Z.min 5 (Z.max 1 (Z.of_nat (length legalMoves))) in
          andThen (recover (setMultiPv multiPv) (fun _ => Done tt)) (fun _ =>
          Listen (fun h =>
          andThen isReady (fun _ =>
          Send "ucinewgame"
          (andThen isReady (fun _ =>
          Send ("position fen " ++ fenText)
          (let totalMoves := Z.of_nat (length (history g)) in
           let desiredDepth := Z.min 18 (12 + totalMoves / 6) in
           Send ("go depth " ++ showZ desiredDepth)
             (finishAnalysis sourceUrl fenText desiredDepth h)))))))
      end
  end.

End Adapter.

(** ** A scripted chess library

    An implementation of [ChessLib] over positions written out by hand:
    every position lists its legal moves and the positions they lead to.
    It serves to run the search on concrete inputs. *)

(** A position: its FEN, side to move, board, whether the side to move is
    in check, checkmated or stalemated, whether the move generator fails
    on it, and its legal moves with the positions they reach. *)
#[local] Set Warnings "-register-all".
Inductive Pos :=
| MkPos (pfen : string) (pturn : Color) (pboard : option Board)
    (pcheck pmate pstale : bool) (pbroken : bool) (pmoves : list (Move * Pos)).

Definition pos_fen (p : Pos) : string := let 'MkPos f _ _ _ _ _ _ _ := p in f.
Definition pos_turn (p : Pos) : Color := let 'MkPos _ t _ _ _ _ _ _ := p in t.
Definition pos_board (p : Pos) : option Board := let 'MkPos _ _ b _ _ _ _ _ := p in b.
Definition pos_check (p : Pos) : bool := let 'MkPos _ _ _ c _ _ _ _ := p in c.
Definition pos_mate (p : Pos) : bool := let 'MkPos _ _ _ _ m _ _ _ := p in m.
Definition pos_stale (p : Pos) : bool := let 'MkPos _ _ _ _ _ s _ _ := p in s.
Definition pos_broken (p : Pos) : bool := let 'MkPos _ _ _ _ _ _ b _ := p in b.
Definition pos_moves (p : Pos) : list (Move * Pos) := let 'MkPos _ _ _ _ _ _ _ ms := p in ms.

(** An instance: the current position and the moves played to reach it,
    latest first, each with the position it was played from. *)
Record Scripted := { now : Pos; past : list (Move * Pos) }.

Definition fresh (p : Pos) : Scripted := {| now := p; past := [] |}.

Definition guarded {A} (p : Pos) (a : A) : Res A :=
  if pos_broken p then Throw "move generation failed" else Ret a.

(** Whether a listed move is the one [chess.move] is asked for. *)
Definition answers (a : MoveArg) (m : Move) : bool :=
  String.eqb (m_from m) (a_from a) && String.eqb (m_to m) (a_to a)
  && match m_promotion m with
     | Some t => match a_promotion a with
                 | Some s => String.eqb s (pieceChar t)
                 | None => false
                 end
     | None => true
     end.

Definition scriptedMove (g : Scripted) (a : MoveArg) : Res (option (Move * Scripted)) :=
  match find (fun mp => answers a (fst mp)) (pos_moves (now g)) with
  | Some (m, p) => Ret (Some (m, {| now := p; past := (m, now g) :: past g |}))
  | None => Ret None
  end.

Definition scriptedUndo (g : Scripted) : Res Scripted :=
  match past g with
  | (_, p) :: earlier => Ret {| now := p; past := earlier |}
  | [] => Ret g
  end.

(** The library over a book of known positions: [new Chess(fen)] finds
    the position with that FEN in the book and throws for any other text;
    [new Chess()] gives the first position of the book. *)
Definition scriptedLib (book : list Pos) : ChessLib := {|
  game := Scripted;
  newChess :=
    match book with
    | p :: _ => Ret (fresh p)
    | [] => Throw "Chess.js library is not available"
    end;
  loadChess f :=
    match find (fun p => String.eqb (pos_fen p) f) book with
    | Some p => Ret (fresh p)
    | None => Throw "invalid FEN"
    end;
  turn g := pos_turn (now g);
  fen g := pos_fen (now g);
  board g := pos_board (now g);
  history g := rev (map fst (past g));
  moves g := guarded (now g) (map fst (pos_moves (now g)));
  in_check g := guarded (now g) (pos_check (now g));
  in_checkmate g := Ret (pos_mate (now g));
  in_stalemate g := Ret (pos_stale (now g));
  game_over g := Ret (pos_mate (now g) || pos_stale (now g));
  move := scriptedMove;
  undo := scriptedUndo
|}.

(** ** What the claims speak about *)

Section Notions.
Context {N : Num} {L : ChessLib}.

(** The stop predicate answers true at the entry of a call. *)
Definition stopRequested (env : Env) (w : World) : bool :=
  match shouldStop env with
  | Some stop => stop (w_polls w)
  | None => false
  end.

(** A deadline is set and the clock, read at the entry of a call, is
    past it. *)
Definition deadlinePassed (env : Env) (w : World) : bool :=
  match deadline env, nowFn env with
  | Some d, Some clock => truthy d && (d <? clock (w_ticks w))%num
  | _, _ => false
  end.

(** The world after a cancelled call: one more timeout counted, the
    position, the table, the search tables and the node count as they
    were. *)
Definition onlyTimeoutCounted (w w' : World) : Prop :=
  w_game w' = w_game w /\ w_table w' = w_table w /\ w_meta w' = w_meta w
  /\ nodes (w_stats w') = nodes (w_stats w)
  /\ timeouts (w_stats w') = Some (default 0 (timeouts (w_stats w)) + 1).

(** A computation that cannot run out of recursion budget. *)
Definition finishes {A} (c : M A) : Prop := forall w, fst (c w) <> OutOfFuel.

End Notions.

(** *** Concrete positions *)

(** A quiet move of [piece] from [from] to [to]. *)
Definition quietMove (c : Color) (from to : string) (piece : PieceType) (san : string) : Move :=
  {| m_color := c; m_from := from; m_to := to; m_flags := "n"; m_piece := piece;
     m_captured := None; m_promotion := None; m_san := san |}.

Definition pc (t : PieceType) (c : Color) : option Piece := Some {| ptype := t; pcolor := c |}.

Definition backRank (c : Color) : list (option Piece) :=
  [pc Rook c; pc Knight c; pc Bishop c; pc Queen c; pc King c; pc Bishop c; pc Knight c; pc Rook c].

(** The board of the initial position. *)
Definition initialBoard : Board :=
  [ backRank Black; replicate 8 (pc Pawn Black);
    replicate 8 None; replicate 8 None; replicate 8 None; replicate 8 None;
    replicate 8 (pc Pawn White); backRank White ].

Definition fileNames : list string := ["a"; "b"; "c"; "d"; "e"; "f"; "g"; "h"].

(** A position whose continuation is not written out. *)
Definition unexplored (c : Color) : Pos := MkPos "" c None false false false false [].

(** The twenty moves of a side in the initial position: sixteen pawn
    moves and four knight moves. *)
Definition openingMoves (c : Color) : list (Move * Pos) :=
  let home := match c with White => "2" | Black => "7" end in
  let one := match c with White => "3" | Black => "6" end in
  let two := match c with White => "4" | Black => "5" end in
  let back := match c with White => "1" | Black => "8" end in
  (flat_map
     (fun f => [ (quietMove c (f ++ home) (f ++ one) Pawn (f ++ one), unexplored (opposite c));
                 (quietMove c (f ++ home) (f ++ two) Pawn (f ++ two), unexplored (opposite c)) ])
     fileNames
   ++ map (fun ft => (quietMove c (fst ft ++ back) (snd ft ++ one) Knight ("N" ++ snd ft ++ one),
                      unexplored (opposite c)))
        [("b", "a"); ("b", "c"); ("g", "f"); ("g", "h")])%list.

Definition initialFen (c : Color) : string :=
  "rnbqkbnr/pppppppp/8/8/8/8/PPPPPPPP/RNBQKBNR " ++ colorChar c ++ " KQkq - 0 1".

(** The initial position with [c] to move. *)
Definition initialPos (c : Color) : Pos :=
  MkPos (initialFen c) c (Some initialBoard) false false false false (openingMoves c).

(** A book that knows the initial position with either side to move. *)
Definition openingBook : list Pos := [initialPos White; initialPos Black].

(** A context without history: no move played, nobody castled. *)
Definition freshContext : EvalContext :=
  {| moveCount := 0; ctxHistory := []; repeatedFlankMoves := bothSides 0;
     castled := bothSides false; kingMoved := bothSides false |}.

(** A stalemated position [B], a position [A] whose only legal move leads
    there, a position [C] in which the side to move is checkmated, and a
    position [D] on which the move generator fails, reached by the only
    move of [E]. *)
Definition posB : Pos := MkPos "B b" Black None false false true false [].
Definition moveAB : Move := quietMove White "a1" "a2" King "Ka2".
Definition posA : Pos := MkPos "A w" White None false false false false [(moveAB, posB)].
Definition posC : Pos := MkPos "C b" Black None true true false false [].
Definition posD : Pos := MkPos "D b" Black None false false false true [].
Definition moveED : Move := quietMove White "e1" "e2" King "Ke2".
Definition posE : Pos := MkPos "E w" White None false false false false [(moveED, posD)].

Definition smallBook : list Pos := [posA; posB; posC; posD; posE].

(** The scripted library over the small book, with exact arithmetic. *)
Definition smallLib : ChessLib := scriptedLib smallBook.

(** A world in which the search has done nothing yet. *)
Definition worldAt (p : Pos) : @World QNum smallLib :=
  {| w_game := (fresh p : @game smallLib); w_table := ∅;
     w_stats := {| nodes := 0; timeouts := Some 0 |};
     w_meta := Some (@createSearchMeta QNum); w_ticks := 0; w_polls := 0 |}.

(** A caller that asks to stop at once, and one that never does and sets
    no deadline. *)
Definition stopAtOnce : @Env QNum :=
  {| deadline := None; nowFn := None; shouldStop := Some (fun _ => true) |}.
Definition unhurried : @Env QNum :=
  {| deadline := None; nowFn := None; shouldStop := None |}.

(** A table that already holds a deeper result for position [A]. *)
Definition deeperTable : gmap string (@TTEntry QNum) :=
  {[ "A w" := {| e_depth := 3; e_value := @Fin QNum 5%Q; e_flag := Upper; e_best := None |} ]}.

Definition worldWithDeeperEntry : @World QNum smallLib :=
  {| w_game := (fresh posA : @game smallLib); w_table := deeperTable;
     w_stats := {| nodes := 0; timeouts := Some 0 |};
     w_meta := Some (@createSearchMeta QNum); w_ticks := 0; w_polls := 0 |}.

(** *** Mirrored positions *)

Definition swapPiece (p : Piece) : Piece :=
  {| ptype := ptype p; pcolor := opposite (pcolor p) |}.

(** The board with all colors swapped and the ranks in reverse order. *)
Definition mirrorBoard (b : Board) : Board :=
  rev (map (map (option_map swapPiece)) b).

(** Eight ranks of eight squares, as chess.js returns them. *)
Definition eightByEight (b : Board) : Prop :=
  length b = 8%nat /\ Forall (fun rank => length rank = 8%nat) b.

Definition isKingOf (c : Color) (cell : option Piece) : bool :=
  match cell with
  | Some p => PieceType_eqb (ptype p) King && Color_eqb (pcolor p) c
  | None => false
  end.

(** The number of kings of a color on the board. *)
Definition kingCount (c : Color) (b : Board) : nat :=
  length (List.filter (isKingOf c) (concat b)).

(** A context without history-dependent asymmetry. *)
Definition balanced (ctx : EvalContext) : Prop :=
  wside (castled ctx) = bside (castled ctx)
  /\ wside (kingMoved ctx) = bside (kingMoved ctx)
  /\ wside (repeatedFlankMoves ctx) = bside (repeatedFlankMoves ctx).

(** What can happen to a session while a waiter is registered: an event
    from outside, or a call of one of the methods of the engine. *)
Inductive Step :=
| Occurs (ev : Event)
| Registers (predicate : string -> Res bool) (timeout : Z)
| Posts (command : string)
| AddsHandler (h : nat)
| RemovesHandler (h : nat).

Definition perform (e : Engine) (s : Step) : Engine :=
  match s with
  | Occurs ev => happen ev e
  | Registers predicate timeout => snd (waitFor predicate timeout e)
  | Posts command => send command e
  | AddsHandler h => onMessage h e
  | RemovesHandler h => removeListener h e
  end.

Definition performAll (e : Engine) (steps : list Step) : Engine :=
  fold_left perform steps e.

(** The ids a session has handed out are below its counter. *)
Definition idsBelowCounter (e : Engine) : Prop :=
  (forall w, In w (en_waiters e) -> (wt_id w < en_next e)%nat)
  /\ (forall k, is_Some (en_settled e !! k) -> (k < en_next e)%nat)
  /\ (forall t, In t (en_timers e) -> (fst t < en_next e)%nat).

(** Waiter [k] is registered with [predicate], its timer is pending and
    its promise is not settled. *)
Definition waiting (k : nat) (predicate : string -> Res bool) (e : Engine) : Prop :=
  (exists w, In w (en_waiters e) /\ wt_id w = k)
  /\ (forall w, In w (en_waiters e) -> wt_id w = k -> wt_predicate w = predicate)
  /\ existsb (fun t => (fst t =? k)%nat) (en_timers e) = true
  /\ en_settled e !! k = None
  /\ (k < en_next e)%nat.

(** No waiter with id [k] is registered. *)
Definition notRegistered (k : nat) (e : Engine) : Prop :=
  forall w, In w (en_waiters e) -> wt_id w <> k.

(** A step that neither brings a line waiter [k] accepts nor runs its
    timer out: a message without text or with a line the predicate does
    not accept, the timer of another waiter, or any method call. *)
Definition quiet (k : nat) (predicate : string -> Res bool) (s : Step) : Prop :=
  match s with
  | Occurs (Message p) => payloadLine p = "" \/ predicate (payloadLine p) <> Ret true
  | Occurs (Timer j) => j <> k
  | _ => True
  end.

(** No waiter of [l] that accepts [line] has id [j]. *)
Definition spares (line : string) (l : list Waiter) (j : nat) : Prop :=
  forall m, In m l -> matchesLine m line = true -> wt_id m <> j.

(** A predicate that accepts every line. *)
Definition acceptAll (line : string) : Res bool := Ret true.

(** *** The evaluation, term by term

    The notions below describe what the loops of [evaluatePosition]
    compute: the list of occupied squares it visits, the records it
    collects, and the term each stage adds to the running total. *)

(** The occupied squares of a rank, from file [col] on. *)
Fixpoint cells (row col : Z) (rank : list (option Piece)) : list PieceInfo :=
  match rank with
  | [] => []
  | Some p :: r => {| pi_piece := p; pi_row := row; pi_col := col |} :: cells row (col + 1) r
  | None :: r => cells row (col + 1) r
  end.

(** The occupied squares of a board, from rank index [row] on, in the
    order in which [evaluatePosition] visits them. *)
Fixpoint occupiedFrom (row : Z) (b : Board) : list PieceInfo :=
  match b with
  | [] => []
  | rank :: rest => (cells row 0 rank ++ occupiedFrom (row + 1) rest)%list
  end.

(** The occupied squares of the whole board. *)
Definition occupied (b : Board) : list PieceInfo := occupiedFrom 0 b.

(** The loop body on an occupied square. *)
Definition scanInfo {N : Num} (st : Scan) (i : PieceInfo) : Scan :=
  scanSquare st (pi_row i) (pi_col i) (Some (pi_piece i)).

(** Color, type and square name of a visited piece. *)
Definition colorOf (i : PieceInfo) : Color := pcolor (pi_piece i).
Definition typeOf (i : PieceInfo) : PieceType := ptype (pi_piece i).
Definition squareOf (i : PieceInfo) : string :=
  squareName (Z.to_nat (pi_row i)) (Z.to_nat (pi_col i)).

(** The tests of the loop on the type and the color of a piece. *)
Definition isType (t : PieceType) (i : PieceInfo) : bool := PieceType_eqb (typeOf i) t.
Definition isColor (c : Color) (i : PieceInfo) : bool := Color_eqb (colorOf i) c.

(** A knight or bishop on one of the minor-piece start squares. *)
Definition minorAtHome (i : PieceInfo) : bool :=
  (isType Knight i || isType Bishop i) && has minorPieceStartSquares (squareOf i).

(** The records pushed for a pawn, a rook and a king. *)
Definition pawnOf (i : PieceInfo) : PawnInfo :=
  {| pw_file := pi_col i; pw_rank := 8 - pi_row i; pw_square := squareOf i |}.
Definition rookOf (i : PieceInfo) : RookInfo :=
  {| rk_file := pi_col i; rk_row := pi_row i; rk_square := squareOf i |}.
Definition kingOf (i : PieceInfo) : KingInfo :=
  {| kg_row := pi_row i; kg_col := pi_col i; kg_square := squareOf i |}.

(** The king of a color as the scan records it. *)
Definition kingIn {N : Num} (c : Color) (st : Scan) : option KingInfo :=
  match c with White => whiteKing st | Black => blackKing st end.
Definition kingSquareIn {N : Num} (c : Color) (st : Scan) : option string :=
  match c with White => whiteKingSquare st | Black => blackKingSquare st end.

(** The bonus for standing on a centre square. *)
Definition centerStep {N : Num} (t : num) (i : PieceInfo) : num :=
  if has coreCenterSquares (squareOf i)
  then (t + (if isWhite (colorOf i) then lit 8 100 else - lit 8 100))%num
  else if has extendedCenterSquares (squareOf i)
  then (t + (if isWhite (colorOf i) then lit 5 100 else - lit 5 100))%num
  else t.

(** A piece of type [t] and color [c]. *)
Definition selects (t : PieceType) (c : Color) (i : PieceInfo) : bool :=
  isType t i && isColor c i.

(** A piece record seen from the other side: colors swapped, the rank
    index reflected in [s]. *)
Definition reflectInfo (s : Z) (i : PieceInfo) : PieceInfo :=
  {| pi_piece := swapPiece (pi_piece i); pi_row := s - pi_row i; pi_col := pi_col i |}.

(** The same on the board of eight ranks. *)
Definition mirrorInfo : PieceInfo -> PieceInfo := reflectInfo 7.

(** Rank and file indices of the board of eight by eight squares. *)
Definition onBoard (i : PieceInfo) : Prop :=
  0 <= pi_row i <= 7 /\ 0 <= pi_col i <= 7.

(** The indices a loop over eight files runs through. *)
Definition indices8 : list Z := [0; 1; 2; 3; 4; 5; 6; 7].

(** The square at rank index [r], file [c] is in [s] exactly if the
    reflected square is in [s']. *)
Definition sameIn (s s' : list string) (r c : Z) : bool :=
  Bool.eqb (has s' (squareName (Z.to_nat (7 - r)) (Z.to_nat c)))
           (has s (squareName (Z.to_nat r) (Z.to_nat c))).

Section ExactTerms.
#[local] Existing Instance QNum.
Local Open Scope Q_scope.

(** The sum of a list of rationals. *)
Fixpoint sumQ (l : list Q) : Q :=
  match l with
  | [] => 0
  | x :: r => x + sumQ r
  end.

(** The centre bonus of one piece. *)
Definition centerTerm (i : PieceInfo) : Q :=
  if has coreCenterSquares (squareOf i)
  then (if isWhite (colorOf i) then 8 # 100 else - (8 # 100))
  else if has extendedCenterSquares (squareOf i)
  then (if isWhite (colorOf i) then 5 # 100 else - (5 # 100))
  else 0.

(** Material and placement of one piece. *)
Definition materialTerm (kingPhaseWeight : Q) (i : PieceInfo) : Q :=
  signed (colorOf i)
    (pieceValues (typeOf i) + pieceSquareValue (pi_piece i) (pi_row i) (pi_col i) kingPhaseWeight)%num.

(** The pawns of a color on a file. *)
Definition onFile (c : Color) (f : Z) (i : PieceInfo) : bool :=
  selects Pawn c i && (pi_col i =? f)%Z.

(** Their number. *)
Definition pawnsOnFile (c : Color) (b : Board) (f : Z) : Z :=
  Z.of_nat (length (List.filter (onFile c f) (occupied b))).

(** What the rook loop adds for one rook, and for all rooks of a color. *)
Definition rookTerm (fc : ByColor (list Z)) (c : Color) (rook : RookInfo) : Q :=
  signed c (rookBonus fc c rook).

Definition rookSum (st : Scan) (c : Color) : Q :=
  sumQ (map (rookTerm (fileCounts st) c) (side c (rooks st))).

(** What the file loop and the passed-pawn loop add for a color. *)
Definition fileSum (st : Scan) (c : Color) : Q :=
  sumQ (map (fileTerm (fileCounts st) c 0) indices8).

Definition passedSum (st : Scan) (c : Color) : Q :=
  sumQ (map (passedTerm (pawns st) c 0) (side c (pawns st))).

(** The king of a color that the scan ends with: the last one it meets. *)
Definition theKing (c : Color) (xs : list PieceInfo) : option PieceInfo :=
  match List.filter (selects King c) xs with
  | [] => None
  | y :: r => Some (List.last r y)
  end.

(** The contribution of one neighbouring square to [exposed]. *)
Definition exposure (b : Board) (r c : Z) : Z :=
  if (r <? 0)%Z || (7 <? r)%Z || (c <? 0)%Z || (7 <? c)%Z then 0%Z
  else match boardAt b r c with
       | None => 1%Z
       | Some _ => 0%Z
       end.

(** [kingPhaseWeight] *)
Definition kingPhase (st : Scan) : Q := nmin (lit 1 1) (ofZ (phaseScore st) / ofZ 24)%num.

(** The bishop-pair bonus of a color. *)
Definition bishopPair (st : Scan) (c : Color) : Q :=
  if (2 <=? bishops (side c (pieceTally st)))%Z then 35 # 100 else 0.

(** Pawn shield and open-king penalty of the king of a color. *)
Definition shieldOf (b : Board) (c : Color) : Q :=
  kingShieldContribution b c (kingIn c (scanBoard b)).

Definition openOf (b : Board) (c : Color) : Q :=
  openKingPenalty b c (kingIn c (scanBoard b)).

(** The opening penalty for minor pieces still at home. *)
Definition minorPenalty (ctx : EvalContext) (st : Scan) (c : Color) : Q :=
  if (moveCount ctx <? 20)%Z
  then inject_Z (side c (minorsOnHome st))
       * ((11 # 100) + inject_Z (Z.max 0 (18 - moveCount ctx)) * (4 # 1000))
  else 0.

(** The penalty for repeated flank pawn moves. *)
Definition flankPenalty (ctx : EvalContext) (c : Color) : Q :=
  inject_Z (side c (repeatedFlankMoves ctx)) * (24 # 100).

(** The squares on which a king that has not castled is penalised. *)
Definition homeSquares (c : Color) : list string :=
  match c with White => ["e1"; "d1"] | Black => ["e8"; "d8"] end.

(** The penalty for a king that has not castled and is still at home. *)
Definition uncastledPenalty (ctx : EvalContext) (st : Scan) (c : Color) : Q :=
  if negb (side c (castled ctx)) && (moveCount ctx <? 30)%Z
     && opt_in (homeSquares c) (kingSquareIn c st)
  then (2 # 10) + inject_Z (Z.max 0 (moveCount ctx - 12)) * (16 # 1000)
  else 0.

(** The bonus for having castled. *)
Definition castledBonus (ctx : EvalContext) (c : Color) : Q :=
  if side c (castled ctx) then 5 # 100 else 0.

(** Mobility and tempo. *)
Definition mobilityTerm (whiteMobility blackMobility : Z) : Q :=
  inject_Z (whiteMobility - blackMobility) * (16 # 1000).

Definition tempoTerm (toMove : Color) : Q :=
  if isWhite toMove then 15 # 1000 else - (15 # 1000).

(** The value of [evaluateBoard], term by term. *)
Definition boardSum (b : Board) (ctx : EvalContext) (wm bm : Z) (toMove : Color) : Q :=
  let st := scanBoard b in
  sumQ (map centerTerm (occupied b))
  + sumQ (map (materialTerm (kingPhase st)) (occupied b))
  + bishopPair st White - bishopPair st Black
  + (rookSum st White + rookSum st Black)
  + (fileSum st White + passedSum st White + (fileSum st Black + passedSum st Black))
  + shieldOf b White - shieldOf b Black
  - openOf b White + openOf b Black
  - minorPenalty ctx st White + minorPenalty ctx st Black
  - flankPenalty ctx White + flankPenalty ctx Black
  - uncastledPenalty ctx st White + uncastledPenalty ctx st Black
  + castledBonus ctx White - castledBonus ctx Black
  + mobilityTerm wm bm
  + tempoTerm toMove.

(** The length of a list as a rational. *)
Definition lenQ {A} (xs : list A) : Q := inject_Z (Z.of_nat (length xs)).

(** Every entry of a table lies between -0.5 and 0.5. *)
Definition entriesWithin (table : list Z) : bool :=
  forallb (fun z => (-500 <=? z)%Z && (z <=? 500)%Z) table.

(** A context as [createEvaluationContext] builds them: a move count
    that is not negative and at most twenty repeated flank moves a
    side. *)
Definition plausible (ctx : EvalContext) : Prop :=
  (0 <= moveCount ctx)%Z
  /\ forall c, (0 <= side c (repeatedFlankMoves ctx) <= 20)%Z.

End ExactTerms.

(** [g'] is [g] seen from the other side, as the library reports both:
    the board mirrored with the colors swapped, the other side to move,
    the numbers of legal moves of the two sides exchanged.  The board
    has eight ranks of eight squares and at most one king a side. *)
Definition mirrored {L : ChessLib} (g g' : game) : Prop :=
  exists b,
    board g = Some b /\ board g' = Some (mirrorBoard b)
    /\ eightByEight b
    /\ (forall c, (kingCount c b <= 1)%nat)
    /\ turn g' = opposite (turn g)
    /\ forall c, sideMobility g' c = sideMobility g (opposite c).

(** A position on the board of eight by eight squares in which no side
    has more than a thousand legal moves, with a plausible context if
    one is given. *)
Definition standard {L : ChessLib} (g : game) (context : option EvalContext) : Prop :=
  (forall b, board g = Some b -> eightByEight b)
  /\ (forall ctx, context = Some ctx -> plausible ctx)
  /\ (forall c, sideMobility g c <= 1000).

(** The scripted library over the opening book. *)
Definition openingLib : ChessLib := scriptedLib openingBook.

(** A world of the opening library in which the search has done nothing
    yet. *)
Definition openingWorld (p : Pos) : @World QNum openingLib :=
  {| w_game := (fresh p : @game openingLib); w_table := ∅;
     w_stats := {| nodes := 0; timeouts := Some 0 |};
     w_meta := Some (@createSearchMeta QNum); w_ticks := 0; w_polls := 0 |}.

(** Search tables that hold two killer moves at ply 0. *)
Definition twoKillers : @SearchMeta QNum :=
  {| killerMoves := {[ 0 := ["a1-a2-"; "b1-b2-"] ]}; historyScores := ∅; orderingScores := ∅ |}.

(** *** Notions for the search tables and the move orderer *)

(** The stored history value of a move, 0 when it has none. *)
Definition storedHistory (sm : @SearchMeta QNum) (m : Move) : @num QNum :=
  default (@nzero QNum) (historyScores sm !! simpleMoveKey m).

(** The lines the worker posts during [steps]: the text of every message
    that has one. *)
Definition postedLines (steps : list Step) : list string :=
  flat_map
    (fun s =>
       match s with
       | Occurs (Message p) =>
           match payloadLine p with
           | EmptyString => []
           | line => [line]
           end
       | _ => []
       end)
    steps.

(** Every element of the list weighs at least as much as each one after
    it. *)
Fixpoint descendingBy {A} (weight : A -> Q) (l : list A) : Prop :=
  match l with
  | [] => True
  | a :: r => (forall b, In b r -> (weight b <= weight a)%Q) /\ descendingBy weight r
  end.

Section Frames.
Context {N : Num} {L : ChessLib}.

(** The transposition table, the statistics and the counters of clock
    readings and stop polls are the same in both worlds. *)
Definition sameTables (w w' : World) : Prop :=
  w_table w' = w_table w /\ w_stats w' = w_stats w
  /\ w_ticks w' = w_ticks w /\ w_polls w' = w_polls w.

(** A computation that leaves them alone however it ends. *)
Definition keepsTables {A} (c : M A) : Prop := forall w, sameTables w (snd (c w)).

(** The library applies [m] in position [g] and its undo gives [g] back. *)
Definition takenBack (g : game) (m : Move) : Prop :=
  exists applied after,
    move g (moveArgOf m) = Ret (Some (applied, after)) /\ undo after = Ret g.

(** The library applies every move it lists as legal, and its undo takes
    the move back. *)
Definition undoReverts : Prop :=
  forall g legal m, moves g = Ret legal -> In m legal -> takenBack g m.

(** A computation that, when it returns, has put the position back. *)
Definition restores {A} (c : M A) : Prop :=
  forall w v w', c w = (Val v, w') -> w_game w' = w_game w.

(** The moves [orderedMoves] ranks: all of them, or the forcing ones. *)
Definition ranked (captureOnly : bool) (m : Move) : bool :=
  negb captureOnly || isForcingMove m.

(** Every entry names one of the moves [legal]. *)
Definition allLegal (legal : list Move) (results : list (Move * Ext)) : Prop :=
  forall e, In e results -> In (fst e) legal.

(** The depth [analyzeFallback] sets out to reach: the depth asked for,
    or the one [chooseFallbackDepth] picks, capped and then raised as
    the options say. *)
Definition requestedDepth (options : Options) (moveCount legalCount : Z) : Z :=
  let targetDepth :=
    match o_depth options with
    | Some d => Z.max 1 d
    | None => chooseFallbackDepth moveCount legalCount
    end in
  let targetDepth :=
    match o_maxDepth options with Some c => Z.min targetDepth (Z.max 1 c) | None => targetDepth end in
  match o_minDepth options with Some f => Z.max targetDepth (Z.max 1 f) | None => targetDepth end.

End Frames.

(** *** Concrete inputs for the search tables and the sessions *)

(** A table that knows the best move of position [A]. *)
Definition bestOfA : gmap string (@TTEntry QNum) :=
  {[ "A w" := {| e_depth := 1; e_value := @Fin QNum 0%Q; e_flag := Exact;
                 e_best := Some {| bc_from := "a1"; bc_to := "a2"; bc_promotion := None |} |} ]}.



(** An info line, a message without text and a posted command. *)
Definition infoThenNothing : list Step :=
  [Occurs (Message (PText "info depth 1 pv e2e4")); Occurs (Message PNothing); Posts "stop"].

(** *** Rendering a principal variation *)

Section PvSan.
Context {L : ChessLib}.

(** The loop of [pvToSanSequence] on its scratch instance. *)
Fixpoint pvSanLoop (chess : game) (pvMoves : list string) : Res (list string) :=
  match pvMoves with
  | [] => Ret []
  | uci :: rest =>
      let from := substring 0 2 uci in
      let to := substring 2 2 uci in
      let promotion := if (4 <? String.length uci)%nat then Some (sliceFrom 4 uci) else None in
      match move chess {| a_from := from; a_to := to; a_promotion := promotion |} with
      | Throw e => Throw e
      | Ret None => Ret []
      | Ret (Some (mv, chess')) =>
          match pvSanLoop chess' rest with
          | Throw e => Throw e
          | Ret sanMoves => Ret (m_san mv :: sanMoves)
          end
      end
  end.

(** [pvToSanSequence(fen, pvMoves)]: the SAN of the moves up to the first
    one the position refuses, and the moves as they came when anything
    throws. *)
Definition pvToSanSequence (fenText : string) (pvMoves : list string) : list string :=
  match
    match createChessInstance (Some fenText) with
    | Throw e => Throw e
    | Ret chess => pvSanLoop chess pvMoves
    end
  with
  | Ret sanMoves => sanMoves
  | Throw _ => pvMoves
  end.

End PvSan.

(** ** The built-in engine

    The worker [buildBuiltinEngineSource] writes out: a UCI engine around
    [analyzeFallback].  Its settings are integers. *)

(** The double nearest to an integer, ties going to the even significand:
    the integer itself up to 53 bits, and [None], which is an infinity,
    from [2 ^ 1024] on. *)
Definition nearestDouble (z : Z) : option Z :=
  let size := Z.abs z in
  let bits := Z.log2 size + 1 in
  if bits <=? 53 then Some z
  else
    let shift := bits - 53 in
    let significand := Z.shiftr size shift in
    let rest := size - Z.shiftl significand shift in
    let half := Z.shiftl 1 (shift - 1) in
    let significand :=
      if (half <? rest) || ((rest =? half) && Z.odd significand)
      then significand + 1 else significand in
    let rounded := Z.shiftl significand shift in
    if 2 ^ 1024 <=? rounded then None else Some (Z.sgn z * rounded).

(** [parseInt(text, 10)]: white space, a sign, then the digits up to the
    first character that is none, as the number JavaScript makes of
    them.  [None] is [NaN] or an infinity: every caller asks
    [Number.isFinite] of the result and treats both alike. *)
Definition digitOf (c : ascii) : option Z :=
  let n := nat_of_ascii c in
  if (48 <=? n)%nat && (n <=? 57)%nat then Some (Z.of_nat n - 48) else None.

Fixpoint digitsFrom (s : string) (acc : option Z) : option Z :=
  match s with
  | EmptyString => acc
  | String c r =>
      match digitOf c with
      | Some d => digitsFrom r (Some (10 * default 0 acc + d))
      | None => acc
      end
  end.

Definition parseInt (text : string) : option Z :=
  let digits :=
    match trimStart text with
    | String "-" r => option_map Z.opp (digitsFrom r None)
    | String "+" r => digitsFrom r None
    | s => digitsFrom s None
    end in
  match digits with
  | Some z => nearestDouble z
  | None => None
  end.

(** [s.toLowerCase()] for a string of Latin-1 characters. *)
Definition lowerChar (c : ascii) : ascii :=
  let n := nat_of_ascii c in
  if ((65 <=? n)%nat && (n <=? 90)%nat)
     || ((192 <=? n)%nat && (n <=? 222)%nat && negb (n =? 215)%nat)
  then ascii_of_nat (n + 32) else c.

Fixpoint toLowerCase (s : string) : string :=
  match s with
  | EmptyString => EmptyString
  | String c r => String (lowerChar c) (toLowerCase r)
  end.

(** [list.slice(from, to)] for indices that are not negative. *)
Definition sliceList {A} (l : list A) (from to : nat) : list A :=
  take (to - from) (drop from l).

(** The state of the worker. *)
Record Worker := {
  wk_currentFen : string;
  wk_multiPv : Z;
  wk_defaultMoveTime : Z;
  wk_forcedDepth : option Z;
  wk_searchId : Z;
  wk_stopRequested : bool;
  wk_closed : bool
}.

(** What [parseGo] collects. *)
Record GoParams := {
  g_depth : option Z;
  g_movetime : option Z;
  g_wtime : option Z;
  g_btime : option Z
}.

(** What handling one message did: the state it left, the lines it
    posted, and whether the handler returned, threw, or the search ran
    out of the recursion budget of the model. *)
Record Reply := {
  rp_worker : Worker;
  rp_sent : list string;
  rp_end : Out unit
}.

(** [parseGo(tokens)], from the token behind the command on. *)
Fixpoint parseGoFrom (tokens : list string) (result : GoParams) : GoParams :=
  match tokens with
  | [] => result
  | token :: rest =>
      match rest with
      | [] => result
      | value :: later =>
          if String.eqb token "depth" then
            parseGoFrom later
              match parseInt value with
              | Some v => {| g_depth := Some v; g_movetime := g_movetime result;
                             g_wtime := g_wtime result; g_btime := g_btime result |}
              | None => result
              end
          else if String.eqb token "movetime" then
            parseGoFrom later
              match parseInt value with
              | Some v => {| g_depth := g_depth result; g_movetime := Some v;
                             g_wtime := g_wtime result; g_btime := g_btime result |}
              | None => result
              end
          else if String.eqb token "wtime" then
            parseGoFrom later
              match parseInt value with
              | Some v => {| g_depth := g_depth result; g_movetime := g_movetime result;
                             g_wtime := Some v; g_btime := g_btime result |}
              | None => result
              end
          else if String.eqb token "btime" then
            parseGoFrom later
              match parseInt value with
              | Some v => {| g_depth := g_depth result; g_movetime := g_movetime result;
                             g_wtime := g_wtime result; g_btime := Some v |}
              | None => result
              end
          else parseGoFrom rest result
      end
  end.

Definition parseGo (tokens : list string) : GoParams :=
  parseGoFrom (drop 1 tokens)
    {| g_depth := None; g_movetime := None; g_wtime := None; g_btime := None |}.

(** [movesToUci]: one move as [from + to + promotion]. *)
Definition moveToUci (m : Move) : string := m_from m ++ m_to m ++ promotionText m.

Section BuiltinEngine.
Context {N : Num} {L : ChessLib}.
Local Open Scope num_scope.

(** The text of [Math.round((entry.score || 0) * 100)]; how a number is
    written out is taken as given. *)
Variable showCentipawns : Ext -> string.

(** [effectiveMoveTime(params, activeColor)] with the current
    [defaultMoveTime]. *)
Definition effectiveMoveTime (defaultMoveTime : Z) (params : GoParams) (activeColor : string)
  : num :=
  let byClock :=
    match (if String.eqb activeColor "w" then g_wtime params else None) with
    | Some wtime => nmax (ofZ 100) (ofZ wtime / ofZ 30)
    | None =>
        match (if String.eqb activeColor "b" then g_btime params else None) with
        | Some btime => nmax (ofZ 100) (ofZ btime / ofZ 30)
        | None => ofZ defaultMoveTime
        end
    end in
  match g_movetime params with
  | Some movetime => if (0 <? movetime)%Z then ofZ movetime else byClock
  | None => byClock
  end.

(** [createChessInstance().fen()] *)
Definition startFen : Res string :=
  match createChessInstance None with
  | Ret chess => Ret (fen chess)
  | Throw e => Throw e
  end.

(** The loop of [applyPosition] over the move tokens. *)
Fixpoint playTokens (chess : game) (moveTokens : list string) : Res game :=
  match moveTokens with
  | [] => Ret chess
  | EmptyString :: rest => playTokens chess rest
  | token :: rest =>
      let from := substring 0 2 token in
      let to := substring 2 2 token in
      let promotion :=
        if (4 <? String.length token)%nat then Some (substring 4 1 token) else None in
      match move chess {| a_from := from; a_to := to; a_promotion := promotion |} with
      | Throw e => Throw e
      | Ret None => Ret chess
      | Ret (Some (_, chess')) => playTokens chess' rest
      end
  end.

(** [applyPosition(tokens)]: the lines it posts and the new
    [currentFen], or what it throws. *)
Definition applyPosition (tokens : list string) : list string * Res string :=
  match tokens with
  | [] | [_] => ([], startFen)
  | _ :: second :: _ =>
      let movesIndex := indexOf "moves" tokens 0 in
      let given : Res string :=
        if String.eqb second "startpos" then startFen
        else if String.eqb second "fen" then
          let fenTokens :=
            match movesIndex with
            | None => drop 2 tokens
            | Some i => sliceList tokens 2 (Z.to_nat i)
            end in
          Ret (joinWith " " fenTokens)
        else Ret EmptyString in
      match given with
      | Throw e => ([], Throw e)
      | Ret text =>
          match (match text with EmptyString => startFen | _ => Ret text end) with
          | Throw e => ([], Throw e)
          | Ret fenText =>
              let '(sent, loaded) :=
                match createChessInstance (Some fenText) with
                | Ret chess => ([], Ret chess)
                | Throw _ =>
                    (["info string Invalid FEN supplied to built-in engine"],
                     createChessInstance None)
                end in
              match loaded with
              | Throw e => (sent, Throw e)
              | Ret chess =>
                  match
                    match movesIndex with
                    | None => Ret chess
                    | Some i => playTokens chess (drop (Z.to_nat i + 1) tokens)
                    end
                  with
                  | Throw e => (sent, Throw e)
                  | Ret chess' => (sent, Ret (fen chess'))
                  end
              end
          end
      end
  end.

(** The line [startSearch] posts for one entry of the result. *)
Definition infoLine (analysis : FallbackResult) (index : Z) (entry : Detail) : string :=
  let pvList := match d_pv entry with [] => [d_move entry] | _ :: _ => d_pv entry end in
  "info depth " ++ showZ (r_depth analysis)
  ++ " multipv " ++ showZ (index + 1)
  ++ " score cp " ++ showCentipawns (d_score entry)
  ++ " nodes " ++ showZ (r_considered analysis)
  ++ " pv " ++ joinWith " " (map moveToUci pvList).

(** [lines.forEach((entry, index) => send(...))] *)
Fixpoint infoLines (analysis : FallbackResult) (index : Z) (lines : list Detail) : list string :=
  match lines with
  | [] => []
  | entry :: rest => infoLine analysis index entry :: infoLines analysis (index + 1) rest
  end.

(** The closing line of a search. *)
Definition bestMoveLine (best : Detail) : string :=
  "bestmove " ++ moveToUci (d_move best)
  ++ match d_pv best with
     | _ :: second :: _ =>
         match moveToUci second with
         | EmptyString => EmptyString
         | ponderMove => " ponder " ++ ponderMove
         end
     | _ => EmptyString
     end.

(** [startSearch(params)]; [fuel] and [clock] are those of
    [analyzeFallback]. *)
Definition startSearch (fuel : nat) (clock : nat -> num) (params : GoParams) (w : Worker)
  : Reply :=
  let id := (wk_searchId w + 1)%Z in
  let w1 :=
    {| wk_currentFen := wk_currentFen w; wk_multiPv := wk_multiPv w;
       wk_defaultMoveTime := wk_defaultMoveTime w; wk_forcedDepth := wk_forcedDepth w;
       wk_searchId := id; wk_stopRequested := false; wk_closed := wk_closed w |} in
  let fenText := wk_currentFen w1 in
  let activeColor :=
    match splitOn " " fenText !! 1%nat with
    | Some (String _ _ as color) => color
    | _ => "w"
    end in
  let timeBudget := effectiveMoveTime (wk_defaultMoveTime w1) params activeColor in
  let depth := match g_depth params with Some d => Some d | None => wk_forcedDepth w1 end in
  match createChessInstance (Some fenText) with
  | Throw e => {| rp_worker := w1; rp_sent := []; rp_end := Err e |}
  | Ret g =>
      match
        fst (analyzeFallback fuel g
               {| o_depth := depth; o_maxDepth := depth; o_minDepth := None;
                  o_timeBudget := Some timeBudget;
                  o_shouldStop := Some (fun _ => wk_stopRequested w1) |}
               clock None)
      with
      | Err e => {| rp_worker := w1; rp_sent := []; rp_end := Err e |}
      | OutOfFuel => {| rp_worker := w1; rp_sent := []; rp_end := OutOfFuel |}
      | Val analysis =>
          if negb (id =? wk_searchId w1)%Z || wk_stopRequested w1 then
            {| rp_worker := w1; rp_sent := []; rp_end := Val tt |}
          else
            let lines := take (Z.to_nat (Z.max 1 (wk_multiPv w1))) (r_details analysis) in
            match lines with
            | [] => {| rp_worker := w1; rp_sent := ["bestmove 0000"]; rp_end := Val tt |}
            | best :: _ =>
                {| rp_worker := w1;
                   rp_sent := (infoLines analysis 0 lines ++ [bestMoveLine best])%list;
                   rp_end := Val tt |}
            end
      end
  end.

(** The [setoption] branch of the message handler. *)
Definition setOption (tokens : list string) (w : Worker) : Worker :=
  match indexOf "name" tokens 0 with
  | None => w
  | Some nameIndex =>
      let valueIndex := indexOf "value" tokens 0 in
      let name :=
        toLowerCase
          (joinWith " "
             match valueIndex with
             | None => drop (Z.to_nat nameIndex + 1) tokens
             | Some v => sliceList tokens (Z.to_nat nameIndex + 1) (Z.to_nat v)
             end) in
      let value :=
        match valueIndex with
        | Some v => joinWith " " (drop (Z.to_nat v + 1) tokens)
        | None => EmptyString
        end in
      let numeric := parseInt value in
      if String.eqb name "multipv" then
        match numeric with
        | Some n =>
            if (1 <=? n)%Z then
              {| wk_currentFen := wk_currentFen w; wk_multiPv := Z.max 1 n;
                 wk_defaultMoveTime := wk_defaultMoveTime w;
                 wk_forcedDepth := wk_forcedDepth w; wk_searchId := wk_searchId w;
                 wk_stopRequested := wk_stopRequested w; wk_closed := wk_closed w |}
            else w
        | None => w
        end
      else if String.eqb name "movetime" || String.eqb name "builtintime" then
        match numeric with
        | Some n =>
            if (0 <? n)%Z then
              {| wk_currentFen := wk_currentFen w; wk_multiPv := wk_multiPv w;
                 wk_defaultMoveTime := n;
                 wk_forcedDepth := wk_forcedDepth w; wk_searchId := wk_searchId w;
                 wk_stopRequested := wk_stopRequested w; wk_closed := wk_closed w |}
            else w
        | None => w
        end
      else if String.eqb name "depth" || String.eqb name "builtindepth" then
        {| wk_currentFen := wk_currentFen w; wk_multiPv := wk_multiPv w;
           wk_defaultMoveTime := wk_defaultMoveTime w;
           wk_forcedDepth :=
             match numeric with
             | Some n => if (0 <? n)%Z then Some n else None
             | None => None
             end;
           wk_searchId := wk_searchId w;
           wk_stopRequested := wk_stopRequested w; wk_closed := wk_closed w |}
      else w
  end.

Definition withFen (w : Worker) (fenText : string) (stop : bool) : Worker :=
  {| wk_currentFen := fenText; wk_multiPv := wk_multiPv w;
     wk_defaultMoveTime := wk_defaultMoveTime w; wk_forcedDepth := wk_forcedDepth w;
     wk_searchId := wk_searchId w; wk_stopRequested := stop; wk_closed := wk_closed w |}.

Definition quietly (w : Worker) : Reply := {| rp_worker := w; rp_sent := []; rp_end := Val tt |}.

(** [self.onmessage] for a message whose data is the string [raw]. *)
Definition onWorkerMessage (fuel : nat) (clock : nat -> num) (raw : string) (w : Worker)
  : Reply :=
  match trim raw with
  | EmptyString => quietly w
  | line =>
      let tokens := splitSpaces line false in
      let command := default EmptyString (head tokens) in
      if String.eqb command "uci" then
        {| rp_worker := w;
           rp_sent := ["id name ChessHelper Built-in Engine"; "id author SanFen Helper"; "uciok"];
           rp_end := Val tt |}
      else if String.eqb command "isready" then
        {| rp_worker := w; rp_sent := ["readyok"]; rp_end := Val tt |}
      else if String.eqb command "ucinewgame" then
        match startFen with
        | Ret fenText => quietly (withFen w fenText false)
        | Throw e => {| rp_worker := w; rp_sent := []; rp_end := Err e |}
        end
      else if String.eqb command "position" then
        match applyPosition tokens with
        | (sent, Ret fenText) =>
            {| rp_worker := withFen w fenText (wk_stopRequested w); rp_sent := sent;
               rp_end := Val tt |}
        | (sent, Throw e) => {| rp_worker := w; rp_sent := sent; rp_end := Err e |}
        end
      else if String.eqb command "setoption" then quietly (setOption tokens w)
      else if String.eqb command "go" then startSearch fuel clock (parseGo tokens) w
      else if String.eqb command "stop" then
        quietly (withFen w (wk_currentFen w) true)
      else if String.eqb command "quit" then
        quietly {| wk_currentFen := wk_currentFen w; wk_multiPv := wk_multiPv w;
                   wk_defaultMoveTime := wk_defaultMoveTime w;
                   wk_forcedDepth := wk_forcedDepth w; wk_searchId := wk_searchId w;
                   wk_stopRequested := wk_stopRequested w; wk_closed := true |}
      else quietly w
  end.

(** The worker when its script has run: [None] when the script threw
    before it installed the handler. *)
Definition newWorker : Res Worker :=
  match startFen with
  | Ret fenText =>
      Ret {| wk_currentFen := fenText; wk_multiPv := 3; wk_defaultMoveTime := 1500;
             wk_forcedDepth := None; wk_searchId := 0; wk_stopRequested := false;
             wk_closed := false |}
  | Throw e => Throw e
  end.

(** The messages of a session, each with the clock its search would
    read: the state they leave and all lines posted.  A closed worker
    handles nothing more. *)
Fixpoint workerRun (fuel : nat) (messages : list (string * (nat -> num))) (w : Worker)
  : Worker * list string :=
  match messages with
  | [] => (w, [])
  | (raw, clock) :: rest =>
      if wk_closed w then (w, [])
      else
        let reply := onWorkerMessage fuel clock raw w in
        let '(w', sent) := workerRun fuel rest (rp_worker reply) in
        (w', (rp_sent reply ++ sent)%list)
  end.

End BuiltinEngine.

(** The settings a worker can search with: at least one line, a positive
    default time, and a forced depth that is positive when there is
    one. *)
Definition validSettings (w : Worker) : Prop :=
  1 <= wk_multiPv w /\ 0 < wk_defaultMoveTime w
  /\ match wk_forcedDepth w with Some d => 0 < d | None => True end.

(** *** Concrete inputs for the built-in engine *)

(** A worker of the small book as its script leaves it. *)
Definition smallWorker : Worker :=
  {| wk_currentFen := "A w"; wk_multiPv := 3; wk_defaultMoveTime := 1500;
     wk_forcedDepth := None; wk_searchId := 0; wk_stopRequested := false;
     wk_closed := false |}.

(** Scores written as a fixed text. *)
Definition plainScore : @Ext QNum -> string := fun _ => "0".

(** Options that must be refused, then a search. *)
Definition oddSession : list (string * (nat -> @num QNum)) :=
  [ ("setoption name MultiPV value 0", fun _ => 0%Q);
    ("setoption name movetime value -5", fun _ => 0%Q);
    ("setoption name depth value 2", fun _ => 0%Q);
    ("go wtime 600", fun _ => 0%Q) ].

(** ** Reading the move list

    Strings are sequences of Latin-1 characters. *)

(** Keep the characters [keep] accepts. *)
Fixpoint keepChars (keep : ascii -> bool) (s : string) : string :=
  match s with
  | EmptyString => EmptyString
  | String c r => if keep c then String c (keepChars keep r) else keepChars keep r
  end.

Definition charIn (set : string) (c : ascii) : bool := includesChar c set.

Definition isUpper (c : ascii) : bool :=
  let n := nat_of_ascii c in (65 <=? n)%nat && (n <=? 90)%nat.
Definition isLower (c : ascii) : bool :=
  let n := nat_of_ascii c in (97 <=? n)%nat && (n <=? 122)%nat.
Definition isDigit (c : ascii) : bool :=
  let n := nat_of_ascii c in (48 <=? n)%nat && (n <=? 57)%nat.

(** [(value || '').replace(/[+#?!]/g, '')] *)
Definition stripMoveDecorations (value : string) : string :=
  keepChars (fun c => negb (charIn "+#?!" c)) value.

(** [text.replace(/pattern/g, replacement)] for a pattern without
    letters or special characters: [skip] counts the characters of a match
    that are still to be passed over. *)
Fixpoint replaceAllFrom (pattern replacement : string) (skip : nat) (s : string) : string :=
  match s with
  | EmptyString => EmptyString
  | String c r =>
      match skip with
      | S k => replaceAllFrom pattern replacement k r
      | O =>
          if String.prefix pattern s
          then replacement ++ replaceAllFrom pattern replacement (String.length pattern - 1) r
          else String c (replaceAllFrom pattern replacement 0 r)
      end
  end.

Definition replaceAll (pattern replacement s : string) : string :=
  replaceAllFrom pattern replacement 0 s.

Definition canonicalSan (text : string) : string :=
  toLowerCase
    (keepChars (fun c => isLower c || isUpper c || isDigit c || Ascii.eqb c "-")
       (keepChars (fun c => negb (Ascii.eqb c "="))
          (keepChars (fun c => negb (charIn "+#?!" c))
             (replaceAll "0-0" "o-o" (replaceAll "0-0-0" "o-o-o" text))))).

(** Every character of the string passes [test]. *)
Fixpoint allChars (test : ascii -> bool) (s : string) : bool :=
  match s with
  | EmptyString => true
  | String c r => test c && allChars test r
  end.

(** What [parseTokenHints] reads off a token; [None] is [null]. *)
Record TokenInfo := {
  ti_raw : string;
  ti_normalized : string;
  ti_capture : bool;
  ti_piece : option string;
  ti_originFile : option string;
  ti_originRank : option string;
  ti_target : option string;
  ti_promotion : option string;
  ti_castle : option string;
  ti_hasCheck : bool;
  ti_hasMate : bool
}.

(** [s.replace(/:/g, 'x')] *)
Fixpoint colonsToX (s : string) : string :=
  match s with
  | EmptyString => EmptyString
  | String c r => String (if Ascii.eqb c ":" then "x"%char else c) (colonsToX r)
  end.

(** [s.replace(/x/i, '')]: the first [x] goes. *)
Fixpoint removeFirstX (s : string) : string :=
  match s with
  | EmptyString => EmptyString
  | String c r => if charIn "xX" c then r else String c (removeFirstX r)
  end.

(** [s.slice(0, -n)] and [s.slice(-n)] *)
Definition dropLast (n : nat) (s : string) : string := substring 0 (String.length s - n) s.
Definition lastChars (n : nat) (s : string) : string := sliceFrom (String.length s - n) s.

(** The match of [/^(O-O(-O)?)/i], in upper case. *)
Definition castleOf (s : string) : option string :=
  match s with
  | String a (String "-" (String b r)) =>
      if charIn "oO" a && charIn "oO" b then
        match r with
        | String "-" (String c _) => if charIn "oO" c then Some "O-O-O" else Some "O-O"
        | _ => Some "O-O"
        end
      else None
  | _ => None
  end.

(** The match of [/=([QRBN])$/i]: the letter, in lower case. *)
Definition promotionOf (s : string) : option string :=
  match lastChars 2 s with
  | String "=" (String c EmptyString) =>
      if charIn "QRBNqrbn" c then Some (String (lowerChar c) EmptyString) else None
  | _ => None
  end.

Definition oneChar (c : ascii) : string := String c EmptyString.

Definition parseTokenHints (token : string) : TokenInfo :=
  let normalized :=
    let colons := colonsToX token in
    let long := if String.eqb colons "0-0-0" then "O-O-O" else colons in
    if String.eqb long "0-0" then "O-O" else long in
  let blank :=
    {| ti_raw := token; ti_normalized := normalized; ti_capture := false; ti_piece := None;
       ti_originFile := None; ti_originRank := None; ti_target := None; ti_promotion := None;
       ti_castle := None; ti_hasCheck := false; ti_hasMate := false |} in
  match normalized with
  | EmptyString => blank
  | _ =>
      let hasCheck := includesChar "+" normalized in
      let hasMate := includesChar "#" normalized in
      match castleOf normalized with
      | Some castle =>
          {| ti_raw := token; ti_normalized := normalized; ti_capture := false;
             ti_piece := None; ti_originFile := None; ti_originRank := None;
             ti_target := None; ti_promotion := None; ti_castle := Some castle;
             ti_hasCheck := hasCheck; ti_hasMate := hasMate |}
      | None =>
          let working := normalized in
          let promotion := promotionOf working in
          let working := match promotion with Some _ => dropLast 2 working | None => working end in
          let capture := includesChar "x" working || includesChar "X" working in
          let working := if capture then removeFirstX working else working in
          let working := stripMoveDecorations working in
          let piece :=
            match working with
            | String c _ => if charIn "KQRBNkqrbn" c then Some (oneChar (lowerChar c)) else None
            | EmptyString => None
            end in
          let working := match piece with Some _ => sliceFrom 1 working | None => working end in
          let '(originFile, originRank) :=
            if (2 <? String.length working)%nat then
              let hint := dropLast 2 working in
              let originFile :=
                match hint with
                | String c _ =>
                    if charIn "abcdefghABCDEFGH" c then Some (oneChar (lowerChar c)) else None
                | EmptyString => None
                end in
              let rest := match originFile with Some _ => sliceFrom 1 hint | None => hint end in
              let originRank :=
                match rest with
                | String c _ => if charIn "12345678" c then Some (oneChar c) else None
                | EmptyString => None
                end in
              (originFile, originRank)
            else (None, None) in
          let target :=
            match lastChars 2 working with
            | String f (String r EmptyString) =>
                if charIn "abcdefghABCDEFGH" f && charIn "12345678" r
                then Some (toLowerCase (lastChars 2 working)) else None
            | _ => None
            end in
          {| ti_raw := token; ti_normalized := normalized; ti_capture := capture;
             ti_piece := piece; ti_originFile := originFile; ti_originRank := originRank;
             ti_target := target; ti_promotion := promotion; ti_castle := None;
             ti_hasCheck := hasCheck; ti_hasMate := hasMate |}
      end
  end.

(** [attempts.add(text)] on a set kept in insertion order. *)
Definition addAttempt (attempts : list string) (text : string) : list string :=
  if has attempts text then attempts else (attempts ++ [text])%list.

Definition collectAttemptStrings (tokenInfo : TokenInfo) : list string :=
  let raw := ti_raw tokenInfo in
  let normalized := ti_normalized tokenInfo in
  let attempts := [] in
  let attempts := match raw with EmptyString => attempts | _ => addAttempt attempts raw end in
  let attempts :=
    if negb (String.eqb normalized "") && negb (String.eqb normalized raw)
    then addAttempt attempts normalized else attempts in
  let strippedRaw := stripMoveDecorations raw in
  let attempts :=
    if negb (String.eqb strippedRaw "") && negb (String.eqb strippedRaw raw)
    then addAttempt attempts strippedRaw else attempts in
  let strippedNormalized := stripMoveDecorations normalized in
  let attempts :=
    if negb (String.eqb strippedNormalized "") && negb (String.eqb strippedNormalized normalized)
    then addAttempt attempts strippedNormalized else attempts in
  List.filter (fun text => negb (String.eqb text "")) attempts.

(** [s.endsWith(t)] and [s.includes(t)] *)
Definition endsWith (s t : string) : bool :=
  (String.length t <=? String.length s)%nat && String.eqb (lastChars (String.length t) s) t.

Fixpoint includesText (t s : string) : bool :=
  String.prefix t s
  || match s with
     | EmptyString => false
     | String _ r => includesText t r
     end.

(** An entry of [buildCandidateList]. *)
Record Candidate := { cd_move : Move; cd_weight : Z }.

(** [{ p: 1, n: 2, b: 3, r: 4, q: 5, k: 6 }], which is also the place of
    a piece in [['p', 'n', 'b', 'r', 'q', 'k']] counted from 1. *)
Definition piecePriority (t : PieceType) : Z :=
  match t with
  | Pawn => 1 | Knight => 2 | Bishop => 3 | Rook => 4 | Queen => 5 | King => 6
  end.

(** The weight a legal move starts with, by how its SAN and its target
    match the token; 0 when the move is no candidate. *)
Definition baseWeight (tokenInfo : TokenInfo) (legal : Move) : Z :=
  let canonicalToken := canonicalSan (ti_normalized tokenInfo) in
  let canonicalLegal := canonicalSan (m_san legal) in
  let known := negb (String.eqb canonicalToken "") in
  if known && String.eqb canonicalLegal canonicalToken then 100
  else if known && endsWith canonicalLegal canonicalToken then 90
  else if match ti_target tokenInfo with
          | Some target => negb (String.eqb target "") && String.eqb (m_to legal) target
          | None => false
          end
       then (if ti_capture tokenInfo then 80 else 70)
  else if known && includesText canonicalToken canonicalLegal then 60
  else 0.

(** What the hints of the token add to and take from that weight. *)
Definition candidateWeight (tokenInfo : TokenInfo) (legal : Move) (weight : Z) : Z :=
  let normalized := ti_normalized tokenInfo in
  let weight :=
    match ti_piece tokenInfo with
    | Some piece =>
        if String.eqb piece "" then weight
        else if String.eqb (pieceChar (m_piece legal)) piece then weight + 12 else weight - 8
    | None => weight
    end in
  let weight :=
    match ti_originFile tokenInfo with
    | Some file =>
        if String.eqb file "" then weight
        else if String.eqb (substring 0 1 (m_from legal)) file then weight + 6 else weight - 4
    | None => weight
    end in
  let weight :=
    match ti_originRank tokenInfo with
    | Some rank =>
        if String.eqb rank "" then weight
        else if String.eqb (substring 1 1 (m_from legal)) rank then weight + 6 else weight - 4
    | None => weight
    end in
  let weight :=
    if ti_capture tokenInfo then
      (if includesChar "c" (m_flags legal) then weight + 3 else weight - 6)
    else if includesChar "c" (m_flags legal) then weight - 5 else weight in
  let legalHasMate := includesChar "#" (m_san legal) in
  let legalHasCheck := includesChar "+" (m_san legal) in
  let weight :=
    if ti_hasMate tokenInfo then (if legalHasMate then weight + 25 else weight - 20)
    else if ti_hasCheck tokenInfo then (if legalHasCheck then weight + 12 else weight - 10)
    else if legalHasMate then weight - 6
    else if legalHasCheck then weight - 3
    else weight in
  let weight :=
    match ti_promotion tokenInfo with
    | Some promotion =>
        if String.eqb promotion "" then weight
        else
          match m_promotion legal with
          | Some t => if String.eqb (pieceChar t) promotion then weight + 10 else weight - 6
          | None => weight - 6
          end
    | None => weight
    end in
  let sanDelta :=
    Z.abs (Z.of_nat (String.length (stripMoveDecorations (m_san legal)))
           - Z.of_nat (String.length (stripMoveDecorations normalized))) in
  let weight := weight - sanDelta * 2 in
  weight + piecePriority (m_piece legal).

(** The comparator of the sort: positive when [a] belongs behind [b]. *)
Definition compareCandidates (a b : Candidate) : Z :=
  let diff := cd_weight b - cd_weight a in
  if negb (diff =? 0) then diff
  else if negb (PieceType_eqb (m_piece (cd_move a)) (m_piece (cd_move b))) then
    piecePriority (m_piece (cd_move a)) - piecePriority (m_piece (cd_move b))
  else
    Z.of_nat (String.length (stripMoveDecorations (m_san (cd_move b))))
    - Z.of_nat (String.length (stripMoveDecorations (m_san (cd_move a)))).

Fixpoint insertCandidate (entry : Candidate) (sorted : list Candidate) : list Candidate :=
  match sorted with
  | [] => [entry]
  | y :: r =>
      if 0 <? compareCandidates y entry then entry :: y :: r
      else y :: insertCandidate entry r
  end.

(** [candidates.sort(...)]: a stable sort. *)
Definition sortCandidates (l : list Candidate) : list Candidate :=
  fold_left (fun sorted entry => insertCandidate entry sorted) l [].

(** chess.js as the move list uses it: [game.move(text, { sloppy: true })]
    besides the methods of [ChessLib]. *)
Class SloppyLib (L : ChessLib) := {
  moveSloppy : game -> string -> Res (option (Move * game))
}.

(** What [applyToken] returns when it applied a move. *)
Record Outcome := {
  oc_move : Move;
  oc_matched : string;
  oc_inferred : bool
}.

Section MoveList.
Context {L : ChessLib} {S : SloppyLib L}.

Definition buildCandidateList (g : game) (tokenInfo : TokenInfo) : Res (list Candidate) :=
  match ti_normalized tokenInfo with
  | EmptyString => Ret []
  | _ =>
      match moves g with
      | Throw e => Throw e
      | Ret legalMoves =>
          Ret (sortCandidates
                 (flat_map
                    (fun legal =>
                       let weight := baseWeight tokenInfo legal in
                       if weight =? 0 then []
                       else [{| cd_move := legal;
                                cd_weight := candidateWeight tokenInfo legal weight |}])
                    legalMoves))
      end
  end.

(** The first loop of [applyToken]: the spellings, tried in order. *)
Fixpoint tryAttempts (g : game) (attempts : list string) : option (Outcome * game) :=
  match attempts with
  | [] => None
  | attempt :: rest =>
      match moveSloppy g attempt with
      | Ret (Some (moved, g')) =>
          Some ({| oc_move := moved; oc_matched := attempt; oc_inferred := false |}, g')
      | _ => tryAttempts g rest
      end
  end.

(** The second loop: the candidates, heaviest first. *)
Fixpoint tryCandidates (g : game) (candidates : list Candidate) : option (Outcome * game) :=
  match candidates with
  | [] => None
  | entry :: rest =>
      if cd_weight entry <? 40 then tryCandidates g rest
      else
        match move g (moveArgOf (cd_move entry)) with
        | Ret (Some (moved, g')) =>
            Some ({| oc_move := moved; oc_matched := m_san (cd_move entry);
                     oc_inferred := true |}, g')
        | _ => tryCandidates g rest
        end
  end.

(** [applyToken(game, tokenInfo)]: the outcome and the position after the
    move, or [None] for [null], the position as it was. *)
Definition applyToken (g : game) (tokenInfo : TokenInfo) : Res (option (Outcome * game)) :=
  match tryAttempts g (collectAttemptStrings tokenInfo) with
  | Some done => Ret (Some done)
  | None =>
      match buildCandidateList g tokenInfo with
      | Throw e => Throw e
      | Ret candidates => Ret (tryCandidates g candidates)
      end
  end.

(** The loop of [rebuildGameFromTokens]. *)
Fixpoint rebuildFrom (g : game) (tokenInfos : list TokenInfo)
  : Res (game * list Outcome * list string) :=
  match tokenInfos with
  | [] => Ret (g, [], [])
  | info :: rest =>
      match applyToken g info with
      | Throw e => Throw e
      | Ret (Some (outcome, g')) =>
          match rebuildFrom g' rest with
          | Throw e => Throw e
          | Ret (final, applied, ignored) => Ret (final, outcome :: applied, ignored)
          end
      | Ret None =>
          let skippedToken :=
            match ti_raw info with
            | EmptyString =>
                match ti_normalized info with
                | EmptyString => "(unknown)"
                | normalized => normalized
                end
            | raw => raw
            end in
          match rebuildFrom g rest with
          | Throw e => Throw e
          | Ret (final, applied, ignored) => Ret (final, applied, skippedToken :: ignored)
          end
      end
  end.

Definition rebuildGameFromTokens (tokenInfos : list TokenInfo)
  : Res (game * list Outcome * list string) :=
  match createChessInstance None with
  | Throw e => Throw e
  | Ret g => rebuildFrom g tokenInfos
  end.

(** The position [final] is reached from [g] by applying [played], each
    move through one of the two ways the library offers. *)
Inductive Played : game -> list Move -> game -> Prop :=
| played_none g : Played g [] g
| played_text g text m g' ms final :
    moveSloppy g text = Ret (Some (m, g')) -> Played g' ms final -> Played g (m :: ms) final
| played_squares g a m g' ms final :
    move g a = Ret (Some (m, g')) -> Played g' ms final -> Played g (m :: ms) final.

(** The library accepts the texts one after the other as they are
    written, and answers with the moves [played]. *)
Inductive Accepted : game -> list string -> list Move -> game -> Prop :=
| accepted_none g : Accepted g [] [] g
| accepted_next g text m g' texts ms final :
    text <> "" -> moveSloppy g text = Ret (Some (m, g')) -> Accepted g' texts ms final ->
    Accepted g (text :: texts) (m :: ms) final.

End MoveList.

(** *** Standard notation *)

Definition pieceLetters : list string := ["K"; "Q"; "R"; "B"; "N"].
Definition promotionLetters : list string := ["Q"; "R"; "B"; "N"].
Definition rankNames : list string := ["1"; "2"; "3"; "4"; "5"; "6"; "7"; "8"].
Definition checkMarks : list string := [""; "+"; "#"].

Definition orNone (text : string) : option string :=
  if String.eqb text "" then None else Some text.

(** A move of a piece in standard notation: the letter of the piece, the
    file and the rank it comes from where they are needed, an [x] when it
    captures, the target square and a check mark. *)
Definition pieceMoveText (piece originFile originRank : string) (capture : bool)
    (file rank mark : string) : string :=
  piece ++ originFile ++ originRank ++ (if capture then "x" else "") ++ file ++ rank ++ mark.

(** What the token says in so many words. *)
Definition pieceMoveHints (piece originFile originRank : string) (capture : bool)
    (file rank mark : string) : TokenInfo :=
  let text := pieceMoveText piece originFile originRank capture file rank mark in
  {| ti_raw := text; ti_normalized := text; ti_capture := capture;
     ti_piece := Some (toLowerCase piece);
     ti_originFile := orNone originFile; ti_originRank := orNone originRank;
     ti_target := Some (file ++ rank); ti_promotion := None; ti_castle := None;
     ti_hasCheck := String.eqb mark "+"; ti_hasMate := String.eqb mark "#" |}.

(** A move of a pawn: the file it comes from and an [x] when it captures
    ([origin] is empty when it does not), the target square, [=] and the
    new piece when it promotes, and a check mark. *)
Definition pawnMoveText (origin file rank promotion mark : string) : string :=
  origin ++ (if String.eqb origin "" then "" else "x") ++ file ++ rank
  ++ (if String.eqb promotion "" then "" else "=" ++ promotion) ++ mark.

(** What [parseTokenHints] makes of it when it reads the promotion: a
    leading [b] counts as the letter of a bishop. *)
Definition pawnMoveHints (origin file rank promotion mark : string) : TokenInfo :=
  let text := pawnMoveText origin file rank promotion mark in
  let first := if String.eqb origin "" then file else origin in
  {| ti_raw := text; ti_normalized := text;
     ti_capture := negb (String.eqb origin "");
     ti_piece := if String.eqb first "b" then Some "b" else None;
     ti_originFile := if String.eqb origin "b" then None else orNone origin;
     ti_originRank := None;
     ti_target := if String.eqb origin "" && String.eqb file "b" then None
                  else Some (file ++ rank);
     ti_promotion := if String.eqb promotion "" then None else Some (toLowerCase promotion);
     ti_castle := None;
     ti_hasCheck := String.eqb mark "+"; ti_hasMate := String.eqb mark "#" |}.

Definition optionString_eqb (a b : option string) : bool :=
  match a, b with
  | Some x, Some y => String.eqb x y
  | None, None => true
  | _, _ => false
  end.

Definition TokenInfo_eqb (a b : TokenInfo) : bool :=
  String.eqb (ti_raw a) (ti_raw b) && String.eqb (ti_normalized a) (ti_normalized b)
  && Bool.eqb (ti_capture a) (ti_capture b)
  && optionString_eqb (ti_piece a) (ti_piece b)
  && optionString_eqb (ti_originFile a) (ti_originFile b)
  && optionString_eqb (ti_originRank a) (ti_originRank b)
  && optionString_eqb (ti_target a) (ti_target b)
  && optionString_eqb (ti_promotion a) (ti_promotion b)
  && optionString_eqb (ti_castle a) (ti_castle b)
  && Bool.eqb (ti_hasCheck a) (ti_hasCheck b) && Bool.eqb (ti_hasMate a) (ti_hasMate b).

(** The list is in the order [compare] asks for: no element belongs
    behind one that follows it. *)
Fixpoint sortedBy {A} (compare : A -> A -> Z) (l : list A) : Prop :=
  match l with
  | [] => True
  | a :: r => (forall b, In b r -> compare a b <= 0) /\ sortedBy compare r
  end.

(** The library of the small book with moves given by their SAN. *)
Definition scriptedSloppy (book : list Pos) : SloppyLib (scriptedLib book) :=
  {| moveSloppy (g : @game (scriptedLib book)) text :=
       match find (fun mp => String.eqb (m_san (fst mp)) text) (pos_moves (now g)) with
       | Some (m, p) => Ret (Some (m, {| now := p; past := (m, now g) :: past g |}))
       | None => Ret None
       end |}.

(** *** Starting the engine *)

(** [line => line.trim() === 'uciok'] *)
Definition isUciOk (line : string) : Res bool := Ret (String.eqb (trim line) "uciok").

(** The options [init] sets. *)
Definition initOptions : list string :=
  ["setoption name Threads value 1"; "setoption name Hash value 32";
   "setoption name MultiPV value 5"].

(** [init()]: the argument is [this.isInitialized] at the call and the
    result its value when the function returns. *)
Definition init (isInitialized : bool) : Proc bool :=
  if isInitialized then Done true
  else
    Send "uci"
      (andThen (awaitLine isUciOk 10000) (fun _ =>
         Send "setoption name Threads value 1"
           (Send "setoption name Hash value 32"
              (Send "setoption name MultiPV value 5"
                 (Send "isready"
                    (andThen (awaitLine isReadyOk 10000) (fun _ => Done true))))))).

(** *** Stored engine payloads *)

(** [(text || '').replace(/\s+/g, '').trim()]; [None] is [null]. *)
Definition normalizeBase64 (text : option string) : string :=
  trim (keepChars (fun c => negb (isSpace c)) (default EmptyString text)).

Definition estimateBase64DecodedSize (base64Text : option string) : Z :=
  let normalized := normalizeBase64 base64Text in
  match normalized with
  | EmptyString => 0
  | _ =>
      let padding :=
        if endsWith normalized "==" then 2 else if endsWith normalized "=" then 1 else 0 in
      Z.max 0 (Z.of_nat (String.length normalized) * 3 / 4 - padding)
  end.

(** The browser's [btoa] on a string of bytes: three bytes give four
    characters of the alphabet, and [=] fills the last group. *)
Definition base64Alphabet : string :=
  "ABCDEFGHIJKLMNOPQRSTUVWXYZabcdefghijklmnopqrstuvwxyz0123456789+/".

Definition base64Char (n : nat) : ascii :=
  match String.get n base64Alphabet with Some c => c | None => "A"%char end.

Fixpoint btoa (binary : string) : string :=
  match binary with
  | EmptyString => EmptyString
  | String a EmptyString =>
      let x := nat_of_ascii a in
      String (base64Char (x / 4)) (String (base64Char (x mod 4 * 16)) "==")
  | String a (String b EmptyString) =>
      let x := nat_of_ascii a in
      let y := nat_of_ascii b in
      String (base64Char (x / 4))
        (String (base64Char (x mod 4 * 16 + y / 16))
           (String (base64Char (y mod 16 * 4)) "="))
  | String a (String b (String c rest)) =>
      let x := nat_of_ascii a in
      let y := nat_of_ascii b in
      let z := nat_of_ascii c in
      String (base64Char (x / 4))
        (String (base64Char (x mod 4 * 16 + y / 16))
           (String (base64Char (y mod 16 * 4 + z / 64))
              (String (base64Char (z mod 64)) (btoa rest))))
  end.

(** * Theorems *)

Section MonadFacts.
Context {N : Num} {L : ChessLib}.

Lemma bind_val {A B} (c : M A) (k : A -> M B) w a w1 :
  c w = (Val a, w1) -> bind c k w = k a w1.
Proof. intros H. unfold bind. now rewrite H. Qed.

Lemma bind_val_inv {A B} (c : M A) (k : A -> M B) w b w' :
  bind c k w = (Val b, w') ->
  exists a w1, c w = (Val a, w1) /\ k a w1 = (Val b, w').
Proof.
  unfold bind. destruct (c w) as [[a | e |] w1] eqn:E; intros H; try discriminate.
  exists a, w1. split; [reflexivity | exact H].
Qed.

Lemma finishes_ret {A} (a : A) : finishes (ret a).
Proof. intros w. discriminate. Qed.

Lemma finishes_bind {A B} (c : M A) (k : A -> M B) :
  finishes c -> (forall a, finishes (k a)) -> finishes (bind c k).
Proof.
  intros Hc Hk w. unfold bind. specialize (Hc w).
  destruct (c w) as [[a | e |] w1]; simpl in *; try discriminate.
  - apply Hk.
  - congruence.
Qed.

Lemma finishes_tryFinally {A} (body : M A) (fin : M unit) :
  finishes body -> finishes fin -> finishes (tryFinally body fin).
Proof.
  intros Hb Hf w. unfold tryFinally. specialize (Hb w).
  destruct (body w) as [r w1]. specialize (Hf w1).
  destruct (fin w1) as [[[] | e |] w2]; simpl in *; congruence.
Qed.

Lemma finishes_foldM {A S} (f : S -> A -> M S) (l : list A) :
  (forall s a, finishes (f s a)) -> forall s, finishes (foldM f l s).
Proof.
  intros Hf. induction l as [| x r IH]; intros s; simpl.
  - apply finishes_ret.
  - apply finishes_bind; auto.
Qed.

Lemma finishes_query {A} (f : game -> Res A) : finishes (query f).
Proof. intros w. unfold query. destruct (f (w_game w)); discriminate. Qed.

Lemma finishes_getter {A} (f : game -> A) : finishes (getter f).
Proof. intros w. discriminate. Qed.

Lemma finishes_gameMove a : finishes (gameMove a).
Proof.
  intros w. unfold gameMove. destruct (move (w_game w) a) as [[[m g'] |] | e]; discriminate.
Qed.

Lemma finishes_gameUndo : finishes gameUndo.
Proof. intros w. unfold gameUndo. destruct (undo (w_game w)); discriminate. Qed.

Lemma finishes_modifyMeta f : finishes (modifyMeta f).
Proof. intros w. discriminate. Qed.

End MonadFacts.

Section Cancellation.
Context {N : Num} {L : ChessLib}.

(** The entry test answers true exactly when the stop predicate does or
    the deadline has passed. *)
Lemma cancelled_true env w :
  stopRequested env w || deadlinePassed env w = true ->
  exists w', cancelled env w = (Val true, w')
    /\ w_game w' = w_game w /\ w_table w' = w_table w /\ w_meta w' = w_meta w
    /\ w_stats w' = w_stats w.
Proof.
  unfold stopRequested, deadlinePassed, cancelled, bind, pollStop, readClock, ret.
  destruct (shouldStop env) as [stop |]; simpl.
  - destruct (stop (w_polls w)) eqn:Hs; simpl.
    + intros _. eexists. split; [reflexivity | simpl; auto].
    + destruct (deadline env) as [d |]; [| discriminate].
      destruct (nowFn env) as [clock |]; [| discriminate].
      destruct (truthy d); simpl; [| discriminate].
      intros ->. eexists. split; [reflexivity | simpl; auto].
  - destruct (deadline env) as [d |]; [| discriminate].
    destruct (nowFn env) as [clock |]; [| discriminate].
    destruct (truthy d); simpl; [| discriminate].
    intros ->. eexists. split; [reflexivity | simpl; auto].
Qed.

(** What both searches do once the entry test has answered true. *)
Lemma cancelled_exit env w perspective context (rest : M Ext) :
  stopRequested env w || deadlinePassed env w = true ->
  exists w',
    bind (cancelled env)
      (fun stop =>
         if stop
         then bind noteTimeout (fun _ =>
                bind (staticEval perspective context) (fun v => ret (Fin v)))
         else rest) w
    = (Val (Fin (evaluateForPerspective (w_game w) perspective context)), w')
    /\ onlyTimeoutCounted w w'.
Proof.
  intros H. destruct (cancelled_true env w H) as (w1 & Hc & Hg & Ht & Hm & Hs).
  rewrite (bind_val _ _ _ _ _ Hc).
  eexists. split.
  - unfold bind, noteTimeout, staticEval, getWorld, setStats, getter, ret. simpl.
    rewrite Hg. reflexivity.
  - unfold onlyTimeoutCounted. simpl. rewrite Hs. auto.
Qed.

(** C4.  When, at the entry of [negamax] or of [quiescence], the stop
    predicate answers true or the deadline has passed, the call returns
    the static evaluation of the position for the given perspective and
    counts one timeout; it visits no node, leaves the position, the
    table and the search tables as they were, and needs no budget for a
    recursive call. *)
Theorem cancellation_short_circuit fuel env depth alpha beta perspective plyCount context limit w :
  stopRequested env w || deadlinePassed env w = true ->
  (exists w',
     negamax (S fuel) env depth alpha beta perspective plyCount context w
     = (Val (Fin (evaluateForPerspective (w_game w) perspective context)), w')
     /\ onlyTimeoutCounted w w')
  /\
  (exists w',
     quiescence (S fuel) env alpha beta perspective plyCount context limit w
     = (Val (Fin (evaluateForPerspective (w_game w) perspective context)), w')
     /\ onlyTimeoutCounted w w').
Proof.
  intros H. split; simpl; apply cancelled_exit; exact H.
Qed.

End Cancellation.

Section Termination.
Context {N : Num} {L : ChessLib}.

Lemma finishes_cancelled env : finishes (cancelled env).
Proof.
  unfold cancelled. apply finishes_bind.
  - destruct (shouldStop env); [intros w; discriminate | apply finishes_ret].
  - intros [|]; [apply finishes_ret |].
    destruct (deadline env); [| apply finishes_ret].
    destruct (nowFn env); [| apply finishes_ret].
    destruct (truthy n); [| apply finishes_ret].
    apply finishes_bind; [intros w; discriminate | intros; apply finishes_ret].
Qed.

Lemma finishes_noteTimeout : finishes noteTimeout.
Proof. intros w. discriminate. Qed.

Lemma finishes_countNode : finishes countNode.
Proof. intros w. discriminate. Qed.

Lemma finishes_staticEval perspective context : finishes (staticEval perspective context).
Proof. intros w. discriminate. Qed.

Lemma finishes_evaluateTerminalState perspective plyCount context :
  finishes (evaluateTerminalState perspective plyCount context).
Proof.
  unfold evaluateTerminalState. apply finishes_bind; [apply finishes_query |].
  intros [|].
  - apply finishes_bind; [apply finishes_getter | intros; apply finishes_ret].
  - apply finishes_bind; [apply finishes_query |].
    intros [|]; [apply finishes_ret |].
    apply finishes_bind; [apply finishes_getter | intros; apply finishes_ret].
Qed.

Lemma finishes_lookahead m : finishes (lookahead m).
Proof.
  unfold lookahead. apply finishes_bind; [apply finishes_query | intros inCheck].
  apply finishes_bind; [apply finishes_query | intros opponentMoves].
  destruct (attackersOf (m_to m) opponentMoves) as [minAttacker pawnThreat].
  apply finishes_bind; [apply finishes_getter | intros; apply finishes_ret].
Qed.

Lemma finishes_evaluateMoveConsequences m : finishes (evaluateMoveConsequences m).
Proof.
  unfold evaluateMoveConsequences.
  apply finishes_bind; [apply finishes_gameMove | intros _].
  apply finishes_tryFinally; [apply finishes_lookahead | apply finishes_gameUndo].
Qed.

Lemma finishes_movePriority m context preferenceMap ply :
  finishes (movePriority m context preferenceMap ply).
Proof.
  unfold movePriority. apply finishes_bind; [intros w; discriminate | intros w0].
  apply finishes_bind; [apply finishes_evaluateMoveConsequences | intros [penalty checkBonus]].
  apply finishes_ret.
Qed.

Lemma finishes_orderedMoves context preferenceMap ply captureOnly :
  finishes (orderedMoves context preferenceMap ply captureOnly).
Proof.
  unfold orderedMoves. apply finishes_bind; [apply finishes_query | intros ms].
  apply finishes_bind; [apply finishes_modifyMeta | intros _].
  apply finishes_bind; [| intros; apply finishes_ret].
  apply finishes_foldM. intros scored m.
  destruct (captureOnly && negb (isForcingMove m)); [apply finishes_ret |].
  apply finishes_bind; [apply finishes_movePriority | intros value].
  apply finishes_bind; [apply finishes_modifyMeta | intros; apply finishes_ret].
Qed.

(** A budget of [limit + 1] nested calls is enough for [quiescence]. *)
Lemma quiescence_finishes_from fuel :
  forall env alpha beta perspective plyCount context limit,
    (Z.to_nat limit < fuel)%nat ->
    finishes (quiescence fuel env alpha beta perspective plyCount context limit).
Proof.
  induction fuel as [| fuel IH]; intros env alpha beta perspective plyCount context limit Hlt.
  - lia.
  - simpl. apply finishes_bind; [apply finishes_cancelled | intros stop].
    destruct stop.
    + apply finishes_bind; [apply finishes_noteTimeout | intros _].
      apply finishes_bind; [apply finishes_staticEval | intros; apply finishes_ret].
    + apply finishes_bind; [apply finishes_countNode | intros _].
      apply finishes_bind; [apply finishes_evaluateTerminalState | intros standPat].
      destruct (eleb beta (Fin standPat)); [apply finishes_ret |].
      destruct (limit <=? 0)%Z eqn:Hl; [apply finishes_ret |].
      apply finishes_bind; [apply finishes_orderedMoves | intros captureMoves].
      generalize (if eltb alpha (Fin standPat) then Fin standPat else alpha).
      induction captureMoves as [| m rest IHm]; intros a.
      * apply finishes_ret.
      * apply finishes_bind; [apply finishes_gameMove | intros _].
        apply finishes_bind.
        { apply IH. apply Z.leb_gt in Hl. lia. }
        intros below.
        apply finishes_bind; [apply finishes_gameUndo | intros _].
        destruct (eleb beta (eneg below)); [apply finishes_ret | apply IHm].
Qed.

(** With no budget left for a nested call, [quiescence] still answers
    when its ply budget is used up: it returns the stand-pat score (or
    [beta] when the stand-pat score reaches it) without recursing. *)
Lemma quiescence_stops_at_zero env alpha beta perspective plyCount context limit w w1 standPat w2 :
  (limit <= 0)%Z ->
  cancelled env w = (Val false, w1) ->
  evaluateTerminalState perspective plyCount context
    (snd (countNode w1)) = (Val standPat, w2) ->
  quiescence 1 env alpha beta perspective plyCount context limit w
  = (Val (if eleb beta (Fin standPat) then beta else Fin standPat), w2).
Proof.
  intros Hl Hc He. simpl.
  rewrite (bind_val _ _ _ _ _ Hc).
  unfold bind at 1. unfold countNode at 1. unfold bind at 1. simpl.
  unfold countNode, bind in He. simpl in He.
  unfold bind at 1. unfold setStats, getWorld in *. simpl in *. rewrite He.
  destruct (eleb beta (Fin standPat)); [reflexivity |].
  apply Z.leb_le in Hl. rewrite Hl. reflexivity.
Qed.

Lemma bind_same {A B} (c c' : M A) (k k' : A -> M B) w :
  c w = c' w -> (forall a w1, k a w1 = k' a w1) -> bind c k w = bind c' k' w.
Proof.
  intros Hc Hk. unfold bind. rewrite <- Hc.
  destruct (c w) as [[a | e |] w1]; [apply Hk | reflexivity | reflexivity].
Qed.

(** A recursion budget beyond [limit + 1] nested calls is never drawn
    on: the call gives the same outcome with every such budget. *)
Lemma quiescence_budget_unused fuel :
  forall fuel' env alpha beta perspective plyCount context limit w,
    (Z.to_nat limit < fuel)%nat -> (Z.to_nat limit < fuel')%nat ->
    quiescence fuel env alpha beta perspective plyCount context limit w
    = quiescence fuel' env alpha beta perspective plyCount context limit w.
Proof.
  induction fuel as [| fuel IH];
    intros fuel' env alpha beta perspective plyCount context limit w Hlt Hlt'; [lia |].
  destruct fuel' as [| fuel']; [lia |]. simpl.
  apply bind_same; [reflexivity | intros stop w1].
  destruct stop; [reflexivity |].
  apply bind_same; [reflexivity | intros _ w2].
  apply bind_same; [reflexivity | intros standPat w3].
  destruct (eleb beta (Fin standPat)); [reflexivity |].
  destruct (limit <=? 0)%Z eqn:Hl; [reflexivity |].
  apply bind_same; [reflexivity | intros captureMoves w4].
  generalize (if eltb alpha (Fin standPat) then Fin standPat else alpha). revert w4.
  induction captureMoves as [| m rest IHm]; intros w4 a; [reflexivity |].
  apply bind_same; [reflexivity | intros _ w5].
  apply bind_same.
  { apply IH; apply Z.leb_gt in Hl; lia. }
  intros below w6.
  apply bind_same; [reflexivity | intros _ w7].
  destruct (eleb beta (eneg below)); [reflexivity | apply IHm].
Qed.

(** C6.  [quiescence] terminates for every position, every bounds and
    every ply budget that is not negative, and its recursion is never
    deeper than the budget: with room for [limit + 1] nested calls it
    answers (a value or a thrown library error), room for more is never
    drawn on, and 7 nested calls are enough for the default budget of
    6.  A call whose budget is used up does not recurse: unless it is
    cancelled it counts its node and returns [beta] when the stand-pat
    score reaches [beta], the stand-pat score otherwise. *)
Theorem quiescence_recursion_within_budget env alpha beta perspective plyCount context limit
    extra w :
  fst (quiescence (S (Z.to_nat limit)) env alpha beta perspective plyCount context limit w)
  <> OutOfFuel
  /\ quiescence (S (Z.to_nat limit) + extra) env alpha beta perspective plyCount context limit w
     = quiescence (S (Z.to_nat limit)) env alpha beta perspective plyCount context limit w
  /\ fst (quiescence 7 env alpha beta perspective plyCount context 6 w) <> OutOfFuel
  /\ forall w1 standPat w2,
       (limit <= 0)%Z ->
       cancelled env w = (Val false, w1) ->
       evaluateTerminalState perspective plyCount context (snd (countNode w1))
       = (Val standPat, w2) ->
       quiescence (S (Z.to_nat limit) + extra) env alpha beta perspective plyCount context
         limit w
       = (Val (if eleb beta (Fin standPat) then beta else Fin standPat), w2).
Proof.
  split; [apply quiescence_finishes_from; lia |].
  split; [apply quiescence_budget_unused; lia |].
  split; [apply quiescence_finishes_from; simpl; lia |].
  intros w1 standPat w2 Hl Hc He.
  rewrite (quiescence_budget_unused _ 1%nat) by lia.
  now apply (quiescence_stops_at_zero env alpha beta perspective plyCount context limit w w1).
Qed.

End Termination.

Section Lookahead.
Context {N : Num} {L : ChessLib}.

(** The lookahead itself only reads the position. *)
Lemma lookahead_reads_only m w : snd (lookahead m w) = w.
Proof.
  unfold lookahead, bind, query, getter, ret.
  destruct (in_check (w_game w)) as [inCheck | e]; [| reflexivity].
  destruct (moves (w_game w)) as [opponentMoves | e]; [| reflexivity].
  destruct (attackersOf (m_to m) opponentMoves) as [minAttacker pawnThreat].
  reflexivity.
Qed.

(** C5.  For a legal move of the position (one the library applies and
    can take back, restoring the fingerprint, as its apply/undo pair
    does), [evaluateMoveConsequences] returns with the position the undo
    restores, so the FEN after the call is the FEN before it.  This holds
    for every way the lookahead ends, in particular when it throws: the
    outcome of the call is then the outcome of the lookahead, error
    included, and only the position, nothing else of the world, was
    touched in between. *)
Theorem lookahead_restores_position (m : Move) (w : World) (applied : Move) (after restored : game) :
  move (w_game w) (moveArgOf m) = Ret (Some (applied, after)) ->
  undo after = Ret restored ->
  fen restored = fen (w_game w) ->
  let w1 := {| w_game := after; w_table := w_table w; w_stats := w_stats w;
               w_meta := w_meta w; w_ticks := w_ticks w; w_polls := w_polls w |} in
  fst (evaluateMoveConsequences m w) = fst (lookahead m w1)
  /\ fen (w_game (snd (evaluateMoveConsequences m w))) = fen (w_game w)
  /\ snd (evaluateMoveConsequences m w)
     = {| w_game := restored; w_table := w_table w; w_stats := w_stats w;
          w_meta := w_meta w; w_ticks := w_ticks w; w_polls := w_polls w |}.
Proof.
  intros Hmove Hundo Hfen w1.
  unfold evaluateMoveConsequences, bind, gameMove. rewrite Hmove.
  fold w1. unfold tryFinally.
  pose proof (lookahead_reads_only m w1) as Hsame.
  destruct (lookahead m w1) as [r w2]. simpl in Hsame. subst w2.
  unfold gameUndo. simpl. rewrite Hundo. simpl.
  split; [reflexivity | split; [exact Hfen | reflexivity]].
Qed.

End Lookahead.

Section TerminalScores.
Context {N : Num} {L : ChessLib}.

(** The three terminal answers of [evaluateTerminalState]; the call
    leaves the world as it is. *)
Lemma terminal_scores perspective plyCount context w :
  (in_checkmate (w_game w) = Ret true -> turn (w_game w) = perspective ->
   evaluateTerminalState perspective plyCount context w
   = (Val (- ofZ (1000 - plyCount))%num, w))
  /\ (in_checkmate (w_game w) = Ret true -> turn (w_game w) <> perspective ->
      evaluateTerminalState perspective plyCount context w
      = (Val (ofZ (1000 - plyCount)), w))
  /\ (in_checkmate (w_game w) = Ret false -> in_stalemate (w_game w) = Ret true ->
      evaluateTerminalState perspective plyCount context w = (Val nzero, w)).
Proof.
  unfold evaluateTerminalState, bind, query, getter, ret.
  repeat split.
  - intros -> ->. destruct perspective; reflexivity.
  - intros -> Hne.
    destruct (turn (w_game w)), perspective; simpl; try reflexivity; congruence.
  - intros -> ->. reflexivity.
Qed.

End TerminalScores.

Section NoLegalMoves.
Context {L : ChessLib} {N : Num}.

Lemma orderedMoves_none context preferenceMap ply captureOnly w :
  moves (w_game w) = Ret [] ->
  exists w', orderedMoves context preferenceMap ply captureOnly w = (Val [], w')
    /\ w_game w' = w_game w /\ w_table w' = w_table w /\ w_stats w' = w_stats w
    /\ w_ticks w' = w_ticks w /\ w_polls w' = w_polls w.
Proof.
  intros H. unfold orderedMoves, bind, query. rewrite H. simpl.
  eexists. split; [reflexivity | simpl; auto].
Qed.

(** C9.  For a position without legal moves, [analyzeWithStockfish]
    finishes with [null] at once, the session untouched (no command
    posted, no waiter or handler registered), and [analyzeFallback]
    returns the empty result
    [{ best: null, details: [], depth: 0, considered: 0, elapsed: 0, aborted: false }]
    without a single step of the deepening loop: the clock is never read,
    the stop predicate never asked, no node visited, the table left
    empty and the position untouched. *)
Theorem no_legal_moves_short_circuit (g : game) (collect : string -> list string -> list Suggestion)
    (sourceUrl : string) (e : Engine) (fuel : nat) (options : Options) (clock : nat -> num)
    (fallbackTime : option num) :
  moves g = Ret [] ->
  start (analyzeWithStockfish collect sourceUrl g) e = (Finished (Ret None), e)
  /\ exists w',
       analyzeFallback fuel g options clock fallbackTime = (Val emptyResult, w')
       /\ w_game w' = g /\ w_table w' = ∅ /\ w_ticks w' = 0%nat /\ w_polls w' = 0%nat
       /\ nodes (w_stats w') = 0.
Proof.
  intros H. split.
  - unfold analyzeWithStockfish. rewrite H. reflexivity.
  - unfold analyzeFallback, analyzeFallbackBody.
    unfold bind at 1. unfold getter at 1.
    unfold bind at 1. unfold setMeta at 1.
    match goal with
    | |- context [orderedMoves ?c ?p ?y ?k] =>
        destruct (orderedMoves_none c p y k
                    {| w_game := g; w_table := ∅;
                       w_stats := {| nodes := 0; timeouts := Some 0 |};
                       w_meta := Some createSearchMeta; w_ticks := 0; w_polls := 0 |} H)
          as (w' & Ho & Hg & Ht & Hs & Hk & Hp)
    end.
    simpl in *. rewrite (bind_val _ _ _ _ _ Ho).
    exists w'. split; [reflexivity |].
    rewrite Hg, Ht, Hs, Hk, Hp. simpl. auto.
Qed.

End NoLegalMoves.

Section SanFacts.
Context {L : ChessLib}.

(** C10.  [uciToSan] never throws.  For a non-empty UCI string it
    returns a string: the SAN of the move when the position built from
    the FEN accepts it, and the UCI string itself in every other case
    (the move is refused, the library throws while building the position
    or while applying the move).  For an absent or empty move it returns
    [null]. *)
Theorem uciToSan_total (fenText uci : string) :
  uci <> "" ->
  uciToSan fenText (Some uci)
  = Ret (Some
      match createChessInstance (Some fenText) with
      | Ret chess =>
          match move chess {| a_from := substring 0 2 uci; a_to := substring 2 2 uci;
                              a_promotion := if (4 <? String.length uci)%nat
                                             then Some (sliceFrom 4 uci) else None |} with
          | Ret (Some (mv, _)) => m_san mv
          | _ => uci
          end
      | Throw _ => uci
      end)
  /\ uciToSan fenText None = Ret None
  /\ uciToSan fenText (Some "") = Ret None.
Proof.
  intros Hne. split; [| split; reflexivity].
  destruct uci as [| c r]; [congruence |].
  unfold uciToSan, tryCatch.
  destruct (createChessInstance (Some fenText)) as [chess | e]; [| reflexivity].
  match goal with |- context [move chess ?a] => destruct (move chess a) as [[[mv g'] |] | e] end;
    reflexivity.
Qed.

End SanFacts.

(** ** The engine session *)

Ltac fields := cbn [en_waiters en_handlers en_timers en_settled en_sent en_heard en_next fst snd].

Section Waiters.

Lemma settle_keeps k s m j v : m !! j = Some v -> settle k s m !! j = Some v.
Proof.
  intros H. unfold settle. destruct (m !! k) eqn:E; [exact H |].
  destruct (decide (k = j)) as [-> | Hne]; [congruence |].
  rewrite lookup_insert_ne; auto.
Qed.

Lemma settle_other k s m j : k <> j -> settle k s m !! j = m !! j.
Proof.
  intros H. unfold settle. destruct (m !! k); [reflexivity |].
  rewrite lookup_insert_ne; auto.
Qed.

Lemma settle_fresh k s m : m !! k = None -> settle k s m !! k = Some s.
Proof. intros H. unfold settle. rewrite H. apply lookup_insert_eq. Qed.

Lemma settle_below k s m (n : nat) :
  (k < n)%nat -> (forall j, is_Some (m !! j) -> (j < n)%nat) ->
  forall j, is_Some (settle k s m !! j) -> (j < n)%nat.
Proof.
  intros Hk Hm j. unfold settle. destruct (m !! k); [apply Hm |].
  destruct (decide (k = j)) as [-> | Hne]; [auto |].
  rewrite lookup_insert_ne; auto.
Qed.

Lemma In_dropWaiter k l w : In w (dropWaiter k l) <-> In w l /\ wt_id w <> k.
Proof.
  unfold dropWaiter. rewrite filter_In. rewrite negb_true_iff, Nat.eqb_neq. tauto.
Qed.

Lemma pending_dropTimer k j l :
  existsb (fun t => (fst t =? j)%nat) (dropTimer k l)
  = negb (j =? k)%nat && existsb (fun t => (fst t =? j)%nat) l.
Proof.
  unfold dropTimer. induction l as [| [i t] l IH]; simpl.
  - now rewrite andb_false_r.
  - destruct (Nat.eqb_spec i k) as [-> | Hik]; simpl.
    + rewrite IH. destruct (Nat.eqb_spec k j) as [-> | Hkj]; simpl.
      * now rewrite Nat.eqb_refl.
      * destruct (Nat.eqb_spec j k); [congruence | reflexivity].
    + rewrite IH. destruct (Nat.eqb_spec i j) as [-> | Hij]; simpl.
      * destruct (Nat.eqb_spec j k); [congruence | reflexivity].
      * reflexivity.
Qed.

Lemma spares_cons line x l j :
  spares line (x :: l) j <-> (matchesLine x line = true -> wt_id x <> j) /\ spares line l j.
Proof.
  unfold spares. split.
  - intros H. split; [apply H; now left | intros m Hm; apply H; now right].
  - intros [Hx Hl] m [<- | Hm]; auto.
Qed.

Lemma offer_waiters line e x w :
  In w (en_waiters (offer line e x)) <->
  In w (en_waiters e) /\ (matchesLine x line = true -> wt_id x <> wt_id w).
Proof.
  unfold offer. destruct (matchesLine x line); simpl.
  - rewrite In_dropWaiter. intuition congruence.
  - intuition congruence.
Qed.

Lemma offer_timers line e x j :
  existsb (fun t => (fst t =? j)%nat) (en_timers (offer line e x)) = true <->
  existsb (fun t => (fst t =? j)%nat) (en_timers e) = true
  /\ (matchesLine x line = true -> wt_id x <> j).
Proof.
  unfold offer. destruct (matchesLine x line); simpl.
  - rewrite pending_dropTimer, andb_true_iff, negb_true_iff, Nat.eqb_neq.
    intuition congruence.
  - intuition congruence.
Qed.

Lemma offers_waiters line l : forall e w,
  In w (en_waiters (fold_left (offer line) l e)) <->
  In w (en_waiters e) /\ spares line l (wt_id w).
Proof.
  induction l as [| x l IH]; intros e w; simpl.
  - unfold spares. split; [intros H; split; [exact H | intros m []] | tauto].
  - rewrite IH, offer_waiters, spares_cons. tauto.
Qed.

Lemma offers_timers line l : forall e j,
  existsb (fun t => (fst t =? j)%nat) (en_timers (fold_left (offer line) l e)) = true <->
  existsb (fun t => (fst t =? j)%nat) (en_timers e) = true /\ spares line l j.
Proof.
  induction l as [| x l IH]; intros e j; simpl.
  - unfold spares. split; [intros H; split; [exact H | intros m []] | tauto].
  - rewrite IH, offer_timers, spares_cons. tauto.
Qed.

Lemma offers_keep line l : forall e j v,
  en_settled e !! j = Some v -> en_settled (fold_left (offer line) l e) !! j = Some v.
Proof.
  induction l as [| x l IH]; intros e j v H; simpl; [exact H |].
  apply IH. unfold offer. destruct (matchesLine x line); simpl; [| exact H].
  apply settle_keeps. exact H.
Qed.

Lemma offers_unsettled line l : forall e j,
  en_settled e !! j = None -> spares line l j ->
  en_settled (fold_left (offer line) l e) !! j = None.
Proof.
  induction l as [| x l IH]; intros e j H Hs; simpl; [exact H |].
  apply spares_cons in Hs as [Hx Hl].
  apply IH; [| exact Hl]. unfold offer. destruct (matchesLine x line); simpl; [| exact H].
  rewrite settle_other; auto.
Qed.

Lemma offers_resolve line l : forall e j,
  en_settled e !! j = None ->
  (exists m, In m l /\ matchesLine m line = true /\ wt_id m = j) ->
  en_settled (fold_left (offer line) l e) !! j = Some (Resolved line).
Proof.
  induction l as [| x l IH]; intros e j H (m & Hin & Hm & Hid); simpl; [destruct Hin |].
  destruct (matchesLine x line) eqn:Hx.
  - destruct (decide (wt_id x = j)) as [Hxj | Hxj].
    + apply offers_keep. unfold offer. rewrite Hx. simpl. rewrite Hxj.
      apply settle_fresh. exact H.
    + destruct Hin as [<- | Hin]; [congruence |].
      apply IH; [| eauto]. unfold offer. rewrite Hx. simpl. rewrite settle_other; auto.
  - destruct Hin as [<- | Hin]; [congruence |].
    apply IH; [| eauto]. unfold offer. rewrite Hx. exact H.
Qed.

Lemma offers_rest line l : forall e,
  en_next (fold_left (offer line) l e) = en_next e
  /\ en_handlers (fold_left (offer line) l e) = en_handlers e
  /\ en_sent (fold_left (offer line) l e) = en_sent e
  /\ en_heard (fold_left (offer line) l e) = en_heard e.
Proof.
  induction l as [| x l IH]; intros e; simpl; [auto |].
  destruct (IH (offer line e x)) as (H1 & H2 & H3 & H4).
  rewrite H1, H2, H3, H4. unfold offer. destruct (matchesLine x line); auto.
Qed.

Lemma handleMessage_text p e :
  payloadLine p <> "" ->
  handleMessage p e =
  let line := payloadLine p in
  let e1 := fold_left (offer line) (rev (en_waiters e)) e in
  {| en_waiters := en_waiters e1; en_handlers := en_handlers e1; en_timers := en_timers e1;
     en_settled := en_settled e1; en_sent := en_sent e1;
     en_heard := (en_heard e1 ++ map (fun h => (h, line)) (en_handlers e1))%list;
     en_next := en_next e1 |}.
Proof.
  intros H. unfold handleMessage. destruct (payloadLine p); [congruence | reflexivity].
Qed.

Lemma handleMessage_empty p e : payloadLine p = "" -> handleMessage p e = e.
Proof. intros H. unfold handleMessage. now rewrite H. Qed.

Lemma refused_spares k predicate line e :
  (forall w, In w (en_waiters e) -> wt_id w = k -> wt_predicate w = predicate) ->
  predicate line <> Ret true ->
  spares line (rev (en_waiters e)) k.
Proof.
  intros Hown Hno m Hin Hm Hid. apply in_rev in Hin.
  apply Hno. unfold matchesLine in Hm. rewrite (Hown m Hin Hid) in Hm.
  destruct (predicate line) as [[|] | err]; congruence.
Qed.

Lemma quiet_step_waiting k predicate e s :
  waiting k predicate e -> quiet k predicate s -> waiting k predicate (perform e s).
Proof.
  intros (Hin & Hown & Htimer & Hnone & Hlt) Hq.
  destruct s as [[p | j] | pr t | c | h0 | h]; cbn [perform happen quiet] in *.
  - destruct (String.eqb_spec (payloadLine p) "") as [He | Hne].
    { rewrite handleMessage_empty by exact He. repeat split; assumption. }
    destruct Hq as [He | Hno]; [congruence |].
    rewrite handleMessage_text by exact Hne. unfold waiting. fields.
    pose proof (refused_spares k predicate (payloadLine p) e Hown Hno) as Hsp.
    destruct (offers_rest (payloadLine p) (rev (en_waiters e)) e) as (Hx & _).
    repeat split.
    + destruct Hin as (w & Hw & Hid). exists w. split; [| exact Hid].
      apply offers_waiters. split; [exact Hw | now rewrite Hid].
    + intros w Hw. apply offers_waiters in Hw as [Hw _]. now apply Hown.
    + apply offers_timers. split; assumption.
    + apply offers_unsettled; assumption.
    + now rewrite Hx.
  - unfold timerFires.
    destruct (existsb (fun t => (fst t =? j)%nat) (en_timers e)) eqn:Hp;
      unfold waiting; fields.
    + repeat split.
      * destruct Hin as (w & Hw & Hid). exists w. split; [| exact Hid].
        apply In_dropWaiter. split; [exact Hw | congruence].
      * intros w Hw. apply In_dropWaiter in Hw as [Hw _]. now apply Hown.
      * rewrite pending_dropTimer, Htimer, andb_true_r.
        apply negb_true_iff, Nat.eqb_neq. congruence.
      * rewrite settle_other; auto.
      * exact Hlt.
    + repeat split; assumption.
  - unfold waitFor, waiting. fields. repeat split.
    + destruct Hin as (w & Hw & Hid). exists w. split; [| exact Hid].
      apply in_or_app. now left.
    + intros w Hw Hid. apply in_app_or in Hw as [Hw | [<- | []]]; [now apply Hown |].
      simpl in Hid. lia.
    + rewrite existsb_app, Htimer. reflexivity.
    + exact Hnone.
    + lia.
  - unfold send, waiting. fields. repeat split; assumption.
  - unfold onMessage, waiting. fields. repeat split; assumption.
  - unfold removeListener, waiting. fields. repeat split; assumption.
Qed.

Lemma quiet_steps_waiting k predicate steps : forall e,
  waiting k predicate e -> Forall (quiet k predicate) steps ->
  waiting k predicate (performAll e steps).
Proof.
  induction steps as [| s steps IH]; intros e Hw Hq; simpl; [exact Hw |].
  inversion Hq; subst. apply IH; [| assumption].
  apply quiet_step_waiting; assumption.
Qed.

Lemma waitFor_waiting predicate timeout e :
  idsBelowCounter e ->
  waiting (fst (waitFor predicate timeout e)) predicate (snd (waitFor predicate timeout e)).
Proof.
  intros (Hw & Hs & _). unfold waitFor, waiting. fields. repeat split.
  - eexists. split; [apply in_or_app; right; left; reflexivity | reflexivity].
  - intros w Hin Hid. apply in_app_or in Hin as [Hin | [<- | []]]; [| reflexivity].
    apply Hw in Hin. lia.
  - rewrite existsb_app. simpl. rewrite Nat.eqb_refl. now rewrite orb_true_r.
  - destruct (en_settled e !! en_next e) eqn:E; [| reflexivity].
    assert (en_next e < en_next e)%nat by (apply Hs; eauto). lia.
  - lia.
Qed.

(** A settled promise stays as it is, and its waiter never comes back. *)
Lemma settled_for_good k s step : forall e,
  en_settled e !! k = Some s -> notRegistered k e -> (k < en_next e)%nat ->
  en_settled (perform e step) !! k = Some s
  /\ notRegistered k (perform e step) /\ (k < en_next (perform e step))%nat.
Proof.
  intros e Hs Hn Hlt. unfold notRegistered in *.
  destruct step as [[p | j] | pr t | c | h0 | h]; cbn [perform happen].
  - destruct (String.eqb_spec (payloadLine p) "") as [He | Hne].
    { rewrite handleMessage_empty by exact He. auto. }
    rewrite handleMessage_text by exact Hne. fields.
    destruct (offers_rest (payloadLine p) (rev (en_waiters e)) e) as (Hx & _).
    repeat split.
    + now apply offers_keep.
    + intros w Hw. apply offers_waiters in Hw as [Hw _]. now apply Hn.
    + now rewrite Hx.
  - unfold timerFires.
    destruct (existsb (fun t => (fst t =? j)%nat) (en_timers e)); fields; [| auto].
    repeat split.
    + now apply settle_keeps.
    + intros w Hw. apply In_dropWaiter in Hw as [Hw _]. now apply Hn.
    + exact Hlt.
  - unfold waitFor. fields. repeat split; [exact Hs | | lia].
    intros w Hw. apply in_app_or in Hw as [Hw | [<- | []]]; [now apply Hn |]. simpl. lia.
  - unfold send. fields. auto.
  - unfold onMessage. fields. auto.
  - unfold removeListener. fields. auto.
Qed.

Lemma settled_for_good_all k s steps : forall e,
  en_settled e !! k = Some s -> notRegistered k e -> (k < en_next e)%nat ->
  en_settled (performAll e steps) !! k = Some s /\ notRegistered k (performAll e steps).
Proof.
  induction steps as [| st steps IH]; intros e Hs Hn Hlt; simpl; [auto |].
  destruct (settled_for_good k s st e Hs Hn Hlt) as (H1 & H2 & H3).
  apply IH; assumption.
Qed.

(** A line the predicate accepts resolves the promise with that line. *)
Lemma accepted_line_resolves k predicate e p :
  waiting k predicate e ->
  payloadLine p <> "" -> predicate (payloadLine p) = Ret true ->
  en_settled (handleMessage p e) !! k = Some (Resolved (payloadLine p))
  /\ notRegistered k (handleMessage p e)
  /\ existsb (fun t => (fst t =? k)%nat) (en_timers (handleMessage p e)) = false
  /\ (k < en_next (handleMessage p e))%nat.
Proof.
  intros (Hin & Hown & Htimer & Hnone & Hlt) Hne Hyes.
  rewrite handleMessage_text by exact Hne. unfold notRegistered. fields.
  destruct Hin as (w & Hw & Hid).
  assert (Hhit : In w (rev (en_waiters e)) /\ matchesLine w (payloadLine p) = true /\ wt_id w = k).
  { split; [now apply in_rev in Hw | split; [| exact Hid]].
    unfold matchesLine. rewrite (Hown w Hw Hid), Hyes. reflexivity. }
  destruct (offers_rest (payloadLine p) (rev (en_waiters e)) e) as (Hx & _).
  repeat split.
  - apply offers_resolve; [exact Hnone | eauto].
  - intros m Hm Hmk. apply offers_waiters in Hm as [_ Hsp].
    destruct Hhit as (H1 & H2 & H3). apply (Hsp w H1 H2). congruence.
  - apply not_true_is_false. intros Ht. apply offers_timers in Ht as [_ Hsp].
    destruct Hhit as (H1 & H2 & H3). now apply (Hsp w H1 H2).
  - now rewrite Hx.
Qed.

(** The timer of a waiting waiter removes it and rejects its promise. *)
Lemma timeout_rejects k predicate e :
  waiting k predicate e ->
  en_settled (timerFires k e) !! k = Some (Rejected timeoutError)
  /\ notRegistered k (timerFires k e)
  /\ existsb (fun t => (fst t =? k)%nat) (en_timers (timerFires k e)) = false
  /\ (k < en_next (timerFires k e))%nat.
Proof.
  intros (Hin & Hown & Htimer & Hnone & Hlt).
  unfold timerFires, notRegistered. rewrite Htimer. fields. repeat split.
  - now apply settle_fresh.
  - intros w Hw. now apply In_dropWaiter in Hw as [_ Hw].
  - rewrite pending_dropTimer, Nat.eqb_refl. reflexivity.
  - exact Hlt.
Qed.

Lemma offers_settled_below line (n : nat) l : forall e,
  (forall m, In m l -> (wt_id m < n)%nat) ->
  (forall j, is_Some (en_settled e !! j) -> (j < n)%nat) ->
  forall j, is_Some (en_settled (fold_left (offer line) l e) !! j) -> (j < n)%nat.
Proof.
  induction l as [| x l IH]; intros e Hl He; simpl; [exact He |].
  apply IH; [intros m Hm; apply Hl; now right |].
  unfold offer. destruct (matchesLine x line); fields; [| exact He].
  apply settle_below; [apply Hl; now left | exact He].
Qed.

(** Every step keeps the ids of a session below its counter, so every
    session that started empty has them there. *)
Lemma In_dropTimer k l t : In t (dropTimer k l) -> In t l.
Proof. unfold dropTimer. rewrite filter_In. tauto. Qed.

Lemma offers_timers_in line l : forall e t,
  In t (en_timers (fold_left (offer line) l e)) -> In t (en_timers e).
Proof.
  induction l as [| x l IH]; intros e t H; simpl in H; [exact H |].
  apply IH in H. unfold offer in H. destruct (matchesLine x line); [| exact H].
  cbn [en_timers] in H. now apply In_dropTimer in H.
Qed.

Lemma idsBelowCounter_perform e s : idsBelowCounter e -> idsBelowCounter (perform e s).
Proof.
  intros (Hw & Hs & Ht). destruct s as [[p | j] | pr t | c | h0 | h]; cbn [perform happen].
  - destruct (String.eqb_spec (payloadLine p) "") as [He | Hne].
    { rewrite handleMessage_empty by exact He. repeat split; assumption. }
    rewrite handleMessage_text by exact Hne. unfold idsBelowCounter. fields.
    destruct (offers_rest (payloadLine p) (rev (en_waiters e)) e) as (Hx & _).
    rewrite Hx. repeat split.
    + intros w Hin. apply offers_waiters in Hin as [Hin _]. auto.
    + apply offers_settled_below; [| exact Hs].
      intros m Hm. apply in_rev in Hm. auto.
    + intros t Hin. apply offers_timers_in in Hin. auto.
  - unfold timerFires.
    destruct (existsb (fun t => (fst t =? j)%nat) (en_timers e)) eqn:Hp;
      unfold idsBelowCounter; fields; [| repeat split; assumption].
    repeat split.
    + intros w Hin. apply In_dropWaiter in Hin as [Hin _]. auto.
    + apply settle_below; [| exact Hs].
      apply existsb_exists in Hp as ([i t] & Hin & Heq). apply Nat.eqb_eq in Heq.
      simpl in Heq. subst i. apply (Ht _ Hin).
    + intros t Hin. apply In_dropTimer in Hin. auto.
  - unfold waitFor, idsBelowCounter. fields. repeat split.
    + intros w Hin. apply in_app_or in Hin as [Hin | [<- | []]]; [apply Hw in Hin; lia |].
      simpl. lia.
    + intros k Hk. apply Hs in Hk. lia.
    + intros t0 Hin. apply in_app_or in Hin as [Hin | [<- | []]]; [apply Ht in Hin; lia |].
      simpl. lia.
  - unfold send, idsBelowCounter. fields. repeat split; assumption.
  - unfold onMessage, idsBelowCounter. fields. repeat split; assumption.
  - unfold removeListener, idsBelowCounter. fields. repeat split; assumption.
Qed.

Lemma idsBelowCounter_new : idsBelowCounter newEngine.
Proof.
  unfold idsBelowCounter, newEngine. fields. repeat split.
  - intros w [].
  - intros k [v Hk]. rewrite lookup_empty in Hk. discriminate.
  - intros t [].
Qed.

Lemma idsBelowCounter_reachable steps : idsBelowCounter (performAll newEngine steps).
Proof.
  unfold performAll. generalize idsBelowCounter_new. generalize newEngine.
  induction steps as [| s steps IH]; intros e He; simpl; [exact He |].
  apply IH. now apply idsBelowCounter_perform.
Qed.

(** C7 (as amended).  A waiter registered by [waitFor] stays registered
    through every step that neither brings a line it accepts nor runs its
    timer out.  Then the first message with a non-empty line the predicate
    accepts resolves the promise with that line; and if instead the timer
    runs out first, the waiter is removed and the promise is rejected with
    the timeout error.  Either way the promise keeps that outcome and the
    waiter is never registered again, whatever happens later. *)
Theorem waitFor_resolves_or_times_out (e : Engine) (predicate : string -> Res bool)
    (timeout : Z) (before later : list Step) :
  idsBelowCounter e ->
  Forall (quiet (fst (waitFor predicate timeout e)) predicate) before ->
  let k := fst (waitFor predicate timeout e) in
  let e2 := performAll (snd (waitFor predicate timeout e)) before in
  waiting k predicate e2
  /\ (forall p,
        payloadLine p <> "" -> predicate (payloadLine p) = Ret true ->
        en_settled (performAll (handleMessage p e2) later) !! k
        = Some (Resolved (payloadLine p))
        /\ notRegistered k (performAll (handleMessage p e2) later))
  /\ en_settled (performAll (timerFires k e2) later) !! k = Some (Rejected timeoutError)
  /\ notRegistered k (timerFires k e2)
  /\ notRegistered k (performAll (timerFires k e2) later).
Proof.
  intros Hids Hquiet k e2.
  assert (Hw : waiting k predicate e2).
  { apply quiet_steps_waiting; [apply waitFor_waiting; exact Hids | exact Hquiet]. }
  split; [exact Hw |]. split; [| split; [| split]].
  - intros p Hne Hyes.
    destruct (accepted_line_resolves k predicate e2 p Hw Hne Hyes) as (H1 & H2 & _ & H4).
    apply settled_for_good_all; assumption.
  - destruct (timeout_rejects k predicate e2 Hw) as (H1 & H2 & _ & H4).
    apply (settled_for_good_all k (Rejected timeoutError)); assumption.
  - apply (timeout_rejects k predicate e2 Hw).
  - destruct (timeout_rejects k predicate e2 Hw) as (H1 & H2 & _ & H4).
    apply (settled_for_good_all k (Rejected timeoutError)); assumption.
Qed.

(** While its waiter is waiting, a suspended call stays suspended. *)
Lemma blocked_stays {A} k predicate (next : Res string -> Proc A) evs : forall e,
  waiting k predicate e ->
  Forall (fun ev => quiet k predicate (Occurs ev)) evs ->
  deliverAll (Blocked k next, e) evs = (Blocked k next, performAll e (map Occurs evs))
  /\ waiting k predicate (performAll e (map Occurs evs)).
Proof.
  induction evs as [| ev evs IH]; intros e Hw Hq; simpl; [auto |].
  inversion Hq as [| ? ? Hev Hrest]; subst.
  pose proof (quiet_step_waiting k predicate e (Occurs ev) Hw Hev) as Hw'.
  cbn [perform] in *. destruct Hw' as (H1 & H2 & H3 & H4 & H5).
  rewrite H4. apply IH; [repeat split; assumption | assumption].
Qed.

Lemma events_send_nothing evs : forall e,
  en_sent (performAll e (map Occurs evs)) = en_sent e
  /\ en_handlers (performAll e (map Occurs evs)) = en_handlers e.
Proof.
  induction evs as [| ev evs IH]; intros e; simpl; [auto |].
  destruct (IH (happen ev e)) as [H1 H2]. unfold performAll in *. rewrite H1, H2.
  destruct ev as [p | j]; cbn [happen].
  - destruct (String.eqb_spec (payloadLine p) "") as [He | Hne].
    { rewrite handleMessage_empty by exact He. auto. }
    rewrite handleMessage_text by exact Hne. fields.
    destruct (offers_rest (payloadLine p) (rev (en_waiters e)) e) as (_ & Hh & Hp & _).
    auto.
  - unfold timerFires. destruct (existsb _ (en_timers e)); auto.
Qed.

End Waiters.

Section AdapterFacts.
Context {L : ChessLib}.
Variable collect : string -> list string -> list Suggestion.

(** C8 (as amended).  When the wait for the best move times out,
    [analyzeWithStockfish] posts [stop], removes its info handler, posts
    [isready] and waits for [readyok]; nothing else is posted.  It then
    returns [null] as soon as a [readyok] line arrives, and also when
    that second wait itself times out. *)
Theorem bestmove_timeout_cleanup (sourceUrl fenText : string) (desiredDepth : Z) (h : nat)
    (e : Engine) (evs1 : list Event) :
  idsBelowCounter e ->
  Forall (fun ev => quiet (en_next e) isBestMove (Occurs ev)) evs1 ->
  let st1 := deliverAll (start (finishAnalysis collect sourceUrl fenText desiredDepth h) e) evs1 in
  let st2 := deliver st1 (Timer (en_next e)) in
  exists k2 next2,
    fst st2 = Blocked k2 next2
    /\ en_sent (snd st2) = (en_sent e ++ ["stop"; "isready"])%list
    /\ ~ In h (en_handlers (snd st2))
    /\ waiting k2 isReadyOk (snd st2)
    /\ forall evs2,
         Forall (fun ev => quiet k2 isReadyOk (Occurs ev)) evs2 ->
         let st3 := deliverAll st2 evs2 in
         (forall p, payloadLine p <> "" -> isReadyOk (payloadLine p) = Ret true ->
                    fst (deliver st3 (Message p)) = Finished (Ret None))
         /\ fst (deliver st3 (Timer k2)) = Finished (Ret None)
         /\ en_sent (snd st3) = (en_sent e ++ ["stop"; "isready"])%list.
Proof.
  intros Hids Hq1 st1 st2.
  pose proof (waitFor_waiting isBestMove 15000 e Hids) as Hw1.
  set (e1 := snd (waitFor isBestMove 15000 e)) in *.
  assert (Hk : fst (waitFor isBestMove 15000 e) = en_next e) by reflexivity.
  rewrite Hk in Hw1.
  set (next1 := afterBestMove collect sourceUrl fenText desiredDepth h).
  assert (Hst1 : st1 = (Blocked (en_next e) next1, performAll e1 (map Occurs evs1))
                 /\ waiting (en_next e) isBestMove (performAll e1 (map Occurs evs1))).
  { subst st1. unfold finishAnalysis. cbn [start]. unfold waitFor. cbn [fst snd].
    apply (blocked_stays (en_next e) isBestMove next1 evs1 e1 Hw1 Hq1). }
  destruct Hst1 as [Hst1 Hw2].
  set (e2 := performAll e1 (map Occurs evs1)) in *.
  destruct (timeout_rejects (en_next e) isBestMove e2 Hw2) as (Hrej & Hnot & _ & Hlt).
  destruct (events_send_nothing evs1 e1) as [Hsent Hhand]. fold e2 in Hsent, Hhand.
  assert (Hids2 : idsBelowCounter (timerFires (en_next e) e2)).
  { apply (idsBelowCounter_perform e2 (Occurs (Timer (en_next e)))).
    subst e2. clear -Hids. unfold performAll.
    assert (H1 : idsBelowCounter e1) by (apply (idsBelowCounter_perform e (Registers isBestMove 15000)); exact Hids).
    revert H1. generalize e1. induction (map Occurs evs1) as [| s l IH]; intros e0 H0; simpl; [exact H0 |].
    apply IH. now apply idsBelowCounter_perform. }
  set (e3 := timerFires (en_next e) e2) in *.
  set (e5 := send "isready" (removeListener h (send "stop" e3))).
  assert (Hids5 : idsBelowCounter e5).
  { subst e5.
    apply (idsBelowCounter_perform _ (Posts "isready")).
    apply (idsBelowCounter_perform _ (RemovesHandler h)).
    apply (idsBelowCounter_perform _ (Posts "stop")). exact Hids2. }
  pose proof (waitFor_waiting isReadyOk 10000 e5 Hids5) as Hw5.
  assert (Hst2 : exists next2,
             st2 = (Blocked (en_next e5) next2, snd (waitFor isReadyOk 10000 e5))
             /\ forall r, next2 r = Done None).
  { subst st2. rewrite Hst1. unfold deliver. cbn [happen]. fold e3. rewrite Hrej.
    subst next1. unfold afterBestMove. cbn [start recover isReady andThen awaitLine]. fold e5.
    eexists. split; [reflexivity |]. intros [line | err]; reflexivity. }
  destruct Hst2 as (next2 & Hst2 & Hnext2).
  exists (en_next e5), next2. rewrite Hst2. cbn [fst snd].
  assert (Hsent5 : en_sent (snd (waitFor isReadyOk 10000 e5)) = (en_sent e ++ ["stop"; "isready"])%list).
  { unfold waitFor, e5, send, removeListener. fields.
    assert (Hs3 : en_sent e3 = en_sent e2).
    { subst e3. unfold timerFires. destruct (existsb _ (en_timers e2)); reflexivity. }
    rewrite Hs3, Hsent. subst e1. unfold waitFor. fields.
    rewrite <- app_assoc. reflexivity. }
  split; [reflexivity |]. split; [exact Hsent5 |]. split; [| split; [exact Hw5 |]].
  - unfold waitFor, e5, send, removeListener. fields.
    unfold not. intros Hin. apply filter_In in Hin as [_ Hb]. rewrite Nat.eqb_refl in Hb. discriminate.
  - intros evs2 Hq2.
    destruct (blocked_stays (en_next e5) isReadyOk next2 evs2 _ Hw5 Hq2) as [Hst3 Hw6].
    rewrite Hst3.
    set (e6 := performAll (snd (waitFor isReadyOk 10000 e5)) (map Occurs evs2)) in *.
    repeat split.
    + intros p Hne Hyes.
      destruct (accepted_line_resolves _ _ e6 p Hw6 Hne Hyes) as (Hres & _).
      unfold deliver. cbn [happen]. rewrite Hres. rewrite Hnext2. reflexivity.
    + destruct (timeout_rejects _ _ e6 Hw6) as (Hrej6 & _).
      unfold deliver. cbn [happen]. rewrite Hrej6. rewrite Hnext2. reflexivity.
    + cbn [snd]. destruct (events_send_nothing evs2 (snd (waitFor isReadyOk 10000 e5))) as [Hs _].
      fold e6 in Hs. rewrite Hs. exact Hsent5.
Qed.

End AdapterFacts.

(** ** The transposition table *)

Section TableWrites.
Context {N : Num} {L : ChessLib}.

Lemma evaluateTerminalState_reads_only perspective plyCount context w :
  snd (evaluateTerminalState perspective plyCount context w) = w.
Proof.
  unfold evaluateTerminalState, bind, query, getter, ret.
  destruct (in_checkmate (w_game w)) as [[|] | e]; try reflexivity.
  destruct (in_stalemate (w_game w)) as [[|] | e]; reflexivity.
Qed.

Lemma cancelled_frame env w r w1 :
  cancelled env w = (r, w1) ->
  w_game w1 = w_game w /\ w_table w1 = w_table w /\ w_stats w1 = w_stats w
  /\ w_meta w1 = w_meta w.
Proof.
  unfold cancelled, bind, pollStop, readClock, ret.
  destruct (shouldStop env) as [stop |]; simpl.
  - destruct (stop (w_polls w)); simpl.
    + intros H. inversion H; subst. simpl. auto.
    + destruct (deadline env) as [d |]; [| intros H; inversion H; subst; simpl; auto].
      destruct (nowFn env) as [clock |]; [| intros H; inversion H; subst; simpl; auto].
      destruct (truthy d); simpl; intros H; inversion H; subst; simpl; auto.
  - destruct (deadline env) as [d |]; [| intros H; inversion H; subst; simpl; auto].
    destruct (nowFn env) as [clock |]; [| intros H; inversion H; subst; simpl; auto].
    destruct (truthy d); simpl; intros H; inversion H; subst; simpl; auto.
Qed.

(** What a call of [negamax] that is not cancelled writes under the
    fingerprint of its position.  The store at a terminal position
    compares depths: it happens only when the key has no entry or the
    stored entry is strictly shallower than the call.  The store at the
    end of the move loop does not: at a position that is not terminal,
    searched with a positive depth and without a cut from the table, the
    result is stored with the depth of the call whatever entry was stored
    before. *)
Theorem negamax_table_writes fuel env depth alpha beta perspective plyCount context w w1 v w' :
  negamax fuel env depth alpha beta perspective plyCount context w = (Val v, w') ->
  cancelled env w = (Val false, w1) ->
  let key := fen (w_game w) in
  (game_over (w_game w) = Ret true ->
   exists result,
     v = Fin result
     /\ w_table w' =
        match w_table w !! key with
        | Some c =>
            if (e_depth c <? depth)%Z
            then <[key := {| e_depth := depth; e_value := Fin result; e_flag := Exact;
                             e_best := None |}]> (w_table w)
            else w_table w
        | None =>
            <[key := {| e_depth := depth; e_value := Fin result; e_flag := Exact;
                        e_best := None |}]> (w_table w)
        end)
  /\ (game_over (w_game w) = Ret false ->
      (0 < depth)%Z ->
      snd (probeTable (w_table w !! key) false depth alpha beta) = None ->
      exists entry,
        w_table w' !! key = Some entry /\ e_depth entry = depth /\ e_value entry = v).
Proof.
  intros Hrun Hc key.
  destruct fuel as [| fuel]; [discriminate |].
  destruct (cancelled_frame env w _ w1 Hc) as (Hg & Ht & Hs & Hm).
  simpl in Hrun. rewrite (bind_val _ _ _ _ _ Hc) in Hrun.
  apply bind_val_inv in Hrun as ([] & w2 & Hcount & Hrun).
  assert (Hw2 : w_game w2 = w_game w /\ w_table w2 = w_table w).
  { unfold countNode, bind, getWorld, setStats in Hcount. inversion Hcount; subst. simpl. auto. }
  destruct Hw2 as [Hg2 Ht2]. clear Hcount.
  apply bind_val_inv in Hrun as (terminal & w3 & Hover & Hrun).
  unfold query in Hover. rewrite Hg2 in Hover.
  apply bind_val_inv in Hrun as (key' & w4 & Hkey & Hrun).
  apply bind_val_inv in Hrun as (w5 & w6 & Hget & Hrun).
  split.
  - intros Hterm. rewrite Hterm in Hover. inversion Hover; subst terminal w3. clear Hover.
    unfold getter in Hkey. inversion Hkey; subst key' w4. clear Hkey.
    unfold getWorld in Hget. inversion Hget; subst w5 w6. clear Hget.
    rewrite Hg2, Ht2 in Hrun. fold key in Hrun.
    assert (Hprobe : probeTable (w_table w !! key) true depth alpha beta = (alpha, beta, None)).
    { unfold probeTable. destruct (w_table w !! key); reflexivity. }
    rewrite Hprobe in Hrun.
    apply bind_val_inv in Hrun as (result & w7 & Heval & Hrun).
    pose proof (evaluateTerminalState_reads_only perspective plyCount context w2) as Hsame.
    rewrite Heval in Hsame. simpl in Hsame. subst w7.
    apply bind_val_inv in Hrun as ([] & w8 & Hset & Hrun).
    unfold ret in Hrun. inversion Hrun; subst v w'. clear Hrun.
    exists result. split; [reflexivity |].
    destruct (w_table w !! key) as [c |].
    + destruct (e_depth c <? depth)%Z.
      * unfold tableSet, bind, getWorld, setTable in Hset. inversion Hset; subst. simpl.
        now rewrite Ht2.
      * unfold ret in Hset. inversion Hset; subst. exact Ht2.
    + unfold tableSet, bind, getWorld, setTable in Hset. inversion Hset; subst. simpl.
      now rewrite Ht2.
  - intros Hterm Hdepth Hmiss. rewrite Hterm in Hover. inversion Hover; subst terminal w3.
    clear Hover.
    unfold getter in Hkey. inversion Hkey; subst key' w4. clear Hkey.
    unfold getWorld in Hget. inversion Hget; subst w5 w6. clear Hget.
    rewrite Hg2, Ht2 in Hrun. fold key in Hrun.
    destruct (probeTable (w_table w !! key) false depth alpha beta) as [[alpha' beta'] hit].
    simpl in Hmiss. subst hit.
    assert (Hd : (depth <=? 0)%Z = false) by (apply Z.leb_gt; exact Hdepth).
    rewrite Hd in Hrun.
    apply bind_val_inv in Hrun as (ms & w7 & Hord & Hrun).
    apply bind_val_inv in Hrun as (best & w8 & Hloop & Hrun).
    apply bind_val_inv in Hrun as (best' & w9 & Hfix & Hrun).
    apply bind_val_inv in Hrun as ([] & w10 & Hset & Hrun).
    unfold ret in Hrun. inversion Hrun; subst v w'. clear Hrun.
    unfold tableSet, bind, getWorld, setTable in Hset. inversion Hset; subst w10. simpl.
    eexists. split; [apply lookup_insert_eq |]. simpl. auto.
Qed.

End TableWrites.

(** ** The evaluator: symmetry and bounds

    [evaluatePosition] is taken apart: the first loop is a fold over the
    occupied squares, every later stage adds a term that does not depend
    on the running total, and so the result is a sum of terms.  Over the
    rationals each term of the mirrored board is the negated term of the
    board, and each term is bounded. *)

Section ScanFacts.
Context {N : Num}.

Lemma scan_cells row rank : forall col st,
  foldIndexed (fun st' c cell => scanSquare st' row c cell) col rank st
  = fold_left scanInfo (cells row col rank) st.
Proof.
  induction rank as [| [p |] r IH]; intros col st; cbn [foldIndexed cells fold_left].
  - reflexivity.
  - rewrite IH. reflexivity.
  - rewrite IH. reflexivity.
Qed.

Lemma scan_rows b : forall row st,
  foldIndexed (fun st' r rank => foldIndexed (fun st'' c cell => scanSquare st'' r c cell) 0 rank st')
    row b st
  = fold_left scanInfo (occupiedFrom row b) st.
Proof.
  induction b as [| rank rest IH]; intros row st; cbn [foldIndexed occupiedFrom]; [reflexivity |].
  rewrite IH, scan_cells, fold_left_app. reflexivity.
Qed.

Lemma scanBoard_occupied b : scanBoard b = fold_left scanInfo (occupied b) scanStart.
Proof. apply scan_rows. Qed.

(** A field that the loop body updates on its own is a fold of its own. *)
Lemma scan_field {F} (proj : Scan -> F) (step : F -> PieceInfo -> F) :
  (forall st i, proj (scanInfo st i) = step (proj st) i) ->
  forall l st, proj (fold_left scanInfo l st) = fold_left step l (proj st).
Proof.
  intros H. induction l as [| i l IH]; intros st; cbn [fold_left]; [reflexivity |].
  rewrite IH, H. reflexivity.
Qed.

End ScanFacts.

(** *** Sums of rationals *)

Local Open Scope Q_scope.

Lemma sumQ_perm l l' : Permutation l l' -> sumQ l == sumQ l'.
Proof.
  induction 1; cbn [sumQ] in *.
  - reflexivity.
  - rewrite IHPermutation. reflexivity.
  - ring.
  - now rewrite IHPermutation1.
Qed.

Lemma sumQ_map_ext {A} (f g : A -> Q) l :
  (forall x, In x l -> f x == g x) -> sumQ (map f l) == sumQ (map g l).
Proof.
  induction l as [| x l IH]; intros H; cbn [map sumQ] in *; [reflexivity |].
  rewrite (H x) by now left. rewrite IH; [reflexivity |]. intros y Hy. apply H. now right.
Qed.

Lemma sumQ_map_opp {A} (f : A -> Q) l : sumQ (map (fun x => - f x) l) == - sumQ (map f l).
Proof. induction l as [| x l IH]; cbn [app map sumQ] in *; [ring | rewrite IH; ring]. Qed.

(** A loop that adds a term per element adds their sum. *)
Lemma fold_add {A} (g : A -> Q) l : forall t s,
  t == s -> fold_left (fun t x => t + g x) l t == s + sumQ (map g l).
Proof.
  induction l as [| x l IH]; intros t s H; cbn [fold_left map sumQ].
  - rewrite Qplus_0_r. exact H.
  - rewrite (IH (t + g x) (s + g x)); [ring | apply Qplus_comp; [exact H | reflexivity]].
Qed.

Lemma fold_step {A} (step : Q -> A -> Q) (g : A -> Q) l :
  (forall t x, In x l -> step t x == t + g x) ->
  forall t s, t == s -> fold_left step l t == s + sumQ (map g l).
Proof.
  induction l as [| x l IH]; intros Hstep t s H; cbn [fold_left map sumQ].
  - rewrite Qplus_0_r. exact H.
  - rewrite (IH (fun t y Hy => Hstep t y (or_intror Hy)) (step t x) (s + g x)); [ring |].
    rewrite Hstep by now left. apply Qplus_comp; [exact H | reflexivity].
Qed.

Local Close Scope Q_scope.

(** *** Loops over lists *)

Lemma fold_left_perm {A S} (step : S -> A -> S) :
  (forall s x y, step (step s x) y = step (step s y) x) ->
  forall l l', Permutation l l' -> forall s, fold_left step l s = fold_left step l' s.
Proof.
  intros Hcomm l l' Hp. induction Hp; intros s; cbn [fold_left].
  - reflexivity.
  - apply IHHp.
  - now rewrite Hcomm.
  - now rewrite IHHp1.
Qed.

Lemma fold_left_map_in {A B S} (step : S -> B -> S) (f : A -> B) l :
  forall s, fold_left step (map f l) s = fold_left (fun s x => step s (f x)) l s.
Proof. induction l as [| x l IH]; intros s; cbn [map fold_left]; [reflexivity | apply IH]. Qed.

(** A loop that appends one record per selected element builds the list
    of the records of the selected elements. *)
Lemma fold_collect {A B} (sel : A -> bool) (f : A -> B) l :
  forall acc,
    fold_left (fun acc x => if sel x then (acc ++ [f x])%list else acc) l acc
    = (acc ++ map f (List.filter sel l))%list.
Proof.
  induction l as [| x l IH]; intros acc; cbn [fold_left List.filter].
  - cbn [map]. now rewrite app_nil_r.
  - rewrite IH. destruct (sel x); [| reflexivity].
    cbn [map]. rewrite <- app_assoc. reflexivity.
Qed.

Lemma last_cons {A} (l : list A) : forall a d, List.last (a :: l) d = List.last l a.
Proof.
  induction l as [| b l IH]; intros a d; [reflexivity |].
  change (List.last (a :: b :: l) d) with (List.last (b :: l) d).
  now rewrite !IH.
Qed.

(** A loop that remembers the latest selected element ends with the last
    one selected. *)
Lemma fold_latest {A B} (sel : A -> bool) (f : A -> B) l :
  forall acc,
    fold_left (fun acc x => if sel x then Some (f x) else acc) l acc
    = match List.filter sel l with
      | [] => acc
      | y :: r => Some (f (List.last r y))
      end.
Proof.
  induction l as [| x l IH]; intros acc; cbn [fold_left List.filter]; [reflexivity |].
  rewrite IH. destruct (sel x); [| reflexivity].
  destruct (List.filter sel l) as [| y r]; [reflexivity |].
  now rewrite last_cons.
Qed.

Lemma fold_snoc {A} (l : list A) :
  forall acc, fold_left (fun acc x => (acc ++ [x])%list) l acc = (acc ++ l)%list.
Proof.
  induction l as [| x r IH]; intros acc; cbn [fold_left].
  - now rewrite app_nil_r.
  - rewrite IH, <- app_assoc. reflexivity.
Qed.

(** The part of a color in a loop over both colors. *)
Lemma side_onSide {A} (c k : Color) (f : A -> A) (p : ByColor A) :
  side c (onSide k f p) = if Color_eqb k c then f (side c p) else side c p.
Proof. destruct c, k, p; reflexivity. Qed.

Lemma side_fold {A X} (c : Color) (sel : X -> bool) (col : X -> Color) (f : X -> A -> A) l :
  forall acc : ByColor A,
    side c (fold_left (fun acc x => if sel x then onSide (col x) (f x) acc else acc) l acc)
    = fold_left (fun a x => if sel x && Color_eqb (col x) c then f x a else a) l (side c acc).
Proof.
  induction l as [| x l IH]; intros acc; cbn [fold_left]; [reflexivity |].
  rewrite IH. destruct (sel x); cbn [andb]; [| reflexivity].
  rewrite side_onSide. reflexivity.
Qed.

Lemma perm_short {A} (l l' : list A) : Permutation l l' -> (length l <= 1)%nat -> l = l'.
Proof.
  intros Hp Hlen. destruct l as [| x [| y r]]; cbn [length] in Hlen; [| | lia].
  - apply Permutation_nil in Hp. now subst.
  - apply Permutation_length_1_inv in Hp. now subst.
Qed.

(** *** The fields of the scan, one loop each *)

Section Fields.
Context {N : Num}.

Ltac by_cases i := destruct i as [[t c] r f]; destruct t, c; reflexivity.

Lemma step_phase st i : phaseScore (scanInfo st i) = phaseScore st + phaseWeights (typeOf i).
Proof. destruct i as [[t c] r f]. reflexivity. Qed.

Lemma step_total st i : total (scanInfo st i) = centerStep (total st) i.
Proof. destruct i as [[t c] r f]. reflexivity. Qed.

Lemma step_pieces st i : pieces (scanInfo st i) = (pieces st ++ [i])%list.
Proof. destruct i as [[t c] r f]. reflexivity. Qed.

Lemma step_minors st i :
  minorsOnHome (scanInfo st i)
  = if minorAtHome i then onSide (colorOf i) (fun n => n + 1) (minorsOnHome st)
    else minorsOnHome st.
Proof. destruct i as [[t c] r f]. reflexivity. Qed.

Lemma step_fileCounts st i :
  fileCounts (scanInfo st i)
  = if isType Pawn i then onSide (colorOf i) (bump (pi_col i)) (fileCounts st)
    else fileCounts st.
Proof. by_cases i. Qed.

Lemma step_pawns st i :
  pawns (scanInfo st i)
  = if isType Pawn i then onSide (colorOf i) (fun l => (l ++ [pawnOf i])%list) (pawns st)
    else pawns st.
Proof. by_cases i. Qed.

Lemma step_rooks st i :
  rooks (scanInfo st i)
  = if isType Rook i then onSide (colorOf i) (fun l => (l ++ [rookOf i])%list) (rooks st)
    else rooks st.
Proof. by_cases i. Qed.

Lemma step_bishops c st i :
  bishops (side c (pieceTally (scanInfo st i)))
  = if isType Bishop i && isColor c i then bishops (side c (pieceTally st)) + 1
    else bishops (side c (pieceTally st)).
Proof.
  destruct i as [[t k] r f]. destruct (pieceTally st) as [tw tb] eqn:E.
  destruct t, k, c; unfold scanInfo, scanSquare; cbn [pieceTally pi_piece ptype pcolor];
    rewrite E; reflexivity.
Qed.

Lemma step_king c st i :
  kingIn c (scanInfo st i)
  = if isType King i && isColor c i then Some (kingOf i) else kingIn c st.
Proof. destruct i as [[t k] r f]. destruct t, k, c; reflexivity. Qed.

Lemma step_kingSquare c st i :
  kingSquareIn c (scanInfo st i)
  = if isType King i && isColor c i then Some (squareOf i) else kingSquareIn c st.
Proof. destruct i as [[t k] r f]. destruct t, k, c; reflexivity. Qed.

End Fields.

(** *** What the scan of a board holds *)

Section Summary.
Context {N : Num}.
Variable b : Board.
Let l := occupied b.
Let st := scanBoard b.

Lemma scan_phase : phaseScore st = fold_left (fun z i => z + phaseWeights (typeOf i)) l 0.
Proof.
  unfold st. rewrite scanBoard_occupied.
  apply (scan_field phaseScore (fun z i => z + phaseWeights (typeOf i)) step_phase).
Qed.

Lemma scan_total : total st = fold_left centerStep l nzero.
Proof.
  unfold st. rewrite scanBoard_occupied. apply (scan_field total centerStep step_total).
Qed.

Lemma scan_pieces : pieces st = l.
Proof.
  unfold st. rewrite scanBoard_occupied.
  rewrite (scan_field pieces (fun acc i => (acc ++ [i])%list) step_pieces).
  cbn [pieces scanStart]. rewrite fold_snoc. reflexivity.
Qed.

Lemma scan_minors c :
  side c (minorsOnHome st)
  = fold_left (fun a i => if minorAtHome i && isColor c i then a + 1 else a) l 0.
Proof.
  unfold st. rewrite scanBoard_occupied.
  rewrite (scan_field minorsOnHome
             (fun acc i => if minorAtHome i then onSide (colorOf i) (fun n => n + 1) acc else acc)
             step_minors).
  rewrite (side_fold c minorAtHome colorOf (fun _ n => n + 1)).
  destruct c; reflexivity.
Qed.

Lemma scan_fileCounts c :
  side c (fileCounts st)
  = fold_left (fun a i => if selects Pawn c i then bump (pi_col i) a else a) l (replicate 8 0).
Proof.
  unfold st. rewrite scanBoard_occupied.
  rewrite (scan_field fileCounts
             (fun acc i => if isType Pawn i then onSide (colorOf i) (bump (pi_col i)) acc else acc)
             step_fileCounts).
  rewrite (side_fold c (isType Pawn) colorOf (fun i => bump (pi_col i))).
  destruct c; reflexivity.
Qed.

Lemma scan_pawns c : side c (pawns st) = map pawnOf (List.filter (selects Pawn c) l).
Proof.
  unfold st. rewrite scanBoard_occupied.
  rewrite (scan_field pawns
             (fun acc i => if isType Pawn i
                           then onSide (colorOf i) (fun l0 => (l0 ++ [pawnOf i])%list) acc else acc)
             step_pawns).
  rewrite (side_fold c (isType Pawn) colorOf (fun i acc => (acc ++ [pawnOf i])%list)).
  rewrite (fold_collect (selects Pawn c) pawnOf).
  destruct c; reflexivity.
Qed.

Lemma scan_rooks c : side c (rooks st) = map rookOf (List.filter (selects Rook c) l).
Proof.
  unfold st. rewrite scanBoard_occupied.
  rewrite (scan_field rooks
             (fun acc i => if isType Rook i
                           then onSide (colorOf i) (fun l0 => (l0 ++ [rookOf i])%list) acc else acc)
             step_rooks).
  rewrite (side_fold c (isType Rook) colorOf (fun i acc => (acc ++ [rookOf i])%list)).
  rewrite (fold_collect (selects Rook c) rookOf).
  destruct c; reflexivity.
Qed.

Lemma scan_bishops c :
  bishops (side c (pieceTally st))
  = fold_left (fun a i => if selects Bishop c i then a + 1 else a) l 0.
Proof.
  unfold st. rewrite scanBoard_occupied.
  rewrite (scan_field (fun s => bishops (side c (pieceTally s)))
             (fun a i => if isType Bishop i && isColor c i then a + 1 else a) (step_bishops c)).
  destruct c; reflexivity.
Qed.

Lemma scan_king c :
  kingIn c st
  = match List.filter (selects King c) l with
    | [] => None
    | y :: r => Some (kingOf (List.last r y))
    end.
Proof.
  unfold st. rewrite scanBoard_occupied.
  rewrite (scan_field (kingIn c)
             (fun acc i => if isType King i && isColor c i then Some (kingOf i) else acc)
             (step_king c)).
  rewrite (fold_latest (selects King c) kingOf).
  destruct c; reflexivity.
Qed.

Lemma scan_kingSquare c :
  kingSquareIn c st
  = match List.filter (selects King c) l with
    | [] => None
    | y :: r => Some (squareOf (List.last r y))
    end.
Proof.
  unfold st. rewrite scanBoard_occupied.
  rewrite (scan_field (kingSquareIn c)
             (fun acc i => if isType King i && isColor c i then Some (squareOf i) else acc)
             (step_kingSquare c)).
  rewrite (fold_latest (selects King c) squareOf).
  destruct c; reflexivity.
Qed.

End Summary.

(** *** Mirrored boards *)

Lemma cells_mirror s row rank : forall col,
  cells (s - row) col (map (option_map swapPiece) rank)
  = map (reflectInfo s) (cells row col rank).
Proof.
  induction rank as [| [p |] r IH]; intros col; cbn [map option_map cells].
  - reflexivity.
  - rewrite IH. reflexivity.
  - apply IH.
Qed.

Lemma occupiedFrom_app b1 : forall row b2,
  occupiedFrom row (b1 ++ b2)%list
  = (occupiedFrom row b1 ++ occupiedFrom (row + Z.of_nat (length b1)) b2)%list.
Proof.
  induction b1 as [| rank rest IH]; intros row b2.
  - cbn [app occupiedFrom length]. f_equal. lia.
  - change ((rank :: rest) ++ b2)%list with (rank :: (rest ++ b2))%list.
    cbn [occupiedFrom]. rewrite IH, <- app_assoc. do 3 f_equal.
    cbn [length]. lia.
Qed.

Lemma occupiedFrom_mirror b : forall r0 r1 s,
  s = r0 + r1 + Z.of_nat (length b) - 1 ->
  Permutation (occupiedFrom r0 (mirrorBoard b)) (map (reflectInfo s) (occupiedFrom r1 b)).
Proof.
  unfold mirrorBoard.
  induction b as [| rank rest IH]; intros r0 r1 s Hs; [constructor |].
  cbn [map rev occupiedFrom]. rewrite occupiedFrom_app, map_app.
  cbn [occupiedFrom]. rewrite app_nil_r, length_rev, length_map.
  replace (r0 + Z.of_nat (length rest)) with (s - r1) by (cbn [length] in Hs; lia).
  rewrite cells_mirror.
  etransitivity; [| apply Permutation_app_comm].
  apply Permutation_app_tail, IH. cbn [length] in Hs. lia.
Qed.

Lemma occupied_mirror b :
  length b = 8%nat -> Permutation (occupied (mirrorBoard b)) (map mirrorInfo (occupied b)).
Proof. intros H. apply occupiedFrom_mirror. rewrite H. reflexivity. Qed.

Lemma cells_range row rank : forall col i,
  In i (cells row col rank) ->
  pi_row i = row /\ col <= pi_col i < col + Z.of_nat (length rank).
Proof.
  induction rank as [| [p |] r IH]; intros col i Hin; cbn [cells length] in *.
  - destruct Hin.
  - destruct Hin as [<- | Hin]; [cbn; lia |].
    apply IH in Hin. lia.
  - apply IH in Hin. lia.
Qed.

Lemma occupiedFrom_range b :
  Forall (fun rank => length rank = 8%nat) b ->
  forall row i, In i (occupiedFrom row b) ->
    row <= pi_row i < row + Z.of_nat (length b) /\ 0 <= pi_col i <= 7.
Proof.
  induction 1 as [| rank rest Hlen _ IH]; intros row i Hin; cbn [occupiedFrom length] in *.
  - destruct Hin.
  - apply in_app_or in Hin. destruct Hin as [Hin | Hin].
    + apply cells_range in Hin. rewrite Hlen in Hin. lia.
    + apply IH in Hin. lia.
Qed.

Lemma occupied_onBoard b : eightByEight b -> forall i, In i (occupied b) -> onBoard i.
Proof.
  intros [Hlen Hranks] i Hin. apply (occupiedFrom_range _ Hranks) in Hin.
  rewrite Hlen in Hin. unfold onBoard. lia.
Qed.

Lemma lookup_map {A B} (f : A -> B) l : forall n, map f l !! n = option_map f (l !! n).
Proof. induction l as [| x l IH]; intros [| n]; cbn; auto. Qed.

Lemma lookup_rev {A} (l : list A) n :
  (n < length l)%nat -> rev l !! n = l !! (length l - S n)%nat.
Proof. intros H. rewrite rev_alt. apply (reverse_lookup l n H). Qed.

(** A square of the mirrored board holds the swapped piece of the
    reflected square. *)
Lemma boardAt_mirror b r c :
  length b = 8%nat -> 0 <= r <= 7 ->
  boardAt (mirrorBoard b) (7 - r) c = option_map swapPiece (boardAt b r c).
Proof.
  intros Hlen Hr. unfold boardAt, at_, mirrorBoard.
  replace (7 - r <? 0) with false by lia. replace (r <? 0) with false by lia.
  rewrite lookup_rev by (rewrite length_map; lia).
  rewrite length_map, Hlen, lookup_map.
  replace (8 - S (Z.to_nat (7 - r)))%nat with (Z.to_nat r) by lia.
  destruct (b !! Z.to_nat r) as [rank |]; cbn [option_map]; [| reflexivity].
  destruct (c <? 0); [reflexivity |].
  rewrite lookup_map. destruct (rank !! Z.to_nat c) as [cell |]; reflexivity.
Qed.

(** *** Squares of the board, checked one by one *)

Lemma indices8_all z : 0 <= z <= 7 -> In z indices8.
Proof. intros H. unfold indices8. cbn [In]. lia. Qed.

Lemma everywhere (P : Z -> Z -> bool) :
  forallb (fun r => forallb (P r) indices8) indices8 = true ->
  forall r c, 0 <= r <= 7 -> 0 <= c <= 7 -> P r c = true.
Proof.
  intros H r c Hr Hc. rewrite forallb_forall in H.
  specialize (H r (indices8_all r Hr)). rewrite forallb_forall in H.
  exact (H c (indices8_all c Hc)).
Qed.

Lemma squareOf_mirror s s' :
  forallb (fun r => forallb (sameIn s s' r) indices8) indices8 = true ->
  forall i, onBoard i -> has s' (squareOf (mirrorInfo i)) = has s (squareOf i).
Proof.
  intros H i [Hr Hc]. apply eqb_prop. exact (everywhere _ H _ _ Hr Hc).
Qed.

Lemma core_mirror i :
  onBoard i -> has coreCenterSquares (squareOf (mirrorInfo i)) = has coreCenterSquares (squareOf i).
Proof. apply squareOf_mirror. vm_compute. reflexivity. Qed.

Lemma extended_mirror i :
  onBoard i ->
  has extendedCenterSquares (squareOf (mirrorInfo i)) = has extendedCenterSquares (squareOf i).
Proof. apply squareOf_mirror. vm_compute. reflexivity. Qed.

Lemma minorStart_mirror i :
  onBoard i ->
  has minorPieceStartSquares (squareOf (mirrorInfo i)) = has minorPieceStartSquares (squareOf i).
Proof. apply squareOf_mirror. vm_compute. reflexivity. Qed.

Lemma home_mirror i :
  onBoard i -> has ["e1"; "d1"] (squareOf (mirrorInfo i)) = has ["e8"; "d8"] (squareOf i).
Proof. apply squareOf_mirror. vm_compute. reflexivity. Qed.

Lemma home_mirror' i :
  onBoard i -> has ["e8"; "d8"] (squareOf (mirrorInfo i)) = has ["e1"; "d1"] (squareOf i).
Proof. apply squareOf_mirror. vm_compute. reflexivity. Qed.

(** *** Selections from a rearranged list *)

Lemma filter_perm {A} (sel : A -> bool) l l' :
  Permutation l l' -> Permutation (List.filter sel l) (List.filter sel l').
Proof.
  induction 1; cbn [List.filter].
  - constructor.
  - destruct (sel x); [constructor |]; assumption.
  - destruct (sel x), (sel y); try reflexivity. constructor.
  - etransitivity; eassumption.
Qed.

Lemma filter_map_in {A B} (sel' : B -> bool) (sel : A -> bool) (f : A -> B) l :
  (forall x, In x l -> sel' (f x) = sel x) ->
  List.filter sel' (map f l) = map f (List.filter sel l).
Proof.
  induction l as [| x l IH]; intros H; cbn [map List.filter]; [reflexivity |].
  rewrite (H x) by now left. rewrite IH by (intros y Hy; apply H; now right).
  destruct (sel x); reflexivity.
Qed.

Lemma existsb_perm {A} (f : A -> bool) l l' : Permutation l l' -> existsb f l = existsb f l'.
Proof.
  induction 1; cbn [existsb].
  - reflexivity.
  - now rewrite IHPermutation.
  - destruct (f x), (f y); reflexivity.
  - congruence.
Qed.

(** A loop that counts the selected elements. *)
Lemma fold_count {A} (sel : A -> bool) l : forall n,
  fold_left (fun a x => if sel x then a + 1 else a) l n
  = n + Z.of_nat (length (List.filter sel l)).
Proof.
  induction l as [| x l IH]; intros n; cbn [fold_left List.filter]; [cbn; lia |].
  rewrite IH. destruct (sel x); cbn [length]; lia.
Qed.

(** *** The evaluation as a sum, in exact arithmetic *)

Lemma colorOf_mirror i : colorOf (mirrorInfo i) = opposite (colorOf i).
Proof. reflexivity. Qed.

Lemma typeOf_mirror i : typeOf (mirrorInfo i) = typeOf i.
Proof. reflexivity. Qed.

Lemma isType_mirror t i : isType t (mirrorInfo i) = isType t i.
Proof. reflexivity. Qed.

Lemma isColor_mirror c i : isColor c (mirrorInfo i) = isColor (opposite c) i.
Proof. unfold isColor. rewrite colorOf_mirror. destruct (colorOf i), c; reflexivity. Qed.

Lemma selects_mirror t c i : selects t c (mirrorInfo i) = selects t (opposite c) i.
Proof. unfold selects. now rewrite isType_mirror, isColor_mirror. Qed.

Lemma opposite_involutive c : opposite (opposite c) = c.
Proof. destruct c; reflexivity. Qed.

Section Mirrored.
Variable b : Board.
Hypothesis Hb : eightByEight b.
Let l := occupied b.
Let l' := occupied (mirrorBoard b).

Lemma mirrored_perm : Permutation l' (map mirrorInfo l).
Proof. apply occupied_mirror, Hb. Qed.

(** The selected pieces of the mirrored board are the mirrored selected
    pieces of the board, up to their order. *)
Lemma mirrored_filter (sel' sel : PieceInfo -> bool) :
  (forall i, onBoard i -> sel' (mirrorInfo i) = sel i) ->
  Permutation (List.filter sel' l') (map mirrorInfo (List.filter sel l)).
Proof.
  intros H. rewrite <- (filter_map_in sel' sel mirrorInfo l).
  - apply filter_perm, mirrored_perm.
  - intros i Hi. apply H, (occupied_onBoard b Hb i Hi).
Qed.

Lemma mirrored_count (sel' sel : PieceInfo -> bool) :
  (forall i, onBoard i -> sel' (mirrorInfo i) = sel i) ->
  length (List.filter sel' l') = length (List.filter sel l).
Proof.
  intros H. rewrite (Permutation_length (mirrored_filter sel' sel H)). apply length_map.
Qed.

Lemma mirrored_sum (sel' sel : PieceInfo -> bool) (g' g : PieceInfo -> Q) :
  (forall i, onBoard i -> sel' (mirrorInfo i) = sel i) ->
  (forall i, onBoard i -> sel i = true -> g' (mirrorInfo i) == - g i)%Q ->
  (sumQ (map g' (List.filter sel' l')) == - sumQ (map g (List.filter sel l)))%Q.
Proof.
  intros Hsel Hg.
  rewrite (sumQ_perm _ _ (Permutation_map g' (mirrored_filter sel' sel Hsel))).
  rewrite map_map, <- sumQ_map_opp. apply sumQ_map_ext.
  intros i Hi. apply filter_In in Hi. destruct Hi as [Hi Hs].
  apply Hg; [apply (occupied_onBoard b Hb i Hi) | exact Hs].
Qed.

Lemma filter_all {A} (xs : list A) : List.filter (fun _ => true) xs = xs.
Proof. induction xs as [| x xs IH]; cbn [List.filter]; congruence. Qed.

Lemma mirrored_sum_all (g' g : PieceInfo -> Q) :
  (forall i, onBoard i -> g' (mirrorInfo i) == - g i)%Q ->
  (sumQ (map g' l') == - sumQ (map g l))%Q.
Proof.
  intros Hg. rewrite <- (filter_all l'), <- (filter_all l).
  apply mirrored_sum; [reflexivity | intros i Hi _; apply Hg, Hi].
Qed.

End Mirrored.

Section Exact.
#[local] Existing Instance QNum.
Local Open Scope Q_scope.

Ltac exact_numbers :=
  unfold signed, penaltySign, ofZ, nzero, milli in *;
  cbn [num lit nadd nsub nmul ndiv nneg nltb nleb QNum] in *.

Lemma centerStep_term t i : centerStep t i == t + centerTerm i.
Proof.
  unfold centerStep, centerTerm. exact_numbers.
  destruct (has coreCenterSquares (squareOf i)); [reflexivity |].
  destruct (has extendedCenterSquares (squareOf i)); [reflexivity | ring].
Qed.

Lemma centerTerm_mirror i : onBoard i -> centerTerm (mirrorInfo i) == - centerTerm i.
Proof.
  intros Hi. unfold centerTerm.
  rewrite (core_mirror i Hi), (extended_mirror i Hi), colorOf_mirror.
  destruct (has coreCenterSquares (squareOf i)); [destruct (colorOf i); cbn; ring |].
  destruct (has extendedCenterSquares (squareOf i)); [destruct (colorOf i); cbn; ring | ring].
Qed.

Lemma pieceSquareValue_mirror p r c w :
  pieceSquareValue (swapPiece p) (7 - r) c w = pieceSquareValue p r c w.
Proof.
  unfold pieceSquareValue. cbn [swapPiece ptype pcolor].
  replace (7 - (7 - r))%Z with r by lia.
  destruct (pieceSquareTables (ptype p)), (pcolor p); reflexivity.
Qed.

Lemma materialTerm_mirror w i : materialTerm w (mirrorInfo i) == - materialTerm w i.
Proof.
  unfold materialTerm. rewrite colorOf_mirror, typeOf_mirror.
  cbn [mirrorInfo reflectInfo pi_piece pi_row pi_col].
  rewrite pieceSquareValue_mirror.
  destruct (colorOf i); exact_numbers; cbn [isWhite Color_eqb opposite]; ring.
Qed.

(** **** Counts *)

Lemma at_bump file counts f :
  at_ (bump file counts) f
  = if (file =? f)%Z then option_map (fun n => (n + 1)%Z) (at_ counts f) else at_ counts f.
Proof.
  unfold bump. destruct (file =? f)%Z eqn:E.
  - apply Z.eqb_eq in E. subst f.
    destruct (at_ counts file) as [n |] eqn:Hl; [| now rewrite Hl].
    unfold at_ in *. destruct (file <? 0)%Z; [discriminate |].
    rewrite list_lookup_insert, Hl. cbn [option_map].
    apply lookup_lt_Some in Hl.
    destruct (decide (Z.to_nat file = Z.to_nat file /\ (Z.to_nat file < length counts)%nat));
      [reflexivity | lia].
  - apply Z.eqb_neq in E.
    destruct (at_ counts file) as [n |] eqn:Hl; [| reflexivity].
    unfold at_ in *. destruct (file <? 0)%Z eqn:Hf; [discriminate |].
    destruct (f <? 0)%Z eqn:Hf'; [reflexivity |].
    apply list_lookup_insert_ne. lia.
Qed.

Lemma fold_bump c f xs : forall counts,
  at_ (fold_left (fun a i => if selects Pawn c i then bump (pi_col i) a else a) xs counts) f
  = option_map (fun n => (n + Z.of_nat (length (List.filter (onFile c f) xs)))%Z) (at_ counts f).
Proof.
  induction xs as [| i xs IH]; intros counts; cbn [fold_left List.filter].
  - destruct (at_ counts f); cbn [option_map length]; [f_equal; lia | reflexivity].
  - rewrite IH. unfold onFile at 2. destruct (selects Pawn c i); cbn [andb].
    + rewrite at_bump. destruct (pi_col i =? f)%Z; [| reflexivity].
      destruct (at_ counts f); cbn [option_map length]; [f_equal; lia | reflexivity].
    + reflexivity.
Qed.

Lemma fileCounts_at b c f :
  at_ (side c (fileCounts (scanBoard b))) f
  = option_map (fun n => (n + pawnsOnFile c b f)%Z) (at_ (replicate 8 0%Z) f).
Proof. rewrite scan_fileCounts. apply fold_bump. Qed.

Lemma bishops_count b c :
  bishops (side c (pieceTally (scanBoard b)))
  = Z.of_nat (length (List.filter (selects Bishop c) (occupied b))).
Proof. rewrite scan_bishops, fold_count. lia. Qed.

Lemma minors_count b c :
  side c (minorsOnHome (scanBoard b))
  = Z.of_nat (length (List.filter (fun i => minorAtHome i && isColor c i) (occupied b))).
Proof. rewrite scan_minors, fold_count. lia. Qed.

Lemma phase_sum b :
  phaseScore (scanBoard b)
  = fold_left (fun z w => (z + w)%Z) (map (fun i => phaseWeights (typeOf i)) (occupied b)) 0%Z.
Proof. rewrite scan_phase, fold_left_map_in. reflexivity. Qed.

(** **** The scan of the mirrored board *)

Section MirroredScan.
Variable b : Board.
Hypothesis Hb : eightByEight b.

Lemma phase_mirror : phaseScore (scanBoard (mirrorBoard b)) = phaseScore (scanBoard b).
Proof.
  rewrite !phase_sum.
  rewrite (fold_left_perm (fun z w => (z + w)%Z) (fun s x y => ltac:(cbv beta; lia)) _ _
             (Permutation_map (fun i => phaseWeights (typeOf i)) (mirrored_perm b Hb))).
  rewrite map_map. reflexivity.
Qed.

Lemma bishops_mirror c :
  bishops (side c (pieceTally (scanBoard (mirrorBoard b)))) = bishops (side (opposite c) (pieceTally (scanBoard b))).
Proof.
  rewrite !bishops_count. f_equal.
  apply (mirrored_count b Hb). intros i _. apply selects_mirror.
Qed.

Lemma minorAtHome_mirror i : onBoard i -> minorAtHome (mirrorInfo i) = minorAtHome i.
Proof.
  intros Hi. unfold minorAtHome. now rewrite !isType_mirror, (minorStart_mirror i Hi).
Qed.

Lemma minors_mirror c :
  side c (minorsOnHome (scanBoard (mirrorBoard b))) = side (opposite c) (minorsOnHome (scanBoard b)).
Proof.
  rewrite !minors_count. f_equal.
  apply (mirrored_count b Hb). intros i Hi.
  now rewrite (minorAtHome_mirror i Hi), isColor_mirror.
Qed.

Lemma pawnsOnFile_mirror c f : pawnsOnFile c (mirrorBoard b) f = pawnsOnFile (opposite c) b f.
Proof.
  unfold pawnsOnFile. f_equal. apply (mirrored_count b Hb).
  intros i _. unfold onFile. now rewrite selects_mirror.
Qed.

Lemma fileCounts_mirror c f :
  at_ (side c (fileCounts (scanBoard (mirrorBoard b)))) f = at_ (side (opposite c) (fileCounts (scanBoard b))) f.
Proof. now rewrite !fileCounts_at, pawnsOnFile_mirror. Qed.

End MirroredScan.

(** **** Rooks *)

Lemma fold_pair {A S} (f : S -> A -> S) a b s : fold_left f [a; b] s = f (f s a) b.
Proof. reflexivity. Qed.

Lemma rookTerms_sum st t : rookTerms st t == t + (rookSum st White + rookSum st Black).
Proof.
  unfold rookTerms. rewrite fold_pair. cbv beta.
  etransitivity.
  - apply (fold_add (rookTerm (fileCounts st) Black) _ _ (t + rookSum st White)).
    apply (fold_add (rookTerm (fileCounts st) White)). reflexivity.
  - unfold rookSum. cbn [side num QNum]. ring.
Qed.

Lemma signed_opposite c (x : Q) : signed (opposite c) x == - signed c x.
Proof. destruct c; exact_numbers; cbn [isWhite Color_eqb opposite]; ring. Qed.

(** **** Pawns *)

Lemma fileTerm_shift fc c t f : fileTerm fc c t f == t + fileTerm fc c 0 f.
Proof.
  unfold fileTerm. exact_numbers.
  destruct (at_ (side c fc) f) as [n |]; cbn [above].
  - destruct (1 <? n)%Z, (0 <? n)%Z; try ring;
      destruct (negb _ && negb _); ring.
  - ring.
Qed.

Lemma passedTerm_shift pw c t p : passedTerm pw c t p == t + passedTerm pw c 0 p.
Proof.
  unfold passedTerm. exact_numbers.
  destruct (existsb _ _); ring.
Qed.

Lemma pawnTerms_sum st t :
  pawnTerms st t
  == t + (fileSum st White + passedSum st White + (fileSum st Black + passedSum st Black)).
Proof.
  unfold pawnTerms. rewrite fold_pair. cbv beta.
  etransitivity.
  - apply (fold_step _ (@passedTerm QNum (pawns st) Black 0) _
             (fun t p _ => passedTerm_shift _ _ t p) _
             (t + fileSum st White + passedSum st White + fileSum st Black)).
    apply (fold_step _ (@fileTerm QNum (fileCounts st) Black 0) _
             (fun t f _ => fileTerm_shift _ _ t f) _
             (t + fileSum st White + passedSum st White)).
    apply (fold_step _ (@passedTerm QNum (pawns st) White 0) _
             (fun t p _ => passedTerm_shift _ _ t p) _
             (t + fileSum st White)).
    apply (fold_step _ (@fileTerm QNum (fileCounts st) White 0) _
             (fun t f _ => fileTerm_shift _ _ t f)).
    reflexivity.
  - unfold fileSum, passedSum, indices8. cbn [side num QNum]. ring.
Qed.

Lemma penaltySign_opposite c : penaltySign (opposite c) == - penaltySign c.
Proof. destruct c; exact_numbers; cbn [isWhite Color_eqb opposite]; ring. Qed.

Lemma fileTerm_mirror fc' fc c f :
  (forall x, at_ (side c fc') x = at_ (side (opposite c) fc) x) ->
  fileTerm fc' c 0 f == - fileTerm fc (opposite c) 0 f.
Proof.
  intros H. unfold fileTerm. rewrite !H.
  pose proof (penaltySign_opposite c) as Hs. exact_numbers.
  set (s := if isWhite c then _ else _) in *.
  set (s' := if isWhite (opposite c) then _ else _) in *.
  destruct (at_ (side (opposite c) fc) f) as [n |]; cbn [above]; [| ring].
  destruct (1 <? n)%Z, (0 <? n)%Z; try ring;
    try destruct (negb _ && negb _); rewrite ?Hs; ring.
Qed.

Lemma blocks_mirror c i j :
  blocks c (pawnOf (mirrorInfo i)) (pawnOf (mirrorInfo j))
  = blocks (opposite c) (pawnOf i) (pawnOf j).
Proof.
  unfold blocks. cbn [pawnOf mirrorInfo reflectInfo pw_file pw_rank pi_row pi_col].
  f_equal. destruct c; cbn [opposite];
    match goal with
    | |- (?a <=? ?b)%Z = (?x <=? ?y)%Z =>
        destruct (Z.leb_spec a b), (Z.leb_spec x y); try reflexivity; lia
    end.
Qed.

Lemma existsb_map {A B} (f : B -> bool) (g : A -> B) xs :
  existsb f (map g xs) = existsb (fun x => f (g x)) xs.
Proof. induction xs as [| x xs IH]; cbn [map existsb]; congruence. Qed.

Lemma existsb_ext {A} (f g : A -> bool) xs :
  (forall x, f x = g x) -> existsb f xs = existsb g xs.
Proof. intros H. induction xs as [| x xs IH]; cbn [existsb]; congruence. Qed.

Section MirroredLines.
Variable b : Board.
Hypothesis Hb : eightByEight b.

Lemma rookBonus_mirror c i :
  onBoard i ->
  rookBonus (fileCounts (scanBoard (mirrorBoard b))) c (rookOf (mirrorInfo i))
  = rookBonus (fileCounts (scanBoard b)) (opposite c) (rookOf i).
Proof.
  intros Hi. unfold rookBonus. cbn [rookOf rk_file rk_square].
  rewrite !(fileCounts_mirror b Hb), opposite_involutive.
  rewrite (extended_mirror i Hi). reflexivity.
Qed.

Lemma rookSum_mirror c : rookSum (scanBoard (mirrorBoard b)) c == - rookSum (scanBoard b) (opposite c).
Proof.
  unfold rookSum. rewrite !scan_rooks, !map_map.
  apply (mirrored_sum b Hb).
  - intros i _. apply selects_mirror.
  - intros i Hi _. unfold rookTerm. rewrite (rookBonus_mirror c i Hi).
    rewrite <- signed_opposite, opposite_involutive. reflexivity.
Qed.

Lemma fileSum_mirror c : fileSum (scanBoard (mirrorBoard b)) c == - fileSum (scanBoard b) (opposite c).
Proof.
  unfold fileSum. rewrite <- sumQ_map_opp. apply sumQ_map_ext.
  intros f _. apply fileTerm_mirror. intros x. apply (fileCounts_mirror b Hb).
Qed.

Lemma blocked_mirror c i :
  existsb (blocks c (pawnOf (mirrorInfo i))) (side (opposite c) (pawns (scanBoard (mirrorBoard b))))
  = existsb (blocks (opposite c) (pawnOf i)) (side c (pawns (scanBoard b))).
Proof.
  rewrite !scan_pawns.
  rewrite (existsb_perm _ _ _
             (Permutation_map pawnOf
                (mirrored_filter b Hb (selects Pawn (opposite c)) (selects Pawn c)
                   (fun j _ => eq_trans (selects_mirror Pawn (opposite c) j)
                                 (f_equal (fun k => selects Pawn k j) (opposite_involutive c)))))).
  rewrite map_map, !existsb_map. apply existsb_ext. intros j. apply blocks_mirror.
Qed.

Lemma passedTerm_mirror c i :
  passedTerm (pawns (scanBoard (mirrorBoard b))) c 0 (pawnOf (mirrorInfo i))
  == - passedTerm (pawns (scanBoard b)) (opposite c) 0 (pawnOf i).
Proof.
  unfold passedTerm. rewrite blocked_mirror, opposite_involutive.
  destruct (existsb _ _); [ring |].
  cbn [pawnOf mirrorInfo reflectInfo pw_rank pi_row].
  destruct c; cbn [opposite]; exact_numbers; cbn [isWhite Color_eqb].
  - replace (8 - (7 - pi_row i) - 2)%Z with (7 - (8 - pi_row i))%Z by lia. ring.
  - replace (7 - (8 - (7 - pi_row i)))%Z with (8 - pi_row i - 2)%Z by lia. ring.
Qed.

Lemma passedSum_mirror c : passedSum (scanBoard (mirrorBoard b)) c == - passedSum (scanBoard b) (opposite c).
Proof.
  unfold passedSum. rewrite !scan_pawns, !map_map.
  apply (mirrored_sum b Hb).
  - intros i _. apply selects_mirror.
  - intros i _ _. apply passedTerm_mirror.
Qed.

End MirroredLines.

(** **** Kings *)

Lemma king_scan b c : kingIn c (scanBoard b) = option_map kingOf (theKing c (occupied b)).
Proof.
  rewrite scan_king. unfold theKing.
  destruct (List.filter (selects King c) (occupied b)); reflexivity.
Qed.

Lemma kingSquare_scan b c :
  kingSquareIn c (scanBoard b) = option_map squareOf (theKing c (occupied b)).
Proof.
  rewrite scan_kingSquare. unfold theKing.
  destruct (List.filter (selects King c) (occupied b)); reflexivity.
Qed.

Lemma kings_cells c row rank : forall col,
  length (List.filter (selects King c) (cells row col rank))
  = length (List.filter (isKingOf c) rank).
Proof.
  induction rank as [| [p |] r IH]; intros col; cbn [cells List.filter].
  - reflexivity.
  - change (selects King c {| pi_piece := p; pi_row := row; pi_col := col |})
      with (isKingOf c (Some p)).
    destruct (isKingOf c (Some p)); cbn [length]; now rewrite IH.
  - cbn [isKingOf]. apply IH.
Qed.

Lemma kings_occupied c b : forall row,
  length (List.filter (selects King c) (occupiedFrom row b)) = kingCount c b.
Proof.
  unfold kingCount.
  induction b as [| rank rest IH]; intros row; cbn [occupiedFrom concat]; [reflexivity |].
  rewrite !List.filter_app, !length_app, kings_cells, IH. reflexivity.
Qed.

Lemma theKing_in c xs i :
  (length (List.filter (selects King c) xs) <= 1)%nat -> theKing c xs = Some i -> In i xs.
Proof.
  unfold theKing. intros Hlen H.
  destruct (List.filter (selects King c) xs) as [| y [| z r]] eqn:E;
    cbn [length] in Hlen; [discriminate | | lia].
  cbn in H. injection H as <-.
  assert (Hin : In y (List.filter (selects King c) xs)) by (rewrite E; now left).
  apply filter_In in Hin. tauto.
Qed.

Lemma isPawnOf_swap c cell : isPawnOf c (option_map swapPiece cell) = isPawnOf (opposite c) cell.
Proof. destruct cell as [[t k] |]; [destruct t, k, c; reflexivity | reflexivity]. Qed.

Lemma openKingPenalty_sum b c k :
  openKingPenalty b c (Some k)
  = (ofZ (exposure b (kg_row k + 0) (kg_col k + -1) + exposure b (kg_row k + 0) (kg_col k + 1)
          + exposure b (kg_row k + 1) (kg_col k + 0) + exposure b (kg_row k + -1) (kg_col k + 0))
     * lit 5 100)%num.
Proof.
  unfold openKingPenalty. cbv zeta. cbn [fold_left]. do 2 f_equal.
  unfold exposure.
  repeat match goal with
         | |- context [if ?x || ?y || ?z || ?w then _ else _] =>
             destruct (x || y || z || w)
         | |- context [boardAt ?bb ?r ?cc] => destruct (boardAt bb r cc)
         end; reflexivity.
Qed.

Section MirroredKings.
Variable b : Board.
Hypothesis Hb : eightByEight b.

Lemma exposure_mirror r c : exposure (mirrorBoard b) (7 - r) c = exposure b r c.
Proof.
  unfold exposure.
  destruct ((r <? 0)%Z || (7 <? r)%Z) eqn:E.
  - replace ((7 - r <? 0)%Z || (7 <? 7 - r)%Z) with true by lia. reflexivity.
  - replace ((7 - r <? 0)%Z || (7 <? 7 - r)%Z) with false by lia. cbn [orb].
    destruct ((c <? 0)%Z || (7 <? c)%Z); [reflexivity |].
    rewrite boardAt_mirror by (try apply Hb; lia).
    destruct (boardAt b r c); reflexivity.
Qed.

Lemma open_mirror c i :
  openKingPenalty (mirrorBoard b) c (Some (kingOf (mirrorInfo i)))
  = openKingPenalty b (opposite c) (Some (kingOf i)).
Proof.
  rewrite !openKingPenalty_sum.
  cbn [kingOf mirrorInfo reflectInfo kg_row kg_col pi_row pi_col].
  replace (7 - pi_row i + 0)%Z with (7 - (pi_row i + 0))%Z by lia.
  replace (7 - pi_row i + 1)%Z with (7 - (pi_row i + -1))%Z by lia.
  replace (7 - pi_row i + -1)%Z with (7 - (pi_row i + 1))%Z by lia.
  rewrite !exposure_mirror. do 2 f_equal. lia.
Qed.

Lemma shield_mirror c i :
  kingShieldContribution (mirrorBoard b) c (Some (kingOf (mirrorInfo i)))
  = kingShieldContribution b (opposite c) (Some (kingOf i)).
Proof.
  unfold kingShieldContribution. cbv zeta.
  cbn [kingOf mirrorInfo reflectInfo kg_row kg_col pi_row pi_col].
  set (r := pi_row i). set (f := pi_col i).
  assert (Hdir : (7 - r + (if isWhite c then -1 else 1)
                  = 7 - (r + (if isWhite (opposite c) then -1 else 1)))%Z)
    by (destruct c; cbn [isWhite Color_eqb opposite]; lia).
  rewrite Hdir.
  set (sr := (r + (if isWhite (opposite c) then -1 else 1))%Z).
  destruct ((sr <? 0)%Z || (7 <? sr)%Z) eqn:E.
  - replace ((7 - sr <? 0)%Z || (7 <? 7 - sr)%Z) with true by lia. reflexivity.
  - replace ((7 - sr <? 0)%Z || (7 <? 7 - sr)%Z) with false by lia.
    cbn [fold_left].
    rewrite !boardAt_mirror by (try apply Hb; lia).
    rewrite !isPawnOf_swap. reflexivity.
Qed.

Hypothesis Hkings : forall c, (kingCount c b <= 1)%nat.

Lemma theKing_mirror c :
  theKing c (occupied (mirrorBoard b)) = option_map mirrorInfo (theKing (opposite c) (occupied b)).
Proof.
  pose proof (mirrored_filter b Hb (selects King c) (selects King (opposite c))
                (fun i _ => selects_mirror King c i)) as Hp.
  pose proof (Hkings (opposite c)) as Hk.
  rewrite <- (kings_occupied (opposite c) b 0) in Hk. fold (occupied b) in Hk.
  apply Permutation_sym in Hp. apply perm_short in Hp; [| now rewrite length_map].
  unfold theKing. rewrite <- Hp.
  destruct (List.filter (selects King (opposite c)) (occupied b)) as [| y [| z r]];
    cbn [length] in Hk; [reflexivity | reflexivity | lia].
Qed.

Lemma theKing_onBoard c i : theKing c (occupied b) = Some i -> onBoard i.
Proof.
  intros H. apply (occupied_onBoard b Hb). apply (theKing_in c); [| exact H].
  unfold occupied. rewrite kings_occupied. apply Hkings.
Qed.

Lemma kingShield_mirror c :
  kingShieldContribution (mirrorBoard b) c (kingIn c (scanBoard (mirrorBoard b)))
  = kingShieldContribution b (opposite c) (kingIn (opposite c) (scanBoard b)).
Proof.
  rewrite !king_scan, theKing_mirror.
  destruct (theKing (opposite c) (occupied b)) as [i |]; [apply shield_mirror | reflexivity].
Qed.

Lemma openKing_mirror c :
  openKingPenalty (mirrorBoard b) c (kingIn c (scanBoard (mirrorBoard b)))
  = openKingPenalty b (opposite c) (kingIn (opposite c) (scanBoard b)).
Proof.
  rewrite !king_scan, theKing_mirror.
  destruct (theKing (opposite c) (occupied b)) as [i |]; [apply open_mirror | reflexivity].
Qed.

Lemma whiteHome_mirror :
  opt_in ["e1"; "d1"] (whiteKingSquare (scanBoard (mirrorBoard b)))
  = opt_in ["e8"; "d8"] (blackKingSquare (scanBoard b)).
Proof.
  change (opt_in ["e1"; "d1"] (kingSquareIn White (scanBoard (mirrorBoard b)))
          = opt_in ["e8"; "d8"] (kingSquareIn Black (scanBoard b))).
  rewrite !kingSquare_scan, theKing_mirror. cbn [opposite].
  destruct (theKing Black (occupied b)) as [i |] eqn:E; [| reflexivity].
  apply home_mirror, (theKing_onBoard Black i E).
Qed.

Lemma blackHome_mirror :
  opt_in ["e8"; "d8"] (blackKingSquare (scanBoard (mirrorBoard b)))
  = opt_in ["e1"; "d1"] (whiteKingSquare (scanBoard b)).
Proof.
  change (opt_in ["e8"; "d8"] (kingSquareIn Black (scanBoard (mirrorBoard b)))
          = opt_in ["e1"; "d1"] (kingSquareIn White (scanBoard b))).
  rewrite !kingSquare_scan, theKing_mirror. cbn [opposite].
  destruct (theKing White (occupied b)) as [i |] eqn:E; [| reflexivity].
  apply home_mirror', (theKing_onBoard White i E).
Qed.

End MirroredKings.

(** **** The whole sum *)

Lemma step_add t s x o : t == s -> x == o -> t + x == s + o.
Proof. intros H1 H2. apply Qplus_comp; assumption. Qed.

Lemma step_sub t s x o : t == s -> x == o -> t - x == s - o.
Proof. intros H1 H2. apply Qplus_comp; [assumption | apply Qopp_comp; assumption]. Qed.

Lemma step_if_add (c : bool) t s x o :
  t == s -> (if c then x else 0) == o -> (if c then t + x else t) == s + o.
Proof.
  intros H1 H2. destruct c; [apply step_add; assumption |].
  rewrite <- (Qplus_0_r t). apply step_add; assumption.
Qed.

Lemma step_if_sub (c : bool) t s x o :
  t == s -> (if c then x else 0) == o -> (if c then t - x else t) == s - o.
Proof.
  intros H1 H2. destruct c; [apply step_sub; assumption |].
  rewrite <- (Qplus_0_r t). apply Qplus_comp; [assumption |].
  apply (Qopp_comp 0 o H2).
Qed.

Lemma step_if_sub_add (c : bool) t s x y o o' :
  t == s -> (if c then x else 0) == o -> (if c then y else 0) == o' ->
  (if c then t - x + y else t) == s - o + o'.
Proof.
  intros H1 H2 H3. destruct c.
  - apply step_add; [apply step_sub |]; assumption.
  - rewrite <- (Qplus_0_r t). apply step_add; [| assumption].
    rewrite <- (Qplus_0_r t). apply Qplus_comp; [assumption |].
    apply (Qopp_comp 0 o H2).
Qed.

Lemma evaluateBoard_sum b ctx wm bm toMove :
  evaluateBoard b ctx wm bm toMove == boardSum b ctx wm bm toMove.
Proof.
  unfold evaluateBoard, boardSum. cbv zeta.
  fold (kingPhase (scanBoard b)).
  set (st := scanBoard b). set (w := kingPhase st).
  unfold ofZ.
  cbn [num lit nadd nsub nmul ndiv nneg QNum].
  apply step_add; [| reflexivity].
  apply step_add; [| reflexivity].
  apply step_if_sub; [| reflexivity].
  apply step_if_add; [| reflexivity].
  apply step_if_add; [| reflexivity].
  apply step_if_sub; [| reflexivity].
  apply step_add; [| reflexivity].
  apply step_sub; [| reflexivity].
  apply step_if_sub_add;
    [| unfold minorPenalty; destruct (moveCount ctx <? 20)%Z; reflexivity
     | unfold minorPenalty; destruct (moveCount ctx <? 20)%Z; reflexivity].
  apply step_add; [| reflexivity].
  apply step_sub; [| reflexivity].
  apply step_sub; [| reflexivity].
  apply step_add; [| reflexivity].
  rewrite pawnTerms_sum. apply step_add; [| reflexivity].
  rewrite rookTerms_sum. apply step_add; [| reflexivity].
  apply step_if_sub; [| reflexivity].
  apply step_if_add; [| reflexivity].
  subst w st. rewrite scan_pieces, scan_total.
  apply (fold_add (materialTerm (kingPhase (scanBoard b)))).
  etransitivity; [| apply Qplus_0_l].
  apply (fold_step (@centerStep QNum) centerTerm _ (fun t i _ => centerStep_term t i)
           (@nzero QNum) 0).
  reflexivity.
Qed.

Section MirroredSum.
Variable b : Board.
Hypothesis Hb : eightByEight b.
Hypothesis Hkings : forall c, (kingCount c b <= 1)%nat.
Variable ctx : EvalContext.
Hypothesis Hctx : balanced ctx.

Lemma kingPhase_mirror : kingPhase (scanBoard (mirrorBoard b)) = kingPhase (scanBoard b).
Proof. unfold kingPhase. now rewrite (phase_mirror b Hb). Qed.

Lemma centerSum_mirror :
  sumQ (map centerTerm (occupied (mirrorBoard b))) == - sumQ (map centerTerm (occupied b)).
Proof. apply (mirrored_sum_all b Hb). apply centerTerm_mirror. Qed.

Lemma materialSum_mirror w :
  sumQ (map (materialTerm w) (occupied (mirrorBoard b)))
  == - sumQ (map (materialTerm w) (occupied b)).
Proof. apply (mirrored_sum_all b Hb). intros i _. apply materialTerm_mirror. Qed.

Lemma bishopPair_mirror c :
  bishopPair (scanBoard (mirrorBoard b)) c = bishopPair (scanBoard b) (opposite c).
Proof. unfold bishopPair. now rewrite (bishops_mirror b Hb). Qed.

Lemma shieldOf_mirror c : shieldOf (mirrorBoard b) c = shieldOf b (opposite c).
Proof. apply (kingShield_mirror b Hb Hkings). Qed.

Lemma openOf_mirror c : openOf (mirrorBoard b) c = openOf b (opposite c).
Proof. apply (openKing_mirror b Hb Hkings). Qed.

Lemma minorPenalty_mirror c :
  minorPenalty ctx (scanBoard (mirrorBoard b)) c = minorPenalty ctx (scanBoard b) (opposite c).
Proof. unfold minorPenalty. now rewrite (minors_mirror b Hb). Qed.

Lemma flankPenalty_mirror c : flankPenalty ctx c = flankPenalty ctx (opposite c).
Proof.
  destruct Hctx as (_ & _ & H). unfold flankPenalty.
  destruct c; cbn [side opposite]; now rewrite H.
Qed.

Lemma castledBonus_mirror c : castledBonus ctx c = castledBonus ctx (opposite c).
Proof.
  destruct Hctx as (H & _ & _). unfold castledBonus.
  destruct c; cbn [side opposite]; now rewrite H.
Qed.

Lemma uncastledPenalty_mirror c :
  uncastledPenalty ctx (scanBoard (mirrorBoard b)) c
  = uncastledPenalty ctx (scanBoard b) (opposite c).
Proof.
  destruct Hctx as (H & _ & _). unfold uncastledPenalty.
  destruct c; cbn [side opposite homeSquares kingSquareIn].
  - now rewrite (whiteHome_mirror b Hb Hkings), H.
  - now rewrite (blackHome_mirror b Hb Hkings), H.
Qed.

Lemma mobilityTerm_mirror wm bm : mobilityTerm bm wm == - mobilityTerm wm bm.
Proof.
  unfold mobilityTerm. replace (bm - wm)%Z with (- (wm - bm))%Z by lia.
  rewrite inject_Z_opp. ring.
Qed.

Lemma tempoTerm_mirror toMove : tempoTerm (opposite toMove) == - tempoTerm toMove.
Proof. destruct toMove; cbn; ring. Qed.

Lemma boardSum_mirror wm bm toMove :
  boardSum (mirrorBoard b) ctx bm wm (opposite toMove) == - boardSum b ctx wm bm toMove.
Proof.
  unfold boardSum. cbv zeta.
  rewrite kingPhase_mirror.
  rewrite !bishopPair_mirror, !shieldOf_mirror, !openOf_mirror, !minorPenalty_mirror,
    !uncastledPenalty_mirror.
  rewrite (flankPenalty_mirror White), (castledBonus_mirror White).
  cbn [opposite].
  pose proof centerSum_mirror as H1.
  pose proof (materialSum_mirror (kingPhase (scanBoard b))) as H2.
  pose proof (rookSum_mirror b Hb White) as H3.
  pose proof (rookSum_mirror b Hb Black) as H4.
  pose proof (fileSum_mirror b Hb White) as H5.
  pose proof (fileSum_mirror b Hb Black) as H6.
  pose proof (passedSum_mirror b Hb White) as H7.
  pose proof (passedSum_mirror b Hb Black) as H8.
  pose proof (mobilityTerm_mirror wm bm) as H9.
  pose proof (tempoTerm_mirror toMove) as H10.
  cbn [opposite] in *.
  lra.
Qed.

(** In exact arithmetic the evaluation of the mirrored board, with the
    mobility counts exchanged and the other side to move, is the negated
    evaluation of the board. *)
Lemma evaluateBoard_mirror wm bm toMove :
  evaluateBoard (mirrorBoard b) ctx bm wm (opposite toMove)
  == - evaluateBoard b ctx wm bm toMove.
Proof. rewrite !evaluateBoard_sum. apply boardSum_mirror. Qed.

End MirroredSum.

(** **** Bounds *)

Lemma lenQ_nil {A} : lenQ (@nil A) == 0.
Proof. reflexivity. Qed.

Lemma lenQ_cons {A} (x : A) xs : lenQ (x :: xs) == 1 + lenQ xs.
Proof.
  unfold lenQ. cbn [length]. rewrite Nat2Z.inj_succ, <- Z.add_1_l, inject_Z_plus. reflexivity.
Qed.

Lemma lenQ_nonneg {A} (xs : list A) : 0 <= lenQ xs.
Proof. unfold lenQ, Qle. cbn. lia. Qed.

Lemma lenQ_le {A B} (xs : list A) (ys : list B) :
  (length xs <= length ys)%nat -> lenQ xs <= lenQ ys.
Proof. intros H. unfold lenQ, Qle. cbn. lia. Qed.

Lemma lenQ_filter {A} (sel : A -> bool) xs : lenQ (List.filter sel xs) <= lenQ xs.
Proof. apply lenQ_le, List.filter_length_le. Qed.

Lemma lenQ_map {A B} (f : A -> B) xs : lenQ (map f xs) = lenQ xs.
Proof. unfold lenQ. now rewrite length_map. Qed.

Lemma sumQ_bound {A} (g : A -> Q) (k : Q) xs :
  (forall x, In x xs -> - k <= g x <= k) ->
  - (k * lenQ xs) <= sumQ (map g xs) <= k * lenQ xs.
Proof.
  induction xs as [| x xs IH]; intros H; cbn [map sumQ].
  - rewrite lenQ_nil. lra.
  - rewrite lenQ_cons.
    specialize (IH (fun y Hy => H y (or_intror Hy))).
    pose proof (H x (or_introl eq_refl)). lra.
Qed.

Lemma cells_length row rank : forall col, (length (cells row col rank) <= length rank)%nat.
Proof.
  induction rank as [| [p |] r IH]; intros col; cbn [cells length].
  - lia.
  - specialize (IH (col + 1)%Z). lia.
  - specialize (IH (col + 1)%Z). lia.
Qed.

Lemma occupiedFrom_length b :
  Forall (fun rank => length rank = 8%nat) b ->
  forall row, (length (occupiedFrom row b) <= 8 * length b)%nat.
Proof.
  induction 1 as [| rank rest Hlen _ IH]; intros row; cbn [occupiedFrom length]; [lia |].
  rewrite length_app. pose proof (cells_length row rank 0%Z). specialize (IH (row + 1)%Z). lia.
Qed.

Lemma occupied_length b : eightByEight b -> lenQ (occupied b) <= 64.
Proof.
  intros [Hlen Hranks]. pose proof (occupiedFrom_length b Hranks 0%Z) as H.
  rewrite Hlen in H. unfold lenQ, occupied, Qle. cbn. lia.
Qed.

Lemma centerTerm_bound i : - (8 # 100) <= centerTerm i <= 8 # 100.
Proof.
  unfold centerTerm.
  destruct (has coreCenterSquares (squareOf i)), (has extendedCenterSquares (squareOf i)),
    (isWhite (colorOf i)); split; unfold Qle; cbn; lia.
Qed.

Lemma milli_bound z : (-500 <= z <= 500)%Z -> - (1 # 2) <= milli z <= 1 # 2.
Proof.
  intros H. unfold milli. cbn [num lit nneg QNum].
  destruct (z <? 0)%Z eqn:E; split; unfold Qle; cbn; lia.
Qed.

Lemma tableAt_bound table i :
  entriesWithin table = true -> - (1 # 2) <= tableAt table i <= 1 # 2.
Proof.
  intros H. unfold tableAt.
  destruct (at_ table i) as [z |] eqn:E.
  - apply milli_bound. unfold at_ in E. destruct (i <? 0)%Z; [discriminate |].
    apply list_elem_of_lookup_2, list_elem_of_In in E.
    unfold entriesWithin in H. rewrite forallb_forall in H. specialize (H z E). lia.
  - unfold nzero. cbn. split; unfold Qle; cbn; lia.
Qed.

Lemma pieceValues_bound t : 0 <= pieceValues t <= 95 # 10.
Proof. destruct t; split; unfold Qle; cbn; lia. Qed.

Lemma pieceSquareValue_bound p r c w :
  0 <= w <= 1 -> - (1 # 2) <= pieceSquareValue p r c w <= 1 # 2.
Proof.
  intros Hw. unfold pieceSquareValue.
  destruct (pieceSquareTables (ptype p)) as [table |] eqn:E.
  - assert (Ht : entriesWithin table = true)
      by (destruct (ptype p); inversion E; subst table; vm_compute; reflexivity).
    destruct (isWhite (pcolor p)); apply tableAt_bound, Ht.
  - cbv zeta.
    set (idx := if isWhite (pcolor p) then _ else _).
    pose proof (tableAt_bound kingMidgameTable idx eq_refl) as Hm.
    pose proof (tableAt_bound kingEndgameTable idx eq_refl) as He.
    cbn [num lit nadd nsub nmul ndiv nneg QNum] in *.
    set (m := tableAt kingMidgameTable idx) in *.
    set (e := tableAt kingEndgameTable idx) in *.
    split; nra.
Qed.

Lemma materialTerm_bound w i : 0 <= w <= 1 -> - 10 <= materialTerm w i <= 10.
Proof.
  intros Hw. unfold materialTerm.
  pose proof (pieceValues_bound (typeOf i)) as Hv.
  pose proof (pieceSquareValue_bound (pi_piece i) (pi_row i) (pi_col i) w Hw) as Hp.
  unfold signed. cbn [num lit nadd nsub nmul ndiv nneg QNum] in *.
  destruct (isWhite (colorOf i)); lra.
Qed.

Lemma inject_Z_bound z lo hi : (lo <= z <= hi)%Z -> inject_Z lo <= inject_Z z <= inject_Z hi.
Proof. intros H. split; rewrite <- Zle_Qle; lia. Qed.

Lemma fold_weights_nonneg xs : forall z,
  (0 <= z)%Z -> (0 <= fold_left (fun z i => z + phaseWeights (typeOf i)) xs z)%Z.
Proof.
  induction xs as [| i xs IH]; intros z Hz; cbn [fold_left]; [exact Hz |].
  apply IH. destruct (typeOf i); cbn [phaseWeights]; lia.
Qed.

Lemma kingPhase_bound b : 0 <= kingPhase (scanBoard b) <= 1.
Proof.
  unfold kingPhase, nmin, ofZ. rewrite scan_phase.
  pose proof (fold_weights_nonneg (occupied b) 0%Z (Z.le_refl 0)) as Hp.
  set (p := fold_left _ _ _) in *.
  cbn [num lit nadd nsub nmul ndiv nneg nltb QNum].
  assert (Hx : 0 <= (p # 1) / (24 # 1)) by (unfold Qle, Qdiv, Qmult, Qinv; cbn; lia).
  destruct (Qle_bool (1 # 1) ((p # 1) / (24 # 1))) eqn:E; cbn [negb].
  - split; unfold Qle; cbn; lia.
  - split; [exact Hx |].
    apply Qlt_le_weak, Qnot_le_lt. intros H. apply Qle_bool_iff in H. congruence.
Qed.

Lemma bishopPair_bound st c : 0 <= bishopPair st c <= 35 # 100.
Proof. unfold bishopPair. destruct (2 <=? _)%Z; split; unfold Qle; cbn; lia. Qed.

Lemma rookTerm_bound fc c rook : - (338 # 1000) <= rookTerm fc c rook <= 338 # 1000.
Proof.
  unfold rookTerm, rookBonus, signed, nzero. cbv zeta.
  cbn [num lit nadd nsub nmul ndiv nneg QNum].
  destruct (isZero (at_ (side (opposite c) fc) (rk_file rook))),
    (isZero (at_ (side c fc) (rk_file rook))),
    (has extendedCenterSquares (rk_square rook)), (isWhite c);
    split; unfold Qle; cbn; lia.
Qed.

Lemma fileTerm_bound fc c f :
  (forall n, at_ (side c fc) f = Some n -> (n <= 64)%Z) ->
  - (766 # 100) <= fileTerm fc c 0 f <= 766 # 100.
Proof.
  intros H. unfold fileTerm, penaltySign, ofZ.
  destruct (at_ (side c fc) f) as [n |]; cbn [above]; [| split; unfold Qle; cbn; lia].
  specialize (H n eq_refl).
  cbn [num lit nadd nsub nmul ndiv nneg QNum].
  destruct (1 <? n)%Z eqn:E1.
  - pose proof (inject_Z_bound (n - 1) 0 63 ltac:(lia)) as Hq.
    change (inject_Z (n - 1)) with ((n - 1) # 1) in Hq.
    change (inject_Z 0) with 0 in Hq. change (inject_Z 63) with 63 in Hq.
    set (q := (n - 1) # 1) in *.
    destruct (0 <? n)%Z; [destruct (negb _ && negb _) |]; destruct (isWhite c); lra.
  - destruct (0 <? n)%Z; [destruct (negb _ && negb _) |]; destruct (isWhite c);
      split; unfold Qle; cbn; lia.
Qed.

Lemma passedTerm_bound pw c i :
  onBoard i -> - (35 # 100) <= passedTerm pw c 0 (pawnOf i) <= 35 # 100.
Proof.
  intros [Hr _]. unfold passedTerm, signed, ofZ. cbv zeta.
  cbn [pawnOf pw_rank].
  destruct (existsb _ _); [split; unfold Qle; cbn; lia |].
  set (adv := match c with White => _ | Black => _ end).
  pose proof (inject_Z_bound (Z.max 0 adv) 0 6
                ltac:(subst adv; destruct c; lia)) as Hq.
  change (inject_Z 0) with 0 in Hq. change (inject_Z 6) with 6 in Hq.
  cbn [num lit nadd nsub nmul ndiv nneg QNum].
  change (Z.max 0 adv # 1) with (inject_Z (Z.max 0 adv)).
  set (q := inject_Z (Z.max 0 adv)) in *.
  destruct (isWhite c); lra.
Qed.

Lemma shield_bound b c k : 0 <= kingShieldContribution b c k <= 21 # 100.
Proof.
  unfold kingShieldContribution, nzero, ofZ. cbv zeta.
  destruct k as [k |]; [| split; unfold Qle; cbn; lia].
  destruct (_ || _); [split; unfold Qle; cbn; lia |].
  cbn [fold_left].
  repeat match goal with
         | |- context [if ?x then _ else _] => destruct x
         end; split; unfold Qle; cbn; lia.
Qed.

Lemma exposure_bound b r c : (0 <= exposure b r c <= 1)%Z.
Proof.
  unfold exposure. destruct (_ || _); [lia |]. destruct (boardAt b r c); lia.
Qed.

Lemma open_bound b c k : 0 <= openKingPenalty b c k <= 20 # 100.
Proof.
  destruct k as [k |]; [| split; unfold Qle; cbn; lia].
  rewrite openKingPenalty_sum. unfold ofZ.
  pose proof (exposure_bound b (kg_row k + 0) (kg_col k + -1)).
  pose proof (exposure_bound b (kg_row k + 0) (kg_col k + 1)).
  pose proof (exposure_bound b (kg_row k + 1) (kg_col k + 0)).
  pose proof (exposure_bound b (kg_row k + -1) (kg_col k + 0)).
  set (e := (_ + _ + _ + _)%Z) in *.
  pose proof (inject_Z_bound e 0 4 ltac:(subst e; lia)) as Hq.
  change (inject_Z 0) with 0 in Hq. change (inject_Z 4) with 4 in Hq.
  cbn [num lit nadd nsub nmul ndiv nneg QNum].
  change (e # 1) with (inject_Z e). lra.
Qed.

Lemma flankPenalty_bound ctx c : plausible ctx -> 0 <= flankPenalty ctx c <= 48 # 10.
Proof.
  intros [_ H]. unfold flankPenalty.
  pose proof (inject_Z_bound _ 0 20 (H c)) as Hq.
  change (inject_Z 0) with 0 in Hq. change (inject_Z 20) with 20 in Hq. lra.
Qed.

Lemma castledBonus_bound ctx c : 0 <= castledBonus ctx c <= 5 # 100.
Proof. unfold castledBonus. destruct (side c (castled ctx)); split; unfold Qle; cbn; lia. Qed.

Lemma uncastledPenalty_bound ctx st c :
  plausible ctx -> 0 <= uncastledPenalty ctx st c <= 472 # 1000.
Proof.
  intros [Hm _]. unfold uncastledPenalty.
  destruct (moveCount ctx <? 30)%Z eqn:E;
    [| rewrite andb_false_r; split; unfold Qle; cbn; lia].
  destruct (_ && _); [| split; unfold Qle; cbn; lia].
  pose proof (inject_Z_bound (Z.max 0 (moveCount ctx - 12)) 0 17 ltac:(lia)) as Hq.
  change (inject_Z 0) with 0 in Hq. change (inject_Z 17) with 17 in Hq. lra.
Qed.

Lemma minorPenalty_bound ctx b c :
  eightByEight b -> plausible ctx ->
  0 <= minorPenalty ctx (scanBoard b) c <= 11648 # 1000.
Proof.
  intros Hb [Hm _]. unfold minorPenalty. rewrite minors_count.
  destruct (moveCount ctx <? 20)%Z; [| split; unfold Qle; cbn; lia].
  pose proof (inject_Z_bound (Z.max 0 (18 - moveCount ctx)) 0 18 ltac:(lia)) as Hq.
  change (inject_Z 0) with 0 in Hq. change (inject_Z 18) with 18 in Hq.
  set (xs := List.filter (fun i => minorAtHome i && isColor c i) (occupied b)).
  assert (Hn : 0 <= inject_Z (Z.of_nat (length xs)) <= 64).
  { pose proof (lenQ_filter (fun i => minorAtHome i && isColor c i) (occupied b)) as Hn.
    pose proof (lenQ_nonneg xs) as Hn0.
    pose proof (occupied_length b Hb) as Hl.
    unfold lenQ in *. subst xs. lra. }
  set (n := inject_Z (Z.of_nat (length xs))) in *.
  set (q := inject_Z (Z.max 0 (18 - moveCount ctx))) in *.
  assert (Hnq : 0 <= n * q <= 1152) by (split; nra).
  split; nra.
Qed.

Lemma mobilityTerm_bound wm bm :
  (Z.abs (wm - bm) <= 1000)%Z -> - 16 <= mobilityTerm wm bm <= 16.
Proof.
  intros H. unfold mobilityTerm.
  pose proof (inject_Z_bound (wm - bm) (-1000) 1000 ltac:(lia)) as Hq.
  change (inject_Z (-1000)) with (- (1000 # 1)) in Hq.
  change (inject_Z 1000) with (1000 # 1) in Hq. lra.
Qed.

Lemma tempoTerm_bound toMove : - (15 # 1000) <= tempoTerm toMove <= 15 # 1000.
Proof. destruct toMove; split; unfold Qle; cbn; lia. Qed.

Lemma fileCounts_bound b c f n :
  eightByEight b -> at_ (side c (fileCounts (scanBoard b))) f = Some n -> (n <= 64)%Z.
Proof.
  intros Hb H. rewrite fileCounts_at in H.
  destruct (at_ (replicate 8 0%Z) f) as [n0 |] eqn:E; [| discriminate].
  cbn [option_map] in H. injection H as <-.
  unfold at_ in E. destruct (f <? 0)%Z; [discriminate |].
  apply lookup_replicate in E. destruct E as [-> _].
  pose proof (lenQ_filter (onFile c f) (occupied b)) as H1.
  pose proof (occupied_length b Hb) as H2.
  assert (H3 : lenQ (List.filter (onFile c f) (occupied b)) <= 64) by lra.
  unfold lenQ in H3. change 64 with (inject_Z 64) in H3. rewrite <- Zle_Qle in H3.
  unfold pawnsOnFile. lia.
Qed.

Section Bounded.
Variable b : Board.
Hypothesis Hb : eightByEight b.

Lemma rookSum_bound c :
  - (21632 # 1000) <= rookSum (scanBoard b) c <= 21632 # 1000.
Proof.
  unfold rookSum.
  pose proof (sumQ_bound (rookTerm (fileCounts (scanBoard b)) c) (338 # 1000)
                (side c (rooks (scanBoard b)))
                (fun x _ => rookTerm_bound _ c x)) as H.
  rewrite scan_rooks in H |- *. rewrite lenQ_map in H.
  pose proof (lenQ_filter (selects Rook c) (occupied b)).
  pose proof (lenQ_nonneg (List.filter (selects Rook c) (occupied b))).
  pose proof (occupied_length b Hb). cbn [num QNum] in *. lra.
Qed.

Lemma fileSum_bound c : - (6128 # 100) <= fileSum (scanBoard b) c <= 6128 # 100.
Proof.
  unfold fileSum.
  pose proof (sumQ_bound (fileTerm (fileCounts (scanBoard b)) c 0) (766 # 100) indices8
                (fun f _ => fileTerm_bound _ c f
                              (fun n Hn => fileCounts_bound b c f n Hb Hn))) as H.
  change (lenQ indices8) with (8 # 1) in H. cbn [num QNum] in *. lra.
Qed.

Lemma passedSum_bound c : - (224 # 10) <= passedSum (scanBoard b) c <= 224 # 10.
Proof.
  unfold passedSum. rewrite scan_pawns, map_map.
  pose proof (sumQ_bound (fun i => passedTerm (pawns (scanBoard b)) c 0 (pawnOf i)) (35 # 100)
                (List.filter (selects Pawn c) (occupied b))) as H.
  pose proof (lenQ_filter (selects Pawn c) (occupied b)).
  pose proof (lenQ_nonneg (List.filter (selects Pawn c) (occupied b))).
  pose proof (occupied_length b Hb).
  assert (Hin : forall i, In i (List.filter (selects Pawn c) (occupied b)) ->
                - (35 # 100) <= passedTerm (pawns (scanBoard b)) c 0 (pawnOf i) <= 35 # 100).
  { intros i Hi. apply filter_In in Hi. apply passedTerm_bound.
    apply (occupied_onBoard b Hb), Hi. }
  specialize (H Hin). cbn [num QNum] in *. lra.
Qed.

Lemma centerSum_bound :
  - (512 # 100) <= sumQ (map centerTerm (occupied b)) <= 512 # 100.
Proof.
  pose proof (sumQ_bound centerTerm (8 # 100) (occupied b)
                (fun i _ => centerTerm_bound i)) as H.
  pose proof (lenQ_nonneg (occupied b)).
  pose proof (occupied_length b Hb). cbn [num QNum] in *. lra.
Qed.

Lemma materialSum_bound :
  - 640 <= sumQ (map (materialTerm (kingPhase (scanBoard b))) (occupied b)) <= 640.
Proof.
  pose proof (sumQ_bound (materialTerm (kingPhase (scanBoard b))) 10 (occupied b)
                (fun i _ => materialTerm_bound _ i (kingPhase_bound b))) as H.
  pose proof (lenQ_nonneg (occupied b)).
  pose proof (occupied_length b Hb). cbn [num QNum] in *. lra.
Qed.

(** The static evaluation of a board stays below 890 in absolute value. *)
Lemma boardSum_bound ctx wm bm toMove :
  plausible ctx -> (Z.abs (wm - bm) <= 1000)%Z ->
  - 890 < boardSum b ctx wm bm toMove < 890.
Proof.
  intros Hctx Hm. unfold boardSum. cbv zeta.
  pose proof centerSum_bound. pose proof materialSum_bound.
  pose proof (bishopPair_bound (scanBoard b) White).
  pose proof (bishopPair_bound (scanBoard b) Black).
  pose proof (rookSum_bound White). pose proof (rookSum_bound Black).
  pose proof (fileSum_bound White). pose proof (fileSum_bound Black).
  pose proof (passedSum_bound White). pose proof (passedSum_bound Black).
  pose proof (shield_bound b White (kingIn White (scanBoard b))).
  pose proof (shield_bound b Black (kingIn Black (scanBoard b))).
  pose proof (open_bound b White (kingIn White (scanBoard b))).
  pose proof (open_bound b Black (kingIn Black (scanBoard b))).
  pose proof (minorPenalty_bound ctx b White Hb Hctx).
  pose proof (minorPenalty_bound ctx b Black Hb Hctx).
  pose proof (flankPenalty_bound ctx White Hctx).
  pose proof (flankPenalty_bound ctx Black Hctx).
  pose proof (uncastledPenalty_bound ctx (scanBoard b) White Hctx).
  pose proof (uncastledPenalty_bound ctx (scanBoard b) Black Hctx).
  pose proof (castledBonus_bound ctx White). pose proof (castledBonus_bound ctx Black).
  pose proof (mobilityTerm_bound wm bm Hm).
  pose proof (tempoTerm_bound toMove).
  unfold shieldOf, openOf. cbn [num QNum] in *. lra.
Qed.

Lemma evaluateBoard_bound ctx wm bm toMove :
  plausible ctx -> (Z.abs (wm - bm) <= 1000)%Z ->
  - 890 < evaluateBoard b ctx wm bm toMove < 890.
Proof.
  intros Hctx Hm. pose proof (boardSum_bound ctx wm bm toMove Hctx Hm) as H.
  rewrite <- evaluateBoard_sum in H. exact H.
Qed.

End Bounded.

(** The context [createEvaluationContext] builds is plausible. *)
Lemma contextStep_repeated hist : forall idx acc,
  (0 <= idx)%Z ->
  (forall c, 0 <= side c (accRepeated acc) <= Z.min idx 20)%Z ->
  forall c, (0 <= side c (accRepeated (foldIndexed contextStep idx hist acc)) <= 20)%Z.
Proof.
  induction hist as [| mv hist IH]; intros idx acc Hidx Hacc c; cbn [foldIndexed].
  - specialize (Hacc c). lia.
  - apply IH; [lia |]. intros k. specialize (Hacc k).
    unfold contextStep. cbn [accRepeated].
    destruct (idx <? 20)%Z eqn:E; cbn [andb]; [| lia].
    match goal with |- context [if ?x then _ else _] => destruct x end; [| lia].
    rewrite side_onSide. destruct (Color_eqb (m_color mv) k); lia.
Qed.

Lemma createEvaluationContext_plausible {L : ChessLib} (g : game) :
  plausible (createEvaluationContext g).
Proof.
  split; [cbn [createEvaluationContext moveCount]; lia |].
  intros c. unfold createEvaluationContext. cbn [repeatedFlankMoves].
  apply contextStep_repeated; [lia |]. intros k. destruct k; cbn; lia.
Qed.

End Exact.

Section EvaluationSymmetry.
Context {L : ChessLib}.

(** C3 (evaluation color symmetry), in exact arithmetic: for a position
    and its mirror image, and a context that treats both sides alike,
    [evaluatePosition] of the mirror image is the negation of
    [evaluatePosition] of the position. *)
Theorem evaluation_color_symmetry (g g' : game) (ctx : EvalContext) :
  mirrored g g' -> balanced ctx ->
  (@evaluatePosition QNum L g' (Some ctx) == - @evaluatePosition QNum L g (Some ctx))%Q.
Proof.
  intros (b & Hg & Hg' & Hb & Hk & Ht & Hm) Hctx.
  unfold evaluatePosition. rewrite Hg, Hg', Ht, !Hm. cbn [opposite].
  apply (evaluateBoard_mirror b Hb Hk ctx Hctx).
Qed.

End EvaluationSymmetry.

Section TerminalScoring.
Context {L : ChessLib}.

Lemma sideMobility_nonneg (g : game) c : 0 <= sideMobility g c.
Proof.
  unfold sideMobility, mobilityOf.
  destruct (2 <=? _)%nat; [| lia].
  destruct (createChessInstance _) as [scratch |]; [| lia].
  destruct (moves scratch); lia.
Qed.

Lemma evaluatePosition_bound (g : game) context :
  standard g context -> (- 890 < @evaluatePosition QNum L g context < 890)%Q.
Proof.
  intros (Hb & Hc & Hm). unfold evaluatePosition.
  destruct (board g) as [b |] eqn:E; [| split; reflexivity].
  apply (evaluateBoard_bound b (Hb b eq_refl)).
  - destruct context as [ctx |]; [apply Hc; reflexivity | apply createEvaluationContext_plausible].
  - pose proof (Hm White). pose proof (Hm Black).
    pose proof (sideMobility_nonneg g White). pose proof (sideMobility_nonneg g Black). lia.
Qed.

Lemma evaluateForPerspective_bound (g : game) perspective context :
  standard g context -> (- 890 < @evaluateForPerspective QNum L g perspective context < 890)%Q.
Proof.
  intros H. apply evaluatePosition_bound in H. unfold evaluateForPerspective.
  cbn [num nneg QNum]. destruct (isWhite perspective); lra.
Qed.

(** C2 (terminal-state scoring): the three terminal answers of
    [evaluateTerminalState] are exact; in exact arithmetic, of two mates
    of the opponent the one at the smaller ply count scores strictly
    higher, and up to ply 100 both score strictly higher than the static
    evaluation of any standard position. *)
Theorem terminal_state_scoring :
  (forall (N : Num) (perspective : Color) (plyCount : Z) (context : option EvalContext)
          (w : @World N L),
      (in_checkmate (w_game w) = Ret true -> turn (w_game w) = perspective ->
       evaluateTerminalState perspective plyCount context w
       = (Val (- ofZ (1000 - plyCount))%num, w))
      /\ (in_checkmate (w_game w) = Ret true -> turn (w_game w) <> perspective ->
          evaluateTerminalState perspective plyCount context w
          = (Val (ofZ (1000 - plyCount)), w))
      /\ (in_checkmate (w_game w) = Ret false -> in_stalemate (w_game w) = Ret true ->
          evaluateTerminalState perspective plyCount context w = (Val nzero, w)))
  /\ (forall (perspective : Color) (p1 p2 : Z) (c1 c2 context : option EvalContext)
             (w1 w2 : @World QNum L) (g : game),
        in_checkmate (w_game w1) = Ret true -> turn (w_game w1) <> perspective ->
        in_checkmate (w_game w2) = Ret true -> turn (w_game w2) <> perspective ->
        p1 < p2 <= 100 ->
        standard g context ->
        exists v1 v2 : Q,
          fst (evaluateTerminalState perspective p1 c1 w1) = Val v1
          /\ fst (evaluateTerminalState perspective p2 c2 w2) = Val v2
          /\ (v2 < v1)%Q
          /\ (@evaluateForPerspective QNum L g perspective context < v2)%Q).
Proof.
  split.
  - intros N perspective plyCount context w. apply terminal_scores.
  - intros perspective p1 p2 c1 c2 context w1 w2 g Hm1 Ht1 Hm2 Ht2 Hp Hg.
    destruct (terminal_scores (N := QNum) perspective p1 c1 w1) as (_ & H1 & _).
    destruct (terminal_scores (N := QNum) perspective p2 c2 w2) as (_ & H2 & _).
    exists (@ofZ QNum (1000 - p1)), (@ofZ QNum (1000 - p2)).
    rewrite (H1 Hm1 Ht1), (H2 Hm2 Ht2).
    split; [reflexivity |]. split; [reflexivity |].
    pose proof (evaluateForPerspective_bound g perspective context Hg) as Hb.
    assert (H900 : (900 <= @ofZ QNum (1000 - p2))%Q)
      by (unfold ofZ; cbn [lit QNum]; unfold Qle; cbn; lia).
    split; [unfold ofZ; cbn [lit QNum]; unfold Qlt; cbn; lia | lra].
Qed.

End TerminalScoring.

(** ** Further properties of the evaluator and of the search tables *)

Section Further.
Context {L : ChessLib}.

(** X1.  In exact arithmetic the static evaluation of a standard
    position (eight by eight squares, at most a thousand legal moves a
    side, a plausible context) lies strictly between -890 and 890. *)
Theorem static_evaluation_bounded (g : game) (context : option EvalContext) :
  standard g context -> (- 890 < @evaluatePosition QNum L g context < 890)%Q.
Proof. apply evaluatePosition_bound. Qed.

(** X2.  The context [createEvaluationContext] builds from the history
    of a game has a move count that is not negative and, for each side,
    between 0 and 20 repeated flank moves: only the first twenty moves of
    the history are inspected. *)
Theorem evaluation_context_plausible (g : game) :
  (0 <= moveCount (createEvaluationContext g))%Z
  /\ forall c, (0 <= side c (repeatedFlankMoves (createEvaluationContext g)) <= 20)%Z.
Proof. apply createEvaluationContext_plausible. Qed.

End Further.

Section KillerMoves.
Context {N : Num}.

(** X3.  [recordKillerMove] keeps at most two killer moves a ply: if no
    list of the table is longer than two, none is after the call. *)
Theorem killer_moves_at_most_two (sm sm' : SearchMeta) (ply : Z) (m : Move) :
  (forall p l, killerMoves sm !! p = Some l -> (length l <= 2)%nat) ->
  recordKillerMove (Some sm) ply m = Some sm' ->
  forall p l, killerMoves sm' !! p = Some l -> (length l <= 2)%nat.
Proof.
  intros Hsm Hrec p l Hl. unfold recordKillerMove in Hrec.
  destruct (capturesOrPromotes m); [injection Hrec as <-; eauto |].
  cbv zeta in Hrec.
  destruct (has (default [] (killerMoves sm !! ply)) (simpleMoveKey m));
    [injection Hrec as <-; eauto |].
  injection Hrec as <-. cbn [killerMoves] in Hl.
  destruct (decide (ply = p)) as [-> | Hne].
  - rewrite lookup_insert_eq in Hl. injection Hl as <-.
    cbn [length]. rewrite length_take. lia.
  - rewrite lookup_insert_ne in Hl by exact Hne. eauto.
Qed.

End KillerMoves.

(** * The search tables, the move orderer and the sessions *)

(** ** The depth of the fallback search *)

Ltac split_ltb :=
  repeat match goal with
         | |- context [(?a <? ?b)%Z] => destruct (Z.ltb_spec a b); try lia
         | |- context [(?a <=? ?b)%Z] => destruct (Z.leb_spec a b); try lia
         end.

Lemma chooseFallbackDepth_range moveCount legalCount :
  3 <= chooseFallbackDepth moveCount legalCount <= 7.
Proof. unfold chooseFallbackDepth. cbv zeta. lia. Qed.

Lemma chooseFallbackDepth_moves moveCount moveCount' legalCount :
  moveCount <= moveCount' ->
  chooseFallbackDepth moveCount' legalCount <= chooseFallbackDepth moveCount legalCount.
Proof. intros H. unfold chooseFallbackDepth. cbv zeta. split_ltb. Qed.

Lemma chooseFallbackDepth_legal moveCount legalCount legalCount' :
  legalCount <= legalCount' ->
  chooseFallbackDepth moveCount legalCount' <= chooseFallbackDepth moveCount legalCount.
Proof. intros H. unfold chooseFallbackDepth. cbv zeta. split_ltb. Qed.

(** X4.  [chooseFallbackDepth] never leaves the range from 3 to 7, and
    the depth it chooses does not grow when more moves have been played
    or more moves are legal. *)
Theorem fallback_depth_bounded_and_antitone (moveCount moveCount' legalCount legalCount' : Z) :
  moveCount <= moveCount' -> legalCount <= legalCount' ->
  3 <= chooseFallbackDepth moveCount' legalCount'
  /\ chooseFallbackDepth moveCount' legalCount' <= chooseFallbackDepth moveCount legalCount
  /\ chooseFallbackDepth moveCount legalCount <= 7.
Proof.
  intros Hm Hl.
  pose proof (chooseFallbackDepth_range moveCount' legalCount').
  pose proof (chooseFallbackDepth_range moveCount legalCount).
  pose proof (chooseFallbackDepth_moves moveCount moveCount' legalCount' Hm).
  pose proof (chooseFallbackDepth_legal moveCount legalCount legalCount' Hl).
  lia.
Qed.

(** ** The principal variation read from the table *)

Section PrincipalVariation.
Context {N : Num} {L : ChessLib}.

Lemma pvWalk_length steps : forall table chess seen pv,
  pvWalk steps table chess seen = Ret pv -> (length pv <= steps)%nat.
Proof.
  induction steps as [| steps IH]; intros table chess seen pv H; cbn [pvWalk] in H.
  - injection H as <-. cbn. lia.
  - destruct (decide (fen chess ∈ seen)); [injection H as <-; cbn; lia |].
    destruct (table !! fen chess) as [entry |]; [| injection H as <-; cbn; lia].
    destruct (e_best entry) as [best |]; [| injection H as <-; cbn; lia].
    destruct (move chess _) as [[[mv chess'] |] | e]; [| injection H as <-; cbn; lia | discriminate].
    destruct (game_over chess') as [[|] | e]; [injection H as <-; cbn; lia | | discriminate].
    destruct (pvWalk steps table chess' _) as [pv' | e] eqn:E; [| discriminate].
    injection H as <-. apply IH in E. cbn [length]. lia.
Qed.

(** X5.  The principal variation read from the table is never longer
    than [maxLength]; it is empty for an empty table and for an empty
    FEN. *)
Theorem principal_variation_bounded (fenText : string) (table : gmap string TTEntry)
    (maxLength : Z) :
  (forall pv, principalVariationFromTable fenText table maxLength = Ret pv ->
              Z.of_nat (length pv) <= Z.max 0 maxLength)
  /\ principalVariationFromTable fenText ∅ maxLength = Ret []
  /\ principalVariationFromTable EmptyString table maxLength = Ret [].
Proof.
  split; [| split].
  - intros pv H. unfold principalVariationFromTable in H.
    destruct fenText as [| c r]; [injection H as <-; cbn; lia |].
    destruct (createChessInstance _) as [chess | e]; [| injection H as <-; cbn; lia].
    apply pvWalk_length in H. lia.
  - unfold principalVariationFromTable.
    destruct fenText as [| c r]; [reflexivity |].
    destruct (createChessInstance _) as [chess | e]; [| reflexivity].
    destruct (Z.to_nat maxLength) as [| steps]; [reflexivity |].
    cbn [pvWalk]. destruct (decide (fen chess ∈ (∅ : gset string))) as [Hin | _]; [reflexivity |].
    rewrite lookup_empty. reflexivity.
  - reflexivity.
Qed.

End PrincipalVariation.

(** ** Killer moves, history scores and ordering scores *)

Lemma has_In l x : has l x = true <-> In x l.
Proof.
  unfold has. rewrite existsb_exists. split.
  - intros (y & Hy & E). apply String.eqb_eq in E. now subst.
  - intros H. exists x. split; [exact H | apply String.eqb_refl].
Qed.

Lemma indexOf_head key l i : indexOf key (key :: l) i = Some i.
Proof. cbn [indexOf]. now rewrite String.eqb_refl. Qed.

Lemma indexOf_absent key l : forall i, has l key = false -> indexOf key l i = None.
Proof.
  induction l as [| k r IH]; intros i H; [reflexivity |].
  unfold has in H. cbn [existsb indexOf] in *. apply orb_false_elim in H as [H1 H2].
  rewrite String.eqb_sym, H1. apply IH. exact H2.
Qed.

Section Killers.
Context {N : Num}.

(** X6.  A quiet move that [recordKillerMove] records at a ply where it
    was no killer move yet becomes the first killer move of that ply and
    scores 3 there, the killer move that was first before scores 2, and
    the lists of the other plies stay as they are.  A move that is a
    killer move of the ply already, or that captures or promotes, changes
    nothing. *)
Theorem killer_move_recorded_first (sm : SearchMeta) (ply : Z) (m : Move) :
  (capturesOrPromotes m = false ->
   has (default [] (killerMoves sm !! ply)) (simpleMoveKey m) = false ->
   exists sm',
     recordKillerMove (Some sm) ply m = Some sm'
     /\ killerMoveScore (Some sm') ply m = ofZ 3
     /\ (forall m0 rest,
           killerMoves sm !! ply = Some (simpleMoveKey m0 :: rest) ->
           killerMoveScore (Some sm') ply m0 = ofZ 2)
     /\ (forall p, p <> ply -> killerMoves sm' !! p = killerMoves sm !! p))
  /\ (capturesOrPromotes m = true
      \/ has (default [] (killerMoves sm !! ply)) (simpleMoveKey m) = true ->
      recordKillerMove (Some sm) ply m = Some sm).
Proof.
  split.
  - intros Hq Hnew. unfold recordKillerMove. rewrite Hq. cbv zeta. rewrite Hnew.
    eexists. split; [reflexivity |].
    unfold killerMoveScore. cbn [killerMoves]. rewrite lookup_insert_eq.
    split; [| split].
    + change (take 2 (simpleMoveKey m :: ?l)) with (simpleMoveKey m :: take 1 l).
      rewrite indexOf_head. reflexivity.
    + intros m0 rest H0. rewrite H0 in *. cbn [default from_option id] in *.
      unfold has in Hnew. cbn [existsb] in Hnew. apply orb_false_elim in Hnew as [Hne _].
      cbn [take firstn indexOf]. rewrite Hne, String.eqb_refl. reflexivity.
    + intros p Hp. apply lookup_insert_ne. congruence.
  - intros [Hc | Hold]; unfold recordKillerMove.
    + now rewrite Hc.
    + destruct (capturesOrPromotes m); [reflexivity |]. cbv zeta. now rewrite Hold.
Qed.

End Killers.

Section HistoryScores.
#[local] Existing Instance QNum.
Local Open Scope Q_scope.

Lemma historyScore_stored sm m :
  historyScore (Some sm) m == Qmin (35 # 10) (storedHistory sm m / 220).
Proof.
  unfold historyScore, storedHistory, nmin, ofZ. cbv zeta.
  cbn [num lit nadd nsub nmul ndiv nneg nltb QNum].
  match goal with
  | |- context [Qle_bool ?a ?x] => destruct (Qle_bool a x) eqn:E
  end; cbn [negb].
  - apply Qle_bool_iff in E. symmetry. apply Q.min_l. exact E.
  - symmetry. apply Q.min_r. apply Qlt_le_weak, Qnot_le_lt.
    intros H. apply Qle_bool_iff in H. congruence.
Qed.

(** X7.  [updateHistoryScore] adds the square of the depth to the stored
    value of a quiet move and leaves the values under every other key
    alone; the history score of the move, the stored value over 220
    capped at 3.5, does not go down by that.  A move that captures or
    promotes changes nothing. *)
Theorem history_update_raises_score (sm : SearchMeta) (m : Move) (depth : Z) :
  (capturesOrPromotes m = false ->
   exists sm',
     updateHistoryScore (Some sm) m depth = Some sm'
     /\ storedHistory sm' m = storedHistory sm m + inject_Z (depth * depth)
     /\ (forall m', simpleMoveKey m' <> simpleMoveKey m ->
                    storedHistory sm' m' = storedHistory sm m')
     /\ historyScore (Some sm) m <= historyScore (Some sm') m
     /\ historyScore (Some sm') m <= 35 # 10)
  /\ (capturesOrPromotes m = true -> updateHistoryScore (Some sm) m depth = Some sm).
Proof.
  split.
  - intros Hq. unfold updateHistoryScore. rewrite Hq. cbv zeta.
    eexists. split; [reflexivity |].
    assert (Hnew : storedHistory
                     {| killerMoves := killerMoves sm;
                        historyScores :=
                          <[simpleMoveKey m :=
                              (default nzero (historyScores sm !! simpleMoveKey m)
                               + ofZ (depth * depth))%num]> (historyScores sm);
                        orderingScores := orderingScores sm |} m
                   = storedHistory sm m + inject_Z (depth * depth)).
    { unfold storedHistory. cbn [historyScores]. rewrite lookup_insert_eq. reflexivity. }
    split; [exact Hnew |]. split; [| split].
    + intros m' Hne. unfold storedHistory. cbn [historyScores].
      rewrite lookup_insert_ne by congruence. reflexivity.
    + rewrite !historyScore_stored, Hnew.
      apply Q.min_le_compat_l.
      assert (H0 : 0 <= inject_Z (depth * depth))
        by (change 0 with (inject_Z 0); rewrite <- Zle_Qle; nia).
      unfold Qdiv. apply Qmult_le_compat_r; [lra | unfold Qle; cbn; lia].
    + rewrite historyScore_stored. apply Q.le_min_l.
  - intros Hc. unfold updateHistoryScore. now rewrite Hc.
Qed.

End HistoryScores.

(** ** The move orderer *)

Section OrderedMoves.
Context {N : Num} {L : ChessLib}.

Lemma sameTables_refl (w : World) : sameTables w w.
Proof. repeat split. Qed.

Lemma sameTables_trans (w1 w2 w3 : World) :
  sameTables w1 w2 -> sameTables w2 w3 -> sameTables w1 w3.
Proof. unfold sameTables. intros (? & ? & ? & ?) (? & ? & ? & ?). repeat split; congruence. Qed.

Lemma keeps_ret {A} (a : A) : keepsTables (ret a).
Proof. intros w. apply sameTables_refl. Qed.

Lemma keeps_bind {A B} (c : M A) (k : A -> M B) :
  keepsTables c -> (forall a, keepsTables (k a)) -> keepsTables (bind c k).
Proof.
  intros Hc Hk w. unfold bind. specialize (Hc w).
  destruct (c w) as [[a | e |] w1]; cbn [snd] in *; try exact Hc.
  eapply sameTables_trans; [exact Hc | apply Hk].
Qed.

Lemma keeps_tryFinally {A} (body : M A) (fin : M unit) :
  keepsTables body -> keepsTables fin -> keepsTables (tryFinally body fin).
Proof.
  intros Hb Hf w. unfold tryFinally. specialize (Hb w).
  destruct (body w) as [r w1]. specialize (Hf w1).
  destruct (fin w1) as [[[] | e |] w2]; cbn [snd] in *;
    eapply sameTables_trans; eassumption.
Qed.

Lemma keeps_foldM {A S} (f : S -> A -> M S) (l : list A) :
  (forall s a, keepsTables (f s a)) -> forall s, keepsTables (foldM f l s).
Proof.
  intros Hf. induction l as [| x r IH]; intros s; cbn [foldM].
  - apply keeps_ret.
  - apply keeps_bind; auto.
Qed.

Lemma keeps_query {A} (f : game -> Res A) : keepsTables (query f).
Proof. intros w. unfold query. destruct (f (w_game w)); apply sameTables_refl. Qed.

Lemma keeps_getter {A} (f : game -> A) : keepsTables (getter f).
Proof. intros w. apply sameTables_refl. Qed.

Lemma keeps_getWorld : keepsTables getWorld.
Proof. intros w. apply sameTables_refl. Qed.

Lemma keeps_gameMove a : keepsTables (gameMove a).
Proof.
  intros w. unfold gameMove.
  destruct (move (w_game w) a) as [[[m g'] |] | e]; repeat split.
Qed.

Lemma keeps_gameUndo : keepsTables gameUndo.
Proof. intros w. unfold gameUndo. destruct (undo (w_game w)); repeat split. Qed.

Lemma keeps_modifyMeta f : keepsTables (modifyMeta f).
Proof. intros w. repeat split. Qed.

Lemma keeps_lookahead m : keepsTables (lookahead m).
Proof. intros w. rewrite lookahead_reads_only. apply sameTables_refl. Qed.

Lemma keeps_evaluateMoveConsequences m : keepsTables (evaluateMoveConsequences m).
Proof.
  unfold evaluateMoveConsequences. apply keeps_bind; [apply keeps_gameMove |].
  intros _. apply keeps_tryFinally; [apply keeps_lookahead | apply keeps_gameUndo].
Qed.

Lemma keeps_movePriority m context preferenceMap ply :
  keepsTables (movePriority m context preferenceMap ply).
Proof.
  unfold movePriority. apply keeps_bind; [apply keeps_getWorld |]. intros w0.
  apply keeps_bind; [apply keeps_evaluateMoveConsequences |]. intros [penalty checkBonus].
  apply keeps_ret.
Qed.

Lemma keeps_orderedMoves context preferenceMap ply captureOnly :
  keepsTables (orderedMoves context preferenceMap ply captureOnly).
Proof.
  unfold orderedMoves. apply keeps_bind; [apply keeps_query |]. intros ms.
  apply keeps_bind; [apply keeps_modifyMeta |]. intros _.
  apply keeps_bind; [| intros scored; apply keeps_ret].
  apply keeps_foldM. intros scored m.
  destruct (captureOnly && negb (isForcingMove m)); [apply keeps_ret |].
  apply keeps_bind; [apply keeps_movePriority |]. intros value.
  apply keeps_bind; [apply keeps_modifyMeta | intros _; apply keeps_ret].
Qed.

(** *** The order is a rearrangement *)

Lemma insertDesc_perm entry sorted : Permutation (insertDesc entry sorted) (entry :: sorted).
Proof.
  induction sorted as [| y r IH]; cbn [insertDesc]; [reflexivity |].
  destruct (snd y <? snd entry)%num; [reflexivity |].
  rewrite IH. apply perm_swap.
Qed.

Lemma sortDesc_perm_from scored : forall acc,
  Permutation (fold_left (fun sorted entry => insertDesc entry sorted) scored acc)
              (acc ++ scored).
Proof.
  induction scored as [| x r IH]; intros acc; cbn [fold_left].
  - now rewrite app_nil_r.
  - rewrite IH, insertDesc_perm. apply Permutation_middle.
Qed.

Lemma sortDesc_perm scored : Permutation (sortDesc scored) scored.
Proof. apply (sortDesc_perm_from scored []). Qed.

(** The game of a world, whatever else changed. *)
Lemma movePriority_restores m context preferenceMap ply w v w' :
  takenBack (w_game w) m ->
  movePriority m context preferenceMap ply w = (Val v, w') ->
  w_game w' = w_game w /\ w_meta w' = w_meta w.
Proof.
  intros (applied & after & Hmove & Hundo) H.
  unfold movePriority, evaluateMoveConsequences in H.
  unfold bind at 1 in H. unfold getWorld in H.
  unfold bind at 1 in H. unfold bind at 1 in H. unfold gameMove at 1 in H.
  rewrite Hmove in H. unfold tryFinally in H.
  match type of H with
  | context [lookahead m ?w1] =>
      pose proof (lookahead_reads_only m w1) as Hl;
      destruct (lookahead m w1) as [r w2]
  end.
  cbn [snd] in Hl. subst w2. unfold gameUndo in H. cbn [w_game] in H.
  rewrite Hundo in H.
  destruct r as [[penalty checkBonus] | e |]; try discriminate.
  unfold ret in H. injection H as _ <-. split; reflexivity.
Qed.

Lemma ranked_skips captureOnly m :
  ranked captureOnly m = negb (captureOnly && negb (isForcingMove m)).
Proof. unfold ranked. destruct captureOnly, (isForcingMove m); reflexivity. Qed.

Lemma ordering_loop context preferenceMap ply captureOnly ms : forall acc w scored w',
  foldM
    (fun scored m =>
       if captureOnly && negb (isForcingMove m) then ret scored
       else
         bind (movePriority m context preferenceMap ply) (fun value =>
           bind (modifyMeta (fun sm => storeOrderingScore sm ply m value)) (fun _ =>
             ret (scored ++ [(m, value)])%list)))
    ms acc w = (Val scored, w') ->
  map fst scored = (map fst acc ++ List.filter (ranked captureOnly) ms)%list
  /\ ((forall m, In m ms -> takenBack (w_game w) m) -> w_game w' = w_game w).
Proof.
  induction ms as [| m rest IH]; intros acc w scored w' H; cbn [foldM] in H.
  - unfold ret in H. injection H as <- <-. cbn [List.filter]. rewrite app_nil_r. auto.
  - apply bind_val_inv in H as (acc1 & w1 & Hstep & Hrest).
    apply IH in Hrest as [Hmap Hgame].
    cbn [List.filter]. rewrite (ranked_skips captureOnly m).
    destruct (captureOnly && negb (isForcingMove m)); cbn [negb].
    + unfold ret in Hstep. injection Hstep as <- <-.
      split; [exact Hmap |]. intros Hall. apply Hgame. intros m' Hm'. apply Hall. now right.
    + apply bind_val_inv in Hstep as (value & w2 & Hp & Hs).
      apply bind_val_inv in Hs as ([] & w3 & Hm & Hr).
      unfold ret in Hr. injection Hr as <- <-.
      unfold modifyMeta, bind, getWorld, setMeta in Hm. injection Hm as <-.
      split.
      * rewrite Hmap, map_app, <- app_assoc. reflexivity.
      * intros Hall. cbn [w_game] in Hgame.
        destruct (movePriority_restores _ _ _ _ _ _ _ (Hall m (or_introl eq_refl)) Hp)
          as [Hg _].
        rewrite <- Hg. apply Hgame. intros m' Hm'. rewrite Hg. apply Hall. now right.
Qed.

(** What [orderedMoves] returns, in terms of the legal moves of the
    position. *)
Lemma orderedMoves_spec context preferenceMap ply captureOnly (w w' : World) sorted :
  orderedMoves context preferenceMap ply captureOnly w = (Val sorted, w') ->
  exists legal,
    moves (w_game w) = Ret legal
    /\ Permutation sorted (List.filter (ranked captureOnly) legal)
    /\ ((forall m, In m legal -> takenBack (w_game w) m) -> w_game w' = w_game w).
Proof.
  intros H. unfold orderedMoves in H.
  apply bind_val_inv in H as (ms & w1 & Hq & H).
  unfold query in Hq. destruct (moves (w_game w)) as [legal | e] eqn:Hlegal; [| discriminate].
  injection Hq as <- <-. exists legal. split; [reflexivity |].
  apply bind_val_inv in H as ([] & w2 & Hm & H).
  unfold modifyMeta, bind, getWorld, setMeta in Hm. injection Hm as <-.
  apply bind_val_inv in H as (scored & w3 & Hloop & H).
  unfold ret in H. injection H as <- <-.
  apply ordering_loop in Hloop as [Hmap Hgame]. cbn [map app w_game] in *.
  split; [| auto].
  rewrite <- Hmap. apply Permutation_map, sortDesc_perm.
Qed.

(** X8.  What [orderedMoves] returns is a rearrangement of the legal
    moves of the position (of the forcing ones when only captures are
    asked for).  The call leaves the transposition table and the
    statistics untouched, and when the library applies and takes back
    every legal move it ends with the position it started from. *)
Theorem ordered_moves_rearrange context preferenceMap ply captureOnly
    (w w' : World) (legal sorted : list Move) :
  moves (w_game w) = Ret legal ->
  orderedMoves context preferenceMap ply captureOnly w = (Val sorted, w') ->
  Permutation sorted (List.filter (ranked captureOnly) legal)
  /\ w_table w' = w_table w /\ w_stats w' = w_stats w
  /\ ((forall m, In m legal -> takenBack (w_game w) m) -> w_game w' = w_game w).
Proof.
  intros Hlegal H.
  pose proof (keeps_orderedMoves context preferenceMap ply captureOnly w) as Hk.
  rewrite H in Hk. cbn [snd] in Hk. destruct Hk as (Ht & Hs & _ & _).
  apply orderedMoves_spec in H as (legal' & Hlegal' & Hperm & Hgame).
  rewrite Hlegal in Hlegal'. injection Hlegal' as <-. auto.
Qed.

End OrderedMoves.

(** ** The window of the quiescence search *)

Section ExactBounds.
#[local] Existing Instance QNum.

(** The order of the bounds, over the rationals. *)
Lemma eltb_eleb (a b : Ext) : eltb a b = negb (eleb b a).
Proof. destruct a, b; reflexivity. Qed.

Lemma eleb_refl (a : Ext) : eleb a a = true.
Proof. destruct a; try reflexivity. cbn. apply Qle_bool_iff, Qle_refl. Qed.

Lemma eleb_trans (a b c : Ext) : eleb a b = true -> eleb b c = true -> eleb a c = true.
Proof.
  destruct a, b, c; cbn; try reflexivity; try discriminate.
  rewrite !Qle_bool_iff. apply Qle_trans.
Qed.

Lemma eleb_total (a b : Ext) : eleb a b = false -> eleb b a = true.
Proof.
  destruct a, b; cbn; try reflexivity; try discriminate.
  intros H. apply Qle_bool_iff. apply Qlt_le_weak, Qnot_le_lt.
  intros H'. apply Qle_bool_iff in H'. congruence.
Qed.

(** The larger of a bound and a score. *)
Lemma raise_below (a s beta : Ext) :
  eltb a beta = true -> eleb beta s = false ->
  eltb (if eltb a s then s else a) beta = true
  /\ eleb a (if eltb a s then s else a) = true.
Proof.
  intros Ha Hs. rewrite (eltb_eleb a s). destruct (eleb s a) eqn:E; cbn [negb].
  - split; [exact Ha | apply eleb_refl].
  - split; [rewrite eltb_eleb; now rewrite Hs | apply eleb_total, E].
Qed.

Context {L : ChessLib}.

(** X9.  [quiescence] is fail-hard: a call that is not cancelled on
    entry, with [alpha] below [beta], never returns more than [beta];
    with a positive ply budget it never returns less than [alpha]
    either. *)
Theorem quiescence_stays_in_window fuel env (alpha beta : Ext) perspective plyCount context
    limit (w w1 w' : World) (v : Ext) :
  eltb alpha beta = true ->
  cancelled env w = (Val false, w1) ->
  quiescence fuel env alpha beta perspective plyCount context limit w = (Val v, w') ->
  eleb v beta = true /\ (0 < limit -> eleb alpha v = true).
Proof.
  intros Hab Hc H. destruct fuel as [| fuel]; [discriminate |].
  cbn [quiescence] in H. rewrite (bind_val _ _ _ _ _ Hc) in H.
  apply bind_val_inv in H as ([] & w2 & _ & H).
  apply bind_val_inv in H as (standPat & w3 & _ & H).
  destruct (eleb beta (Fin standPat)) eqn:Hsp.
  - unfold ret in H. injection H as <- _.
    split; [apply eleb_refl |]. intros _. apply eleb_total.
    rewrite eltb_eleb in Hab. now destruct (eleb beta alpha).
  - destruct (raise_below alpha (Fin standPat) beta Hab Hsp) as [Ha' Hle].
    destruct (limit <=? 0)%Z eqn:Hl.
    + unfold ret in H. injection H as <- _. split; [apply eleb_total, Hsp | lia].
    + apply bind_val_inv in H as (captureMoves & w4 & _ & H).
      assert (Hloop : eleb v beta = true
                      /\ eleb (if eltb alpha (Fin standPat) then Fin standPat else alpha) v = true).
      { revert Ha' H. clear Hle.
        generalize (if eltb alpha (Fin standPat) then Fin standPat else alpha).
        revert w4. induction captureMoves as [| m rest IH]; intros w4 a Ha H.
        - unfold ret in H. injection H as <- _.
          split; [| apply eleb_refl]. apply eleb_total.
          rewrite eltb_eleb in Ha. now destruct (eleb beta a).
        - apply bind_val_inv in H as (mv & w5 & _ & H).
          apply bind_val_inv in H as (below & w6 & _ & H).
          apply bind_val_inv in H as ([] & w7 & _ & H).
          destruct (eleb beta (eneg below)) eqn:Hs.
          + unfold ret in H. injection H as <- _.
            split; [apply eleb_refl |]. apply eleb_total.
            rewrite eltb_eleb in Ha. now destruct (eleb beta a).
          + destruct (raise_below a (eneg below) beta Ha Hs) as [Ha2 Hle2].
            apply IH in H as [Hv1 Hv2]; [| exact Ha2].
            split; [exact Hv1 | eapply eleb_trans; eassumption]. }
      destruct Hloop as [Hv1 Hv2].
      split; [exact Hv1 |]. intros _. eapply eleb_trans; eassumption.
Qed.

End ExactBounds.

(** ** The search puts the position back *)

Section Restoring.
Context {N : Num} {L : ChessLib}.

Lemma restores_ret {A} (a : A) : restores (ret a).
Proof. intros w v w' H. unfold ret in H. now injection H as _ <-. Qed.

Lemma restores_bind {A B} (c : M A) (k : A -> M B) :
  restores c -> (forall a, restores (k a)) -> restores (bind c k).
Proof.
  intros Hc Hk w v w' H. apply bind_val_inv in H as (a & w1 & H1 & H2).
  rewrite (Hk a _ _ _ H2). eapply Hc, H1.
Qed.

Lemma restores_query {A} (f : game -> Res A) : restores (query f).
Proof.
  intros w v w' H. unfold query in H.
  destruct (f (w_game w)); [| discriminate]. now injection H as _ <-.
Qed.

Lemma restores_getter {A} (f : game -> A) : restores (getter f).
Proof. intros w v w' H. unfold getter in H. now injection H as _ <-. Qed.

Lemma restores_modifyMeta f : restores (modifyMeta f).
Proof. intros w v w' H. unfold modifyMeta, bind, getWorld, setMeta in H. now injection H as _ <-. Qed.

Lemma restores_tableSet key entry : restores (tableSet key entry).
Proof. intros w v w' H. unfold tableSet, bind, getWorld, setTable in H. now injection H as _ <-. Qed.

Lemma restores_countNode : restores countNode.
Proof. intros w v w' H. unfold countNode, bind, getWorld, setStats in H. now injection H as _ <-. Qed.

Lemma restores_noteTimeout : restores noteTimeout.
Proof. intros w v w' H. unfold noteTimeout, bind, getWorld, setStats in H. now injection H as _ <-. Qed.

Lemma restores_cancelled env : restores (cancelled env).
Proof. intros w v w' H. now apply cancelled_frame in H. Qed.

Lemma restores_staticEval perspective context : restores (staticEval perspective context).
Proof. intros w v w' H. unfold staticEval, bind, getter, ret in H. now injection H as _ <-. Qed.

Lemma restores_evaluateTerminalState perspective plyCount context :
  restores (evaluateTerminalState perspective plyCount context).
Proof.
  intros w v w' H.
  pose proof (evaluateTerminalState_reads_only perspective plyCount context w) as Hr.
  rewrite H in Hr. cbn [snd] in Hr. now subst.
Qed.

(** A legal move is applied, and the position it leads to remembers
    where it came from. *)
Lemma gameMove_played m (w w1 : World) r :
  takenBack (w_game w) m ->
  gameMove (moveArgOf m) w = (Val r, w1) ->
  undo (w_game w1) = Ret (w_game w).
Proof.
  intros (applied & after & Hmove & Hundo) H. unfold gameMove in H.
  rewrite Hmove in H. injection H as _ <-. exact Hundo.
Qed.

Lemma gameUndo_back (w w1 : World) g r :
  undo (w_game w) = Ret g -> gameUndo w = (Val r, w1) -> w_game w1 = g.
Proof. intros Hundo H. unfold gameUndo in H. rewrite Hundo in H. now injection H as _ <-. Qed.

Lemma In_take {A} (x : A) n l : In x (take n l) -> In x l.
Proof. intros H. rewrite <- (firstn_skipn n l). apply in_or_app. now left. Qed.

Hypothesis lawful : undoReverts.

(** The moves [orderedMoves] returns can all be played and taken back,
    and the call itself puts the position back. *)
Lemma orderedMoves_playable context preferenceMap ply captureOnly (w w' : World) sorted :
  orderedMoves context preferenceMap ply captureOnly w = (Val sorted, w') ->
  w_game w' = w_game w /\ forall m, In m sorted -> takenBack (w_game w) m.
Proof.
  intros H. apply orderedMoves_spec in H as (legal & Hlegal & Hperm & Hgame).
  split.
  - apply Hgame. intros m Hm. eapply lawful; eassumption.
  - intros m Hm. apply (lawful _ legal); [exact Hlegal |].
    apply (Permutation_in _ Hperm) in Hm. apply filter_In in Hm. tauto.
Qed.

Lemma quiescence_restores fuel : forall env alpha beta perspective plyCount context limit,
  restores (quiescence fuel env alpha beta perspective plyCount context limit).
Proof.
  induction fuel as [| fuel IH]; intros env alpha beta perspective plyCount context limit w v w' H;
    [discriminate |].
  cbn [quiescence] in H.
  apply bind_val_inv in H as (stop & w1 & Hc & H). apply restores_cancelled in Hc.
  destruct stop.
  - apply bind_val_inv in H as ([] & w2 & H2 & H). apply restores_noteTimeout in H2.
    apply bind_val_inv in H as (s & w3 & H3 & H). apply restores_staticEval in H3.
    apply restores_ret in H. congruence.
  - apply bind_val_inv in H as ([] & w2 & H2 & H). apply restores_countNode in H2.
    apply bind_val_inv in H as (standPat & w3 & H3 & H).
    apply restores_evaluateTerminalState in H3.
    assert (Hg : w_game w3 = w_game w) by congruence. clear Hc H2 H3.
    destruct (eleb beta (Fin standPat)); [apply restores_ret in H; congruence |].
    destruct (limit <=? 0)%Z; [apply restores_ret in H; congruence |].
    apply bind_val_inv in H as (captureMoves & w4 & Ho & H).
    apply orderedMoves_playable in Ho as [Hg4 Hplay].
    rewrite <- Hg, <- Hg4. rewrite <- Hg4 in Hplay. clear Hg Hg4.
    revert Hplay H.
    generalize (if eltb alpha (Fin standPat) then Fin standPat else alpha).
    revert w4. induction captureMoves as [| m rest IHm]; intros w4 a Hplay H.
    + apply restores_ret in H. exact H.
    + apply bind_val_inv in H as (mv & w5 & Hm & H).
      apply gameMove_played in Hm; [| apply Hplay; now left].
      apply bind_val_inv in H as (below & w6 & Hq & H). apply IH in Hq.
      apply bind_val_inv in H as ([] & w7 & Hu & H).
      rewrite <- Hq in Hm. apply (gameUndo_back _ _ _ _ Hm) in Hu.
      destruct (eleb beta (eneg below)); [apply restores_ret in H; congruence |].
      apply IHm in H; [congruence |].
      intros m' Hm'. rewrite Hu. apply Hplay. now right.
Qed.

Lemma negamax_restores fuel : forall env depth alpha beta perspective plyCount context,
  restores (negamax fuel env depth alpha beta perspective plyCount context).
Proof.
  induction fuel as [| fuel IH]; intros env depth alpha beta perspective plyCount context w v w' H;
    [discriminate |].
  cbn [negamax] in H.
  apply bind_val_inv in H as (stop & w1 & Hc & H). apply restores_cancelled in Hc.
  destruct stop.
  - apply bind_val_inv in H as ([] & w2 & H2 & H). apply restores_noteTimeout in H2.
    apply bind_val_inv in H as (s & w3 & H3 & H). apply restores_staticEval in H3.
    apply restores_ret in H. congruence.
  - apply bind_val_inv in H as ([] & w2 & H2 & H). apply restores_countNode in H2.
    apply bind_val_inv in H as (terminal & w3 & H3 & H). apply restores_query in H3.
    apply bind_val_inv in H as (key & w4 & H4 & H). apply restores_getter in H4.
    apply bind_val_inv in H as (w5 & w5' & H5 & H).
    unfold getWorld in H5. injection H5 as <- <-.
    assert (Hg : w_game w4 = w_game w) by congruence. clear Hc H2 H3 H4.
    destruct (probeTable (w_table w4 !! key) terminal depth alpha beta)
      as [[alpha' beta'] [value |]].
    { apply restores_ret in H. congruence. }
    destruct terminal.
    { apply bind_val_inv in H as (result & w6 & H6 & H).
      apply restores_evaluateTerminalState in H6.
      apply bind_val_inv in H as ([] & w7 & H7 & H).
      apply restores_ret in H.
      assert (w_game w7 = w_game w6); [| congruence].
      destruct (w_table w4 !! key) as [c |].
      - destruct (e_depth c <? depth)%Z;
          [eapply restores_tableSet | eapply restores_ret]; exact H7.
      - eapply restores_tableSet, H7. }
    destruct (depth <=? 0)%Z.
    { apply quiescence_restores in H. congruence. }
    apply bind_val_inv in H as (ms & w6 & Ho & H).
    apply orderedMoves_playable in Ho as [Hg6 Hplay].
    apply bind_val_inv in H as (best & w7 & Hloop & H).
    assert (Hg7 : w_game w7 = w_game w6).
    { assert (Hsub : forall m, In m (take (if (3 <=? depth)%Z then Nat.min (length ms) 14
                                            else Nat.min (length ms) 18) ms) ->
                               takenBack (w_game w6) m).
      { intros m Hm. rewrite Hg6. apply Hplay. eapply In_take, Hm. }
      revert Hsub Hloop. clear H Hplay Hg6.
      match goal with
      | |- _ -> ?f ?cands 0%Z ?st0 w6 = _ -> _ =>
          enough (Hgen : forall candidates (u : World) st i best' u',
                     (forall m, In m candidates -> takenBack (w_game u) m) ->
                     f candidates i st u = (Val best', u') -> w_game u' = w_game u)
            by (intros Hsub Hloop; exact (Hgen _ _ _ _ _ _ Hsub Hloop))
      end.
      clear w6 w7 best. intros candidates.
      induction candidates as [| m rest IHm]; intros w6 st i best w7 Hsub Hloop.
      - apply restores_ret in Hloop. exact Hloop.
      - apply bind_val_inv in Hloop as (mv & u1 & Hm & Hloop).
        apply gameMove_played in Hm; [| apply Hsub; now left].
        apply bind_val_inv in Hloop as (givesCheck & u2 & Hc2 & Hloop).
        apply restores_query in Hc2.
        apply bind_val_inv in Hloop as (mate & u3 & Hc3 & Hloop).
        apply restores_query in Hc3.
        apply bind_val_inv in Hloop as (score & u4 & Hs & Hloop).
        assert (Hg4 : w_game u4 = w_game u3).
        { destruct mate.
          - apply bind_val_inv in Hs as (x & u5 & Hs1 & Hs2).
            apply restores_evaluateTerminalState in Hs1. apply restores_ret in Hs2. congruence.
          - apply bind_val_inv in Hs as (x & u5 & Hs1 & Hs2).
            apply IH in Hs1. apply restores_ret in Hs2. congruence. }
        apply bind_val_inv in Hloop as ([] & u5 & Hu & Hloop).
        assert (Hm' : undo (w_game u4) = Ret (w_game w6)) by congruence.
        apply (gameUndo_back _ _ _ _ Hm') in Hu.
        apply bind_val_inv in Hloop as (st' & u6 & Hst & Hloop).
        assert (Hg6' : w_game u6 = w_game u5).
        { match type of Hst with
          | (if ?c then _ else _) _ = _ => destruct c
          end.
          - apply bind_val_inv in Hst as ([] & u7 & Hst1 & Hst2).
            apply restores_modifyMeta in Hst1. apply restores_ret in Hst2. congruence.
          - apply restores_ret in Hst. exact Hst. }
        destruct (eleb beta' (b_alpha st')).
        + apply bind_val_inv in Hloop as ([] & u7 & Hk1 & Hloop).
          apply restores_modifyMeta in Hk1.
          apply bind_val_inv in Hloop as ([] & u8 & Hk2 & Hloop).
          apply restores_modifyMeta in Hk2. apply restores_ret in Hloop. congruence.
        + apply IHm in Hloop; [congruence |].
          intros m' Hm''. replace (w_game u6) with (w_game w6) by congruence.
          apply Hsub. now right. }
    apply bind_val_inv in H as (best' & w8 & Hb & H).
    assert (Hg8 : w_game w8 = w_game w7).
    { destruct ms.
      - apply bind_val_inv in Hb as (x & u & Hb1 & Hb2).
        apply restores_evaluateTerminalState in Hb1. apply restores_ret in Hb2. congruence.
      - apply restores_ret in Hb. exact Hb. }
    apply bind_val_inv in H as ([] & w9 & Ht & H).
    apply restores_tableSet in Ht. apply restores_ret in H. congruence.
Qed.

(** X10.  With a library whose undo takes back the move last applied,
    [negamax] and [quiescence] return with the position they were
    called on. *)
Theorem search_restores_position fuel env depth alpha beta perspective plyCount context limit
    (w w' : World) (v : Ext) :
  (negamax fuel env depth alpha beta perspective plyCount context w = (Val v, w') ->
   w_game w' = w_game w)
  /\ (quiescence fuel env alpha beta perspective plyCount context limit w = (Val v, w') ->
      w_game w' = w_game w).
Proof. split; [apply negamax_restores | apply quiescence_restores]. Qed.

End Restoring.

(** ** The built-in analysis *)

Section Fallback.
Context {N : Num} {L : ChessLib}.

Lemma insertRanked_perm entry sorted :
  Permutation (insertRanked entry sorted) (entry :: sorted).
Proof.
  induction sorted as [| y r IH]; cbn [insertRanked]; [reflexivity |].
  destruct (eltb (k_score y) (k_score entry)); [reflexivity |].
  rewrite IH. apply perm_swap.
Qed.

Lemma sortRanked_perm_from l : forall acc,
  Permutation (fold_left (fun sorted entry => insertRanked entry sorted) l acc) (acc ++ l).
Proof.
  induction l as [| x r IH]; intros acc; cbn [fold_left].
  - now rewrite app_nil_r.
  - rewrite IH, insertRanked_perm. apply Permutation_middle.
Qed.

Lemma sortRanked_perm l : Permutation (sortRanked l) l.
Proof. apply (sortRanked_perm_from l []). Qed.

Lemma detailsOf_moves rootFen table targetDepth entries : forall ds,
  detailsOf rootFen table targetDepth entries = Ret ds ->
  map d_move ds = map fst entries.
Proof.
  induction entries as [| entry rest IH]; intros ds H; cbn [detailsOf] in H.
  - injection H as <-. reflexivity.
  - destruct (detailOf rootFen table targetDepth entry) as [d | e] eqn:Hd; [| discriminate].
    destruct (detailsOf rootFen table targetDepth rest) as [ds' | e]; [| discriminate].
    injection H as <-. cbn [map]. f_equal; [| now apply IH].
    unfold detailOf in Hd.
    destruct (createChessInstance (Some rootFen)) as [clone | e]; [| discriminate].
    destruct (move clone (moveArgOf (fst entry))) as [[[first clone'] |] | e]; try discriminate.
    + destruct (principalVariationFromTable _ _ _); [| discriminate]. now injection Hd as <-.
    + now injection Hd as <-.
Qed.

Lemma depthsTo_last n : (0 <= n)%Z -> List.last (depthsTo n) 0%Z = n.
Proof.
  intros Hn. unfold depthsTo. rewrite <- (Z2Nat.id n Hn) at 2.
  generalize (Z.to_nat n). intros k. destruct k as [| k]; [reflexivity |].
  rewrite seq_S, map_app. cbn [map]. rewrite last_last. reflexivity.
Qed.

Lemma depthsTo_range n d : In d (depthsTo n) -> (1 <= d <= n)%Z.
Proof.
  unfold depthsTo. intros H. apply in_map_iff in H as (k & <- & Hk).
  apply in_seq in Hk. lia.
Qed.

Lemma requestedDepth_positive options moveCount legalCount :
  (1 <= requestedDepth options moveCount legalCount)%Z.
Proof.
  unfold requestedDepth.
  pose proof (chooseFallbackDepth_range moveCount legalCount).
  destruct (o_depth options), (o_maxDepth options), (o_minDepth options); lia.
Qed.

Hypothesis lawful : undoReverts.

(** One iteration over the root moves: the position is put back, the
    moves searched are a leading part of the candidates, and all of them
    unless the iteration was cut short. *)
Lemma rootLoop_spec fuel env depth perspective evalContext candidates :
  forall alpha iteration (w : World) result aborted w',
  (forall m, In m candidates -> takenBack (w_game w) m) ->
  rootLoop fuel env depth perspective evalContext candidates alpha iteration w
    = (Val (result, aborted), w') ->
  w_game w' = w_game w
  /\ exists searched,
       map k_move result = (map k_move iteration ++ searched)%list
       /\ (forall m, In m searched -> In m candidates)
       /\ (aborted = false -> searched = candidates).
Proof.
  induction candidates as [| m rest IH]; intros alpha iteration w result aborted w' Hplay H;
    cbn [rootLoop] in H.
  - unfold ret in H. injection H as <- <- <-. split; [reflexivity |].
    exists []. rewrite app_nil_r. auto.
  - apply bind_val_inv in H as (stop & w1 & Hc & H). apply (restores_cancelled env) in Hc.
    destruct stop.
    { unfold ret in H. injection H as <- <- <-. split; [exact Hc |].
      exists []. rewrite app_nil_r. repeat split; [intros m' [] | discriminate]. }
    apply bind_val_inv in H as (mv & w2 & Hm & H).
    apply gameMove_played in Hm; [| rewrite Hc; apply Hplay; now left].
    apply bind_val_inv in H as (mate & w3 & H3 & H). apply restores_query in H3.
    apply bind_val_inv in H as (score & w4 & Hs & H).
    assert (Hg4 : w_game w4 = w_game w3).
    { destruct mate.
      - apply bind_val_inv in Hs as (x & u & Hs1 & Hs2).
        apply restores_evaluateTerminalState in Hs1. apply restores_ret in Hs2. congruence.
      - apply bind_val_inv in Hs as (x & u & Hs1 & Hs2).
        apply (negamax_restores lawful) in Hs1. apply restores_ret in Hs2. congruence. }
    apply bind_val_inv in H as (check & w5 & H5 & H). apply restores_query in H5.
    apply bind_val_inv in H as ([] & w6 & Hu & H).
    assert (Hm' : undo (w_game w5) = Ret (w_game w1)) by congruence.
    apply (gameUndo_back _ _ _ _ Hm') in Hu.
    apply bind_val_inv in H as (w7 & w7' & H7 & H).
    unfold getWorld in H7. injection H7 as <- <-.
    apply bind_val_inv in H as (stop & w8 & Hc8 & H). apply (restores_cancelled env) in Hc8.
    destruct stop.
    { unfold ret in H. injection H as <- <- <-. split; [congruence |].
      exists [m]. rewrite map_app. cbn [map k_move].
      repeat split; [| discriminate]. intros m' [<- | []]. now left. }
    apply IH in H as (Hg & searched & Hmap & Hin & Hall).
    + split; [congruence |]. exists (m :: searched).
      rewrite Hmap, map_app, <- app_assoc. cbn [map k_move app].
      repeat split.
      * intros m' [<- | Hm'']; [now left | right; auto].
      * intros Hab. now rewrite Hall.
    + intros m' Hm''. replace (w_game w8) with (w_game w) by congruence.
      apply Hplay. now right.
Qed.

Section Deepening.
Variables (g : game) (legal : list Move).
Hypothesis Hlegal : moves g = Ret legal.
Hypothesis Hsome : legal <> [].

Lemma deepen_spec fuel env perspective evalContext depths :
  forall st (w : World) final w',
  w_game w = g ->
  dp_results st <> [] -> allLegal legal (dp_results st) -> dp_aborted st = false ->
  deepen fuel env perspective evalContext depths st w = (Val final, w') ->
  w_game w' = g
  /\ dp_results final <> [] /\ allLegal legal (dp_results final)
  /\ In (dp_reached final) (dp_reached st :: depths)
  /\ (dp_aborted final = false -> dp_reached final = List.last depths (dp_reached st)).
Proof.
  induction depths as [| depth later IH]; intros st w final w' Hg Hne Hall Hab H;
    cbn [deepen] in H.
  - unfold ret in H. injection H as <- <-. cbn [List.last]. repeat split; auto. now left.
  - apply bind_val_inv in H as (stop & w1 & Hstop & H).
    assert (Hg1 : w_game w1 = g).
    { destruct (shouldStop env).
      - unfold pollStop in Hstop. injection Hstop as _ <-. exact Hg.
      - unfold ret in Hstop. injection Hstop as _ <-. exact Hg. }
    destruct stop.
    { unfold ret in H. injection H as <- <-. cbn [dp_results dp_aborted dp_reached].
      repeat split; auto; [now left | discriminate]. }
    apply bind_val_inv in H as (candidateMoves & w2 & Ho & H).
    pose proof Ho as Hspec. apply orderedMoves_spec in Hspec as (legal' & Hl' & Hperm & _).
    rewrite Hg1, Hlegal in Hl'. injection Hl' as <-.
    apply (orderedMoves_playable lawful) in Ho as [Hg2 Hplay].
    apply bind_val_inv in H as ([iteration aborted] & w3 & Hroot & H).
    apply rootLoop_spec in Hroot as (Hg3 & searched & Hmap & Hin & Hfull);
      [| intros m Hm; rewrite Hg2; apply Hplay; eapply In_take, Hm].
    cbn [map app] in Hmap.
    assert (Hcand : forall m, In m candidateMoves -> In m legal).
    { intros m Hm. apply (Permutation_in _ Hperm) in Hm. apply filter_In in Hm. tauto. }
    destruct iteration as [| first others].
    + unfold ret in H. injection H as <- <-. cbn [dp_results dp_aborted dp_reached].
      rewrite Hab. cbn [orb].
      repeat split; auto; [congruence | now left |].
      intros ->. exfalso. specialize (Hfull eq_refl).
      cbn [map] in Hmap. rewrite <- Hmap in Hfull. symmetry in Hfull.
      assert (Hnil : candidateMoves = []).
      { destruct candidateMoves as [| c cs]; [reflexivity |].
        destruct (4 <=? depth)%Z; cbn in Hfull; discriminate. }
      subst candidateMoves. apply Permutation_nil in Hperm.
      apply Hsome. destruct legal as [| l ls]; [reflexivity |].
      cbn in Hperm. discriminate.
    + set (sorted := sortRanked (first :: others)) in *.
      assert (Hsorted : Permutation sorted (first :: others)) by apply sortRanked_perm.
      assert (Hne' : map (fun entry => (k_move entry, k_raw entry)) sorted <> []).
      { intros Hnil. apply map_eq_nil in Hnil. rewrite Hnil in Hsorted.
        apply Permutation_nil in Hsorted. discriminate. }
      assert (Hall' : allLegal legal (map (fun entry => (k_move entry, k_raw entry)) sorted)).
      { intros e He. apply in_map_iff in He as (entry & <- & He). cbn [fst].
        apply (Permutation_in _ Hsorted) in He.
        apply Hcand. eapply In_take, Hin. rewrite <- Hmap.
        apply in_map_iff. now exists entry. }
      rewrite Hab in H. cbn [orb] in H.
      destruct aborted.
      * unfold ret in H. injection H as <- <-. cbn [dp_results dp_aborted dp_reached].
        repeat split; auto; [congruence | right; now left | discriminate].
      * apply IH in H as (Hg' & Hne'' & Hall'' & Hreach & Hlast);
          cbn [dp_results dp_aborted dp_reached] in *; auto; [| congruence].
        repeat split; auto.
        -- destruct Hreach as [<- | Hreach]; [right; now left | right; now right].
        -- intros Hfin. rewrite (Hlast Hfin). symmetry. apply last_cons.
Qed.

End Deepening.

(** What [analyzeFallback] returns for a position with legal moves. *)
Lemma analyzeFallback_shape fuel (g : game) options clock fallbackTime
    (legal : list Move) (r : FallbackResult) (w' : World) :
  moves g = Ret legal -> legal <> [] ->
  analyzeFallback fuel g options clock fallbackTime = (Val r, w') ->
  let target :=
    requestedDepth options (moveCount (createEvaluationContext g)) (Z.of_nat (length legal)) in
  w_game w' = g
  /\ r_details r <> [] /\ r_best r = head (r_details r)
  /\ (forall d, In d (r_details r) -> In (d_move d) legal)
  /\ (0 <= r_depth r <= target)%Z
  /\ (r_aborted r = false -> r_depth r = target).
Proof.
  intros Hlegal Hsome H target. unfold analyzeFallback, analyzeFallbackBody in H.
  apply bind_val_inv in H as (g0 & w1 & H1 & H).
  unfold getter in H1. cbn [w_game] in H1. injection H1 as <- <-.
  apply bind_val_inv in H as ([] & w2 & H2 & H).
  unfold setMeta in H2. cbn in H2. injection H2 as <-.
  apply bind_val_inv in H as (initialMoves & w3 & Ho & H).
  pose proof Ho as Hspec. apply orderedMoves_spec in Hspec as (legal' & Hl' & Hperm & _).
  cbn [w_game] in Hl'. rewrite Hlegal in Hl'. injection Hl' as <-.
  apply (orderedMoves_playable lawful) in Ho as [Hg3 _]. cbn [w_game] in Hg3.
  assert (Hfilter : List.filter (ranked false) legal = legal).
  { clear. induction legal as [| m l IH]; [reflexivity |]. cbn. now rewrite IH. }
  rewrite Hfilter in Hperm.
  destruct initialMoves as [| m0 ms0] eqn:Hinit.
  { apply Permutation_nil in Hperm. congruence. }
  rewrite <- Hinit in *. clear Hinit m0 ms0.
  apply bind_val_inv in H as (perspective & w4 & H4 & H). apply restores_getter in H4.
  apply bind_val_inv in H as ([] & w5 & H5 & H).
  unfold setTable in H5. injection H5 as <-.
  apply bind_val_inv in H as ([] & w6 & H6 & H).
  unfold setStats in H6. cbn [w_game w_table w_stats w_meta w_ticks w_polls] in H6.
  injection H6 as <-.
  apply bind_val_inv in H as (startTime & w7 & H7 & H).
  unfold readClock in H7. cbn [w_game w_table w_stats w_meta w_ticks w_polls] in H7.
  injection H7 as <- <-.
  apply bind_val_inv in H as (final & w8 & Hd & H).
  assert (Htarget :
    match option_map (fun d => Z.max 1 d) (o_minDepth options) with
    | Some f =>
        Z.max
          match option_map (fun d => Z.max 1 d) (o_maxDepth options) with
          | Some c =>
              Z.min
                match option_map (fun d => Z.max 1 d) (o_depth options) with
                | Some d => d
                | None => chooseFallbackDepth (moveCount (createEvaluationContext g))
                            (Z.of_nat (length initialMoves))
                end c
          | None =>
              match option_map (fun d => Z.max 1 d) (o_depth options) with
              | Some d => d
              | None => chooseFallbackDepth (moveCount (createEvaluationContext g))
                          (Z.of_nat (length initialMoves))
              end
          end f
    | None =>
        match option_map (fun d => Z.max 1 d) (o_maxDepth options) with
        | Some c =>
            Z.min
              match option_map (fun d => Z.max 1 d) (o_depth options) with
              | Some d => d
              | None => chooseFallbackDepth (moveCount (createEvaluationContext g))
                          (Z.of_nat (length initialMoves))
              end c
        | None =>
            match option_map (fun d => Z.max 1 d) (o_depth options) with
            | Some d => d
            | None => chooseFallbackDepth (moveCount (createEvaluationContext g))
                        (Z.of_nat (length initialMoves))
            end
        end
    end = target).
  { unfold target, requestedDepth. rewrite (Permutation_length Hperm).
    destruct (o_depth options), (o_maxDepth options), (o_minDepth options); reflexivity. }
  rewrite Htarget in Hd, H.
  pose proof (requestedDepth_positive options (moveCount (createEvaluationContext g))
                (Z.of_nat (length legal))) as Hpos. fold target in Hpos.
  apply (deepen_spec g legal Hlegal Hsome) in Hd
    as (Hg8 & Hne & Hall & Hreach & Hlast); cbn [dp_results dp_aborted dp_reached] in *;
    [| cbn [w_game]; congruence
     | destruct initialMoves; [apply Permutation_nil in Hperm; congruence | discriminate]
     | intros e He; apply in_map_iff in He as (m & <- & Hm); cbn [fst];
       apply (Permutation_in _ Hperm), Hm
     | reflexivity].
  apply bind_val_inv in H as (finish & w9 & H9 & H).
  unfold readClock in H9. injection H9 as <- <-.
  apply bind_val_inv in H as (rootFen & w10 & H10 & H).
  unfold getter in H10. injection H10 as <- <-.
  apply bind_val_inv in H as (w11 & w11' & H11 & H).
  unfold getWorld in H11. injection H11 as <- <-.
  destruct (detailsOf _ _ _ (dp_results final)) as [detailedResults | e] eqn:Hdet;
    [| discriminate].
  unfold ret in H. injection H as <- <-.
  cbn [w_game r_details r_best r_depth r_aborted].
  apply detailsOf_moves in Hdet.
  repeat split.
  - exact Hg8.
  - intros ->. cbn [map] in Hdet. symmetry in Hdet. apply map_eq_nil in Hdet. auto.
  - intros d Hd. apply (in_map d_move) in Hd. rewrite Hdet in Hd.
    apply in_map_iff in Hd as (e & <- & He). apply Hall, He.
  - destruct Hreach as [<- | Hreach]; [lia | apply depthsTo_range in Hreach; lia].
  - destruct Hreach as [<- | Hreach]; [lia | apply depthsTo_range in Hreach; lia].
  - intros Hab. rewrite (Hlast Hab). apply depthsTo_last. lia.
Qed.

(** The result for a position without legal moves. *)
Lemma analyzeFallback_none fuel (g : game) options clock fallbackTime :
  moves g = Ret [] ->
  fst (analyzeFallback fuel g options clock fallbackTime) = Val emptyResult.
Proof.
  intros H. unfold analyzeFallback, analyzeFallbackBody.
  unfold bind at 1. unfold getter at 1.
  unfold bind at 1. unfold setMeta at 1.
  match goal with
  | |- context [orderedMoves ?c ?p ?y ?k] =>
      destruct (orderedMoves_none c p y k
                  {| w_game := g; w_table := ∅;
                     w_stats := {| nodes := 0; timeouts := Some 0%Z |};
                     w_meta := Some createSearchMeta; w_ticks := 0; w_polls := 0 |} H)
        as (w' & Ho & _)
  end.
  cbn [w_game w_table w_stats w_meta w_ticks w_polls] in *.
  rewrite (bind_val _ _ _ _ _ Ho). reflexivity.
Qed.



End Fallback.

(** ** The one-ply lookahead of the move orderer *)

Section LookaheadBounds.
#[local] Existing Instance QNum.
Context {L : ChessLib}.
Local Open Scope Q_scope.

Lemma pieceValues_nonneg t : 0 <= pieceValues t.
Proof. destruct t; cbn; discriminate. Qed.

Lemma ltb_lt (a b : Q) : (a <? b)%num = true -> a < b.
Proof.
  cbn. intros H. apply Qnot_le_lt. intros Hle. apply Qle_bool_iff in Hle.
  rewrite Hle in H. discriminate.
Qed.

Lemma add_nonneg (a b : Q) : 0 <= a -> 0 <= b -> 0 <= (a + b)%num.
Proof. cbn. lra. Qed.

(** X12.  The lookahead never rewards a move beyond the check bonus:
    the penalty [evaluateMoveConsequences] returns is not negative, and
    the bonus is 0.6 when the move gives check and 0 otherwise. *)
Theorem lookahead_penalty_not_negative (m : Move) (w w' : World) (penalty checkBonus : Q) :
  evaluateMoveConsequences m w = (Val (penalty, checkBonus), w') ->
  0 <= penalty /\ (checkBonus == 0 \/ checkBonus == 6 # 10).
Proof.
  intros H. unfold evaluateMoveConsequences in H.
  apply bind_val_inv in H as (mv & w1 & _ & H).
  unfold tryFinally in H.
  destruct (lookahead m w1) as [r w2] eqn:Hl.
  destruct (gameUndo w2) as [[[] | e |] w3]; try discriminate.
  injection H as -> _.
  unfold lookahead in Hl.
  apply bind_val_inv in Hl as (inCheck & u1 & _ & Hl).
  apply bind_val_inv in Hl as (opponentMoves & u2 & _ & Hl).
  destruct (attackersOf (m_to m) opponentMoves) as [minAttacker pawnThreat].
  apply bind_val_inv in Hl as (g & u3 & _ & Hl).
  unfold ret in Hl. injection Hl as <- <- _.
  split.
  - assert (Hinner : 0 <=
      match minAttacker with
      | None => nzero
      | Some attackValue =>
          let defenders := countDefenders g (m_color m) (m_to m) in
          let movedValue := pieceValues (m_piece m) in
          let penalty :=
            if (attackValue <? movedValue - lit 5 100)%num then
              let diff := (movedValue - attackValue)%num in
              let modifier := if (0 <? defenders)%Z then lit 55 100 else lit 115 100 in
              (nzero + diff * modifier)%num
            else nzero in
          if pawnThreat && (lit 15 10 <? movedValue)%num
          then (penalty + (if (0 <? defenders)%Z then lit 25 100 else lit 6 10))%num
          else penalty
      end).
    { destruct minAttacker as [attackValue |]; [| discriminate]. cbv zeta.
      set (movedValue := pieceValues (m_piece m)).
      set (defenders := countDefenders g (m_color m) (m_to m)).
      assert (Hfirst : 0 <=
        (if (attackValue <? movedValue - lit 5 100)%num
         then (nzero + (movedValue - attackValue) *
                 (if (0 <? defenders)%Z then lit 55 100 else lit 115 100))%num
         else nzero)).
      { destruct (attackValue <? movedValue - lit 5 100)%num eqn:E; [| discriminate].
        apply ltb_lt in E. cbn [num lit nadd nsub nmul nzero QNum] in *.
        destruct (0 <? defenders)%Z; unfold nzero; cbn [lit QNum]; nra. }
      destruct (pawnThreat && (lit 15 10 <? movedValue)%num); [| exact Hfirst].
      apply add_nonneg; [exact Hfirst |]. destruct (0 <? defenders)%Z; discriminate. }
    destruct (findKingSquare g (m_color m)) as [kingSquare |]; [| exact Hinner].
    destruct (existsb _ opponentMoves); [| exact Hinner].
    apply add_nonneg; [exact Hinner | discriminate].
  - destruct inCheck; [right | left]; reflexivity.
Qed.

End LookaheadBounds.

(** ** Reading the transposition table *)

Section TableHits.
#[local] Existing Instance QNum.
Context {L : ChessLib}.

(** What allows [negamax] to answer from a stored entry: the entry is
    exact, or it is a lower bound not below [beta], or an upper bound not
    above [alpha]. *)
Lemma probeTable_hit (entry : TTEntry) depth (alpha beta : Ext) :
  (depth <= e_depth entry)%Z ->
  match e_flag entry with
  | Exact => True
  | Lower => eleb beta (e_value entry) = true
  | Upper => eleb (e_value entry) alpha = true
  end ->
  snd (probeTable (Some entry) false depth alpha beta) = Some (e_value entry).
Proof.
  intros Hd Hflag. unfold probeTable. cbn [negb andb].
  replace (depth <=? e_depth entry)%Z with true by lia.
  destruct (e_flag entry); cbn [snd]; [reflexivity | |].
  - rewrite eltb_eleb. destruct (eleb (e_value entry) alpha) eqn:E; cbn [negb].
    + now rewrite (eleb_trans _ _ _ Hflag E).
    + now rewrite Hflag.
  - rewrite eltb_eleb. destruct (eleb beta (e_value entry)) eqn:E; cbn [negb].
    + now rewrite (eleb_trans _ _ _ E Hflag).
    + now rewrite Hflag.
Qed.

(** X13.  A call of [negamax] that is not cancelled, on a position that
    is not over and has a stored entry at least as deep as the call,
    answers with the stored value when the entry is exact, a lower bound
    not below [beta] or an upper bound not above [alpha].  It counts one
    node and changes nothing else: no move is applied and nothing is
    written to the table or the search tables. *)
Theorem table_hit_returns_stored_value fuel env depth (alpha beta : Ext) perspective plyCount
    context (w w1 : World) (entry : TTEntry) :
  cancelled env w = (Val false, w1) ->
  game_over (w_game w) = Ret false ->
  w_table w !! fen (w_game w) = Some entry ->
  (depth <= e_depth entry)%Z ->
  match e_flag entry with
  | Exact => True
  | Lower => eleb beta (e_value entry) = true
  | Upper => eleb (e_value entry) alpha = true
  end ->
  exists w',
    negamax (S fuel) env depth alpha beta perspective plyCount context w
      = (Val (e_value entry), w')
    /\ w_game w' = w_game w /\ w_table w' = w_table w /\ w_meta w' = w_meta w
    /\ nodes (w_stats w') = (nodes (w_stats w) + 1)%Z.
Proof.
  intros Hc Hover Hcached Hd Hflag.
  pose proof (cancelled_frame _ _ _ _ Hc) as (Hg & Ht & Hs & Hm).
  pose proof (probeTable_hit entry depth alpha beta Hd Hflag) as Hprobe.
  cbn [negamax]. rewrite (bind_val _ _ _ _ _ Hc).
  match goal with
  | |- context [bind countNode ?k w1] =>
      rewrite (bind_val countNode k w1 tt
                 {| w_game := w_game w1; w_table := w_table w1;
                    w_stats := {| nodes := (nodes (w_stats w1) + 1)%Z;
                                  timeouts := timeouts (w_stats w1) |};
                    w_meta := w_meta w1; w_ticks := w_ticks w1; w_polls := w_polls w1 |}
                 eq_refl)
  end.
  match goal with
  | |- context [bind (query game_over) ?k ?u] =>
      rewrite (bind_val (query game_over) k u false u)
        by (unfold query; cbn [w_game]; now rewrite Hg, Hover)
  end.
  match goal with
  | |- context [bind (getter fen) ?k ?u] =>
      rewrite (bind_val (getter fen) k u (fen (w_game w)) u)
        by (unfold getter; cbn [w_game]; now rewrite Hg)
  end.
  match goal with
  | |- context [bind getWorld ?k ?u] => rewrite (bind_val getWorld k u u u eq_refl)
  end.
  cbn [w_table]. rewrite Ht, Hcached.
  destruct (probeTable (Some entry) false depth alpha beta) as [[alpha' beta'] hit].
  cbn [snd] in Hprobe. subst hit. unfold ret.
  eexists. split; [reflexivity |]. cbn [w_game w_table w_meta w_stats nodes].
  rewrite Hs. auto.
Qed.

End TableHits.

(** ** The order of the moves *)

Section BestFirst.
#[local] Existing Instance QNum.
Context {L : ChessLib}.
Local Open Scope Q_scope.

Lemma insertDesc_descending entry sorted :
  descendingBy snd sorted -> descendingBy snd (insertDesc entry sorted).
Proof.
  induction sorted as [| y r IH]; intros Hs; cbn [insertDesc].
  - cbn. split; [intros b [] | exact I].
  - destruct Hs as [Hy Hr].
    match goal with
    | |- context [if ?c then _ else _] => destruct c eqn:E
    end.
    + apply ltb_lt in E.
      change (descendingBy snd (entry :: y :: r))
        with ((forall b, In b (y :: r) -> snd b <= snd entry)
              /\ (forall b, In b r -> snd b <= snd y) /\ descendingBy snd r).
      split; [| split; [exact Hy | exact Hr]].
      intros b [<- | Hb]; [now apply Qlt_le_weak |].
      apply Qle_trans with (snd y); [now apply Hy | now apply Qlt_le_weak].
    + change (descendingBy snd (y :: insertDesc entry r))
        with ((forall b, In b (insertDesc entry r) -> snd b <= snd y)
              /\ descendingBy snd (insertDesc entry r)).
      split; [| now apply IH].
      intros b Hb. apply (Permutation_in _ (insertDesc_perm entry r)) in Hb.
      destruct Hb as [<- | Hb]; [| now apply Hy].
      cbn in E. apply negb_false_iff in E. now apply Qle_bool_iff.
Qed.

Lemma sortDesc_descending_from scored : forall acc : list (Move * num),
  descendingBy snd acc ->
  descendingBy snd (fold_left (fun sorted entry => insertDesc entry sorted) scored acc).
Proof.
  induction scored as [| x r IH]; intros acc H; cbn [fold_left]; [exact H |].
  apply IH, insertDesc_descending, H.
Qed.

Lemma sortDesc_descending scored : descendingBy snd (sortDesc scored).
Proof. apply sortDesc_descending_from. exact I. Qed.

Lemma descendingBy_map {A B} (f : A -> B) (weight : A -> Q) (weight' : B -> Q) l :
  (forall a, In a l -> weight' (f a) = weight a) ->
  descendingBy weight l -> descendingBy weight' (map f l).
Proof.
  induction l as [| a r IH]; intros Hw Hs; [exact I |].
  destruct Hs as [Ha Hr]. cbn [map descendingBy]. split.
  - intros b Hb. apply in_map_iff in Hb as (x & <- & Hx).
    rewrite (Hw a), (Hw x); [now apply Ha | now right | now left].
  - apply IH; [| exact Hr]. intros x Hx. apply Hw. now right.
Qed.

Lemma NoDup_map_filter {A B} (f : A -> B) (p : A -> bool) l :
  NoDup (map f l) -> NoDup (map f (List.filter p l)).
Proof.
  induction l as [| a r IH]; intros H; [exact H |].
  cbn [map] in H. apply NoDup_cons in H as [Ha Hr]. cbn [List.filter].
  destruct (p a); [| now apply IH].
  cbn [map]. apply NoDup_cons. split; [| now apply IH].
  intros Hin. apply Ha. apply list_elem_of_In in Hin. apply list_elem_of_In.
  apply in_map_iff in Hin as (x & Hx & Hin). apply filter_In in Hin as [Hin _].
  apply in_map_iff. now exists x.
Qed.

(** The scores stored one after the other. *)
Lemma stored_scores (added : list (Move * num)) : forall (mp : gmap string num),
  NoDup (map (fun e => moveKey (fst e)) added) ->
  (forall e, In e added ->
     fold_left (fun mp e => <[moveKey (fst e) := snd e]> mp) added mp !! moveKey (fst e)
     = Some (snd e))
  /\ (forall key, ~ In key (map (fun e => moveKey (fst e)) added) ->
       fold_left (fun mp e => <[moveKey (fst e) := snd e]> mp) added mp !! key = mp !! key).
Proof.
  induction added as [| x r IH]; intros mp Hnd; cbn [fold_left].
  - split; [intros e [] | reflexivity].
  - cbn [map] in Hnd. apply NoDup_cons in Hnd as [Hx Hr].
    destruct (IH (<[moveKey (fst x) := snd x]> mp) Hr) as [Hin Hout]. split.
    + intros e [<- | He]; [| now apply Hin].
      rewrite Hout.
      * apply lookup_insert_eq.
      * intros Hk. apply Hx. now apply list_elem_of_In.
    + intros key Hk. rewrite Hout; [| intros Hk'; apply Hk; now right].
      apply lookup_insert_ne. intros E. apply Hk. now left.
Qed.

Lemma movePriority_meta m context preferenceMap ply (w w' : World) v :
  movePriority m context preferenceMap ply w = (Val v, w') -> w_meta w' = w_meta w.
Proof.
  intros H. unfold movePriority in H.
  apply bind_val_inv in H as (w0 & w0' & H0 & H). unfold getWorld in H0. injection H0 as <- <-.
  apply bind_val_inv in H as ([penalty checkBonus] & w1 & Hc & H).
  unfold ret in H. injection H as _ <-.
  unfold evaluateMoveConsequences in Hc.
  apply bind_val_inv in Hc as (mv & w2 & Hm & Hc).
  assert (H2 : w_meta w2 = w_meta w).
  { unfold gameMove in Hm. destruct (move (w_game w) (moveArgOf m)) as [[[a g'] |] | e];
      try discriminate; now injection Hm as _ <-. }
  unfold tryFinally in Hc.
  pose proof (lookahead_reads_only m w2) as Hl.
  destruct (lookahead m w2) as [r w3]. cbn [snd] in Hl. subst w3.
  unfold gameUndo in Hc. destruct (undo (w_game w2)); [| discriminate].
  now injection Hc as _ <-.
Qed.

Lemma scoring_loop context preferenceMap ply captureOnly ms :
  forall acc (w w' : World) scored sm mp,
  w_meta w = Some sm -> orderingScores sm !! ply = Some mp ->
  foldM
    (fun scored m =>
       if captureOnly && negb (isForcingMove m) then ret scored
       else
         bind (movePriority m context preferenceMap ply) (fun value =>
           bind (modifyMeta (fun sm => storeOrderingScore sm ply m value)) (fun _ =>
             ret (scored ++ [(m, value)])%list)))
    ms acc w = (Val scored, w') ->
  exists sm' added,
    w_meta w' = Some sm'
    /\ scored = (acc ++ added)%list
    /\ map fst added = List.filter (ranked captureOnly) ms
    /\ orderingScores sm' !! ply
       = Some (fold_left (fun mp e => <[moveKey (fst e) := snd e]> mp) added mp).
Proof.
  induction ms as [| m rest IH]; intros acc w w' scored sm mp Hmeta Hmp H; cbn [foldM] in H.
  - unfold ret in H. injection H as <- <-. exists sm, [].
    rewrite app_nil_r. cbn [fold_left map List.filter]. auto.
  - apply bind_val_inv in H as (acc1 & w1 & Hstep & Hrest).
    cbn [List.filter]. rewrite (ranked_skips captureOnly m).
    destruct (captureOnly && negb (isForcingMove m)); cbn [negb].
    + unfold ret in Hstep. injection Hstep as <- <-.
      eapply IH; eassumption.
    + apply bind_val_inv in Hstep as (value & w2 & Hp & Hs).
      apply movePriority_meta in Hp.
      apply bind_val_inv in Hs as ([] & w3 & Hm & Hr).
      unfold ret in Hr. injection Hr as <- <-.
      unfold modifyMeta, bind, getWorld, setMeta in Hm. injection Hm as <-.
      rewrite Hp, Hmeta in Hrest. cbn [storeOrderingScore] in Hrest.
      rewrite Hmp in Hrest. cbn [default from_option id] in Hrest.
      eapply IH in Hrest as (sm' & added & Hmeta' & Hscored & Hmap & Hstored);
        [| reflexivity | cbn [orderingScores]; apply lookup_insert_eq].
      exists sm', ((m, value) :: added). repeat split.
      * exact Hmeta'.
      * rewrite Hscored, <- app_assoc. reflexivity.
      * cbn [map fst]. now rewrite Hmap.
      * exact Hstored.
Qed.

(** X14.  [orderedMoves] returns the moves best first by the scores it
    stores: when the legal moves have distinct keys and search tables
    are in use, [lookupOrderingScore] gives for every returned move a
    score at least as high as for each move after it, and 0 for every
    move that was not ranked. *)
Theorem ordered_moves_best_first context preferenceMap ply captureOnly (w w' : World)
    (sm : SearchMeta) (legal sorted : list Move) :
  moves (w_game w) = Ret legal ->
  NoDup (map moveKey legal) ->
  w_meta w = Some sm ->
  orderedMoves context preferenceMap ply captureOnly w = (Val sorted, w') ->
  descendingBy (lookupOrderingScore (w_meta w') ply) sorted
  /\ forall m, ~ In (moveKey m) (map moveKey sorted) ->
               lookupOrderingScore (w_meta w') ply m = 0.
Proof.
  intros Hlegal Hnd Hmeta H. unfold orderedMoves in H.
  apply bind_val_inv in H as (ms & w1 & Hq & H).
  unfold query in Hq. rewrite Hlegal in Hq. injection Hq as <- <-.
  apply bind_val_inv in H as ([] & w2 & Hm & H).
  unfold modifyMeta, bind, getWorld, setMeta in Hm. injection Hm as <-.
  apply bind_val_inv in H as (scored & w3 & Hloop & H).
  unfold ret in H. injection H as <- <-.
  rewrite Hmeta in Hloop. cbn [orderingMapFor] in Hloop.
  eapply scoring_loop in Hloop as (sm' & added & Hmeta' & Hscored & Hmap & Hstored);
    [| reflexivity | cbn [orderingScores]; apply lookup_insert_eq].
  cbn [app] in Hscored. subst added.
  assert (Hkeys : map (fun e => moveKey (fst e)) scored = map moveKey (map fst scored)).
  { now rewrite map_map. }
  assert (Hnd' : NoDup (map (fun e : Move * num => moveKey (fst e)) scored)).
  { rewrite Hkeys, Hmap. now apply NoDup_map_filter. }
  destruct (stored_scores scored ∅ Hnd') as [Hin Hout].
  rewrite Hmeta'.
  assert (Hlook : forall m,
            lookupOrderingScore (Some sm') ply m
            = default nzero
                (fold_left (fun (mp : gmap string num) (e : Move * num) =>
                              <[moveKey (fst e) := snd e]> mp) scored ∅
                 !! moveKey m)).
  { intros m. unfold lookupOrderingScore. now rewrite Hstored. }
  split.
  - apply (descendingBy_map fst snd); [| apply sortDesc_descending].
    intros e He. apply (Permutation_in _ (sortDesc_perm scored)) in He.
    rewrite Hlook. exact (f_equal (default (@nzero QNum)) (Hin e He)).
  - intros m Hm. rewrite Hlook, Hout; [reflexivity |].
    intros Hk. apply Hm. rewrite Hkeys in Hk.
    apply in_map_iff in Hk as (x & Hx & Hk). apply in_map_iff. exists x. split; [exact Hx |].
    apply (Permutation_in _ (Permutation_sym (Permutation_map fst (sortDesc_perm scored)))), Hk.
Qed.

End BestFirst.

(** ** The handlers of an engine session *)

Section Handlers.

(** What handler [h] hears of lines added to the record. *)
Lemma heardBy_app h (e : Engine) extra :
  map snd (List.filter (fun x : nat * string => (fst x =? h)%nat) (en_heard e ++ extra))
  = (heardBy h e ++ map snd (List.filter (fun x : nat * string => (fst x =? h)%nat) extra))%list.
Proof. unfold heardBy. now rewrite List.filter_app, map_app. Qed.

Lemma called_once h line (l : list nat) :
  map snd (List.filter (fun x : nat * string => (fst x =? h)%nat) (map (fun x => (x, line)) l))
  = repeat line (count_occ Nat.eq_dec l h).
Proof.
  induction l as [| x l IH]; [reflexivity |]. cbn [map List.filter fst count_occ].
  destruct (Nat.eq_dec x h) as [-> | Hne].
  - rewrite Nat.eqb_refl. cbn [map snd repeat]. now rewrite IH.
  - apply Nat.eqb_neq in Hne. now rewrite Hne.
Qed.

Lemma count_occ_filter_other h j (l : list nat) :
  j <> h ->
  count_occ Nat.eq_dec (List.filter (fun x => negb (x =? j)%nat) l) h = count_occ Nat.eq_dec l h.
Proof.
  intros Hne. induction l as [| x l IH]; [reflexivity |]. cbn [List.filter count_occ].
  destruct (Nat.eqb_spec x j) as [-> | Hx]; cbn [negb count_occ].
  - destruct (Nat.eq_dec j h); [congruence | exact IH].
  - destruct (Nat.eq_dec x h); now rewrite IH.
Qed.

Lemma count_occ_filter_self h (l : list nat) :
  count_occ Nat.eq_dec (List.filter (fun x => negb (x =? h)%nat) l) h = 0%nat.
Proof.
  induction l as [| x l IH]; [reflexivity |]. cbn [List.filter].
  destruct (Nat.eqb_spec x h) as [-> | Hx]; cbn [negb count_occ]; [exact IH |].
  destruct (Nat.eq_dec x h); [congruence | exact IH].
Qed.

Lemma registered_In h (l : list nat) : existsb (Nat.eqb h) l = true <-> In h l.
Proof.
  rewrite existsb_exists. split.
  - intros (x & Hx & Heq). apply Nat.eqb_eq in Heq. now subst.
  - intros Hin. exists h. split; [exact Hin | apply Nat.eqb_refl].
Qed.

Lemma NoDup_filter_list {A} (p : A -> bool) (l : list A) : NoDup l -> NoDup (List.filter p l).
Proof.
  induction l as [| a r IH]; intros H; [exact H |].
  apply NoDup_cons in H as [Ha Hr]. cbn [List.filter].
  destruct (p a); [| now apply IH].
  apply NoDup_cons. split; [| now apply IH].
  intros Hin. apply Ha. apply list_elem_of_In in Hin. apply list_elem_of_In.
  now apply filter_In in Hin as [Hin _].
Qed.

Lemma count_registered h (l : list nat) :
  NoDup l -> count_occ Nat.eq_dec l h = if existsb (Nat.eqb h) l then 1%nat else 0%nat.
Proof.
  induction l as [| x l IH]; [reflexivity |]. intros Hnd.
  apply NoDup_cons in Hnd as [Hx Hnd]. cbn [count_occ existsb].
  destruct (Nat.eq_dec x h) as [-> | Hne].
  - rewrite Nat.eqb_refl. cbn [orb]. f_equal. apply count_occ_not_In.
    intros Hin. apply Hx. now apply list_elem_of_In.
  - replace (h =? x)%nat with false by (symmetry; apply Nat.eqb_neq; congruence).
    cbn [orb]. now apply IH.
Qed.

Lemma onMessage_distinct h (e : Engine) :
  NoDup (en_handlers e) -> NoDup (en_handlers (onMessage h e)).
Proof.
  intros Hnd. unfold onMessage. fields.
  destruct (existsb (Nat.eqb h) (en_handlers e)) eqn:E; [exact Hnd |].
  apply NoDup_app. repeat split; [exact Hnd | | apply NoDup_singleton].
  intros x Hx Hx'. apply list_elem_of_In in Hx, Hx'. destruct Hx' as [<- | []].
  apply registered_In in Hx. congruence.
Qed.

(** One step of a session, seen from handler [h], registered [n] times:
    the set of handlers stays a set, and while the step neither adds nor
    removes [h], the handler hears what is posted [n] times. *)
Lemma perform_heard h (n : nat) (e : Engine) (s : Step) :
  NoDup (en_handlers e) ->
  count_occ Nat.eq_dec (en_handlers e) h = n ->
  (n = 0%nat -> s <> AddsHandler h) -> (n <> 0%nat -> s <> RemovesHandler h) ->
  NoDup (en_handlers (perform e s))
  /\ count_occ Nat.eq_dec (en_handlers (perform e s)) h = n
  /\ heardBy h (perform e s)
     = (heardBy h e ++ flat_map (fun line => repeat line n) (postedLines [s]))%list.
Proof.
  intros Hnd Hn Hadd Hrem.
  destruct s as [[p | j] | pr t | c | j | j]; cbn [perform happen postedLines flat_map].
  - remember (payloadLine p) as text eqn:Hp. destruct text as [| c line].
    + rewrite handleMessage_empty by now symmetry. cbn [app flat_map]. now rewrite app_nil_r.
    + rewrite handleMessage_text by (rewrite <- Hp; discriminate). cbv zeta. rewrite <- Hp.
      destruct (offers_rest (String c line) (rev (en_waiters e)) e) as (Hx & Hh & _ & Hd).
      unfold heardBy at 1. fields. rewrite Hh, Hd. repeat split; [exact Hnd | exact Hn |].
      rewrite List.filter_app, map_app, called_once, Hn.
      cbn [app flat_map]. now rewrite app_nil_r.
  - unfold timerFires. destruct (existsb _ (en_timers e)); fields;
      cbn [app flat_map]; rewrite app_nil_r; auto.
  - unfold waitFor. fields. cbn [app flat_map]. rewrite app_nil_r. repeat split; auto.
  - unfold send. fields. cbn [app flat_map]. rewrite app_nil_r. auto.
  - unfold onMessage. fields. cbn [app flat_map]. rewrite app_nil_r.
    destruct (existsb (Nat.eqb j) (en_handlers e)) eqn:E; [auto |].
    assert (Hout : ~ In j (en_handlers e)).
    { intros Hin. apply registered_In in Hin. congruence. }
    repeat split.
    + pose proof (onMessage_distinct j e Hnd) as Hd. unfold onMessage in Hd.
      cbn [en_handlers] in Hd. now rewrite E in Hd.
    + rewrite count_occ_app. cbn [count_occ].
      destruct (Nat.eq_dec j h) as [-> | Hj]; [| lia].
      exfalso. destruct n as [| n]; [now apply Hadd |].
      pose proof (proj1 (count_occ_not_In Nat.eq_dec _ _) Hout) as Hc. lia.
  - unfold removeListener. fields. cbn [app flat_map]. rewrite app_nil_r.
    repeat split; [now apply NoDup_filter_list | ].
    destruct (Nat.eq_dec j h) as [-> | Hj].
    + rewrite count_occ_filter_self. destruct n as [| n]; [reflexivity |].
      exfalso. now apply Hrem.
    + now rewrite count_occ_filter_other.
Qed.

Lemma postedLines_cons s steps : postedLines (s :: steps) = (postedLines [s] ++ postedLines steps)%list.
Proof. unfold postedLines. cbn [flat_map]. now rewrite app_nil_r. Qed.

Lemma performAll_heard h (n : nat) steps : forall e : Engine,
  NoDup (en_handlers e) ->
  count_occ Nat.eq_dec (en_handlers e) h = n ->
  (n = 0%nat -> ~ In (AddsHandler h) steps) -> (n <> 0%nat -> ~ In (RemovesHandler h) steps) ->
  NoDup (en_handlers (performAll e steps))
  /\ count_occ Nat.eq_dec (en_handlers (performAll e steps)) h = n
  /\ heardBy h (performAll e steps)
     = (heardBy h e ++ flat_map (fun line => repeat line n) (postedLines steps))%list.
Proof.
  induction steps as [| s steps IH]; intros e Hnd Hn Hadd Hrem; cbn [performAll fold_left].
  - cbn. now rewrite app_nil_r.
  - destruct (perform_heard h n e s Hnd Hn) as (Hnd1 & Hn1 & Hh1).
    { intros Hz ->. apply (Hadd Hz). now left. }
    { intros Hz ->. apply (Hrem Hz). now left. }
    destruct (IH (perform e s) Hnd1 Hn1) as (Hnd2 & Hn2 & Hh2).
    { intros Hz Hin. apply (Hadd Hz). now right. }
    { intros Hz Hin. apply (Hrem Hz). now right. }
    repeat split; [exact Hnd2 | exact Hn2 |].
    unfold performAll in Hh2. rewrite Hh2, Hh1, (postedLines_cons s steps), flat_map_app, <- app_assoc.
    reflexivity.
Qed.

Lemma flat_map_once {A} (l : list A) : flat_map (fun x => repeat x 1) l = l.
Proof.
  induction l as [| x l IH]; [reflexivity |].
  change (x :: flat_map (fun x => repeat x 1) l = x :: l). now f_equal.
Qed.

Lemma flat_map_never {A} (l : list A) : flat_map (fun x => repeat x 0) l = [].
Proof. induction l as [| x l IH]; [reflexivity | exact IH]. Qed.

(** X15.  A handler registered with [onMessage] is called with every
    line the worker posts from then on, once each and in the order of
    arrival, until a function [onMessage] returned for it is called,
    also when it was registered before or is registered again
    meanwhile: the handlers are a set.  Messages without text do not
    reach it, and after its removal it is not called again unless it is
    registered anew. *)
Theorem handler_hears_lines_until_removed (e : Engine) (h : nat) (during later : list Step) :
  NoDup (en_handlers e) ->
  ~ In (RemovesHandler h) during ->
  ~ In (AddsHandler h) later ->
  let e1 := performAll (onMessage h e) during in
  let e2 := performAll (removeListener h e1) later in
  heardBy h e1 = (heardBy h e ++ postedLines during)%list
  /\ heardBy h e2 = heardBy h e1
  /\ NoDup (en_handlers e2).
Proof.
  intros Hnd Hkeep Hgone e1 e2.
  pose proof (onMessage_distinct h e Hnd) as Hnd0.
  assert (Hone : count_occ Nat.eq_dec (en_handlers (onMessage h e)) h = 1%nat).
  { rewrite (count_registered h _ Hnd0).
    replace (existsb (Nat.eqb h) (en_handlers (onMessage h e))) with true; [reflexivity |].
    symmetry. apply registered_In. unfold onMessage. fields.
    destruct (existsb (Nat.eqb h) (en_handlers e)) eqn:E; [now apply registered_In |].
    apply in_or_app. right. now left. }
  destruct (performAll_heard h 1 during (onMessage h e) Hnd0 Hone) as (Hnd1 & Hn1 & Hh1).
  { discriminate. }
  { intros _. exact Hkeep. }
  fold e1 in Hnd1, Hn1, Hh1.
  destruct (performAll_heard h 0 later (removeListener h e1)) as (Hnd2 & _ & Hh2).
  { unfold removeListener. fields. now apply NoDup_filter_list. }
  { unfold removeListener. fields. apply count_occ_filter_self. }
  { intros _. exact Hgone. }
  { congruence. }
  fold e2 in Hnd2, Hh2.
  split; [| split; [| exact Hnd2]].
  - rewrite Hh1, flat_map_once. reflexivity.
  - rewrite Hh2, flat_map_never, app_nil_r. reflexivity.
Qed.

End Handlers.

(** ** Rendering a principal variation *)

Section PvSanFacts.
Context {L : ChessLib}.

Lemma pvSanLoop_length pvMoves : forall chess sanMoves,
  pvSanLoop chess pvMoves = Ret sanMoves -> (length sanMoves <= length pvMoves)%nat.
Proof.
  induction pvMoves as [| uci rest IH]; intros chess sanMoves H; cbn [pvSanLoop] in H.
  - injection H as <-. reflexivity.
  - cbv zeta in H.
    destruct (move chess _) as [[[mv chess'] |] | e]; [| injection H as <-; cbn; lia | discriminate].
    destruct (pvSanLoop chess' rest) as [l | e] eqn:E; [| discriminate].
    injection H as <-. apply IH in E. cbn [length]. lia.
Qed.

(** X16.  [pvToSanSequence] never returns more entries than it was
    given.  Unless it falls back to the moves as they came, its first
    entry is what [uciToSan] answers for the first move, and when it
    returns nothing [uciToSan] answers that move with the move itself. *)
Theorem pv_san_sequence_agrees_with_uciToSan (fenText uci : string) (rest : list string) :
  uci <> "" ->
  (length (pvToSanSequence fenText (uci :: rest)) <= length (uci :: rest))%nat
  /\ (pvToSanSequence fenText (uci :: rest) = uci :: rest
      \/ (pvToSanSequence fenText (uci :: rest) = []
          /\ uciToSan fenText (Some uci) = Ret (Some uci))
      \/ exists san tail,
           pvToSanSequence fenText (uci :: rest) = san :: tail
           /\ uciToSan fenText (Some uci) = Ret (Some san)).
Proof.
  intros Hne. destruct uci as [| c r]; [congruence |]. split.
  - unfold pvToSanSequence.
    destruct (createChessInstance (Some fenText)) as [chess | e]; [| reflexivity].
    destruct (pvSanLoop chess (String c r :: rest)) as [l | e] eqn:E; [| reflexivity].
    now apply pvSanLoop_length in E.
  - unfold pvToSanSequence, uciToSan, tryCatch.
    destruct (createChessInstance (Some fenText)) as [chess | e]; [| now left].
    cbn [pvSanLoop]. cbv zeta.
    match goal with
    | |- context [move chess ?a] => destruct (move chess a) as [[[mv chess'] |] | e]
    end.
    + destruct (pvSanLoop chess' rest) as [l | e]; [| now left].
      right. right. exists (m_san mv), l. split; reflexivity.
    + right. left. split; reflexivity.
    + now left.
Qed.

End PvSanFacts.

(** ** The adapter when the engine answers *)

Section AdapterSuccess.
Context {L : ChessLib}.
Variable collect : string -> list string -> list Suggestion.

Lemma uciToSan_some fenText uci :
  uci <> "" -> exists san, uciToSan fenText (Some uci) = Ret (Some san).
Proof.
  intros Hne. destruct uci as [| c r]; [congruence |].
  unfold uciToSan, tryCatch.
  destruct (createChessInstance (Some fenText)) as [chess | e]; [| eauto].
  match goal with
  | |- context [move chess ?a] => destruct (move chess a) as [[[mv g'] |] | e]
  end; eauto.
Qed.

(** A handler that is not registered hears nothing of what happens. *)
Lemma unregistered_hears_nothing h evs : forall e,
  ~ In h (en_handlers e) ->
  heardBy h (performAll e (map Occurs evs)) = heardBy h e
  /\ ~ In h (en_handlers (performAll e (map Occurs evs))).
Proof.
  induction evs as [| ev evs IH]; intros e Hout; cbn [map performAll fold_left]; [auto |].
  assert (Hstep : heardBy h (happen ev e) = heardBy h e /\ ~ In h (en_handlers (happen ev e))).
  { destruct ev as [p | j]; cbn [happen].
    - destruct (String.eqb_spec (payloadLine p) "") as [He | Hne].
      { rewrite handleMessage_empty by exact He. auto. }
      rewrite handleMessage_text by exact Hne. cbv zeta.
      destruct (offers_rest (payloadLine p) (rev (en_waiters e)) e) as (_ & Hh & _ & Hd).
      unfold heardBy at 1. fields. rewrite Hh, Hd. split; [| exact Hout].
      rewrite List.filter_app, map_app.
      replace (List.filter (fun x : nat * string => (fst x =? h)%nat)
                 (map (fun h0 => (h0, payloadLine p)) (en_handlers e))) with (@nil (nat * string)).
      + now rewrite app_nil_r.
      + symmetry. clear -Hout. induction (en_handlers e) as [| x l IHl]; [reflexivity |].
        cbn [map List.filter fst]. destruct (Nat.eqb_spec x h) as [-> | Hx].
        * exfalso. apply Hout. now left.
        * apply IHl. intros Hin. apply Hout. now right.
    - unfold timerFires. destruct (existsb _ (en_timers e)); auto. }
  destruct Hstep as [Hh Ho]. destruct (IH (happen ev e) Ho) as [H1 H2].
  cbn [perform]. unfold performAll in *. rewrite H1, Hh. auto.
Qed.

Lemma idsBelowCounter_events evs : forall e,
  idsBelowCounter e -> idsBelowCounter (performAll e (map Occurs evs)).
Proof.
  induction evs as [| ev evs IH]; intros e He; cbn [map performAll fold_left]; [exact He |].
  apply IH. now apply (idsBelowCounter_perform e (Occurs ev)).
Qed.

(** X17.  When a [bestmove] line ends the wait, [analyzeWithStockfish]
    posts [stop], removes its info handler, posts [isready] and waits
    for [readyok]; nothing else is posted.  Whether [readyok] arrives or
    that wait times out, it then returns a result with the depth asked
    for and the lines its handler heard up to the [bestmove] line; the
    best move is the second word of that line with the SAN [uciToSan]
    gives for it, and there is none when the word is missing or
    [(none)]. *)
Theorem bestmove_reply_is_reported (sourceUrl fenText : string) (desiredDepth : Z) (h : nat)
    (e : Engine) (evs1 : list Event) (p : Payload) :
  idsBelowCounter e ->
  Forall (fun ev => quiet (en_next e) isBestMove (Occurs ev)) evs1 ->
  payloadLine p <> "" -> isBestMove (payloadLine p) = Ret true ->
  let st1 := deliverAll (start (finishAnalysis collect sourceUrl fenText desiredDepth h) e) evs1 in
  let st2 := deliver st1 (Message p) in
  let bestUci := default "" (splitSpaces (payloadLine p) false !! 1%nat) in
  let validBest := negb (String.eqb bestUci "") && negb (String.eqb bestUci "(none)") in
  exists k2 next2,
    fst st2 = Blocked k2 next2
    /\ en_sent (snd st2) = (en_sent e ++ ["stop"; "isready"])%list
    /\ ~ In h (en_handlers (snd st2))
    /\ waiting k2 isReadyOk (snd st2)
    /\ forall evs2 ev,
         Forall (fun ev => quiet k2 isReadyOk (Occurs ev)) evs2 ->
         ev = Timer k2
         \/ (exists ready, ev = Message ready /\ payloadLine ready <> ""
                           /\ isReadyOk (payloadLine ready) = Ret true) ->
         exists analysis,
           fst (deliver (deliverAll st2 evs2) ev) = Finished (Ret (Some analysis))
           /\ an_source analysis = sourceUrl
           /\ an_depth analysis = desiredDepth
           /\ an_lines analysis = collect fenText (heardBy h (snd st2))
           /\ (validBest = false -> an_best analysis = None)
           /\ (validBest = true ->
               exists san, uciToSan fenText (Some bestUci) = Ret (Some san)
                           /\ an_best analysis = Some (Some san, bestUci)).
Proof.
  intros Hids Hq1 Hne Hbest st1 st2 bestUci validBest.
  pose proof (waitFor_waiting isBestMove 15000 e Hids) as Hw1.
  set (e1 := snd (waitFor isBestMove 15000 e)) in *.
  assert (Hk : fst (waitFor isBestMove 15000 e) = en_next e) by reflexivity.
  rewrite Hk in Hw1.
  set (next1 := afterBestMove collect sourceUrl fenText desiredDepth h).
  assert (Hst1 : st1 = (Blocked (en_next e) next1, performAll e1 (map Occurs evs1))
                 /\ waiting (en_next e) isBestMove (performAll e1 (map Occurs evs1))).
  { subst st1. unfold finishAnalysis. cbn [start]. unfold waitFor. cbn [fst snd].
    apply (blocked_stays (en_next e) isBestMove next1 evs1 e1 Hw1 Hq1). }
  destruct Hst1 as [Hst1 Hw2].
  set (e2 := performAll e1 (map Occurs evs1)) in *.
  destruct (accepted_line_resolves (en_next e) isBestMove e2 p Hw2 Hne Hbest)
    as (Hres & Hnot & _ & Hlt).
  destruct (events_send_nothing evs1 e1) as [Hsent Hhand]. fold e2 in Hsent, Hhand.
  assert (Hids1 : idsBelowCounter e1)
    by (apply (idsBelowCounter_perform e (Registers isBestMove 15000)); exact Hids).
  assert (Hids2 : idsBelowCounter (handleMessage p e2)).
  { apply (idsBelowCounter_perform e2 (Occurs (Message p))).
    apply idsBelowCounter_events. exact Hids1. }
  set (e3 := handleMessage p e2) in *.
  set (e5 := send "isready" (removeListener h (send "stop" e3))).
  assert (Hids5 : idsBelowCounter e5).
  { subst e5.
    apply (idsBelowCounter_perform _ (Posts "isready")).
    apply (idsBelowCounter_perform _ (RemovesHandler h)).
    apply (idsBelowCounter_perform _ (Posts "stop")). exact Hids2. }
  pose proof (waitFor_waiting isReadyOk 10000 e5 Hids5) as Hw5.
  set (result := fun heard : list string =>
         match (if validBest then uciToSan fenText (Some bestUci) else Ret None) with
         | Throw err => Fail err
         | Ret bestSan =>
             Done (Some {| an_source := sourceUrl; an_depth := desiredDepth;
                           an_best := if validBest then Some (bestSan, bestUci) else None;
                           an_lines := collect fenText heard |})
         end).
  assert (Hst2 : exists next2,
             st2 = (Blocked (en_next e5) next2, snd (waitFor isReadyOk 10000 e5))
             /\ forall r, next2 r = Heard h result).
  { subst st2. rewrite Hst1. unfold deliver. cbn [happen]. fold e3. rewrite Hres.
    subst next1. unfold afterBestMove. cbn [start recover isReady andThen awaitLine]. fold e5.
    eexists. split; [reflexivity |].
    subst result validBest bestUci.
    destruct (payloadLine p) as [| c line]; [congruence |].
    intros [line' | err]; reflexivity. }
  destruct Hst2 as (next2 & Hst2 & Hnext2).
  exists (en_next e5), next2. rewrite Hst2. cbn [fst snd].
  assert (Hsent5 : en_sent (snd (waitFor isReadyOk 10000 e5))
                   = (en_sent e ++ ["stop"; "isready"])%list).
  { unfold waitFor, e5, send, removeListener. fields.
    assert (Hs3 : en_sent e3 = en_sent e2).
    { subst e3. rewrite handleMessage_text by exact Hne. cbv zeta. fields.
      apply (offers_rest (payloadLine p) (rev (en_waiters e2)) e2). }
    rewrite Hs3, Hsent. subst e1. unfold waitFor. fields.
    rewrite <- app_assoc. reflexivity. }
  assert (Hout5 : ~ In h (en_handlers (snd (waitFor isReadyOk 10000 e5)))).
  { unfold waitFor, e5, send, removeListener. fields.
    intros Hin. apply filter_In in Hin as [_ Hb]. rewrite Nat.eqb_refl in Hb. discriminate. }
  split; [reflexivity |]. split; [exact Hsent5 |]. split; [exact Hout5 |].
  split; [exact Hw5 |].
  intros evs2 ev Hq2 Hev.
  destruct (blocked_stays (en_next e5) isReadyOk next2 evs2 _ Hw5 Hq2) as [Hst3 Hw6].
  rewrite Hst3.
  destruct (unregistered_hears_nothing h evs2 _ Hout5) as [Hheard6 Hout6].
  set (e6 := performAll (snd (waitFor isReadyOk 10000 e5)) (map Occurs evs2)) in *.
  assert (Hfinal : exists r0, en_settled (happen ev e6) !! en_next e5 = Some r0
                              /\ heardBy h (happen ev e6) = heardBy h e6).
  { destruct (unregistered_hears_nothing h [ev] e6 Hout6) as [Hh _].
    cbn [map performAll fold_left perform] in Hh.
    destruct Hev as [-> | (ready & -> & Hr1 & Hr2)].
    - destruct (timeout_rejects _ _ e6 Hw6) as (Hrej6 & _). cbn [happen]. eauto.
    - destruct (accepted_line_resolves _ _ e6 ready Hw6 Hr1 Hr2) as (Hres6 & _).
      cbn [happen]. eauto. }
  destruct Hfinal as (r0 & Hsettled & Hheard).
  assert (Hrun : fst (deliver (Blocked (en_next e5) next2, e6) ev)
                 = fst (start (result (heardBy h (snd (waitFor isReadyOk 10000 e5))))
                          (happen ev e6))).
  { unfold deliver. rewrite Hsettled.
    destruct r0 as [line' | err]; rewrite Hnext2; cbn [start]; now rewrite Hheard, Hheard6. }
  rewrite Hrun. subst result. cbv beta.
  destruct validBest eqn:Hvalid.
  - assert (Hnonempty : bestUci <> "").
    { intros Heq. subst validBest. rewrite Heq in Hvalid. discriminate. }
    destruct (uciToSan_some fenText bestUci Hnonempty) as (san & Hsan).
    rewrite Hsan. cbn [start fst]. eexists. split; [reflexivity |].
    cbn [an_source an_depth an_lines an_best]. repeat split; [discriminate |].
    intros _. exists san. split; reflexivity.
  - cbn [start fst]. eexists. split; [reflexivity |].
    cbn [an_source an_depth an_lines an_best]. repeat split. discriminate.
Qed.

End AdapterSuccess.

(** ** The built-in engine *)

Section WorkerSettings.
#[local] Existing Instance QNum.
Context {L : ChessLib}.
Variable showCentipawns : @Ext QNum -> string.

Lemma setOption_valid tokens w : validSettings w -> validSettings (setOption tokens w).
Proof.
  intros (H1 & H2 & H3). unfold setOption.
  destruct (indexOf "name" tokens 0) as [nameIndex |]; [| repeat split; assumption].
  cbv zeta.
  match goal with
  | |- context [parseInt ?v] => destruct (parseInt v) as [n |]
  end;
    repeat match goal with
           | |- context [if ?c then _ else _] => destruct c eqn:?
           end;
    unfold validSettings; cbn [wk_multiPv wk_defaultMoveTime wk_forcedDepth];
    repeat split; try assumption; try lia; exact I.
Qed.

Lemma startSearch_settings fuel clock params w :
  wk_multiPv (rp_worker (startSearch showCentipawns fuel clock params w)) = wk_multiPv w
  /\ wk_defaultMoveTime (rp_worker (startSearch showCentipawns fuel clock params w))
     = wk_defaultMoveTime w
  /\ wk_forcedDepth (rp_worker (startSearch showCentipawns fuel clock params w))
     = wk_forcedDepth w.
Proof.
  unfold startSearch. cbv zeta.
  destruct (createChessInstance _) as [g | e]; [| repeat split; reflexivity].
  destruct (fst (analyzeFallback _ _ _ _ _)) as [analysis | e |];
    [| repeat split; reflexivity | repeat split; reflexivity].
  match goal with
  | |- context [if ?c then _ else _] => destruct c
  end; [repeat split; reflexivity |].
  destruct (take _ (r_details analysis)); repeat split; reflexivity.
Qed.

Lemma onWorkerMessage_valid fuel clock raw w :
  validSettings w -> validSettings (rp_worker (onWorkerMessage showCentipawns fuel clock raw w)).
Proof.
  intros Hv. unfold onWorkerMessage.
  destruct (trim raw) as [| c line]; [exact Hv |]. cbv zeta.
  repeat match goal with
         | |- context [if String.eqb ?a ?b then _ else _] => destruct (String.eqb a b)
         end; try exact Hv.
  - destruct startFen; exact Hv.
  - destruct (applyPosition _) as [sent [fenText | e]]; exact Hv.
  - apply setOption_valid, Hv.
  - destruct (startSearch_settings fuel clock
                (parseGo (splitSpaces (String c line) false)) w) as (E1 & E2 & E3).
    unfold validSettings. rewrite E1, E2, E3. exact Hv.
Qed.

Lemma workerRun_valid fuel messages : forall w,
  validSettings w -> validSettings (fst (workerRun showCentipawns fuel messages w)).
Proof.
  induction messages as [| [raw clock] rest IH]; intros w Hv; cbn [workerRun]; [exact Hv |].
  destruct (wk_closed w); [exact Hv |]. cbv zeta.
  specialize (IH _ (onWorkerMessage_valid fuel clock raw w Hv)).
  destruct (workerRun _ _ _ _) as [w' sent]. exact IH.
Qed.

Local Open Scope Q_scope.

Lemma nmax_floor (x : Q) : 100 <= nmax (ofZ 100) x.
Proof.
  unfold nmax, ofZ. cbn [num lit nltb QNum].
  destruct (Qle_bool x (100 # 1)) eqn:E; cbn [negb].
  - apply Qle_refl.
  - apply Qlt_le_weak, Qnot_le_lt. intros H. apply Qle_bool_iff in H. congruence.
Qed.

Lemma effectiveMoveTime_positive defaultMoveTime params activeColor :
  (0 < defaultMoveTime)%Z -> 0 < effectiveMoveTime defaultMoveTime params activeColor.
Proof.
  intros Hd.
  assert (Hof : forall z, (0 < z)%Z -> 0 < ofZ z).
  { intros z Hz. unfold ofZ. cbn [lit QNum]. unfold Qlt. cbn. lia. }
  assert (Hmax : forall x : Q, 0 < nmax (ofZ 100) x).
  { intros x. apply Qlt_le_trans with 100; [reflexivity | apply nmax_floor]. }
  unfold effectiveMoveTime. cbv zeta.
  assert (Hclock : 0 <
    match (if String.eqb activeColor "w" then g_wtime params else None) with
    | Some wtime => nmax (ofZ 100) (ofZ wtime / ofZ 30)%num
    | None =>
        match (if String.eqb activeColor "b" then g_btime params else None) with
        | Some btime => nmax (ofZ 100) (ofZ btime / ofZ 30)%num
        | None => ofZ defaultMoveTime
        end
    end).
  { destruct (if String.eqb activeColor "w" then g_wtime params else None); [apply Hmax |].
    destruct (if String.eqb activeColor "b" then g_btime params else None); [apply Hmax |].
    apply Hof, Hd. }
  destruct (g_movetime params) as [movetime |]; [| exact Hclock].
  destruct (Z.ltb_spec 0 movetime); [apply Hof; assumption | exact Hclock].
Qed.

(** X18.  Whatever messages the built-in engine receives, its settings
    stay usable: it reports at least one line, its default time per move
    is positive, and a forced depth is positive when there is one.  So
    every search it starts has a positive time budget. *)
Theorem builtin_engine_settings_stay_valid fuel (messages : list (string * (nat -> Q)))
    (w : Worker) (params : GoParams) (activeColor : string) :
  validSettings w ->
  validSettings (fst (workerRun showCentipawns fuel messages w))
  /\ 0 < effectiveMoveTime
           (wk_defaultMoveTime (fst (workerRun showCentipawns fuel messages w)))
           params activeColor.
Proof.
  intros Hv. pose proof (workerRun_valid fuel messages w Hv) as Hv'.
  split; [exact Hv' |]. apply effectiveMoveTime_positive. apply Hv'.
Qed.

End WorkerSettings.

Lemma prefix_nil (t : string) : String.prefix EmptyString t = true.
Proof. destruct t; reflexivity. Qed.

Lemma prefix_append (s t : string) : String.prefix s (s ++ t) = true.
Proof.
  induction s as [| c s IH]; [apply prefix_nil |].
  change (String c s ++ t) with (String c (s ++ t)). cbn [String.prefix].
  destruct (Ascii.ascii_dec c c); [exact IH | congruence].
Qed.

Lemma prefix_append_more (a b c : string) : String.prefix (a ++ b) (a ++ b ++ c) = true.
Proof.
  induction a as [| x a IH]; [change (String.prefix b (b ++ c) = true); apply prefix_append |].
  change (String x a ++ b) with (String x (a ++ b)).
  change (String x a ++ b ++ c) with (String x (a ++ b ++ c)). cbn [String.prefix].
  destruct (Ascii.ascii_dec x x); [exact IH | congruence].
Qed.

Section WorkerSearch.
Context {N : Num} {L : ChessLib}.
Variable showCentipawns : Ext -> string.
Hypothesis lawful : undoReverts.

Lemma infoLines_length analysis lines : forall index,
  length (infoLines showCentipawns analysis index lines) = length lines.
Proof.
  induction lines as [| entry rest IH]; intros index; cbn [infoLines length]; [reflexivity |].
  now rewrite IH.
Qed.

Lemma infoLines_info analysis lines : forall index,
  Forall (fun line => String.prefix "info depth " line = true)
    (infoLines showCentipawns analysis index lines).
Proof.
  induction lines as [| entry rest IH]; intros index; cbn [infoLines]; constructor.
  - unfold infoLine. apply prefix_append.
  - apply IH.
Qed.

(** X19.  A search of the built-in engine that returns always ends with
    one [bestmove] line, after at most as many [info] lines as the
    [MultiPV] setting allows.  With a library whose undo takes back the
    move last applied, the line names a legal move of the current
    position, and it is [bestmove 0000] with no [info] line before it
    when the position has no legal move. *)
Theorem builtin_search_answers_bestmove fuel clock (params : GoParams) (w : Worker)
    (g : game) (legal : list Move) :
  createChessInstance (Some (wk_currentFen w)) = Ret g ->
  moves g = Ret legal ->
  rp_end (startSearch showCentipawns fuel clock params w) = Val tt ->
  exists infos best,
    rp_sent (startSearch showCentipawns fuel clock params w) = (infos ++ [best])%list
    /\ (length infos <= Z.to_nat (Z.max 1 (wk_multiPv w)))%nat
    /\ Forall (fun line => String.prefix "info depth " line = true) infos
    /\ isBestMove best = Ret true
    /\ (legal = [] -> infos = [] /\ best = "bestmove 0000")
    /\ (legal <> [] ->
        infos <> []
        /\ exists m, In m legal /\ String.prefix ("bestmove " ++ moveToUci m) best = true).
Proof.
  intros Hcreate Hlegal Hend. revert Hend. unfold startSearch. cbv zeta.
  cbn [wk_currentFen wk_multiPv wk_defaultMoveTime wk_forcedDepth wk_searchId
       wk_stopRequested].
  rewrite Hcreate.
  match goal with
  | |- context [analyzeFallback ?f ?g0 ?o ?c ?t] =>
      destruct (analyzeFallback f g0 o c t) as [out w'] eqn:Ha
  end.
  cbn [fst]. destruct out as [analysis | e |]; cbn [rp_end]; try discriminate.
  rewrite Z.eqb_refl. cbn [negb orb]. intros _.
  destruct legal as [| m0 others].
  - match type of Ha with
    | analyzeFallback ?f ?g0 ?o ?c ?t = _ =>
        pose proof (analyzeFallback_none f g0 o c t Hlegal) as Hnone
    end.
    rewrite Ha in Hnone. cbn [fst] in Hnone. injection Hnone as ->.
    cbn [emptyResult r_details]. rewrite take_nil. cbn [rp_sent].
    exists [], "bestmove 0000".
    split; [reflexivity |]. split; [cbn; lia |]. split; [constructor |].
    split; [reflexivity |]. split; [auto | congruence].
  - pose proof (analyzeFallback_shape lawful _ _ _ _ _ _ _ _ Hlegal
                  ltac:(discriminate) Ha) as (_ & Hne & _ & Hall & _).
    destruct (r_details analysis) as [| first more] eqn:Hd; [congruence |].
    destruct (Z.to_nat (Z.max 1 (wk_multiPv w))) as [| n] eqn:Hn; [lia |].
    cbn [take firstn rp_sent].
    exists (infoLines showCentipawns analysis 0 (first :: take n more)),
           (bestMoveLine first).
    split; [reflexivity |]. split; [| split; [| split; [| split]]].
    + rewrite infoLines_length. cbn [length]. rewrite length_take. lia.
    + apply infoLines_info.
    + unfold isBestMove, bestMoveLine. f_equal. apply prefix_append.
    + discriminate.
    + intros _. split; [discriminate |].
      exists (d_move first). split; [apply Hall; now left |].
      unfold bestMoveLine.
      generalize (match d_pv first with
                  | _ :: second :: _ =>
                      match moveToUci second with
                      | EmptyString => EmptyString
                      | ponderMove => " ponder " ++ ponderMove
                      end
                  | _ => EmptyString
                  end).
      intros suffix. apply prefix_append_more.
Qed.

End WorkerSearch.

(** ** Rebuilding the game from the move list *)

Section MoveListFacts.
Context {L : ChessLib} {S : SloppyLib L}.

Lemma tryAttempts_some g attempts : forall oc g',
  tryAttempts g attempts = Some (oc, g') ->
  In (oc_matched oc) attempts /\ oc_inferred oc = false
  /\ moveSloppy g (oc_matched oc) = Ret (Some (oc_move oc, g')).
Proof.
  induction attempts as [| attempt rest IH]; intros oc g' H; cbn [tryAttempts] in H;
    [discriminate |].
  destruct (moveSloppy g attempt) as [[[moved g1] |] | e] eqn:E.
  - injection H as <- <-. cbn [oc_matched oc_inferred oc_move]. auto with datatypes.
  - apply IH in H as (H1 & H2 & H3). auto with datatypes.
  - apply IH in H as (H1 & H2 & H3). auto with datatypes.
Qed.

Lemma tryAttempts_none g attempts :
  tryAttempts g attempts = None ->
  forall attempt m g', In attempt attempts -> moveSloppy g attempt <> Ret (Some (m, g')).
Proof.
  induction attempts as [| a rest IH]; intros H attempt m g' Hin; [destruct Hin |].
  cbn [tryAttempts] in H.
  destruct (moveSloppy g a) as [[[moved g1] |] | e] eqn:E; [discriminate | |];
    (destruct Hin as [<- | Hin]; [rewrite E; discriminate | now apply IH]).
Qed.

Lemma tryCandidates_some g candidates : forall oc g',
  tryCandidates g candidates = Some (oc, g') ->
  oc_inferred oc = true
  /\ exists entry,
       In entry candidates /\ 40 <= cd_weight entry
       /\ oc_matched oc = m_san (cd_move entry)
       /\ move g (moveArgOf (cd_move entry)) = Ret (Some (oc_move oc, g')).
Proof.
  induction candidates as [| entry rest IH]; intros oc g' H; cbn [tryCandidates] in H;
    [discriminate |].
  destruct (Z.ltb_spec (cd_weight entry) 40) as [Hlow | Hok].
  { apply IH in H as (H1 & e & He & Hrest). split; [exact H1 |]. exists e. auto with datatypes. }
  destruct (move g (moveArgOf (cd_move entry))) as [[[moved g1] |] | err] eqn:E.
  - injection H as <- <-. cbn [oc_matched oc_inferred oc_move]. split; [reflexivity |].
    exists entry. auto with datatypes.
  - apply IH in H as (H1 & e & He & Hrest). split; [exact H1 |]. exists e. auto with datatypes.
  - apply IH in H as (H1 & e & He & Hrest). split; [exact H1 |]. exists e. auto with datatypes.
Qed.

Lemma insertCandidate_perm entry sorted :
  Permutation (insertCandidate entry sorted) (entry :: sorted).
Proof.
  induction sorted as [| y r IH]; cbn [insertCandidate]; [reflexivity |].
  destruct (0 <? compareCandidates y entry); [reflexivity |].
  rewrite IH. apply perm_swap.
Qed.

Lemma sortCandidates_perm_from l : forall acc,
  Permutation (fold_left (fun sorted entry => insertCandidate entry sorted) l acc) (acc ++ l).
Proof.
  induction l as [| x r IH]; intros acc; cbn [fold_left].
  - now rewrite app_nil_r.
  - rewrite IH, insertCandidate_perm. apply Permutation_middle.
Qed.

Lemma sortCandidates_perm l : Permutation (sortCandidates l) l.
Proof. apply (sortCandidates_perm_from l []). Qed.

(** The candidates are legal moves with their weights. *)
Lemma buildCandidateList_legal g tokenInfo candidates entry :
  buildCandidateList g tokenInfo = Ret candidates -> In entry candidates ->
  exists legalMoves,
    moves g = Ret legalMoves /\ In (cd_move entry) legalMoves
    /\ baseWeight tokenInfo (cd_move entry) <> 0
    /\ cd_weight entry
       = candidateWeight tokenInfo (cd_move entry) (baseWeight tokenInfo (cd_move entry)).
Proof.
  intros H Hin. unfold buildCandidateList in H.
  destruct (ti_normalized tokenInfo) as [| c r]; [injection H as <-; destruct Hin |].
  destruct (moves g) as [legalMoves | e]; [| discriminate]. injection H as <-.
  exists legalMoves. split; [reflexivity |].
  apply (Permutation_in _ (sortCandidates_perm _)) in Hin.
  apply in_flat_map in Hin as (legal & Hlegal & Hin).
  destruct (Z.eqb_spec (baseWeight tokenInfo legal) 0) as [Hz | Hnz]; [destruct Hin |].
  destruct Hin as [<- | []]. cbn [cd_move cd_weight]. auto.
Qed.

(** X20.  [applyToken] prefers the token as it is written: a result that
    is not marked as inferred is the answer of the library to one of the
    spellings [collectAttemptStrings] lists.  A result marked as inferred
    means the library refused every spelling; it is then a legal move of
    the position whose weight in [buildCandidateList] is at least 40,
    reported under its own SAN.  And [null] means the library refused
    every spelling. *)
Theorem token_applied_as_written_first (g : game) (tokenInfo : TokenInfo) :
  (forall oc g',
     applyToken g tokenInfo = Ret (Some (oc, g')) ->
     (oc_inferred oc = false ->
      In (oc_matched oc) (collectAttemptStrings tokenInfo)
      /\ moveSloppy g (oc_matched oc) = Ret (Some (oc_move oc, g')))
     /\ (oc_inferred oc = true ->
         (forall attempt m g1, In attempt (collectAttemptStrings tokenInfo) ->
                               moveSloppy g attempt <> Ret (Some (m, g1)))
         /\ exists legalMoves legal,
              moves g = Ret legalMoves /\ In legal legalMoves
              /\ oc_matched oc = m_san legal
              /\ move g (moveArgOf legal) = Ret (Some (oc_move oc, g'))
              /\ baseWeight tokenInfo legal <> 0
              /\ 40 <= candidateWeight tokenInfo legal (baseWeight tokenInfo legal)))
  /\ (applyToken g tokenInfo = Ret None ->
      forall attempt m g1, In attempt (collectAttemptStrings tokenInfo) ->
                           moveSloppy g attempt <> Ret (Some (m, g1))).
Proof.
  unfold applyToken. split.
  - intros oc g' H.
    destruct (tryAttempts g (collectAttemptStrings tokenInfo)) as [[oc0 g0] |] eqn:Ht.
    + injection H as <- <-. apply tryAttempts_some in Ht as (H1 & H2 & H3).
      split; [auto | congruence].
    + destruct (buildCandidateList g tokenInfo) as [candidates | e] eqn:Hb; [| discriminate].
      injection H as H. apply tryCandidates_some in H as (Hinf & entry & Hin & Hw & Hm & Hmove).
      split; [congruence |]. intros _.
      split; [now apply tryAttempts_none |].
      destruct (buildCandidateList_legal _ _ _ _ Hb Hin) as (legalMoves & Hl & Hlegal & Hbase & Hcw).
      exists legalMoves, (cd_move entry). rewrite <- Hcw. auto 10.
  - intros H.
    destruct (tryAttempts g (collectAttemptStrings tokenInfo)) as [[oc0 g0] |] eqn:Ht;
      [discriminate |].
    now apply tryAttempts_none.
Qed.

Lemma applyToken_played g tokenInfo oc g' :
  applyToken g tokenInfo = Ret (Some (oc, g')) -> Played g [oc_move oc] g'.
Proof.
  unfold applyToken. intros H.
  destruct (tryAttempts g (collectAttemptStrings tokenInfo)) as [[oc0 g0] |] eqn:Ht.
  - injection H as <- <-. apply tryAttempts_some in Ht as (_ & _ & H3).
    eapply played_text; [exact H3 | constructor].
  - destruct (buildCandidateList g tokenInfo) as [candidates | e]; [| discriminate].
    injection H as H. apply tryCandidates_some in H as (_ & entry & _ & _ & _ & Hmove).
    eapply played_squares; [exact Hmove | constructor].
Qed.

Lemma rebuildFrom_spec tokenInfos : forall g final applied ignored,
  rebuildFrom g tokenInfos = Ret (final, applied, ignored) ->
  (length applied + length ignored = length tokenInfos)%nat
  /\ Played g (map oc_move applied) final
  /\ Forall (fun text => text <> "") ignored.
Proof.
  induction tokenInfos as [| info rest IH]; intros g final applied ignored H;
    cbn [rebuildFrom] in H.
  - injection H as <- <- <-. repeat split; constructor.
  - destruct (applyToken g info) as [[[oc g'] |] | e] eqn:Ha; [| | discriminate].
    + destruct (rebuildFrom g' rest) as [[[f a] i] | e] eqn:Hr; [| discriminate].
      injection H as <- <- <-. apply IH in Hr as (Hlen & Hplayed & Hne).
      split; [cbn [length]; lia |]. split; [| exact Hne].
      apply applyToken_played in Ha. cbn [map].
      inversion Ha as [| ? text m g1 ms fin Hm Hp | ? a0 m g1 ms fin Hm Hp]; subst;
        inversion Hp; subst.
      * eapply played_text; eassumption.
      * eapply played_squares; eassumption.
    + cbv zeta in H.
      destruct (rebuildFrom g rest) as [[[f a] i] | e] eqn:Hr; [| discriminate].
      injection H as <- <- <-. apply IH in Hr as (Hlen & Hplayed & Hne).
      split; [cbn [length]; lia |]. split; [exact Hplayed |].
      constructor; [| exact Hne].
      destruct (ti_raw info); [destruct (ti_normalized info) |]; discriminate.
Qed.

(** X21.  [rebuildGameFromTokens] accounts for every token: each one is
    either applied or listed as ignored, under a text that is never
    empty.  The position it returns is the initial position with exactly
    the applied moves played in order, each accepted by the library; an
    ignored token leaves the position alone. *)
Theorem rebuild_accounts_for_every_token (tokenInfos : list TokenInfo) (final : game)
    (applied : list Outcome) (ignored : list string) :
  rebuildGameFromTokens tokenInfos = Ret (final, applied, ignored) ->
  (length applied + length ignored = length tokenInfos)%nat
  /\ Forall (fun text => text <> "") ignored
  /\ exists initial,
       createChessInstance None = Ret initial
       /\ Played initial (map oc_move applied) final.
Proof.
  unfold rebuildGameFromTokens. intros H.
  destruct (createChessInstance None) as [initial | e]; [| discriminate].
  apply rebuildFrom_spec in H as (Hlen & Hplayed & Hne).
  split; [exact Hlen |]. split; [exact Hne |]. exists initial. auto.
Qed.

End MoveListFacts.

(** ** The spellings of a token *)

Section Attempts.

Lemma addAttempt_NoDup attempts text : NoDup attempts -> NoDup (addAttempt attempts text).
Proof.
  intros H. unfold addAttempt. destruct (has attempts text) eqn:E; [exact H |].
  apply NoDup_app. split; [exact H |]. split; [| apply NoDup_singleton].
  intros x Hx Hin. apply list_elem_of_In in Hin. destruct Hin as [<- | []].
  apply list_elem_of_In in Hx. apply has_In in Hx. congruence.
Qed.

Lemma addAttempt_length attempts text :
  (length (addAttempt attempts text) <= S (length attempts))%nat.
Proof.
  unfold addAttempt. destruct (has attempts text); [lia |]. rewrite length_app. cbn. lia.
Qed.

Lemma addAttempt_head attempts text first :
  head attempts = Some first -> head (addAttempt attempts text) = Some first.
Proof.
  unfold addAttempt. destruct (has attempts text); [auto |].
  destruct attempts; [discriminate | auto].
Qed.

Lemma addAttempt_In attempts text x :
  In x (addAttempt attempts text) -> In x attempts \/ x = text.
Proof.
  unfold addAttempt. destruct (has attempts text); [auto |].
  intros H. apply in_app_or in H as [H | [<- | []]]; auto.
Qed.

Lemma attempt_step (cond : bool) attempts text :
  let next := if cond then addAttempt attempts text else attempts in
  (NoDup attempts -> NoDup next)
  /\ (length next <= S (length attempts))%nat
  /\ (forall x, In x next -> In x attempts \/ x = text)
  /\ (forall first, head attempts = Some first -> head next = Some first).
Proof.
  destruct cond; cbv zeta.
  - split; [apply addAttempt_NoDup |]. split; [apply addAttempt_length |].
    split; [apply addAttempt_In | intros first; apply addAttempt_head].
  - repeat split; auto.
Qed.

Lemma collectAttemptStrings_spec (tokenInfo : TokenInfo) :
  NoDup (collectAttemptStrings tokenInfo)
  /\ (length (collectAttemptStrings tokenInfo) <= 4)%nat
  /\ (forall text, In text (collectAttemptStrings tokenInfo) ->
        text <> ""
        /\ (text = ti_raw tokenInfo \/ text = ti_normalized tokenInfo
            \/ text = stripMoveDecorations (ti_raw tokenInfo)
            \/ text = stripMoveDecorations (ti_normalized tokenInfo)))
  /\ (ti_raw tokenInfo <> "" -> head (collectAttemptStrings tokenInfo) = Some (ti_raw tokenInfo)).
Proof.
  unfold collectAttemptStrings. cbv zeta.
  set (raw := ti_raw tokenInfo). set (normalized := ti_normalized tokenInfo).
  set (a1 := match raw with EmptyString => [] | _ => addAttempt [] raw end).
  assert (H1 : NoDup a1 /\ (length a1 <= 1)%nat
               /\ (forall x, In x a1 -> x = raw)
               /\ (raw <> "" -> head a1 = Some raw)).
  { subst a1. destruct raw as [| c r].
    - repeat split; [constructor | cbn; lia | intros x [] | congruence].
    - unfold addAttempt. cbn [has existsb app].
      repeat split; [apply NoDup_singleton | cbn; lia | intros x [<- | []]; reflexivity]. }
  destruct H1 as (N1 & L1 & I1 & F1).
  destruct (attempt_step (negb (String.eqb normalized "") && negb (String.eqb normalized raw))
              a1 normalized) as (N2 & L2 & I2 & F2).
  cbv zeta in N2, L2, I2, F2.
  set (a2 := if negb (String.eqb normalized "") && negb (String.eqb normalized raw)
             then addAttempt a1 normalized else a1) in *.
  destruct (attempt_step (negb (String.eqb (stripMoveDecorations raw) "")
                          && negb (String.eqb (stripMoveDecorations raw) raw))
              a2 (stripMoveDecorations raw)) as (N3 & L3 & I3 & F3).
  cbv zeta in N3, L3, I3, F3.
  set (a3 := if negb (String.eqb (stripMoveDecorations raw) "")
                && negb (String.eqb (stripMoveDecorations raw) raw)
             then addAttempt a2 (stripMoveDecorations raw) else a2) in *.
  destruct (attempt_step (negb (String.eqb (stripMoveDecorations normalized) "")
                          && negb (String.eqb (stripMoveDecorations normalized) normalized))
              a3 (stripMoveDecorations normalized)) as (N4 & L4 & I4 & F4).
  cbv zeta in N4, L4, I4, F4.
  set (a4 := if negb (String.eqb (stripMoveDecorations normalized) "")
                && negb (String.eqb (stripMoveDecorations normalized) normalized)
             then addAttempt a3 (stripMoveDecorations normalized) else a3) in *.
  split; [apply NoDup_filter_list; auto |]. split; [| split].
  - pose proof (filter_length_le (fun text => negb (String.eqb text "")) a4). lia.
  - intros text Hin. apply filter_In in Hin as [Hin Hne]. split.
    + intros ->. discriminate.
    + destruct (I4 text Hin) as [H4 | ->]; [| auto].
      destruct (I3 text H4) as [H3 | ->]; [| auto].
      destruct (I2 text H3) as [H2 | ->]; [| auto].
      left. now apply I1.
  - intros Hr. pose proof (F4 raw (F3 raw (F2 raw (F1 Hr)))) as Hhead.
    destruct a4 as [| first more]; [discriminate |].
    injection Hhead as ->. cbn [List.filter].
    destruct (String.eqb_spec raw ""); [congruence | reflexivity].
Qed.

(** X22.  The spellings [collectAttemptStrings] lists for a token are at
    most four, none is empty and none occurs twice; each is the raw text
    or the normalized text of the token, as it is or without its
    decorations, and the raw text comes first unless it is empty. *)
Theorem attempt_strings_distinct (tokenInfo : TokenInfo) :
  NoDup (collectAttemptStrings tokenInfo)
  /\ (length (collectAttemptStrings tokenInfo) <= 4)%nat
  /\ (forall text, In text (collectAttemptStrings tokenInfo) ->
        text <> ""
        /\ (text = ti_raw tokenInfo \/ text = ti_normalized tokenInfo
            \/ text = stripMoveDecorations (ti_raw tokenInfo)
            \/ text = stripMoveDecorations (ti_normalized tokenInfo)))
  /\ (ti_raw tokenInfo <> "" -> head (collectAttemptStrings tokenInfo) = Some (ti_raw tokenInfo)).
Proof. apply collectAttemptStrings_spec. Qed.

End Attempts.

(** *** The hints read off a token *)

Lemma optionString_eqb_eq a b : optionString_eqb a b = true -> a = b.
Proof.
  destruct a, b; cbn; try discriminate; auto.
  intros H. apply String.eqb_eq in H. now subst.
Qed.

Lemma TokenInfo_eqb_eq a b : TokenInfo_eqb a b = true -> a = b.
Proof.
  unfold TokenInfo_eqb. intros H.
  repeat (apply andb_prop in H as [H ?]).
  destruct a, b; cbn [ti_raw ti_normalized ti_capture ti_piece ti_originFile ti_originRank
                      ti_target ti_promotion ti_castle ti_hasCheck ti_hasMate] in *.
  repeat match goal with
         | E : String.eqb _ _ = true |- _ => apply String.eqb_eq in E
         | E : Bool.eqb _ _ = true |- _ => apply Bool.eqb_prop in E
         | E : optionString_eqb _ _ = true |- _ => apply optionString_eqb_eq in E
         end.
  congruence.
Qed.

Ltac pick H x Hx :=
  let H' := fresh in
  pose proof (proj1 (forallb_forall _ _) H x Hx) as H'; cbv beta in H'; clear H; rename H' into H.

(** X23.  [parseTokenHints] reads a move of a piece in standard notation
    as it is written: the piece in lower case, the file and the rank it
    comes from when the text names them, whether it captures, the target
    square, and check or mate by the mark at the end.  The token is its
    own normalised form; no promotion and no castling is read. *)
Theorem piece_move_hints_recovered (piece originFile originRank : string) (capture : bool)
    (file rank mark : string) :
  In piece pieceLetters ->
  In originFile ("" :: fileNames) -> In originRank ("" :: rankNames) ->
  In file fileNames -> In rank rankNames -> In mark checkMarks ->
  parseTokenHints (pieceMoveText piece originFile originRank capture file rank mark)
  = pieceMoveHints piece originFile originRank capture file rank mark.
Proof.
  intros Hp Hof Hor Hf Hr Hm.
  assert (H : forallb (fun piece => forallb (fun originFile => forallb (fun originRank =>
              forallb (fun capture => forallb (fun file => forallb (fun rank =>
              forallb (fun mark =>
                TokenInfo_eqb
                  (parseTokenHints
                     (pieceMoveText piece originFile originRank capture file rank mark))
                  (pieceMoveHints piece originFile originRank capture file rank mark))
              checkMarks) rankNames) fileNames) [true; false]) ("" :: rankNames))
              ("" :: fileNames)) pieceLetters = true)
    by (vm_compute; reflexivity).
  pick H piece Hp. pick H originFile Hof. pick H originRank Hor.
  assert (Hc : In capture [true; false]) by (destruct capture; cbn; auto).
  pick H capture Hc. pick H file Hf. pick H rank Hr. pick H mark Hm.
  now apply TokenInfo_eqb_eq.
Qed.

(** X24.  A move of a pawn is read the same way, with two exceptions the
    code makes.  A text that begins with [b] gives the piece [b]: the
    push [b4] then has no target, and the capture [bxc3] no file of
    origin.  And a promotion is read only at the very end of the token:
    when a check mark follows it, neither the promotion nor the target
    square is found. *)
Theorem pawn_move_hints (origin file rank promotion mark : string) :
  In origin ("" :: fileNames) -> In file fileNames -> In rank rankNames ->
  In promotion ("" :: promotionLetters) -> In mark checkMarks ->
  (promotion = "" \/ mark = "" ->
   parseTokenHints (pawnMoveText origin file rank promotion mark)
   = pawnMoveHints origin file rank promotion mark)
  /\ (promotion <> "" -> mark <> "" ->
      ti_promotion (parseTokenHints (pawnMoveText origin file rank promotion mark)) = None
      /\ ti_target (parseTokenHints (pawnMoveText origin file rank promotion mark)) = None).
Proof.
  intros Ho Hf Hr Hp Hm.
  assert (H : forallb (fun origin => forallb (fun file => forallb (fun rank =>
              forallb (fun promotion => forallb (fun mark =>
                let info := parseTokenHints (pawnMoveText origin file rank promotion mark) in
                if String.eqb promotion "" || String.eqb mark ""
                then TokenInfo_eqb info (pawnMoveHints origin file rank promotion mark)
                else optionString_eqb (ti_promotion info) None
                     && optionString_eqb (ti_target info) None)
              checkMarks) ("" :: promotionLetters)) rankNames) fileNames)
              ("" :: fileNames) = true)
    by (vm_compute; reflexivity).
  pick H origin Ho. pick H file Hf. pick H rank Hr. pick H promotion Hp. pick H mark Hm.
  cbv zeta in H. split.
  - intros Hor.
    replace (String.eqb promotion "" || String.eqb mark "") with true in H.
    + now apply TokenInfo_eqb_eq.
    + destruct Hor as [-> | ->]; [reflexivity | now rewrite orb_true_r].
  - intros Hpn Hmn.
    destruct (String.eqb_spec promotion ""); [contradiction |].
    destruct (String.eqb_spec mark ""); [contradiction |].
    cbn [orb] in H. apply andb_prop in H as [H1 H2].
    split; now apply optionString_eqb_eq.
Qed.

(** *** The canonical form of a move text *)

Lemma keepChars_allChars keep s : allChars keep (keepChars keep s) = true.
Proof.
  induction s as [| c r IH]; [reflexivity |]. cbn [keepChars].
  destruct (keep c) eqn:E; [cbn [allChars]; now rewrite E | exact IH].
Qed.

Lemma keepChars_app keep s t : keepChars keep (s ++ t) = keepChars keep s ++ keepChars keep t.
Proof.
  induction s as [| c r IH]; [reflexivity |].
  change (String c r ++ t) with (String c (r ++ t)). cbn [keepChars].
  destruct (keep c); [| exact IH].
  change (String c (keepChars keep r) ++ keepChars keep t)
    with (String c (keepChars keep r ++ keepChars keep t)).
  now rewrite IH.
Qed.

Lemma keepChars_none keep s :
  allChars (fun c => negb (keep c)) s = true -> keepChars keep s = "".
Proof.
  induction s as [| c r IH]; [reflexivity |]. cbn [allChars keepChars]. intros H.
  apply andb_prop in H as [H1 H2]. apply negb_true_iff in H1. rewrite H1. auto.
Qed.

Lemma allChars_impl (p q : ascii -> bool) s :
  (forall c, p c = true -> q c = true) -> allChars p s = true -> allChars q s = true.
Proof.
  intros Hpq. induction s as [| c r IH]; [reflexivity |]. cbn [allChars]. intros H.
  apply andb_prop in H as [H1 H2]. now rewrite (Hpq c H1), IH.
Qed.

Lemma allChars_toLowerCase p s :
  allChars (fun c => p (lowerChar c)) s = true -> allChars p (toLowerCase s) = true.
Proof.
  induction s as [| c r IH]; [reflexivity |]. cbn [allChars toLowerCase]. intros H.
  apply andb_prop in H as [H1 H2]. now rewrite H1, IH.
Qed.

Lemma append_empty_r s : s ++ "" = s.
Proof.
  induction s as [| c r IH]; [reflexivity |].
  change (String c r ++ "") with (String c (r ++ "")). now rewrite IH.
Qed.

Lemma append_assoc s t u : (s ++ t) ++ u = s ++ (t ++ u).
Proof.
  induction s as [| c r IH]; [reflexivity |].
  change ((String c r ++ t) ++ u) with (String c ((r ++ t) ++ u)).
  change (String c r ++ (t ++ u)) with (String c (r ++ (t ++ u))). now rewrite IH.
Qed.

Lemma prefix_length_le p : forall s, String.prefix p s = true -> (String.length p <= String.length s)%nat.
Proof.
  induction p as [| a p IH]; intros s H; [cbn; lia |].
  destruct s as [| b s]; [discriminate |]. cbn [String.prefix] in H.
  destruct (ascii_dec a b); [| discriminate]. cbn [String.length]. apply IH in H. lia.
Qed.

(** Text with no character of the pattern in it neither starts nor
    completes a match. *)
Lemma prefix_foreign p d :
  p <> "" -> allChars (fun c => negb (includesChar c p)) d = true ->
  forall s, String.prefix p (s ++ d) = String.prefix p s.
Proof.
  intros Hp Hd. destruct p as [| a0 p0]; [congruence |]. clear Hp.
  assert (Hgen : forall q s, (forall c, includesChar c q = true ->
                              includesChar c (String a0 p0) = true) ->
                             q <> "" -> String.prefix q (s ++ d) = String.prefix q s).
  { induction q as [| a q IH]; intros s Hsub Hq; [congruence |].
    destruct s as [| b s].
    - change ("" ++ d) with d. destruct d as [| b d]; [reflexivity |].
      cbn [String.prefix]. destruct (ascii_dec a b) as [-> |]; [| reflexivity].
      cbn [allChars] in Hd. apply andb_prop in Hd as [Hb _].
      rewrite (Hsub b) in Hb; [discriminate |].
      cbn [includesChar]. now rewrite Ascii.eqb_refl.
    - change (String b s ++ d) with (String b (s ++ d)). cbn [String.prefix].
      destruct (ascii_dec a b) as [-> |]; [| reflexivity].
      destruct q as [| a' q']; [now destruct (s ++ d), s |].
      apply IH; [| discriminate].
      intros c Hc. apply Hsub. cbn [includesChar] in *.
      destruct (Ascii.eqb b c); [reflexivity | exact Hc]. }
  intros s. apply Hgen; [auto | discriminate].
Qed.

Lemma replaceAllFrom_foreign p r d :
  p <> "" -> allChars (fun c => negb (includesChar c p)) d = true ->
  replaceAllFrom p r 0 d = d.
Proof.
  intros Hp. induction d as [| b d IH]; [reflexivity |]. intros Hd.
  pose proof (prefix_foreign p (String b d) Hp Hd "") as Hpre.
  change ("" ++ String b d) with (String b d) in Hpre.
  cbn [replaceAllFrom]. rewrite Hpre.
  destruct p as [| a p]; [congruence |]. cbn [String.prefix].
  cbn [allChars] in Hd. apply andb_prop in Hd as [_ Hd]. now rewrite IH.
Qed.

Lemma replaceAllFrom_app p r d :
  p <> "" -> allChars (fun c => negb (includesChar c p)) d = true ->
  forall s skip, (skip <= String.length s)%nat ->
    replaceAllFrom p r skip (s ++ d) = replaceAllFrom p r skip s ++ d.
Proof.
  intros Hp Hd. induction s as [| c s IH]; intros skip Hskip.
  - cbn [String.length] in Hskip. replace skip with 0%nat by lia.
    change ("" ++ d) with d. now rewrite replaceAllFrom_foreign.
  - change (String c s ++ d) with (String c (s ++ d)). cbn [replaceAllFrom].
    destruct skip as [| k].
    + change (String c (s ++ d)) with (String c s ++ d).
      rewrite (prefix_foreign p d Hp Hd (String c s)).
      destruct (String.prefix p (String c s)) eqn:E.
      * apply prefix_length_le in E. cbn [String.length] in E.
        rewrite IH by lia. now rewrite append_assoc.
      * rewrite IH by (cbn; lia). reflexivity.
    + cbn [String.length] in Hskip. apply IH. lia.
Qed.

Lemma replaceAll_app p r d s :
  p <> "" -> allChars (fun c => negb (includesChar c p)) d = true ->
  replaceAll p r (s ++ d) = replaceAll p r s ++ d.
Proof. intros Hp Hd. unfold replaceAll. apply replaceAllFrom_app; [auto | auto | lia]. Qed.

Lemma canonical_letters c :
  isLower c || isUpper c || isDigit c || Ascii.eqb c "-" = true ->
  isLower (lowerChar c) || isDigit (lowerChar c) || Ascii.eqb (lowerChar c) "-" = true.
Proof. destruct c as [[] [] [] [] [] [] [] []]; vm_compute; intros H; congruence. Qed.

Lemma marks_not_in_castling c :
  charIn "+#?!=" c = true ->
  negb (includesChar c "0-0-0") = true /\ negb (includesChar c "0-0") = true.
Proof. destruct c as [[] [] [] [] [] [] [] []]; vm_compute; intros H; split; congruence. Qed.

Lemma marks_dropped c :
  charIn "+#?!=" c = true ->
  negb (negb (charIn "+#?!" c)) || negb (negb (Ascii.eqb c "=")) = true.
Proof. destruct c as [[] [] [] [] [] [] [] []]; vm_compute; intros H; congruence. Qed.

Lemma marks_vanish marks :
  allChars (charIn "+#?!=") marks = true ->
  keepChars (fun c => negb (Ascii.eqb c "="))
    (keepChars (fun c => negb (charIn "+#?!" c)) marks) = "".
Proof.
  induction marks as [| c r IH]; [reflexivity |]. cbn [allChars]. intros H.
  apply andb_prop in H as [H1 H2]. apply marks_dropped in H1. cbn [keepChars].
  destruct (charIn "+#?!" c) eqn:E; cbn [negb]; [auto |].
  cbn [negb orb] in H1. cbn [keepChars]. apply negb_true_iff in H1.
  rewrite H1. auto.
Qed.

Lemma canonicalSan_marks text marks :
  allChars (charIn "+#?!=") marks = true -> canonicalSan (text ++ marks) = canonicalSan text.
Proof.
  intros H. unfold canonicalSan.
  rewrite (replaceAll_app "0-0-0" "o-o-o" marks text);
    [| discriminate | apply (allChars_impl _ _ _ (fun c Hc => proj1 (marks_not_in_castling c Hc)) H)].
  rewrite (replaceAll_app "0-0" "o-o" marks);
    [| discriminate | apply (allChars_impl _ _ _ (fun c Hc => proj2 (marks_not_in_castling c Hc)) H)].
  rewrite !keepChars_app, (marks_vanish marks H). cbn [keepChars].
  now rewrite append_empty_r.
Qed.

(** X25.  The canonical form [canonicalSan] compares move texts by holds
    lower-case letters, digits and hyphens only, and the marks [+], [#],
    [?], [!] and [=] at the end of a text do not change it. *)
Theorem canonical_san_ignores_marks (text marks : string) :
  allChars (fun c => isLower c || isDigit c || Ascii.eqb c "-") (canonicalSan text) = true
  /\ (allChars (charIn "+#?!=") marks = true ->
      canonicalSan (text ++ marks) = canonicalSan text).
Proof.
  split; [| apply canonicalSan_marks].
  unfold canonicalSan. apply allChars_toLowerCase.
  eapply allChars_impl; [| apply keepChars_allChars].
  intros c Hc. now apply canonical_letters.
Qed.

(** X26.  A legal move whose SAN is the token up to such marks at the end
    of either, [Qh5] for [Qh5+] or [Nf3!] for [Nf3], starts with the
    highest weight [buildCandidateList] gives before it looks at the
    hints, 100, provided the canonical form of the text is not empty. *)
Theorem same_move_up_to_marks_weighs_most (tokenInfo : TokenInfo) (legal : Move)
    (text tokenMarks sanMarks : string) :
  ti_normalized tokenInfo = text ++ tokenMarks ->
  m_san legal = text ++ sanMarks ->
  allChars (charIn "+#?!=") tokenMarks = true ->
  allChars (charIn "+#?!=") sanMarks = true ->
  canonicalSan text <> "" ->
  baseWeight tokenInfo legal = 100.
Proof.
  intros Ht Hs Hm1 Hm2 Hne. unfold baseWeight. cbv zeta.
  rewrite Ht, Hs, !canonicalSan_marks by assumption.
  destruct (String.eqb_spec (canonicalSan text) ""); [contradiction |].
  cbn [negb andb]. now rewrite String.eqb_refl.
Qed.

(** *** The order of the candidates *)

Section CandidateOrder.
Context {L : ChessLib}.

Lemma compareCandidates_swap y entry :
  0 < compareCandidates y entry -> compareCandidates entry y <= 0.
Proof.
  unfold compareCandidates. cbv zeta.
  destruct (m_piece (cd_move y)), (m_piece (cd_move entry)); cbn [PieceType_eqb negb piecePriority];
    destruct (Z.eqb_spec (cd_weight entry - cd_weight y) 0),
             (Z.eqb_spec (cd_weight y - cd_weight entry) 0); cbn [negb]; lia.
Qed.

Lemma compareCandidates_trans a b c :
  compareCandidates a b <= 0 -> compareCandidates b c <= 0 -> compareCandidates a c <= 0.
Proof.
  unfold compareCandidates. cbv zeta.
  destruct (m_piece (cd_move a)), (m_piece (cd_move b)), (m_piece (cd_move c));
    cbn [PieceType_eqb negb piecePriority];
    destruct (Z.eqb_spec (cd_weight b - cd_weight a) 0),
             (Z.eqb_spec (cd_weight c - cd_weight b) 0),
             (Z.eqb_spec (cd_weight c - cd_weight a) 0); cbn [negb]; lia.
Qed.

Lemma compareCandidates_weight a b :
  compareCandidates a b <= 0 -> cd_weight b - cd_weight a <= 0.
Proof.
  unfold compareCandidates. cbv zeta.
  destruct (Z.eqb_spec (cd_weight b - cd_weight a) 0); cbn [negb]; lia.
Qed.

Lemma sortedBy_impl {A} (compare compare' : A -> A -> Z) l :
  (forall a b, compare a b <= 0 -> compare' a b <= 0) ->
  sortedBy compare l -> sortedBy compare' l.
Proof.
  intros Himpl. induction l as [| a r IH]; [auto |]. cbn [sortedBy].
  intros [H1 H2]. split; auto.
Qed.

Lemma insertCandidate_In entry sorted b :
  In b (insertCandidate entry sorted) -> b = entry \/ In b sorted.
Proof.
  intros H. apply (Permutation_in _ (insertCandidate_perm entry sorted)) in H.
  destruct H as [<- | H]; auto.
Qed.

Lemma insertCandidate_sorted entry sorted :
  sortedBy compareCandidates sorted -> sortedBy compareCandidates (insertCandidate entry sorted).
Proof.
  induction sorted as [| y r IH]; cbn [insertCandidate sortedBy].
  - intros _. split; [intros b [] | exact I].
  - intros [Hy Hr]. destruct (Z.ltb_spec 0 (compareCandidates y entry)) as [Hlt | Hge].
    + cbn [sortedBy]. split; [| auto].
      intros b [<- | Hb]; [now apply compareCandidates_swap |].
      apply (compareCandidates_trans entry y b); [now apply compareCandidates_swap | auto].
    + cbn [sortedBy]. split; [| auto].
      intros b Hb. apply insertCandidate_In in Hb as [-> | Hb]; [lia | auto].
Qed.

Lemma sortCandidates_sorted l : sortedBy compareCandidates (sortCandidates l).
Proof.
  unfold sortCandidates.
  assert (Hgen : forall acc, sortedBy compareCandidates acc ->
                             sortedBy compareCandidates
                               (fold_left (fun sorted entry => insertCandidate entry sorted) l acc)).
  { induction l as [| e l IH]; intros acc Hacc; [exact Hacc |].
    cbn [fold_left]. apply IH. now apply insertCandidate_sorted. }
  apply Hgen. exact I.
Qed.

Lemma weighed_moves tokenInfo legalMoves :
  map cd_move
    (flat_map (fun legal =>
                 let weight := baseWeight tokenInfo legal in
                 if weight =? 0 then []
                 else [{| cd_move := legal;
                          cd_weight := candidateWeight tokenInfo legal weight |}])
       legalMoves)
  = List.filter (fun legal => negb (baseWeight tokenInfo legal =? 0)) legalMoves.
Proof.
  match goal with |- context [flat_map ?f _] => set (weigh := f) end.
  induction legalMoves as [| legal r IH]; [reflexivity |].
  cbn [flat_map List.filter]. rewrite map_app, IH. subst weigh. cbv beta zeta.
  destruct (baseWeight tokenInfo legal =? 0); reflexivity.
Qed.

(** X27.  [buildCandidateList] returns the legal moves that match the
    token in some way, each once for each time the library lists it, in
    the order of its comparator: no candidate belongs behind one that
    follows it, so the weights never rise along the list.  A token with
    no normalised text has no candidates. *)
Theorem candidates_heaviest_first (g : game) (tokenInfo : TokenInfo)
    (legalMoves : list Move) (candidates : list Candidate) :
  moves g = Ret legalMoves ->
  buildCandidateList g tokenInfo = Ret candidates ->
  sortedBy compareCandidates candidates
  /\ sortedBy (fun a b => cd_weight b - cd_weight a) candidates
  /\ (ti_normalized tokenInfo = "" -> candidates = [])
  /\ (ti_normalized tokenInfo <> "" ->
      Permutation (map cd_move candidates)
        (List.filter (fun legal => negb (baseWeight tokenInfo legal =? 0)) legalMoves)).
Proof.
  intros Hmoves H. unfold buildCandidateList in H.
  assert (Hsorted : sortedBy compareCandidates candidates).
  { destruct (ti_normalized tokenInfo); [injection H as <-; exact I |].
    rewrite Hmoves in H. injection H as <-. apply sortCandidates_sorted. }
  split; [exact Hsorted |]. split; [| split].
  - revert Hsorted. apply sortedBy_impl. apply compareCandidates_weight.
  - intros Hn. rewrite Hn in H. now injection H as <-.
  - intros Hn. destruct (ti_normalized tokenInfo); [congruence |].
    rewrite Hmoves in H. injection H as <-.
    rewrite <- weighed_moves. apply Permutation_map, sortCandidates_perm.
Qed.

End CandidateOrder.

(** *** A move list the library understands *)

Lemma parseTokenHints_raw token : ti_raw (parseTokenHints token) = token.
Proof.
  unfold parseTokenHints. cbv zeta.
  repeat match goal with
         | |- context [match ?x with _ => _ end] => destruct x
         end; reflexivity.
Qed.

Section Replay.
Context {L : ChessLib} {S : SloppyLib L}.

Lemma applyToken_as_written g token m g' :
  token <> "" -> moveSloppy g token = Ret (Some (m, g')) ->
  applyToken g (parseTokenHints token)
  = Ret (Some ({| oc_move := m; oc_matched := token; oc_inferred := false |}, g')).
Proof.
  intros Hne Hmove. unfold applyToken.
  destruct (collectAttemptStrings_spec (parseTokenHints token)) as (_ & _ & _ & Hhead).
  rewrite parseTokenHints_raw in Hhead. specialize (Hhead Hne).
  destruct (collectAttemptStrings (parseTokenHints token)) as [| first rest]; [discriminate |].
  injection Hhead as ->. cbn [tryAttempts]. now rewrite Hmove.
Qed.

Lemma rebuildFrom_accepted tokens : forall g ms final,
  Accepted g tokens ms final ->
  exists applied,
    rebuildFrom g (map parseTokenHints tokens) = Ret (final, applied, [])
    /\ map oc_move applied = ms
    /\ map oc_matched applied = tokens
    /\ Forall (fun outcome => oc_inferred outcome = false) applied.
Proof.
  induction tokens as [| token tokens IH]; intros g ms final H; inversion H; subst.
  - exists []. cbn. auto.
  - match goal with Hrest : Accepted _ tokens _ final |- _ =>
      destruct (IH _ _ _ Hrest) as (applied & Hrun & Hmoves & Hmatched & Hinf) end.
    eexists (_ :: applied). cbn [map rebuildFrom].
    erewrite applyToken_as_written by eassumption. rewrite Hrun.
    split; [reflexivity |]. cbn [map oc_move oc_matched]. rewrite Hmoves, Hmatched.
    repeat split. constructor; [reflexivity | exact Hinf].
Qed.

(** X28.  A move list the library understands is replayed as it stands:
    when the library accepts the texts one after the other from the
    initial position, [rebuildGameFromTokens] over their hints ends in
    the same position, applies exactly the moves the library answered
    with, each matched by the text as written and none inferred, and
    ignores nothing. *)
Theorem accepted_move_list_is_replayed (tokens : list string) (initial final : game)
    (ms : list Move) :
  createChessInstance None = Ret initial ->
  Accepted initial tokens ms final ->
  exists applied,
    rebuildGameFromTokens (map parseTokenHints tokens) = Ret (final, applied, [])
    /\ map oc_move applied = ms
    /\ map oc_matched applied = tokens
    /\ Forall (fun outcome => oc_inferred outcome = false) applied.
Proof.
  intros Hnew Hacc. unfold rebuildGameFromTokens. rewrite Hnew.
  now apply rebuildFrom_accepted.
Qed.

End Replay.

(** ** Starting the engine *)

(** A call suspended on a fresh [waitFor] promise stays suspended while
    nothing settles the promise, and resumes with the line that is
    accepted or with the error of the timer. *)
Lemma await_resumes {A} predicate timeout (next : Res string -> Proc A) e evs :
  idsBelowCounter e ->
  Forall (fun ev => quiet (en_next e) predicate (Occurs ev)) evs ->
  let e' := performAll (snd (waitFor predicate timeout e)) (map Occurs evs) in
  deliverAll (Blocked (en_next e) next, snd (waitFor predicate timeout e)) evs
  = (Blocked (en_next e) next, e')
  /\ en_sent e' = en_sent e
  /\ deliver (Blocked (en_next e) next, e') (Timer (en_next e))
     = start (next (Throw timeoutError)) (timerFires (en_next e) e')
  /\ en_sent (timerFires (en_next e) e') = en_sent e
  /\ forall p, payloadLine p <> "" -> predicate (payloadLine p) = Ret true ->
       deliver (Blocked (en_next e) next, e') (Message p)
       = start (next (Ret (payloadLine p))) (handleMessage p e')
       /\ en_sent (handleMessage p e') = en_sent e
       /\ idsBelowCounter (handleMessage p e').
Proof.
  intros Hids Hq e'.
  pose proof (waitFor_waiting predicate timeout e Hids) as Hw.
  assert (Hk : fst (waitFor predicate timeout e) = en_next e) by reflexivity.
  rewrite Hk in Hw.
  destruct (blocked_stays (en_next e) predicate next evs _ Hw Hq) as [Hst Hw'].
  fold e' in Hst, Hw'.
  destruct (events_send_nothing evs (snd (waitFor predicate timeout e))) as [Hsent _].
  fold e' in Hsent.
  assert (Hsent' : en_sent e' = en_sent e) by (rewrite Hsent; reflexivity).
  assert (Hids' : idsBelowCounter e').
  { apply idsBelowCounter_events.
    apply (idsBelowCounter_perform e (Registers predicate timeout)). exact Hids. }
  split; [exact Hst |]. split; [exact Hsent' |]. split; [| split].
  - destruct (timeout_rejects _ _ e' Hw') as (Hrej & _).
    unfold deliver. cbn [happen]. now rewrite Hrej.
  - unfold timerFires. destruct (existsb _ (en_timers e')); exact Hsent'.
  - intros p Hne Hyes.
    destruct (accepted_line_resolves _ _ e' p Hw' Hne Hyes) as (Hres & _).
    split; [unfold deliver; cbn [happen]; now rewrite Hres |]. split.
    + rewrite handleMessage_text by exact Hne. cbv zeta. fields.
      destruct (offers_rest (payloadLine p) (rev (en_waiters e')) e') as (_ & _ & Hs & _).
      now rewrite Hs.
    + apply (idsBelowCounter_perform e' (Occurs (Message p))). exact Hids'.
Qed.

(** X29.  The handshake of [init]: it posts [uci] and waits; when a line
    [uciok] comes it posts the three options and [isready], nothing
    else, and waits again; when [readyok] comes it returns with the
    engine marked as initialised.  When either wait times out the call
    throws the timeout error; after the first timeout nothing but [uci]
    was posted.  An engine that is initialised already is left alone. *)
Theorem init_handshake (e : Engine) (evs1 evs2 : list Event) (p1 p2 : Payload) :
  idsBelowCounter e ->
  Forall (fun ev => quiet (en_next e) isUciOk (Occurs ev)) evs1 ->
  payloadLine p1 <> "" -> isUciOk (payloadLine p1) = Ret true ->
  let st1 := deliverAll (start (init false) e) evs1 in
  let st2 := deliver st1 (Message p1) in
  start (init true) e = (Finished (Ret true), e)
  /\ en_sent (snd st1) = (en_sent e ++ ["uci"])%list
  /\ fst (deliver st1 (Timer (en_next e))) = Finished (Throw timeoutError)
  /\ en_sent (snd (deliver st1 (Timer (en_next e)))) = (en_sent e ++ ["uci"])%list
  /\ exists k2 next2,
       fst st2 = Blocked k2 next2
       /\ en_sent (snd st2) = (en_sent e ++ "uci" :: initOptions ++ ["isready"])%list
       /\ (Forall (fun ev => quiet k2 isReadyOk (Occurs ev)) evs2 ->
           fst (deliver (deliverAll st2 evs2) (Timer k2)) = Finished (Throw timeoutError)
           /\ (payloadLine p2 <> "" -> isReadyOk (payloadLine p2) = Ret true ->
               fst (deliver (deliverAll st2 evs2) (Message p2)) = Finished (Ret true)
               /\ en_sent (snd (deliver (deliverAll st2 evs2) (Message p2)))
                  = en_sent (snd st2))).
Proof.
  intros Hids Hq1 Hne1 Hok1 st1 st2.
  split; [reflexivity |].
  set (e0 := send "uci" e).
  assert (Hids0 : idsBelowCounter e0) by (apply (idsBelowCounter_perform e (Posts "uci")); exact Hids).
  assert (Hn0 : en_next e0 = en_next e) by reflexivity.
  match eval cbv beta iota delta [init andThen awaitLine] in (init false) with
  | Send _ (Await _ _ ?next) => set (next1 := next)
  end.
  assert (Hstart : start (init false) e = (Blocked (en_next e0) next1, snd (waitFor isUciOk 10000 e0)))
    by reflexivity.
  rewrite <- Hn0 in Hq1.
  destruct (await_resumes isUciOk 10000 next1 e0 evs1 Hids0 Hq1)
    as (Hst1 & Hsent1 & Htimer1 & Htsent1 & Hline1).
  cbv zeta in Hst1, Hsent1, Htimer1, Htsent1, Hline1.
  set (e1 := performAll (snd (waitFor isUciOk 10000 e0)) (map Occurs evs1)) in *.
  assert (Est1 : st1 = (Blocked (en_next e0) next1, e1)).
  { subst st1. rewrite Hstart. exact Hst1. }
  assert (Hsent0 : en_sent e0 = (en_sent e ++ ["uci"])%list) by reflexivity.
  split; [rewrite Est1; cbn [snd]; now rewrite Hsent1 |].
  rewrite <- Hn0. rewrite Est1, Htimer1. subst next1. cbn [start fst snd].
  split; [reflexivity |]. split; [now rewrite Htsent1 |].
  destruct (Hline1 p1 Hne1 Hok1) as (Hrun2 & Hsent2 & Hids2).
  set (e2 := handleMessage p1 e1) in *.
  set (e3 := send "isready" (fold_left (fun en c => send c en) initOptions e2)).
  assert (Hids3 : idsBelowCounter e3).
  { subst e3. cbn [fold_left initOptions].
    repeat apply (fun en c => idsBelowCounter_perform en (Posts c)). exact Hids2. }
  match eval cbv beta iota delta [andThen awaitLine] in
        (andThen (awaitLine isReadyOk 10000) (fun _ : string => @Done bool true)) with
  | Await _ _ ?next => set (next2 := next)
  end.
  assert (Est2 : st2 = (Blocked (en_next e3) next2, snd (waitFor isReadyOk 10000 e3))).
  { subst st2. rewrite Est1, Hrun2. reflexivity. }
  exists (en_next e3), next2. rewrite Est2. cbn [fst snd].
  assert (Hsent3 : en_sent e3 = (en_sent e ++ "uci" :: initOptions ++ ["isready"])%list).
  { subst e3. cbn [fold_left initOptions send en_sent app]. rewrite Hsent2, Hsent0.
    rewrite <- !app_assoc. reflexivity. }
  split; [reflexivity |]. split; [exact Hsent3 |].
  intros Hq2.
  destruct (await_resumes isReadyOk 10000 next2 e3 evs2 Hids3 Hq2)
    as (Hst3 & Hsent4 & Htimer3 & _ & Hline3).
  cbv zeta in Hst3, Hsent4, Htimer3, Hline3. rewrite Hst3.
  split; [rewrite Htimer3; reflexivity |].
  intros Hne2 Hok2. destruct (Hline3 p2 Hne2 Hok2) as (Hrun4 & Hsent5 & _).
  rewrite Hrun4. subst next2. cbn [start fst snd]. split; [reflexivity |].
  rewrite Hsent5. reflexivity.
Qed.

(** ** Stored engine payloads *)

Lemma reverseString_twice s : forall a b,
  reverseString (reverseString s a) b = reverseString a (s ++ b).
Proof.
  induction s as [| c r IH]; intros a b; [reflexivity |].
  cbn [reverseString]. rewrite IH. reflexivity.
Qed.

Lemma allChars_reverseString test s : forall acc,
  allChars test s = true -> allChars test acc = true ->
  allChars test (reverseString s acc) = true.
Proof.
  induction s as [| c r IH]; intros acc Hs Hacc; [exact Hacc |].
  cbn [allChars] in Hs. apply andb_prop in Hs as [Hc Hr].
  cbn [reverseString]. apply IH; [exact Hr |]. cbn [allChars]. now rewrite Hc, Hacc.
Qed.

Lemma trimStart_plain s : allChars (fun c => negb (isSpace c)) s = true -> trimStart s = s.
Proof.
  destruct s as [| c r]; [reflexivity |]. cbn [allChars trimStart]. intros H.
  apply andb_prop in H as [H _]. apply negb_true_iff in H. now rewrite H.
Qed.

Lemma trim_plain s : allChars (fun c => negb (isSpace c)) s = true -> trim s = s.
Proof.
  intros H. unfold trim. rewrite (trimStart_plain s H).
  rewrite trimStart_plain by (apply allChars_reverseString; [exact H | reflexivity]).
  rewrite reverseString_twice. cbn [reverseString]. apply append_empty_r.
Qed.

Lemma normalizeBase64_plain s :
  allChars (fun c => negb (isSpace c)) s = true -> normalizeBase64 (Some s) = s.
Proof.
  intros H.
  change (normalizeBase64 (Some s)) with (trim (keepChars (fun c => negb (isSpace c)) s)).
  assert (Hkeep : keepChars (fun c => negb (isSpace c)) s = s).
  { induction s as [| c r IH]; [reflexivity |]. cbn [allChars] in H.
    apply andb_prop in H as [Hc Hr]. cbn [keepChars]. rewrite Hc. now rewrite IH. }
  rewrite Hkeep. now apply trim_plain.
Qed.

Lemma base64Char_plain n :
  isSpace (base64Char n) = false /\ Ascii.eqb (base64Char n) "=" = false.
Proof.
  unfold base64Char.
  do 64 (destruct n as [| n]; [vm_compute; auto |]).
  cbn. vm_compute. auto.
Qed.

Ltac notPadding :=
  match goal with
  | |- context [Ascii.eqb (base64Char ?n) "="] => rewrite (proj2 (base64Char_plain n))
  end.

Lemma string_ind3 (P : string -> Prop) :
  P "" -> (forall a, P (String a "")) -> (forall a b, P (String a (String b ""))) ->
  (forall a b c r, P r -> P (String a (String b (String c r)))) ->
  forall s, P s.
Proof.
  intros H0 H1 H2 H3 s.
  assert (H : P s /\ (forall a, P (String a s)) /\ (forall a b, P (String a (String b s)))).
  { induction s as [| c r (IH0 & IH1 & IH2)]; [auto |]. auto. }
  apply H.
Qed.

Lemma endsWith_cons c s t :
  (String.length t <= String.length s)%nat -> endsWith (String c s) t = endsWith s t.
Proof.
  intros H. unfold endsWith, lastChars. cbn [String.length].
  replace (S (String.length s) - String.length t)%nat
    with (S (String.length s - String.length t)) by lia.
  cbn [sliceFrom].
  destruct (Nat.leb_spec (String.length t) (String.length s)); [| lia].
  destruct (Nat.leb_spec (String.length t) (S (String.length s))); [| lia].
  reflexivity.
Qed.

Lemma endsWith_one c t :
  endsWith (String c "") (String t "") = Ascii.eqb c t
  /\ forall u, endsWith (String c "") (String t (String u "")) = false.
Proof.
  split; [| reflexivity].
  unfold endsWith, lastChars. cbn. destruct (Ascii.eqb c t); reflexivity.
Qed.

(** The text [btoa] gives: its length, its characters and its end. *)
Lemma btoa_shape binary :
  String.length (btoa binary) = (4 * ((String.length binary + 2) / 3))%nat
  /\ allChars (fun c => negb (isSpace c)) (btoa binary) = true
  /\ endsWith (btoa binary) "==" = (String.length binary mod 3 =? 1)%nat
  /\ endsWith (btoa binary) "=" = negb (String.length binary mod 3 =? 0)%nat.
Proof.
  induction binary as [| a | a b | a b c r (Hlen & Hplain & Htwo & Hone)] using string_ind3.
  - repeat split.
  - cbn [btoa]. cbv zeta. split; [reflexivity |]. split; [| split; reflexivity].
    cbn [allChars]. now rewrite !(proj1 (base64Char_plain _)).
  - cbn [btoa]. cbv zeta. split; [reflexivity |]. split; [| split].
    + cbn [allChars]. now rewrite !(proj1 (base64Char_plain _)).
    + unfold endsWith, lastChars. cbn. now notPadding.
    + reflexivity.
  - cbn [btoa]. cbv zeta. cbn [String.length].
    assert (Hdiv : ((S (S (S (String.length r))) + 2) / 3
                    = S ((String.length r + 2) / 3))%nat).
    { replace (S (S (S (String.length r))) + 2)%nat
        with (1 * 3 + (String.length r + 2))%nat by lia.
      rewrite Nat.div_add_l by lia. lia. }
    assert (Hmod : (S (S (S (String.length r))) mod 3 = String.length r mod 3)%nat).
    { replace (S (S (S (String.length r)))) with (String.length r + 1 * 3)%nat by lia.
      apply Nat.Div0.mod_add. }
    rewrite Hdiv, Hmod, Hlen.
    split; [lia |]. split.
    { cbn [allChars]. now rewrite !(proj1 (base64Char_plain _)), Hplain. }
    destruct r as [| d r'].
    + cbn [btoa]. split.
      * unfold endsWith, lastChars. cbn. now notPadding.
      * unfold endsWith, lastChars. cbn. now notPadding.
    + assert (Hlong : (4 <= String.length (btoa (String d r')))%nat).
      { rewrite Hlen. cbn [String.length].
        assert (1 <= (S (String.length r') + 2) / 3)%nat
          by (apply Nat.div_le_lower_bound; lia).
        lia. }
      rewrite !endsWith_cons by (cbn [String.length] in *; lia).
      auto.
Qed.

(** X30.  The size [estimateBase64DecodedSize] gives for a text is
    exact when the text is [btoa] of some bytes, however white space is
    spread over it: it is the number of those bytes.  For no text at
    all it is 0. *)
Theorem base64_size_estimate_exact (text binary : string) :
  normalizeBase64 (Some text) = btoa binary ->
  estimateBase64DecodedSize (Some text) = Z.of_nat (String.length binary)
  /\ estimateBase64DecodedSize (Some (btoa binary)) = Z.of_nat (String.length binary)
  /\ estimateBase64DecodedSize None = 0.
Proof.
  intros Hnorm.
  destruct (btoa_shape binary) as (Hlen & Hplain & Htwo & Hone).
  assert (Hsize : forall t, normalizeBase64 (Some t) = btoa binary ->
                  estimateBase64DecodedSize (Some t) = Z.of_nat (String.length binary)).
  { intros t Ht. unfold estimateBase64DecodedSize. cbv zeta. rewrite Ht.
    destruct (btoa binary) as [| c r] eqn:Hb.
    - cbn [String.length] in Hlen.
      assert (String.length binary = 0)%nat.
      { destruct (Nat.eq_dec (String.length binary) 0%nat) as [Hz | Hnz]; [exact Hz |].
        assert (1 <= (String.length binary + 2) / 3)%nat
          by (apply Nat.div_le_lower_bound; lia).
        lia. }
      lia.
    - rewrite Htwo, Hone, Hlen.
      set (n := String.length binary) in *.
      set (k := ((n + 2) / 3)%nat).
      replace (Z.of_nat (4 * k) * 3) with (3 * Z.of_nat k * 4) by lia.
      rewrite Z.div_mul by lia.
      pose proof (Nat.div_mod_eq (n + 2) 3) as Hdm. fold k in Hdm.
      pose proof (Nat.mod_upper_bound (n + 2) 3 ltac:(lia)) as Hub.
      pose proof (Nat.div_mod_eq n 3) as Hdm'.
      destruct (n mod 3)%nat as [| [| [| m]]] eqn:Hm; cbn [Nat.eqb negb]; try lia.
      pose proof (Nat.mod_upper_bound n 3 ltac:(lia)). lia. }
  split; [now apply Hsize |]. split; [| reflexivity].
  apply Hsize. now apply normalizeBase64_plain.
Qed.

(** ** Concrete runs *)

(** A caller that asks to stop: both searches answer with the static
    evaluation (0 here, the scripted position has no board) and count the
    timeout. *)
Lemma cancellation_short_circuit_run :
  fst (@negamax QNum smallLib 1 stopAtOnce 3 NInf PInf White 0 None (worldAt posA))
  = Val (@Fin QNum 0%Q)
  /\ fst (@quiescence QNum smallLib 1 stopAtOnce NInf PInf White 0 None 6 (worldAt posA))
     = Val (@Fin QNum 0%Q).
Proof.
  destruct (@cancellation_short_circuit QNum smallLib 0 stopAtOnce 3 NInf PInf White 0 None 6
              (worldAt posA) eq_refl) as [(w1 & H1 & _) (w2 & H2 & _)].
  split.
  - rewrite H1. reflexivity.
  - rewrite H2. reflexivity.
Defined.

(** The move from [E] leads to a position on which the move generator
    throws: the lookahead ends with that error and the position is [E]
    again. *)
Lemma lookahead_restores_position_run :
  fst (@evaluateMoveConsequences QNum smallLib moveED (worldAt posE))
  = Err "move generation failed"
  /\ @fen smallLib (w_game (snd (@evaluateMoveConsequences QNum smallLib moveED (worldAt posE))))
     = "E w".
Proof.
  destruct (@lookahead_restores_position QNum smallLib moveED (worldAt posE) moveED
              {| now := posD; past := [(moveED, posE)] |} (fresh posE)
              eq_refl eq_refl eq_refl) as (H1 & H2 & _).
  split.
  - rewrite H1. reflexivity.
  - exact H2.
Defined.

(** The stalemated position [B]: no engine command, the empty result. *)
Lemma no_legal_moves_short_circuit_run :
  start (@analyzeWithStockfish smallLib (fun _ _ => []) "engine" (fresh posB)) newEngine
  = (Finished (Ret None), newEngine)
  /\ fst (@analyzeFallback QNum smallLib 0 (fresh posB)
            {| o_depth := None; o_maxDepth := None; o_minDepth := None;
               o_timeBudget := None; o_shouldStop := None |} (fun _ => 0%Q) None)
     = Val (@emptyResult QNum).
Proof.
  destruct (@no_legal_moves_short_circuit smallLib QNum (fresh posB) (fun _ _ => []) "engine"
              newEngine 0
              {| o_depth := None; o_maxDepth := None; o_minDepth := None;
                 o_timeBudget := None; o_shouldStop := None |} (fun _ => 0%Q) None eq_refl)
    as (H1 & w' & H2 & _).
  split.
  - exact H1.
  - rewrite H2. reflexivity.
Defined.

(** In position [A] the move [a1a2] is legal and is written [Ka2]; the
    move [a1b1] is not, and comes back as it is; so does any move when the
    FEN is unknown to the library. *)
Lemma uciToSan_total_run :
  @uciToSan smallLib "A w" (Some "a1a2") = Ret (Some "Ka2")
  /\ @uciToSan smallLib "A w" (Some "a1b1") = Ret (Some "a1b1")
  /\ @uciToSan smallLib "no such position" (Some "a1a2") = Ret (Some "a1a2").
Proof.
  split; [| split].
  - destruct (@uciToSan_total smallLib "A w" "a1a2") as (H & _); [discriminate |].
    rewrite H. reflexivity.
  - destruct (@uciToSan_total smallLib "A w" "a1b1") as (H & _); [discriminate |].
    rewrite H. reflexivity.
  - destruct (@uciToSan_total smallLib "no such position" "a1a2") as (H & _); [discriminate |].
    rewrite H. reflexivity.
Defined.

(** Position [A] is not terminal and the table holds an entry of depth 3
    for it; a search of depth 1 runs into no cut and leaves an entry of
    depth 1 under the same key. *)
Lemma negamax_table_writes_run :
  exists entry,
    w_table (snd (@negamax QNum smallLib 3 unhurried 1 NInf PInf White 0 None
                    worldWithDeeperEntry)) !! "A w" = Some entry
    /\ e_depth entry = 1.
Proof.
  pose (r := @negamax QNum smallLib 3 unhurried 1 NInf PInf White 0 None worldWithDeeperEntry).
  assert (Hrun : r = (Val (@Fin QNum (- 0)%Q), snd r)) by (vm_compute; reflexivity).
  destruct (@negamax_table_writes QNum smallLib 3 unhurried 1 NInf PInf White 0 None
              worldWithDeeperEntry worldWithDeeperEntry _ (snd r) Hrun eq_refl)
    as [_ Hstore].
  destruct (Hstore eq_refl eq_refl eq_refl) as (entry & H1 & H2 & _).
  exists entry. split; assumption.
Defined.

(** C1.  The code breaks the invariant that an entry of the table is
    overwritten only by a result of at least its depth, terminal results
    apart.  The table holds an entry of depth 3 for the position [A],
    which is not terminal; [negamax] called on it with depth 1 replaces
    that entry by one of depth 1. *)
Lemma shallower_result_overwrites_deeper_entry :
  @game_over smallLib (fresh posA) = Ret false
  /\ @e_depth QNum <$> (w_table worldWithDeeperEntry !! "A w") = Some 3
  /\ @e_depth QNum <$> (w_table (snd (@negamax QNum smallLib 3 unhurried 1 NInf PInf White 0 None
                                  worldWithDeeperEntry)) !! "A w") = Some 1.
Proof. vm_compute. repeat split. Qed.

(** A call with no budget left at position [A], whose stand-pat score
    0 lies inside the window, returns that score without a nested call;
    the default budget of 6 is served by 7 nested calls. *)
Lemma quiescence_recursion_within_budget_run :
  fst (@quiescence QNum smallLib 3 unhurried NInf PInf White 0 None 0 (worldAt posA))
  = Val (@Fin QNum 0%Q)
  /\ fst (@quiescence QNum smallLib 7 unhurried NInf PInf White 0 None 6 (worldAt posA))
     <> OutOfFuel.
Proof.
  pose (r := @evaluateTerminalState QNum smallLib White 0 None (snd (countNode (worldAt posA)))).
  assert (He : r = (Val 0%Q, snd r)) by (vm_compute; reflexivity).
  destruct (@quiescence_recursion_within_budget QNum smallLib unhurried NInf PInf White 0 None
              0 2 (worldAt posA)) as (_ & _ & _ & Hstop).
  destruct (@quiescence_recursion_within_budget QNum smallLib unhurried NInf PInf White 0 None
              6 0 (worldAt posA)) as (_ & _ & Hdefault & _).
  split; [| exact Hdefault].
  change (fst (@quiescence QNum smallLib (S (Z.to_nat 0) + 2) unhurried NInf PInf White 0 None 0
                 (worldAt posA)) = Val (@Fin QNum 0%Q)).
  rewrite (Hstop (worldAt posA) 0%Q (snd r) ltac:(lia) eq_refl He). reflexivity.
Defined.

(** C6, counterexample.  Position [C] is a mate against the side to
    move, so its stand-pat score for White at ply 0 is 1000.  With [beta]
    at 1 a call with no budget left returns 1, not the stand-pat score. *)
Lemma stand_pat_above_beta_is_not_returned :
  fst (@evaluateTerminalState QNum smallLib White 0 None (snd (countNode (worldAt posC))))
  = Val 1000%Q
  /\ fst (@quiescence QNum smallLib 1 unhurried NInf (@Fin QNum 1%Q) White 0 None 0
            (worldAt posC))
     = Val (@Fin QNum 1%Q)
  /\ @Fin QNum 1%Q <> @Fin QNum 1000%Q.
Proof. vm_compute. repeat split. discriminate. Qed.

(** An info line and a posted command leave a waiter for [readyok]
    waiting; the [readyok] line resolves it, and its timer, had it run
    out instead, would have rejected it for good. *)
Lemma waitFor_resolves_or_times_out_run :
  en_settled (performAll
                (handleMessage (PText "readyok")
                   (performAll (snd (waitFor isReadyOk 10000 newEngine))
                      [Occurs (Message (PText "info depth 1")); Posts "stop"]))
                [Occurs (Message (PText "readyok"))]) !! 0%nat
  = Some (Resolved "readyok")
  /\ en_settled (performAll
                   (timerFires 0
                      (performAll (snd (waitFor isReadyOk 10000 newEngine))
                         [Occurs (Message (PText "info depth 1")); Posts "stop"]))
                   [Occurs (Message (PText "readyok"))]) !! 0%nat
     = Some (Rejected timeoutError).
Proof.
  assert (Hq : Forall (quiet (fst (waitFor isReadyOk 10000 newEngine)) isReadyOk)
                 [Occurs (Message (PText "info depth 1")); Posts "stop"]).
  { constructor; [right; vm_compute; discriminate |].
    constructor; [exact I | constructor]. }
  destruct (waitFor_resolves_or_times_out newEngine isReadyOk 10000
              [Occurs (Message (PText "info depth 1")); Posts "stop"]
              [Occurs (Message (PText "readyok"))] idsBelowCounter_new Hq)
    as (_ & Hline & Htimer & _).
  split.
  - apply (Hline (PText "readyok")); [discriminate | reflexivity].
  - exact Htimer.
Defined.

(** C7, counterexample.  A message without text is dropped before any
    waiter sees it: a waiter whose predicate accepts every line is still
    waiting after an empty message, and is resolved by the message after
    it, not by the empty one. *)
Lemma empty_line_is_not_delivered :
  let k := fst (waitFor acceptAll 10000 newEngine) in
  let e1 := snd (waitFor acceptAll 10000 newEngine) in
  acceptAll "" = Ret true
  /\ en_settled (handleMessage (PText "") e1) !! k = None
  /\ en_settled (handleMessage (PText "readyok") (handleMessage (PText "") e1)) !! k
     = Some (Resolved "readyok").
Proof. vm_compute. repeat split. Qed.

(** After a wait for the best move that timed out on a fresh session:
    [stop] and [isready] are posted and the call waits for [readyok]. *)
Lemma bestmove_timeout_cleanup_run :
  exists k2 next2,
    fst (deliver (start (@finishAnalysis smallLib (fun _ _ => []) "engine" "A w" 12 7) newEngine)
           (Timer 0))
    = Blocked k2 next2
    /\ en_sent (snd (deliver (start (@finishAnalysis smallLib (fun _ _ => []) "engine" "A w" 12 7)
                                newEngine) (Timer 0)))
       = ["stop"; "isready"].
Proof.
  destruct (@bestmove_timeout_cleanup smallLib (fun _ _ => []) "engine" "A w" 12 7 newEngine []
              idsBelowCounter_new (List.Forall_nil _))
    as (k2 & next2 & H1 & H2 & _).
  exists k2, next2. split; [exact H1 | exact H2].
Defined.

(** C8, counterexample.  The engine answers the three readiness probes
    of the set-up and then falls silent: the wait for the best move times
    out, [stop] and [isready] are posted, the wait for [readyok] times out
    as well, and [analyzeWithStockfish] returns [null] although the
    readiness of the engine was never confirmed. *)
Lemma returns_without_confirmed_readiness :
  let st :=
    deliverAll
      (start (@analyzeWithStockfish smallLib (fun _ _ => []) "engine" (fresh posA)) newEngine)
      [Message (PText "readyok"); Message (PText "readyok"); Message (PText "readyok");
       Timer 4; Timer 5] in
  fst st = Finished (Ret None)
  /\ en_sent (snd st)
     = ["setoption name MultiPV value 1"; "isready"; "isready"; "ucinewgame"; "isready";
        "position fen A w"; "go depth 12"; "stop"; "isready"]
  /\ en_settled (snd st) !! 4%nat = Some (Rejected timeoutError)
  /\ en_settled (snd st) !! 5%nat = Some (Rejected timeoutError).
Proof. vm_compute. repeat split. Qed.

Lemma initial_mirrored :
  @mirrored openingLib (fresh (initialPos White)) (fresh (initialPos Black)).
Proof.
  exists initialBoard.
  split; [reflexivity |]. split; [reflexivity |].
  split; [split; [reflexivity | repeat constructor] |].
  split; [intros c; destruct c; vm_compute; lia |].
  split; [reflexivity |].
  intros c; destruct c; vm_compute; reflexivity.
Defined.

Lemma freshContext_balanced : balanced freshContext.
Proof. repeat split. Defined.

Lemma initial_standard :
  @standard openingLib (fresh (initialPos White)) (Some freshContext).
Proof.
  split; [| split].
  - intros b H. injection H as <-. split; [reflexivity | repeat constructor].
  - intros ctx H. injection H as <-. split; [cbn; lia |].
    intros c; destruct c; cbn; lia.
  - intros c; destruct c; vm_compute; discriminate.
Defined.

Lemma evaluation_color_symmetry_run :
  (@evaluatePosition QNum openingLib (fresh (initialPos Black)) (Some freshContext)
   == - @evaluatePosition QNum openingLib (fresh (initialPos White)) (Some freshContext))%Q.
Proof.
  apply (@evaluation_color_symmetry openingLib _ _ freshContext
           initial_mirrored freshContext_balanced).
Defined.

(** Under binary64 arithmetic the two evaluations of the initial position
    are not negations of each other: the terms are the same but they are
    added to different running totals. *)
Lemma rounding_breaks_exact_negation :
  @mirrored openingLib (fresh (initialPos White)) (fresh (initialPos Black))
  /\ balanced freshContext
  /\ PrimFloat.eqb
       (@evaluatePosition F64 openingLib (fresh (initialPos Black)) (Some freshContext))
       (PrimFloat.opp
          (@evaluatePosition F64 openingLib (fresh (initialPos White)) (Some freshContext)))
     = false.
Proof.
  split; [exact initial_mirrored |]. split; [exact freshContext_balanced |].
  vm_compute. reflexivity.
Qed.

Lemma terminal_state_scoring_run :
  exists v1 v2 : Q,
    fst (evaluateTerminalState White 1 (Some freshContext) (openingWorld posC)) = Val v1
    /\ fst (evaluateTerminalState White 3 (Some freshContext) (openingWorld posC)) = Val v2
    /\ (v2 < v1)%Q
    /\ (@evaluateForPerspective QNum openingLib (fresh (initialPos White)) White
          (Some freshContext) < v2)%Q.
Proof.
  apply (proj2 (@terminal_state_scoring openingLib) White 1 3
           (Some freshContext) (Some freshContext) (Some freshContext)
           (openingWorld posC) (openingWorld posC) (fresh (initialPos White))).
  - reflexivity.
  - discriminate.
  - reflexivity.
  - discriminate.
  - lia.
  - exact initial_standard.
Defined.

(** A mate of the opponent at ply 1000 scores 0, which is less than the
    static evaluation of the initial position with White to move. *)
Lemma late_mate_scores_below_static_evaluation :
  in_checkmate (w_game (openingWorld posC)) = Ret true
  /\ turn (w_game (openingWorld posC)) <> White
  /\ fst (evaluateTerminalState White 1000 (Some freshContext) (openingWorld posC))
     = Val (@ofZ QNum 0)
  /\ in_checkmate (fresh (initialPos White) : @game openingLib) = Ret false
  /\ (@ofZ QNum 0
      < @evaluateForPerspective QNum openingLib (fresh (initialPos White)) White
          (Some freshContext))%Q.
Proof.
  split; [reflexivity |]. split; [discriminate |]. split; [reflexivity |].
  split; [reflexivity |]. vm_compute. reflexivity.
Qed.

Lemma static_evaluation_bounded_run :
  (- 890 < @evaluatePosition QNum openingLib (fresh (initialPos White)) (Some freshContext)
   < 890)%Q.
Proof. apply (@static_evaluation_bounded openingLib _ _ initial_standard). Defined.

(** A third quiet move at a ply that already holds two killer moves
    pushes the older one out. *)
Lemma killer_moves_at_most_two_run :
  exists sm',
    recordKillerMove (Some twoKillers) 0 moveED = Some sm'
    /\ killerMoves sm' !! 0 = Some ["e1-e2-"; "a1-a2-"]
    /\ forall p l, killerMoves sm' !! p = Some l -> (length l <= 2)%nat.
Proof.
  destruct (recordKillerMove (Some twoKillers) 0 moveED) as [sm' |] eqn:E;
    [| discriminate E].
  exists sm'. split; [reflexivity |]. split.
  - vm_compute in E. injection E as <-. vm_compute. reflexivity.
  - apply (killer_moves_at_most_two twoKillers sm' 0 moveED); [| exact E].
    intros p l H. cbn [twoKillers killerMoves] in H.
    apply lookup_singleton_Some in H. destruct H as [_ <-]. cbn [length]. lia.
Defined.

(** *** Runs of the search tables, the move orderer and the sessions *)

(** The scripted library applies every move it lists and its undo takes
    the move back. *)
Lemma answers_own m : answers (moveArgOf m) m = true.
Proof.
  unfold answers, moveArgOf. cbn [a_from a_to a_promotion].
  rewrite !String.eqb_refl. destruct (m_promotion m) as [t |]; [| reflexivity].
  cbn [option_map andb]. apply String.eqb_refl.
Qed.

Lemma scripted_undoReverts book : @undoReverts (scriptedLib book).
Proof.
  intros g legal m Hlegal Hin. unfold takenBack.
  cbn [moves move undo scriptedLib] in *. unfold guarded in Hlegal.
  destruct (pos_broken (now g)); [discriminate |]. injection Hlegal as <-.
  unfold scriptedMove.
  destruct (find (fun mp => answers (moveArgOf m) (fst mp)) (pos_moves (now g)))
    as [[m' p] |] eqn:E.
  - exists m', {| now := p; past := (m', now g) :: past g |}. split; [reflexivity |].
    unfold scriptedUndo. cbn [past]. destruct g; reflexivity.
  - exfalso. apply in_map_iff in Hin as ([m0 p0] & <- & Hin).
    apply (find_none _ _ E) in Hin. cbn [fst] in Hin. rewrite answers_own in Hin. discriminate.
Qed.

(** After few moves and with few legal moves the search goes deeper than
    late in a game with many. *)
Lemma fallback_depth_bounded_and_antitone_run :
  3 <= chooseFallbackDepth 30 40
  /\ chooseFallbackDepth 30 40 <= chooseFallbackDepth 5 10
  /\ chooseFallbackDepth 5 10 <= 7.
Proof. apply (fallback_depth_bounded_and_antitone 5 30 10 40); lia. Defined.

(** The table knows the move from [A] to the stalemated [B]; the
    variation read from it is that one move. *)
Lemma principal_variation_bounded_run :
  @principalVariationFromTable QNum smallLib "A w" bestOfA 12 = Ret [moveAB]
  /\ Z.of_nat (length [moveAB]) <= Z.max 0 12.
Proof.
  assert (H : @principalVariationFromTable QNum smallLib "A w" bestOfA 12 = Ret [moveAB])
    by (vm_compute; reflexivity).
  split; [exact H |].
  exact (proj1 (@principal_variation_bounded QNum smallLib "A w" bestOfA 12) [moveAB] H).
Defined.

(** The first killer move recorded in fresh search tables. *)
Lemma killer_move_recorded_first_run :
  exists sm',
    recordKillerMove (Some (@createSearchMeta QNum)) 0 moveED = Some sm'
    /\ killerMoveScore (Some sm') 0 moveED = @ofZ QNum 3.
Proof.
  destruct (proj1 (@killer_move_recorded_first QNum createSearchMeta 0 moveED)
              eq_refl eq_refl) as (sm' & H1 & H2 & _).
  exists sm'. split; assumption.
Defined.

(** A cut at depth 3 adds 9 to the stored value of the move. *)
Lemma history_update_raises_score_run :
  exists sm',
    updateHistoryScore (Some (@createSearchMeta QNum)) moveED 3 = Some sm'
    /\ storedHistory sm' moveED = (storedHistory createSearchMeta moveED + inject_Z (3 * 3))%Q.
Proof.
  destruct (proj1 (history_update_raises_score createSearchMeta moveED 3) eq_refl)
    as (sm' & H1 & H2 & _).
  exists sm'. split; assumption.
Defined.

(** The one legal move of position [A] is what the orderer returns, and
    the position is [A] again afterwards. *)
Lemma ordered_moves_rearrange_run :
  Permutation [moveAB] (List.filter (ranked false) [moveAB])
  /\ w_table (snd (@orderedMoves QNum smallLib None None 0 false (worldAt posA))) = ∅.
Proof.
  pose (r := @orderedMoves QNum smallLib None None 0 false (worldAt posA)).
  assert (Hrun : r = (Val [moveAB], snd r)) by (vm_compute; reflexivity).
  destruct (@ordered_moves_rearrange QNum smallLib None None 0 false (worldAt posA) (snd r)
              [moveAB] [moveAB] eq_refl Hrun) as (Hperm & Htable & _).
  split; [exact Hperm | exact Htable].
Defined.

(** A quiescence search of position [A] inside the window from -1 to 1. *)
Lemma quiescence_stays_in_window_run :
  exists v,
    fst (@quiescence QNum smallLib 8 unhurried (@Fin QNum (-1)%Q) (@Fin QNum 1%Q) White 0 None 6 (worldAt posA))
    = Val v
    /\ eleb v (@Fin QNum 1%Q) = true /\ eleb (@Fin QNum (-1)%Q) v = true.
Proof.
  pose (r := @quiescence QNum smallLib 8 unhurried (@Fin QNum (-1)%Q) (@Fin QNum 1%Q) White 0 None 6
               (worldAt posA)).
  destruct (fst r) as [v | e |] eqn:Hv; [| vm_compute in Hv; discriminate Hv
                                         | vm_compute in Hv; discriminate Hv].
  assert (Hrun : r = (Val v, snd r)) by (rewrite <- Hv; destruct r; reflexivity).
  exists v. split; [exact Hv |].
  destruct (@quiescence_stays_in_window smallLib 8 unhurried (@Fin QNum (-1)%Q) (@Fin QNum 1%Q) White 0 None 6
              (worldAt posA) (worldAt posA) (snd r) v eq_refl eq_refl Hrun) as [H1 H2].
  split; [exact H1 | apply H2; reflexivity].
Defined.

(** A search of depth 2 from position [A] ends on position [A]. *)
Lemma search_restores_position_run :
  w_game (snd (@negamax QNum smallLib 4 unhurried 2 NInf PInf White 0 None (worldAt posA)))
  = w_game (worldAt posA).
Proof.
  pose (r := @negamax QNum smallLib 4 unhurried 2 NInf PInf White 0 None (worldAt posA)).
  assert (Hrun : r = (Val (@Fin QNum (- 0)%Q), snd r)) by (vm_compute; reflexivity).
  exact (proj1 (@search_restores_position QNum smallLib (scripted_undoReverts smallBook)
                  4 unhurried 2 NInf PInf White 0 None 6 (worldAt posA) (snd r) _) Hrun).
Defined.


(** The lookahead behind the move from [A] to [B] finds nothing to
    punish. *)
Lemma lookahead_penalty_not_negative_run :
  exists penalty checkBonus,
    fst (@evaluateMoveConsequences QNum smallLib moveAB (worldAt posA)) = Val (penalty, checkBonus)
    /\ (0 <= penalty)%Q.
Proof.
  pose (r := @evaluateMoveConsequences QNum smallLib moveAB (worldAt posA)).
  assert (Hrun : r = (Val (0%Q, 0%Q), snd r)) by (vm_compute; reflexivity).
  exists 0%Q, 0%Q. split; [reflexivity |].
  exact (proj1 (@lookahead_penalty_not_negative smallLib moveAB (worldAt posA) (snd r) 0%Q 0%Q
                  Hrun)).
Defined.

(** The table holds an upper bound of 5 for position [A] at depth 3; a
    search of depth 2 whose [alpha] is 7 answers 5 at once. *)
Lemma table_hit_returns_stored_value_run :
  fst (@negamax QNum smallLib 1 unhurried 2 (@Fin QNum 7%Q) PInf White 0 None worldWithDeeperEntry)
  = Val (@Fin QNum 5%Q).
Proof.
  destruct (@table_hit_returns_stored_value smallLib 0 unhurried 2 (@Fin QNum 7%Q) PInf White 0 None
              worldWithDeeperEntry worldWithDeeperEntry
              {| e_depth := 3; e_value := @Fin QNum 5%Q; e_flag := Upper; e_best := None |}
              eq_refl eq_refl eq_refl ltac:(cbn; lia) eq_refl) as (w' & Hrun & _).
  rewrite Hrun. reflexivity.
Defined.

(** The twenty opening moves have distinct keys; the orderer returns
    them best first. *)
Lemma ordered_moves_best_first_run :
  exists sorted,
    fst (@orderedMoves QNum openingLib (Some freshContext) None 0 false
           (openingWorld (initialPos White))) = Val sorted
    /\ descendingBy
         (lookupOrderingScore
            (w_meta (snd (@orderedMoves QNum openingLib (Some freshContext) None 0 false
                            (openingWorld (initialPos White))))) 0)
         sorted.
Proof.
  pose (run := @orderedMoves QNum openingLib (Some freshContext) None 0 false
                 (openingWorld (initialPos White))).
  destruct (fst run) as [sorted | e |] eqn:Hr; [| vm_compute in Hr; discriminate Hr
                                                | vm_compute in Hr; discriminate Hr].
  assert (Hrun : run = (Val sorted, snd run)) by (rewrite <- Hr; destruct run; reflexivity).
  exists sorted. split; [exact Hr |].
  assert (Hnd : NoDup (map (@moveKey) (map fst (openingMoves White))))
    by (apply (bool_decide_unpack _); vm_compute; exact I).
  exact (proj1 (@ordered_moves_best_first openingLib (Some freshContext) None 0 false
                  (openingWorld (initialPos White)) (snd run) createSearchMeta
                  (map fst (openingMoves White)) sorted eq_refl Hnd eq_refl Hrun)).
Defined.

(** A handler registered twice on a new session hears the info line
    once, not the message without text, and nothing after one removal. *)
Lemma handler_hears_lines_until_removed_run :
  heardBy 7 (performAll (onMessage 7 newEngine) (AddsHandler 7 :: infoThenNothing))
  = ["info depth 1 pv e2e4"]
  /\ heardBy 7
       (performAll
          (removeListener 7
             (performAll (onMessage 7 newEngine) (AddsHandler 7 :: infoThenNothing)))
          infoThenNothing)
     = ["info depth 1 pv e2e4"].
Proof.
  destruct (handler_hears_lines_until_removed newEngine 7 (AddsHandler 7 :: infoThenNothing)
              infoThenNothing) as (H1 & H2 & _).
  - constructor.
  - intros [H | [H | [H | [H | []]]]]; discriminate H.
  - intros [H | [H | [H | []]]]; discriminate H.
  - split; [exact H1 |]. rewrite H2. exact H1.
Defined.

(** The move from [A] to [B] and a second move that [B] refuses. *)
Lemma pv_san_sequence_agrees_with_uciToSan_run :
  @pvToSanSequence smallLib "A w" ["a1a2"; "h7h8"] = ["Ka2"]
  /\ @uciToSan smallLib "A w" (Some "a1a2") = Ret (Some "Ka2").
Proof.
  destruct (proj2 (@pv_san_sequence_agrees_with_uciToSan smallLib "A w" "a1a2" ["h7h8"]
                     ltac:(discriminate))) as [H | [[H _] | (san & tail & H & Hsan)]].
  - vm_compute in H. discriminate H.
  - vm_compute in H. discriminate H.
  - split; [vm_compute; reflexivity |]. vm_compute in H. injection H as <- _. exact Hsan.
Defined.

(** The engine answers [bestmove a1a2] and then [readyok]: the call
    returns that move with its SAN. *)
Lemma bestmove_reply_is_reported_run :
  exists analysis,
    fst (deliver
           (deliver (start (@finishAnalysis smallLib (fun _ _ => []) "engine" "A w" 12 7)
                       newEngine)
              (Message (PText "bestmove a1a2")))
           (Message (PText "readyok")))
    = Finished (Ret (Some analysis))
    /\ an_best analysis = Some (Some "Ka2", "a1a2").
Proof.
  assert (Hbm : isBestMove (payloadLine (PText "bestmove a1a2")) = Ret true)
    by (vm_compute; reflexivity).
  assert (Hok : isReadyOk (payloadLine (PText "readyok")) = Ret true)
    by (vm_compute; reflexivity).
  destruct (@bestmove_reply_is_reported smallLib (fun _ _ => []) "engine" "A w" 12 7 newEngine []
              (PText "bestmove a1a2") idsBelowCounter_new (List.Forall_nil _)
              ltac:(discriminate) Hbm)
    as (k2 & next2 & _ & _ & _ & _ & Hfin).
  assert (Hev : Message (PText "readyok") = Timer k2
                \/ exists ready, Message (PText "readyok") = Message ready
                                 /\ payloadLine ready <> ""
                                 /\ isReadyOk (payloadLine ready) = Ret true).
  { right. exists (PText "readyok"). split; [reflexivity |]. split; [discriminate | exact Hok]. }
  destruct (Hfin [] (Message (PText "readyok")) (List.Forall_nil _) Hev)
    as (analysis & Hrun & _ & _ & _ & _ & Hbest).
  exists analysis. split; [exact Hrun |].
  match type of Hbest with
  | ?P -> _ => assert (Hvalid : P) by (vm_compute; reflexivity)
  end.
  destruct (Hbest Hvalid) as (san & Hsan & Hb).
  vm_compute in Hsan. injection Hsan as <-. exact Hb.
Defined.

(** Options the engine must refuse leave its settings alone, and the
    search that follows has time to run. *)
Lemma builtin_engine_settings_stay_valid_run :
  validSettings (fst (@workerRun QNum smallLib plainScore 12 oddSession smallWorker))
  /\ (0 < @effectiveMoveTime QNum
            (wk_defaultMoveTime (fst (@workerRun QNum smallLib plainScore 12 oddSession
                                        smallWorker)))
            (parseGo ["go"; "wtime"; "600"]) "w")%Q.
Proof.
  apply (@builtin_engine_settings_stay_valid smallLib plainScore 12 oddSession smallWorker).
  unfold validSettings, smallWorker. cbn. lia.
Defined.

(** A search of depth 2 from position [A] ends with the move to [B]. *)
Lemma builtin_search_answers_bestmove_run :
  exists infos,
    rp_sent (@startSearch QNum smallLib plainScore 12 (fun _ => 0%Q)
               (parseGo ["go"; "depth"; "2"]) smallWorker)
    = (infos ++ ["bestmove a1a2"])%list.
Proof.
  destruct (@builtin_search_answers_bestmove QNum smallLib plainScore
              (scripted_undoReverts smallBook) 12 (fun _ => 0%Q)
              (parseGo ["go"; "depth"; "2"]) smallWorker (fresh posA) [moveAB]
              eq_refl eq_refl ltac:(vm_compute; reflexivity))
    as (infos & best & Hsent & _ & _ & _ & _ & _).
  exists infos. rewrite Hsent. f_equal. f_equal.
  assert (Hlast : last (rp_sent (@startSearch QNum smallLib plainScore 12 (fun _ => 0%Q)
                                   (parseGo ["go"; "depth"; "2"]) smallWorker))
                  = Some "bestmove a1a2") by (vm_compute; reflexivity).
  rewrite Hsent, last_snoc in Hlast. now injection Hlast.
Defined.

(** The token [Ka2+] in the position [A], whose only move the library
    knows as [Ka2]: the text as written is refused and the text without
    its check mark accepted. *)
Lemma token_applied_as_written_first_run :
  exists oc g',
    @applyToken smallLib (scriptedSloppy smallBook) (fresh posA) (parseTokenHints "Ka2+")
    = Ret (Some (oc, g'))
    /\ oc_inferred oc = false
    /\ In (oc_matched oc) (collectAttemptStrings (parseTokenHints "Ka2+"))
    /\ @moveSloppy smallLib (scriptedSloppy smallBook) (fresh posA) (oc_matched oc)
       = Ret (Some (oc_move oc, g')).
Proof.
  destruct (@applyToken smallLib (scriptedSloppy smallBook) (fresh posA)
              (parseTokenHints "Ka2+")) as [[[oc g'] |] | err] eqn:Hrun;
    [| vm_compute in Hrun; discriminate | vm_compute in Hrun; discriminate].
  exists oc, g'. split; [reflexivity |].
  assert (Hinf : oc_inferred oc = false).
  { pose proof Hrun as Hc. vm_compute in Hc. injection Hc as <- _. reflexivity. }
  split; [exact Hinf |].
  exact (proj1 (proj1 (@token_applied_as_written_first smallLib (scriptedSloppy smallBook)
                         (fresh posA) (parseTokenHints "Ka2+")) oc g' Hrun) Hinf).
Defined.

(** A list of two tokens, the second of which says nothing. *)
Lemma rebuild_accounts_for_every_token_run :
  exists final applied ignored,
    @rebuildGameFromTokens smallLib (scriptedSloppy smallBook)
      (map parseTokenHints ["Ka2"; "??"]) = Ret (final, applied, ignored)
    /\ (length applied + length ignored = 2)%nat
    /\ Forall (fun text => text <> "") ignored.
Proof.
  destruct (@rebuildGameFromTokens smallLib (scriptedSloppy smallBook)
              (map parseTokenHints ["Ka2"; "??"])) as [[[final applied] ignored] | err] eqn:Hrun;
    [| vm_compute in Hrun; discriminate].
  exists final, applied, ignored. split; [reflexivity |].
  destruct (@rebuild_accounts_for_every_token smallLib (scriptedSloppy smallBook)
              _ _ _ _ Hrun) as (Hlen & Hne & _).
  split; [exact Hlen | exact Hne].
Defined.

(** The spellings of [Ka2+]. *)
Lemma attempt_strings_distinct_run :
  NoDup (collectAttemptStrings (parseTokenHints "Ka2+"))
  /\ head (collectAttemptStrings (parseTokenHints "Ka2+")) = Some "Ka2+".
Proof.
  destruct (attempt_strings_distinct (parseTokenHints "Ka2+")) as (Hnd & _ & _ & Hhead).
  split; [exact Hnd |]. apply Hhead. discriminate.
Defined.

(** The token [Nbxd7+]. *)
Lemma piece_move_hints_recovered_run :
  parseTokenHints "Nbxd7+" = pieceMoveHints "N" "b" "" true "d" "7" "+".
Proof.
  apply (piece_move_hints_recovered "N" "b" "" true "d" "7" "+"); cbn; auto 20.
Defined.

(** The push [b4] and the capture [exd5]. *)
Lemma pawn_move_hints_run :
  ti_piece (parseTokenHints "b4") = Some "b" /\ ti_target (parseTokenHints "b4") = None
  /\ ti_piece (parseTokenHints "exd5") = None
  /\ ti_target (parseTokenHints "exd5") = Some "d5".
Proof.
  assert (Hpush : parseTokenHints "b4" = pawnMoveHints "" "b" "4" "" "").
  { apply (pawn_move_hints "" "b" "4" "" ""); cbn; auto 20. }
  assert (Hcapture : parseTokenHints "exd5" = pawnMoveHints "e" "d" "5" "" "").
  { apply (pawn_move_hints "e" "d" "5" "" ""); cbn; auto 20. }
  rewrite Hpush, Hcapture. repeat split.
Defined.

(** [Qh5+!] and [Qh5]. *)
Lemma canonical_san_ignores_marks_run : canonicalSan "Qh5+!" = canonicalSan "Qh5".
Proof. apply (proj2 (canonical_san_ignores_marks "Qh5" "+!")). reflexivity. Defined.

(** The token [Ka2!] and the move [Ka2]. *)
Lemma same_move_up_to_marks_weighs_most_run :
  baseWeight (parseTokenHints "Ka2!") moveAB = 100.
Proof.
  apply (same_move_up_to_marks_weighs_most (parseTokenHints "Ka2!") moveAB "Ka2" "!" "");
    try reflexivity.
  vm_compute. discriminate.
Defined.

(** The candidates for the token [a2] in the position [A]. *)
Lemma candidates_heaviest_first_run :
  exists candidates,
    @buildCandidateList smallLib (fresh posA) (parseTokenHints "a2") = Ret candidates
    /\ sortedBy compareCandidates candidates
    /\ Permutation (map cd_move candidates) [moveAB].
Proof.
  destruct (@buildCandidateList smallLib (fresh posA) (parseTokenHints "a2"))
    as [candidates | err] eqn:Hrun; [| vm_compute in Hrun; discriminate].
  exists candidates. split; [reflexivity |].
  destruct (@candidates_heaviest_first smallLib (fresh posA) (parseTokenHints "a2")
              [moveAB] candidates eq_refl Hrun) as (Hsorted & _ & _ & Hperm).
  split; [exact Hsorted |]. apply Hperm. discriminate.
Defined.

(** The move list [Ka2] from the first position of the book. *)
Lemma accepted_move_list_is_replayed_run :
  exists final applied,
    @rebuildGameFromTokens smallLib (scriptedSloppy smallBook) (map parseTokenHints ["Ka2"])
    = Ret (final, applied, [])
    /\ map oc_move applied = [moveAB]
    /\ map oc_matched applied = ["Ka2"].
Proof.
  assert (Hacc : @Accepted smallLib (scriptedSloppy smallBook) (fresh posA) ["Ka2"] [moveAB]
                   {| now := posB; past := [(moveAB, posA)] |}).
  { eapply accepted_next; [discriminate | reflexivity | apply accepted_none]. }
  destruct (@accepted_move_list_is_replayed smallLib (scriptedSloppy smallBook) ["Ka2"]
              (fresh posA) _ [moveAB] eq_refl Hacc) as (applied & Hrun & Hmoves & Hmatched & _).
  eexists _, applied. split; [exact Hrun |]. split; [exact Hmoves | exact Hmatched].
Defined.

(** The handshake with an engine that answers as the built-in one does:
    two lines of identification before [uciok], then [readyok]. *)
Lemma init_handshake_run :
  fst (deliverAll (start (init false) newEngine)
         (map (fun line => Message (PText line))
            ["id name ChessHelper Built-in Engine"; "id author SanFen Helper"; "uciok";
             "readyok"]))
  = Finished (Ret true).
Proof.
  assert (Hq1 : Forall (fun ev => quiet (en_next newEngine) isUciOk (Occurs ev))
                  [Message (PText "id name ChessHelper Built-in Engine");
                   Message (PText "id author SanFen Helper")]).
  { constructor; [right; vm_compute; discriminate |].
    constructor; [right; vm_compute; discriminate | constructor]. }
  assert (Hok1 : isUciOk (payloadLine (PText "uciok")) = Ret true) by (vm_compute; reflexivity).
  assert (Hok2 : isReadyOk (payloadLine (PText "readyok")) = Ret true)
    by (vm_compute; reflexivity).
  destruct (init_handshake newEngine _ [] (PText "uciok") (PText "readyok")
              idsBelowCounter_new Hq1 ltac:(discriminate) Hok1)
    as (_ & _ & _ & _ & k2 & next2 & _ & _ & Hrest).
  destruct (Hrest (List.Forall_nil _)) as (_ & Hdone).
  exact (proj1 (Hdone ltac:(discriminate) Hok2)).
Defined.

(** Four bytes, encoded and broken over two lines. *)
Lemma base64_size_estimate_exact_run :
  estimateBase64DecodedSize (Some (String "T" (String "W" (String "F" (String "u"
    (String (ascii_of_nat 10) "TQ=="))))))
  = 4.
Proof.
  apply (base64_size_estimate_exact
           (String "T" (String "W" (String "F" (String "u" (String (ascii_of_nat 10) "TQ==")))))
           "ManM").
  vm_compute. reflexivity.
Defined.
